(** * Module-format parser, linter and source-block indexer

    A shallow embedding of [module-preview/src/lc_parser.ts] (the module
    parser [parseModuleFile] and the diagnostics linter [lintModuleText])
    and of [module-preview/src/source_index.ts] ([buildActivityRawIndex]),
    together with the grammar registry of [spec_from_ebnf.ts].

    JavaScript strings are sequences of UTF-16 code units; they are
    modelled as lists of code units ([N]).  JavaScript objects used as
    dictionaries are finite maps ([gmap]) keyed by strings. *)

From Stdlib Require Import ZArith NArith String Ascii List Bool Lia.
From Stdlib Require Import DecimalString.
From stdpp Require Import base option list sorting gmap.

Local Open Scope N_scope.

(** ** JavaScript strings *)

Abbreviation jsstring := (list N).

(** A string literal of the source, as the list of its code units. *)
Definition str (s : string) : jsstring :=
  map N_of_ascii (list_ascii_of_string s).
Arguments str s%_string.

(** The double-quote character, used inside diagnostic messages. *)
Definition dquote : jsstring := [34].

Definition streq (a b : jsstring) : bool := bool_decide (a = b).

(** [WhiteSpace] and [LineTerminator] code points of ECMAScript: the set
    stripped by [String.prototype.trim] and matched by [\s]. *)
Definition isSpace (c : N) : bool :=
  (c =? 9) || (c =? 10) || (c =? 11) || (c =? 12) || (c =? 13) || (c =? 32)
  || (c =? 160) || (c =? 5760) || ((8192 <=? c) && (c <=? 8202))
  || (c =? 8232) || (c =? 8233) || (c =? 8239) || (c =? 8287)
  || (c =? 12288) || (c =? 65279).

(** The characters the regular-expression dot does not match. *)
Definition isLineTerminator (c : N) : bool :=
  (c =? 10) || (c =? 13) || (c =? 8232) || (c =? 8233).

Definition isUpper (c : N) : bool := (65 <=? c) && (c <=? 90).
Definition isLower (c : N) : bool := (97 <=? c) && (c <=? 122).
Definition isDigit (c : N) : bool := (48 <=? c) && (c <=? 57).

(** [\w] *)
Definition isWord (c : N) : bool :=
  isUpper c || isLower c || isDigit c || (c =? 95).

(** [[A-Z_]] *)
Definition isFieldChar (c : N) : bool := isUpper c || (c =? 95).

Definition PIPE : N := 124.
Definition DOLLAR : N := 36.
Definition COLON : N := 58.
Definition HASH : N := 35.
Definition EQUALS : N := 61.
Definition DASH : N := 45.
Definition NEWLINE : N := 10.

Fixpoint dropWhile (p : N -> bool) (s : jsstring) : jsstring :=
  match s with
  | [] => []
  | c :: s' => if p c then dropWhile p s' else s
  end.

Fixpoint takeWhile (p : N -> bool) (s : jsstring) : jsstring :=
  match s with
  | [] => []
  | c :: s' => if p c then c :: takeWhile p s' else []
  end.

Definition trimStart (s : jsstring) : jsstring := dropWhile isSpace s.
Definition trimEnd (s : jsstring) : jsstring := rev (dropWhile isSpace (rev s)).
Definition trim (s : jsstring) : jsstring := trimEnd (trimStart s).

Fixpoint startsWith (s p : jsstring) {struct p} : bool :=
  match p, s with
  | [], _ => true
  | a :: p', c :: s' => (c =? a) && startsWith s' p'
  | _ :: _, [] => false
  end.

(** [s.slice(n)] for a non-negative [n]. *)
Definition slice (n : nat) (s : jsstring) : jsstring := drop n s.

(** [s.split(sep)] for a one-character separator. *)
Fixpoint splitOn (sep : N) (s : jsstring) : list jsstring :=
  match s with
  | [] => [[]]
  | c :: s' =>
      if c =? sep then [] :: splitOn sep s'
      else match splitOn sep s' with
           | cur :: rest => (c :: cur) :: rest
           | [] => [[c]]
           end
  end.

(** [parts.join(sep)] *)
Fixpoint join (sep : jsstring) (parts : list jsstring) : jsstring :=
  match parts with
  | [] => []
  | [p] => p
  | p :: rest => p ++ sep ++ join sep rest
  end.

(** Decimal rendering of a number inside a template string. *)
Definition numToString (z : Z) : jsstring :=
  str (NilZero.string_of_int (Z.to_int z)).

(** Truthiness of a value of type [string | undefined]. *)
Definition truthy (o : option jsstring) : bool :=
  match o with
  | Some (_ :: _) => true
  | _ => false
  end.

(** [o || d] with a string default. *)
Definition orStr (o : option jsstring) (d : jsstring) : jsstring :=
  match o with
  | Some (c :: s) => c :: s
  | _ => d
  end.

(** [o || null] *)
Definition orNull (o : option jsstring) : option jsstring :=
  if truthy o then o else None.

(** [o ? o.trim() : null] *)
Definition trimOrNull (o : option jsstring) : option jsstring :=
  if truthy o then trim <$> o else None.

(** ** Lower-casing

    [String.prototype.toLowerCase] follows the Unicode case tables, which
    are not reproduced here.  The development is parametric in the
    function; the only law it relies on is its behaviour on ASCII. *)

Definition asciiLower (c : N) : N := if isUpper c then c + 32 else c.

Class UnicodeCase := {
  toLowerCase : jsstring -> jsstring;
  toLowerCase_ascii :
    forall s, Forall (fun c => c < 128) s -> toLowerCase s = map asciiLower s
}.

(** The instance that lower-cases ASCII letters only; it agrees with every
    other instance on ASCII text and is used to run concrete inputs. *)
#[export] Instance asciiCase : UnicodeCase :=
  {| toLowerCase := map asciiLower;
     toLowerCase_ascii := fun s _ => eq_refl |}.

(** ** Regular expressions of the source

    Each matcher below implements one regular expression of the source as
    a function; the expression is quoted in its comment with its tokens
    spaced out, and with the line of [lc_parser.ts] it first occurs on. *)

(** Field lines, [^ ([A-Z_]+) : \s* (.* )? $] (line 194): a maximal run of field characters, a
    colon, skipped white space, and the rest of the line, which must not
    contain a line terminator.  The second group is [undefined] when it
    would be empty. *)
Definition fieldMatch (s : jsstring) : option (jsstring * option jsstring) :=
  let name := takeWhile isFieldChar s in
  match name, dropWhile isFieldChar s with
  | _ :: _, c :: rest =>
      if c =? COLON then
        let v := dropWhile isSpace rest in
        if forallb (fun c => negb (isLineTerminator c)) v
        then Some (name, match v with [] => None | _ => Some v end)
        else None
      else None
  | _, _ => None
  end.

(** The test [^ [A-Z_]+ :] of the linter (line 950). *)
Definition fieldPrefixTest (t : jsstring) : bool :=
  match takeWhile isFieldChar t, dropWhile isFieldChar t with
  | _ :: _, c :: _ => c =? COLON
  | _, _ => false
  end.

(** Section markers, [^ \$ (\w+) (?: \s+ (.* ))? $] (line 208): the sigil, a maximal run of word
    characters, then either the end of the string or white space followed
    by a title free of line terminators. *)
Definition markerMatch (s : jsstring) : option (jsstring * option jsstring) :=
  match s with
  | c :: s1 =>
      if c =? DOLLAR then
        let w := takeWhile isWord s1 in
        match w, dropWhile isWord s1 with
        | _ :: _, [] => Some (w, None)
        | _ :: _, d :: rest =>
            if isSpace d then
              let t := dropWhile isSpace rest in
              if forallb (fun c => negb (isLineTerminator c)) t
              then Some (w, Some t) else None
            else None
        | [], _ => None
        end
      else None
  | [] => None
  end.

(** The test [^ \$ (LESSON|DIALOGUE|EXERCISE|GRAMMAR|CHAT) \s* :] (line 964). *)
Definition markerColonTest (s : jsstring) : bool :=
  existsb
    (fun m =>
       startsWith s (DOLLAR :: m)
       && match dropWhile isSpace (drop (S (length m)) s) with
          | c :: _ => c =? COLON
          | [] => false
          end)
    [str "LESSON"; str "DIALOGUE"; str "EXERCISE"; str "GRAMMAR"; str "CHAT"].

(** The tail [(?: \s* \| \s* (.* ))? $] shared by the voice expressions, run
    on what follows a maximal run of non-pipe characters: either nothing,
    or a pipe, skipped white space and a prompt free of line terminators. *)
Definition pipeTail (rest : jsstring) : option (option jsstring) :=
  match rest with
  | [] => Some None
  | _ :: r =>
      let p := dropWhile isSpace r in
      if forallb (fun c => negb (isLineTerminator c)) p then Some (Some p)
      else None
  end.

Definition notPipe (c : N) : bool := negb (c =? PIPE).

(** Single-voice values, [^ ([^|]+) (?: \s* \| \s* (.* ))? $] (line 277). *)
Definition voiceMatch (s : jsstring) : option (jsstring * option jsstring) :=
  match takeWhile notPipe s with
  | [] => None
  | v => match pipeTail (dropWhile notPipe s) with
         | Some p => Some (v, p)
         | None => None
         end
  end.

(** What must follow the lazily matched label of the speaker expression:
    [\s* = \s* ([^|]+) (?: \s* \| \s* (.* ))? $].  The voice group is the run of
    non-pipe characters after the equals sign with its leading white
    space removed; when the run is white space only, the group is its last
    character. *)
Definition speakerTail (s : jsstring) : option (jsstring * option jsstring) :=
  match dropWhile isSpace s with
  | c :: r =>
      if c =? EQUALS then
        let run := takeWhile notPipe r in
        match run with
        | [] => None
        | _ =>
            match pipeTail (dropWhile notPipe r) with
            | Some p =>
                let v := match dropWhile isSpace run with
                         | [] => drop (length run - 1) run
                         | v => v
                         end in
                Some (v, p)
            | None => None
            end
        end
      else None
  | [] => None
  end.

(** Speaker mappings, [^ (.+?) \s* = \s* ([^|]+) (?: \s* \| \s* (.* ))? $]
    (line 320): the label is the
    shortest non-empty prefix, free of line terminators, after which
    [speakerTail] succeeds. *)
Fixpoint speakerMatchFrom (label s : jsstring)
  : option (jsstring * jsstring * option jsstring) :=
  match s with
  | [] => None
  | c :: rest =>
      if isLineTerminator c then None
      else
        let label' := label ++ [c] in
        match speakerTail rest with
        | Some (v, p) => Some (label', v, p)
        | None => speakerMatchFrom label' rest
        end
  end.

Definition speakerMatch (s : jsstring)
  : option (jsstring * jsstring * option jsstring) :=
  speakerMatchFrom [] s.

(** The test [^ [A-Za-z] [A-Za-z0-9_]* $] (line 855). *)
Definition idNoSpacesRe (s : jsstring) : bool :=
  match s with
  | c :: rest => (isUpper c || isLower c) && forallb isWord rest
  | [] => false
  end.

(** Every match of [[^a-z0-9]+] replaced by a dash. *)
Definition isSlugChar (c : N) : bool := isLower c || isDigit c.

Fixpoint replaceNonSlug (inRun : bool) (s : jsstring) : jsstring :=
  match s with
  | [] => []
  | c :: s' =>
      if isSlugChar c then c :: replaceNonSlug false s'
      else if inRun then replaceNonSlug true s'
      else DASH :: replaceNonSlug true s'
  end.

(** Every match of [^- | -$] removed. *)
Definition stripDashes (s : jsstring) : jsstring :=
  let s1 := match s with
            | c :: s' => if c =? DASH then s' else s
            | [] => []
            end in
  match rev s1 with
  | c :: r => if c =? DASH then rev r else s1
  | [] => []
  end.

(** ** Data model ([lc_types.ts]) *)

Record VoiceSpec := {
  voice : jsstring;
  prompt : option jsstring;
  (** absent, [null], or a label *)
  displayName : option (option jsstring)
}.

Record ModuleVoiceConfig := {
  vc_default : option VoiceSpec;
  vc_prompt : option VoiceSpec;
  vc_response : option VoiceSpec;
  vc_introVoice : option VoiceSpec;
  vc_speakers : gmap jsstring VoiceSpec
}.

Record VocabEntry := { word : jsstring; definition : jsstring }.

(** The two backend-populated fields of a line ([nlp], [ttsDataURL]) are
    always [null] in parser output and are not represented. *)
Record DialogueLine := {
  dl_speaker : option jsstring;
  dl_text : jsstring;
  dl_translation : jsstring;
  dl_notes : option jsstring;
  dl_vocab : option (list VocabEntry)
}.

(** Likewise for the four backend-populated fields of an item. *)
Record ExerciseItem := {
  ei_prompt : jsstring;
  ei_promptTranslation : option jsstring;
  ei_response : jsstring;
  ei_responseTranslation : option jsstring;
  ei_isExample : bool
}.

Inductive ActivityType := DIALOGUE | GRAMMAR | EXERCISE | CHAT.

#[export] Instance ActivityType_eq_dec : EqDecision ActivityType.
Proof. solve_decision. Defined.

Definition typeName (t : ActivityType) : jsstring :=
  match t with
  | DIALOGUE => str "DIALOGUE"
  | GRAMMAR => str "GRAMMAR"
  | EXERCISE => str "EXERCISE"
  | CHAT => str "CHAT"
  end.

(** The kind-specific part of the tagged union [Activity]. *)
Inductive ActivityPayload :=
| DialoguePayload (instruction ttsPrompt : option jsstring)
                  (lines : list DialogueLine)
| GrammarPayload (content : jsstring)
| ExercisePayload (instruction ttsPrompt : option jsstring)
                  (items : list ExerciseItem)
| ChatPayload (scenario initialPrompt : jsstring).

Record Activity := {
  act_id : jsstring;
  act_title : jsstring;
  act_intro : option jsstring;
  act_payload : ActivityPayload
}.

Definition act_type (a : Activity) : ActivityType :=
  match act_payload a with
  | DialoguePayload _ _ _ => DIALOGUE
  | GrammarPayload _ => GRAMMAR
  | ExercisePayload _ _ _ => EXERCISE
  | ChatPayload _ _ => CHAT
  end.

Record LessonContent := {
  lesson_id : jsstring;
  lesson_title : jsstring;
  activities : list Activity
}.

(** [Partial<Module>]: the header accumulator of the parser. *)
Record PartialModule := {
  pm_diocoDocId : option jsstring;
  pm_title : option jsstring;
  pm_description : option jsstring;
  pm_image : option jsstring;
  pm_targetLang_G : option jsstring;
  pm_homeLang_G : option jsstring;
  pm_ttsPrompt : option jsstring;
  pm_lessons : list LessonContent
}.

(** The parsed [Module]. *)
Record LcModule := {
  diocoDocId : jsstring;
  title : jsstring;
  description : option jsstring;
  image : option jsstring;
  targetLang_G : jsstring;
  homeLang_G : jsstring;
  voiceConfig : ModuleVoiceConfig;
  ttsPrompt : option jsstring;
  lessons : list LessonContent
}.

(** ** Content parsers *)

(** *** Dialogue lines ([parseDialogueLines]) *)

(** [Partial<DialogueLine>] *)
Record PartialLine := {
  pl_speaker : option jsstring;
  pl_text : option jsstring;
  pl_translation : option jsstring;
  pl_notes : option jsstring;
  pl_vocab : option (list VocabEntry)
}.

Definition emptyLine : PartialLine :=
  {| pl_speaker := None; pl_text := None; pl_translation := None;
     pl_notes := None; pl_vocab := None |}.

(** The local variables of [parseDialogueLines]. *)
Record DialogueState := {
  ds_lines : list DialogueLine;
  currentLine : PartialLine;
  pendingVocab : list VocabEntry;
  pendingVocabDefinition : option jsstring
}.

(** The object pushed on [lines] when the in-progress line has a text. *)
Definition finishLine (l : PartialLine) : DialogueLine :=
  {| dl_speaker := orNull (pl_speaker l);
     dl_text := orStr (pl_text l) [];
     dl_translation := orStr (pl_translation l) [];
     dl_notes := orNull (pl_notes l);
     dl_vocab := pl_vocab l |}.

(** [pendingVocab[pendingVocab.length - 1].definition = d] *)
Fixpoint setLastDefinition (d : jsstring) (vs : list VocabEntry)
  : list VocabEntry :=
  match vs with
  | [] => []
  | [v] => [{| word := word v; definition := d |}]
  | v :: vs' => v :: setLastDefinition d vs'
  end.

(** [if (pendingVocab.length > 0) { currentLine.vocab = pendingVocab;
    pendingVocab = []; }] *)
Definition attachVocab (l : PartialLine) (pv : list VocabEntry)
  : PartialLine * list VocabEntry :=
  match pv with
  | [] => (l, [])
  | _ :: _ =>
      ({| pl_speaker := pl_speaker l; pl_text := pl_text l;
          pl_translation := pl_translation l; pl_notes := pl_notes l;
          pl_vocab := Some pv |}, [])
  end.

(** One iteration of the loop over the buffer. *)
Definition dialogueStep (st : DialogueState) (item : jsstring) : DialogueState :=
  let cl := currentLine st in
  if startsWith item (str "VOCAB:") then
    let w := trim (slice 6 item) in
    {| ds_lines := ds_lines st; currentLine := cl;
       pendingVocab :=
         pendingVocab st
         ++ [{| word := w; definition := orStr (pendingVocabDefinition st) [] |}];
       pendingVocabDefinition := None |}
  else if startsWith item (str "VOCAB_T:") then
    let d := trim (slice 8 item) in
    match pendingVocab st with
    | _ :: _ =>
        {| ds_lines := ds_lines st; currentLine := cl;
           pendingVocab := setLastDefinition d (pendingVocab st);
           pendingVocabDefinition := pendingVocabDefinition st |}
    | [] =>
        {| ds_lines := ds_lines st; currentLine := cl;
           pendingVocab := [];
           pendingVocabDefinition := Some d |}
    end
  else if startsWith item (str "LINE_T:") then
    {| ds_lines := ds_lines st;
       currentLine :=
         {| pl_speaker := pl_speaker cl; pl_text := pl_text cl;
            pl_translation := Some (trim (slice 7 item));
            pl_notes := pl_notes cl; pl_vocab := pl_vocab cl |};
       pendingVocab := pendingVocab st;
       pendingVocabDefinition := pendingVocabDefinition st |}
  else if startsWith item (str "NOTES:") then
    {| ds_lines := ds_lines st;
       currentLine :=
         {| pl_speaker := pl_speaker cl; pl_text := pl_text cl;
            pl_translation := pl_translation cl;
            pl_notes := Some (trim (slice 6 item)); pl_vocab := pl_vocab cl |};
       pendingVocab := pendingVocab st;
       pendingVocabDefinition := pendingVocabDefinition st |}
  else if startsWith item (str "SPEAKER:") then
    let '(ls, cl1) :=
      if truthy (pl_text cl) then (ds_lines st ++ [finishLine cl], emptyLine)
      else (ds_lines st, cl) in
    let cl2 :=
      {| pl_speaker := Some (trim (slice 8 item)); pl_text := pl_text cl1;
         pl_translation := pl_translation cl1; pl_notes := pl_notes cl1;
         pl_vocab := pl_vocab cl1 |} in
    let '(cl3, pv) := attachVocab cl2 (pendingVocab st) in
    {| ds_lines := ls; currentLine := cl3; pendingVocab := pv;
       pendingVocabDefinition := pendingVocabDefinition st |}
  else if startsWith item (str "LINE:") then
    let '(ls, cl1) :=
      if truthy (pl_text cl)
      then (ds_lines st ++ [finishLine cl],
            {| pl_speaker := pl_speaker cl; pl_text := None;
               pl_translation := None; pl_notes := None; pl_vocab := None |})
      else (ds_lines st, cl) in
    let cl2 :=
      {| pl_speaker := pl_speaker cl1; pl_text := Some (trim (slice 5 item));
         pl_translation := pl_translation cl1; pl_notes := pl_notes cl1;
         pl_vocab := pl_vocab cl1 |} in
    let '(cl3, pv) := attachVocab cl2 (pendingVocab st) in
    {| ds_lines := ls; currentLine := cl3; pendingVocab := pv;
       pendingVocabDefinition := pendingVocabDefinition st |}
  else st.

Definition dialogueInit : DialogueState :=
  {| ds_lines := []; currentLine := emptyLine; pendingVocab := [];
     pendingVocabDefinition := None |}.

(** The flush after the loop. *)
Definition dialogueFinish (st : DialogueState) : list DialogueLine :=
  if truthy (pl_text (currentLine st))
  then ds_lines st ++ [finishLine (currentLine st)]
  else ds_lines st.

Definition parseDialogueLines (buffer : list jsstring) : list DialogueLine :=
  dialogueFinish (fold_left dialogueStep buffer dialogueInit).

(** *** Grammar content ([parseGrammarContent]) *)

Definition parseGrammarContent (buffer : list jsstring) : jsstring :=
  trim (join [NEWLINE] buffer).

(** *** Exercise items ([parseExerciseItems]) *)

(** [Partial<ExerciseItem>] *)
Record PartialItem := {
  pi_prompt : option jsstring;
  pi_promptTranslation : option jsstring;
  pi_response : option jsstring;
  pi_responseTranslation : option jsstring;
  pi_isExample : option bool
}.

Definition emptyItem : PartialItem :=
  {| pi_prompt := None; pi_promptTranslation := None; pi_response := None;
     pi_responseTranslation := None; pi_isExample := None |}.

Record ExerciseState := {
  es_items : list ExerciseItem;
  currentItem : PartialItem;
  isExample : bool
}.

Definition finishItem (i : PartialItem) : ExerciseItem :=
  {| ei_prompt := orStr (pi_prompt i) [];
     ei_promptTranslation := orNull (pi_promptTranslation i);
     ei_response := orStr (pi_response i) [];
     ei_responseTranslation := orNull (pi_responseTranslation i);
     ei_isExample := default false (pi_isExample i) |}.

(** [currentItem.prompt && currentItem.response] *)
Definition itemComplete (i : PartialItem) : bool :=
  truthy (pi_prompt i) && truthy (pi_response i).

Definition exerciseStep (st : ExerciseState) (item : jsstring) : ExerciseState :=
  let ci := currentItem st in
  if startsWith item (str "EXAMPLE:") then
    {| es_items := es_items st; currentItem := ci; isExample := true |}
  else if startsWith item (str "PROMPT:") then
    {| es_items :=
         if itemComplete ci then es_items st ++ [finishItem ci]
         else es_items st;
       currentItem :=
         {| pi_prompt := Some (trim (slice 7 item));
            pi_promptTranslation := None; pi_response := None;
            pi_responseTranslation := None;
            pi_isExample := Some (isExample st) |};
       isExample := false |}
  else if startsWith item (str "PROMPT_T:") then
    {| es_items := es_items st;
       currentItem :=
         {| pi_prompt := pi_prompt ci;
            pi_promptTranslation := Some (trim (slice 9 item));
            pi_response := pi_response ci;
            pi_responseTranslation := pi_responseTranslation ci;
            pi_isExample := pi_isExample ci |};
       isExample := isExample st |}
  else if startsWith item (str "RESPONSE:") then
    {| es_items := es_items st;
       currentItem :=
         {| pi_prompt := pi_prompt ci;
            pi_promptTranslation := pi_promptTranslation ci;
            pi_response := Some (trim (slice 9 item));
            pi_responseTranslation := pi_responseTranslation ci;
            pi_isExample := pi_isExample ci |};
       isExample := isExample st |}
  else if startsWith item (str "RESPONSE_T:") then
    {| es_items := es_items st;
       currentItem :=
         {| pi_prompt := pi_prompt ci;
            pi_promptTranslation := pi_promptTranslation ci;
            pi_response := pi_response ci;
            pi_responseTranslation := Some (trim (slice 11 item));
            pi_isExample := pi_isExample ci |};
       isExample := isExample st |}
  else st.

Definition exerciseInit : ExerciseState :=
  {| es_items := []; currentItem := emptyItem; isExample := false |}.

Definition exerciseFinish (st : ExerciseState) : list ExerciseItem :=
  if itemComplete (currentItem st)
  then es_items st ++ [finishItem (currentItem st)]
  else es_items st.

Definition parseExerciseItems (buffer : list jsstring) : list ExerciseItem :=
  exerciseFinish (fold_left exerciseStep buffer exerciseInit).

(** ** Module parser ([parseModuleFile]) *)

Record ParserState := {
  module : PartialModule;
  ps_voiceConfig : ModuleVoiceConfig;
  currentLesson : option LessonContent;
  currentActivity : option Activity;
  activityContentBuffer : list jsstring
}.

Definition initialState : ParserState :=
  {| module :=
       {| pm_diocoDocId := None; pm_title := None; pm_description := None;
          pm_image := None; pm_targetLang_G := None; pm_homeLang_G := None;
          pm_ttsPrompt := None; pm_lessons := [] |};
     ps_voiceConfig :=
       {| vc_default := None; vc_prompt := None; vc_response := None;
          vc_introVoice := None; vc_speakers := ∅ |};
     currentLesson := None;
     currentActivity := None;
     activityContentBuffer := [] |}.

Definition setModule (st : ParserState) (m : PartialModule) : ParserState :=
  {| module := m; ps_voiceConfig := ps_voiceConfig st;
     currentLesson := currentLesson st; currentActivity := currentActivity st;
     activityContentBuffer := activityContentBuffer st |}.

Definition setVoiceConfig (st : ParserState) (v : ModuleVoiceConfig)
  : ParserState :=
  {| module := module st; ps_voiceConfig := v;
     currentLesson := currentLesson st; currentActivity := currentActivity st;
     activityContentBuffer := activityContentBuffer st |}.

Definition setActivity (st : ParserState) (a : Activity) : ParserState :=
  {| module := module st; ps_voiceConfig := ps_voiceConfig st;
     currentLesson := currentLesson st; currentActivity := Some a;
     activityContentBuffer := activityContentBuffer st |}.

(** [state.activityContentBuffer.push(x)] *)
Definition pushBuffer (st : ParserState) (x : jsstring) : ParserState :=
  {| module := module st; ps_voiceConfig := ps_voiceConfig st;
     currentLesson := currentLesson st; currentActivity := currentActivity st;
     activityContentBuffer := activityContentBuffer st ++ [x] |}.

(** The object built from a successful [voiceMatch]. *)
Definition voiceSpecOf (m : jsstring * option jsstring) : VoiceSpec :=
  {| voice := trim (m.1); prompt := trimOrNull (m.2); displayName := None |}.

(** [state.voiceConfig.speakers[key] = spec].  The speakers are a plain
    object: the key [__proto__] names the prototype accessor, so assigning
    an object to it replaces the prototype and adds no entry; every other
    key becomes an entry. *)
Definition setSpeaker (key : jsstring) (spec : VoiceSpec)
    (speakers : gmap jsstring VoiceSpec) : gmap jsstring VoiceSpec :=
  if streq key (str "__proto__") then speakers else <[key := spec]> speakers.

(** The header branch of [handleField]; [None] when the [switch] has no
    case for the field name. *)
Definition handleHeaderField (field value : jsstring) (st : ParserState)
  : option ParserState :=
  let m := module st in
  let vc := ps_voiceConfig st in
  if streq field (str "DIOCO_DOC_ID") then
    Some (setModule st
      {| pm_diocoDocId := Some value; pm_title := pm_title m;
         pm_description := pm_description m; pm_image := pm_image m;
         pm_targetLang_G := pm_targetLang_G m; pm_homeLang_G := pm_homeLang_G m;
         pm_ttsPrompt := pm_ttsPrompt m; pm_lessons := pm_lessons m |})
  else if streq field (str "TITLE") then
    Some (setModule st
      {| pm_diocoDocId := pm_diocoDocId m; pm_title := Some value;
         pm_description := pm_description m; pm_image := pm_image m;
         pm_targetLang_G := pm_targetLang_G m; pm_homeLang_G := pm_homeLang_G m;
         pm_ttsPrompt := pm_ttsPrompt m; pm_lessons := pm_lessons m |})
  else if streq field (str "DESCRIPTION") then
    Some (setModule st
      {| pm_diocoDocId := pm_diocoDocId m; pm_title := pm_title m;
         pm_description := Some value; pm_image := pm_image m;
         pm_targetLang_G := pm_targetLang_G m; pm_homeLang_G := pm_homeLang_G m;
         pm_ttsPrompt := pm_ttsPrompt m; pm_lessons := pm_lessons m |})
  else if streq field (str "IMAGE") then
    Some (setModule st
      {| pm_diocoDocId := pm_diocoDocId m; pm_title := pm_title m;
         pm_description := pm_description m; pm_image := Some value;
         pm_targetLang_G := pm_targetLang_G m; pm_homeLang_G := pm_homeLang_G m;
         pm_ttsPrompt := pm_ttsPrompt m; pm_lessons := pm_lessons m |})
  else if streq field (str "TARGET_LANG_G") then
    Some (setModule st
      {| pm_diocoDocId := pm_diocoDocId m; pm_title := pm_title m;
         pm_description := pm_description m; pm_image := pm_image m;
         pm_targetLang_G := Some value; pm_homeLang_G := pm_homeLang_G m;
         pm_ttsPrompt := pm_ttsPrompt m; pm_lessons := pm_lessons m |})
  else if streq field (str "HOME_LANG_G") || streq field (str "USER_LANG_G") then
    Some (setModule st
      {| pm_diocoDocId := pm_diocoDocId m; pm_title := pm_title m;
         pm_description := pm_description m; pm_image := pm_image m;
         pm_targetLang_G := pm_targetLang_G m; pm_homeLang_G := Some value;
         pm_ttsPrompt := pm_ttsPrompt m; pm_lessons := pm_lessons m |})
  else if streq field (str "TTS_PROMPT") then
    Some (setModule st
      {| pm_diocoDocId := pm_diocoDocId m; pm_title := pm_title m;
         pm_description := pm_description m; pm_image := pm_image m;
         pm_targetLang_G := pm_targetLang_G m; pm_homeLang_G := pm_homeLang_G m;
         pm_ttsPrompt := Some value; pm_lessons := pm_lessons m |})
  else if streq field (str "VOICE_DEFAULT") then
    Some (match voiceMatch value with
          | Some r =>
              setVoiceConfig st
                {| vc_default := Some (voiceSpecOf r); vc_prompt := vc_prompt vc;
                   vc_response := vc_response vc;
                   vc_introVoice := vc_introVoice vc;
                   vc_speakers := vc_speakers vc |}
          | None => st
          end)
  else if streq field (str "VOICE_PROMPT") then
    Some (match voiceMatch value with
          | Some r =>
              setVoiceConfig st
                {| vc_default := vc_default vc; vc_prompt := Some (voiceSpecOf r);
                   vc_response := vc_response vc;
                   vc_introVoice := vc_introVoice vc;
                   vc_speakers := vc_speakers vc |}
          | None => st
          end)
  else if streq field (str "VOICE_RESPONSE") then
    Some (match voiceMatch value with
          | Some r =>
              setVoiceConfig st
                {| vc_default := vc_default vc; vc_prompt := vc_prompt vc;
                   vc_response := Some (voiceSpecOf r);
                   vc_introVoice := vc_introVoice vc;
                   vc_speakers := vc_speakers vc |}
          | None => st
          end)
  else if streq field (str "VOICE_INTRO") then
    Some (match voiceMatch value with
          | Some r =>
              setVoiceConfig st
                {| vc_default := vc_default vc; vc_prompt := vc_prompt vc;
                   vc_response := vc_response vc;
                   vc_introVoice := Some (voiceSpecOf r);
                   vc_speakers := vc_speakers vc |}
          | None => st
          end)
  else if streq field (str "VOICE_SPEAKER") then
    Some (match speakerMatch value with
          | Some (speakerName, voiceName, p) =>
              setVoiceConfig st
                {| vc_default := vc_default vc; vc_prompt := vc_prompt vc;
                   vc_response := vc_response vc;
                   vc_introVoice := vc_introVoice vc;
                   vc_speakers :=
                     setSpeaker (trim speakerName)
                       {| voice := trim voiceName; prompt := trimOrNull p;
                          displayName := None |} (vc_speakers vc) |}
          | None => st
          end)
  else if streq field (str "VOICE") then
    Some (match map trim (splitOn PIPE value) with
          | speakerId :: voiceName :: more =>
              setVoiceConfig st
                {| vc_default := vc_default vc; vc_prompt := vc_prompt vc;
                   vc_response := vc_response vc;
                   vc_introVoice := vc_introVoice vc;
                   vc_speakers :=
                     setSpeaker speakerId
                       {| voice := voiceName;
                          prompt := orNull (Some (join (str " | ") more));
                          displayName := Some None |} (vc_speakers vc) |}
          | _ => st
          end)
  else None.

Definition isDialogueOrExercise (a : Activity) : bool :=
  match act_payload a with
  | DialoguePayload _ _ _ | ExercisePayload _ _ _ => true
  | _ => false
  end.

Definition setTtsPrompt (a : Activity) (v : jsstring) : Activity :=
  {| act_id := act_id a; act_title := act_title a; act_intro := act_intro a;
     act_payload :=
       match act_payload a with
       | DialoguePayload i _ ls => DialoguePayload i (Some v) ls
       | ExercisePayload i _ its => ExercisePayload i (Some v) its
       | p => p
       end |}.

Definition setInstruction (a : Activity) (v : jsstring) : Activity :=
  {| act_id := act_id a; act_title := act_title a; act_intro := act_intro a;
     act_payload :=
       match act_payload a with
       | DialoguePayload _ t ls => DialoguePayload (Some v) t ls
       | ExercisePayload _ t its => ExercisePayload (Some v) t its
       | p => p
       end |}.

Definition setIntro (a : Activity) (v : jsstring) : Activity :=
  {| act_id := act_id a; act_title := act_title a; act_intro := Some v;
     act_payload := act_payload a |}.

Definition setScenario (a : Activity) (v : jsstring) : Activity :=
  {| act_id := act_id a; act_title := act_title a; act_intro := act_intro a;
     act_payload :=
       match act_payload a with
       | ChatPayload _ ip => ChatPayload v ip
       | p => p
       end |}.

Definition setInitialPrompt (a : Activity) (v : jsstring) : Activity :=
  {| act_id := act_id a; act_title := act_title a; act_intro := act_intro a;
     act_payload :=
       match act_payload a with
       | ChatPayload s _ => ChatPayload s v
       | p => p
       end |}.

(** The field names that are pushed on the content buffer, tagged, to be
    interpreted when the activity closes. *)
Definition bufferedFields : list jsstring :=
  [str "SPEAKER"; str "LINE"; str "LINE_T"; str "NOTES"; str "VOCAB";
   str "VOCAB_T"; str "PROMPT"; str "PROMPT_T"; str "RESPONSE";
   str "RESPONSE_T"].

(** The activity branch of [handleField]. *)
Definition handleActivityField (field value : jsstring) (a : Activity)
    (st : ParserState) : ParserState :=
  if streq field (str "TTS_PROMPT") then setActivity st (setTtsPrompt a value)
  else if streq field (str "INSTRUCTION") then
    setActivity st (setInstruction a value)
  else if streq field (str "INTRO") then setActivity st (setIntro a value)
  else if streq field (str "SCENARIO") then setActivity st (setScenario a value)
  else if streq field (str "INITIAL_PROMPT") then
    setActivity st (setInitialPrompt a value)
  else if bool_decide (field ∈ bufferedFields) then
    pushBuffer st (field ++ [COLON] ++ value)
  else st.

Definition handleField (field value : jsstring) (st : ParserState)
  : ParserState :=
  match currentActivity st, currentLesson st with
  | None, None =>
      match handleHeaderField field value st with
      | Some st' => st'
      | None => st
      end
  | Some a, _ => handleActivityField field value a st
  | None, Some _ => st
  end.

(** [finalizeActivity]: run the content parser of the activity kind over
    the buffer and append the activity to the open lesson. *)
Definition finalizeActivity (st : ParserState) : ParserState :=
  match currentActivity st, currentLesson st with
  | Some a, Some l =>
      let buffer := activityContentBuffer st in
      let payload :=
        match act_payload a with
        | DialoguePayload i t _ => DialoguePayload i t (parseDialogueLines buffer)
        | GrammarPayload _ => GrammarPayload (parseGrammarContent buffer)
        | ExercisePayload i t _ => ExercisePayload i t (parseExerciseItems buffer)
        | ChatPayload s ip => ChatPayload s ip
        end in
      let a' :=
        {| act_id := act_id a; act_title := act_title a;
           act_intro := act_intro a; act_payload := payload |} in
      {| module := module st; ps_voiceConfig := ps_voiceConfig st;
         currentLesson :=
           Some {| lesson_id := lesson_id l; lesson_title := lesson_title l;
                   activities := activities l ++ [a'] |};
         currentActivity := None;
         activityContentBuffer := [] |}
  | _, _ => st
  end.

Definition finalizeLesson (st : ParserState) : ParserState :=
  match currentLesson st with
  | Some l =>
      let m := module st in
      {| module :=
           {| pm_diocoDocId := pm_diocoDocId m; pm_title := pm_title m;
              pm_description := pm_description m; pm_image := pm_image m;
              pm_targetLang_G := pm_targetLang_G m;
              pm_homeLang_G := pm_homeLang_G m;
              pm_ttsPrompt := pm_ttsPrompt m;
              pm_lessons := pm_lessons m ++ [l] |};
         ps_voiceConfig := ps_voiceConfig st;
         currentLesson := None;
         currentActivity := currentActivity st;
         activityContentBuffer := activityContentBuffer st |}
  | None => st
  end.

Definition emptyPayload (t : ActivityType) : ActivityPayload :=
  match t with
  | DIALOGUE => DialoguePayload None None []
  | EXERCISE => ExercisePayload None None []
  | GRAMMAR => GrammarPayload []
  | CHAT => ChatPayload [] []
  end.

Section WithCase.
Context `{UnicodeCase}.

(** The slug shared by the id generators of both files. *)
Definition slug (s : jsstring) : jsstring :=
  stripDashes (replaceNonSlug false (toLowerCase s)).

Definition generateLessonId (title : jsstring) : jsstring := slug title.

Definition generateActivityId (type title : jsstring) : jsstring :=
  type ++ [DASH] ++ slug title.

Definition startActivity (st : ParserState) (type : ActivityType)
    (title : jsstring) : ParserState :=
  let st1 := finalizeActivity st in
  let lesson :=
    match currentLesson st1 with
    | Some l => l
    | None => {| lesson_id := str "default-lesson";
                 lesson_title := str "Default Lesson"; activities := [] |}
    end in
  {| module := module st1; ps_voiceConfig := ps_voiceConfig st1;
     currentLesson := Some lesson;
     currentActivity :=
       Some {| act_id := generateActivityId (typeName type) title;
               act_title := title; act_intro := None;
               act_payload := emptyPayload type |};
     activityContentBuffer := [] |}.

Definition handleSectionMarker (line : jsstring) (st : ParserState)
  : ParserState :=
  match markerMatch line with
  | None => st
  | Some (marker, title) =>
      if streq marker (str "MODULE") then st
      else if streq marker (str "LESSON") then
        let st1 := finalizeLesson (finalizeActivity st) in
        {| module := module st1; ps_voiceConfig := ps_voiceConfig st1;
           currentLesson :=
             Some {| lesson_id := generateLessonId (orStr title (str "Untitled"));
                     lesson_title := orStr title (str "Untitled Lesson");
                     activities := [] |};
           currentActivity := currentActivity st1;
           activityContentBuffer := activityContentBuffer st1 |}
      else if streq marker (str "DIALOGUE") then
        startActivity st DIALOGUE (orStr title (str "Dialogue"))
      else if streq marker (str "GRAMMAR") then
        startActivity st GRAMMAR (orStr title (str "Grammar"))
      else if streq marker (str "EXERCISE") then
        startActivity st EXERCISE (orStr title (str "Exercise"))
      else if streq marker (str "CHAT") then
        startActivity st CHAT (orStr title (str "Chat"))
      else st
  end.

Definition inExercise (st : ParserState) : bool :=
  match currentActivity st with
  | Some a => bool_decide (act_type a = EXERCISE)
  | None => false
  end.

Definition processLine (line : jsstring) (st : ParserState) : ParserState :=
  let trimmed := trimEnd line in
  if startsWith (trimStart trimmed) [HASH] then st
  else if startsWith trimmed [DOLLAR] then handleSectionMarker trimmed st
  else if streq trimmed (str "EXAMPLE") && inExercise st then
    pushBuffer st (str "EXAMPLE:")
  else
    match fieldMatch trimmed with
    | Some (field, value) => handleField field (orStr value []) st
    | None =>
        match currentActivity st with
        | Some _ => pushBuffer st line
        | None => st
        end
    end.

(** The state after the loop over the lines and the two finalizers. *)
Definition parseLines (lines : list jsstring) : ParserState :=
  finalizeLesson
    (finalizeActivity
       (fold_left (fun st l => processLine l st) lines initialState)).

(** The error message of a failed validation, or the module.  No
    operation of [processLine] throws, so the wrapper that re-throws with a
    line number is never entered. *)
Definition validateModule (st : ParserState) : jsstring + LcModule :=
  let m := module st in
  if negb (truthy (pm_diocoDocId m)) then
    inl (str "Missing DIOCO_DOC_ID in .module file")
  else if negb (truthy (pm_title m)) then
    inl (str "Missing TITLE in .module file")
  else if negb (truthy (pm_targetLang_G m)) then
    inl (str "Missing TARGET_LANG_G in .module file")
  else if negb (truthy (pm_homeLang_G m)) then
    inl (str "Missing HOME_LANG_G in .module file")
  else
    inr {| diocoDocId := orStr (pm_diocoDocId m) [];
           title := orStr (pm_title m) [];
           description := orNull (pm_description m);
           image := orNull (pm_image m);
           targetLang_G := orStr (pm_targetLang_G m) [];
           homeLang_G := orStr (pm_homeLang_G m) [];
           voiceConfig := ps_voiceConfig st;
           ttsPrompt := pm_ttsPrompt m;
           lessons := pm_lessons m |}.

Definition parseModuleFile (content : jsstring) : jsstring + LcModule :=
  validateModule (parseLines (splitOn NEWLINE content)).

End WithCase.

(** ** Grammar registry ([spec_from_ebnf.ts]) *)

Module ebnfSpec.
Definition markers : list jsstring :=
  [str "CHAT"; str "DIALOGUE"; str "EXERCISE"; str "GRAMMAR"; str "LESSON";
   str "MODULE"].
Definition headerFields : list jsstring :=
  [str "DESCRIPTION"; str "DIOCO_DOC_ID"; str "HOME_LANG_G"; str "IMAGE";
   str "TARGET_LANG_G"; str "TITLE"; str "USER_LANG_G"].
Definition voiceFields : list jsstring :=
  [str "VOICE_DEFAULT"; str "VOICE_INTRO"; str "VOICE_PROMPT";
   str "VOICE_RESPONSE"; str "VOICE_SPEAKER"].
Definition dialogueFields : list jsstring :=
  [str "INSTRUCTION"; str "INTRO"; str "LINE"; str "LINE_T"; str "NOTES";
   str "SPEAKER"; str "VOCAB"; str "VOCAB_T"].
Definition exerciseFields : list jsstring :=
  [str "INSTRUCTION"; str "INTRO"; str "PROMPT"; str "PROMPT_T";
   str "RESPONSE"; str "RESPONSE_T"].
Definition grammarFields : list jsstring := [str "INTRO"].
Definition chatFields : list jsstring :=
  [str "INITIAL_PROMPT"; str "INTRO"; str "SCENARIO"].
Definition exampleMarker : option jsstring := Some (str "EXAMPLE").
End ebnfSpec.

(** [set.has(x)] for the sets built from the registry lists. *)
Definition has (set : list jsstring) (x : jsstring) : bool :=
  bool_decide (x ∈ set).

Definition sectionNames : list jsstring := ebnfSpec.markers.

Definition VALID_GEMINI_VOICES : list jsstring :=
  [str "Zephyr"; str "Puck"; str "Charon"; str "Kore"; str "Fenrir";
   str "Leda"; str "Orus"; str "Aoede"; str "Callirrhoe"; str "Autonoe";
   str "Enceladus"; str "Iapetus"; str "Umbriel"; str "Algieba";
   str "Despina"; str "Erinome"; str "Algenib"; str "Rasalgethi";
   str "Laomedeia"; str "Achernar"; str "Alnilam"; str "Schedar";
   str "Gacrux"; str "Pulcherrima"; str "Achird"; str "Zubenelgenubi";
   str "Vindemiatrix"; str "Sadachbia"; str "Sadaltager"; str "Sulafat"].

Definition headerFields : list jsstring :=
  ebnfSpec.headerFields ++ ebnfSpec.voiceFields.
Definition voiceFields : list jsstring := ebnfSpec.voiceFields.
Definition dialogueFields : list jsstring := ebnfSpec.dialogueFields.
Definition exerciseFields : list jsstring := ebnfSpec.exerciseFields.
Definition chatFields : list jsstring := ebnfSpec.chatFields.
Definition grammarFields : list jsstring := ebnfSpec.grammarFields.

(** ** Diagnostics linter ([lintModuleText]) *)

Inductive Severity := error | warning.

#[export] Instance Severity_eq_dec : EqDecision Severity.
Proof. solve_decision. Defined.

Record Diagnostic := {
  severity : Severity;
  line : Z;
  message : jsstring;
  code : option jsstring
}.

#[export] Instance Diagnostic_eq_dec : EqDecision Diagnostic.
Proof. solve_decision. Defined.

(** The local variables of [lintModuleText]. *)
Record LintState := {
  diags : list Diagnostic;
  sawModuleMarker : bool;
  sawAnySectionMarker : bool;
  inHeader : bool;
  lint_currentActivity : option ActivityType;
  currentLessonLine : option Z;
  seenHeader : gmap jsstring Z;
  (** lower-cased label, to the line and the spelling first seen *)
  seenVoiceSpeaker : gmap jsstring (Z * jsstring);
  lastDialogueHadLine : bool;
  pendingVocabWord : option Z;
  pendingExercisePrompt : option Z;
  pendingExerciseExample : option Z
}.

Definition lintInit : LintState :=
  {| diags := []; sawModuleMarker := false; sawAnySectionMarker := false;
     inHeader := true; lint_currentActivity := None;
     currentLessonLine := None; seenHeader := ∅; seenVoiceSpeaker := ∅;
     lastDialogueHadLine := false; pendingVocabWord := None;
     pendingExercisePrompt := None; pendingExerciseExample := None |}.

(** [diags.push({ severity, line, message, code })] *)
Definition push (sev : Severity) (ln : Z) (msg code : jsstring)
    (st : LintState) : LintState :=
  {| diags := diags st
              ++ [{| severity := sev; line := ln; message := msg;
                     code := Some code |}];
     sawModuleMarker := sawModuleMarker st;
     sawAnySectionMarker := sawAnySectionMarker st;
     inHeader := inHeader st;
     lint_currentActivity := lint_currentActivity st;
     currentLessonLine := currentLessonLine st;
     seenHeader := seenHeader st;
     seenVoiceSpeaker := seenVoiceSpeaker st;
     lastDialogueHadLine := lastDialogueHadLine st;
     pendingVocabWord := pendingVocabWord st;
     pendingExercisePrompt := pendingExercisePrompt st;
     pendingExerciseExample := pendingExerciseExample st |}.

(** A push guarded by a condition. *)
Definition pushIf (c : bool) (sev : Severity) (ln : Z) (msg code : jsstring)
    (st : LintState) : LintState :=
  if c then push sev ln msg code st else st.

Definition setSection (saw sawAny hdr : bool) (act : option ActivityType)
    (lessonLine : option Z) (st : LintState) : LintState :=
  {| diags := diags st; sawModuleMarker := saw; sawAnySectionMarker := sawAny;
     inHeader := hdr; lint_currentActivity := act;
     currentLessonLine := lessonLine;
     seenHeader := seenHeader st; seenVoiceSpeaker := seenVoiceSpeaker st;
     lastDialogueHadLine := lastDialogueHadLine st;
     pendingVocabWord := pendingVocabWord st;
     pendingExercisePrompt := pendingExercisePrompt st;
     pendingExerciseExample := pendingExerciseExample st |}.

Definition setSeen (h : gmap jsstring Z) (v : gmap jsstring (Z * jsstring))
    (st : LintState) : LintState :=
  {| diags := diags st; sawModuleMarker := sawModuleMarker st;
     sawAnySectionMarker := sawAnySectionMarker st; inHeader := inHeader st;
     lint_currentActivity := lint_currentActivity st;
     currentLessonLine := currentLessonLine st;
     seenHeader := h; seenVoiceSpeaker := v;
     lastDialogueHadLine := lastDialogueHadLine st;
     pendingVocabWord := pendingVocabWord st;
     pendingExercisePrompt := pendingExercisePrompt st;
     pendingExerciseExample := pendingExerciseExample st |}.

(** Assignment to the four per-activity trackers. *)
Definition setPending (hadLine : bool) (vocab prompt example : option Z)
    (st : LintState) : LintState :=
  {| diags := diags st; sawModuleMarker := sawModuleMarker st;
     sawAnySectionMarker := sawAnySectionMarker st; inHeader := inHeader st;
     lint_currentActivity := lint_currentActivity st;
     currentLessonLine := currentLessonLine st;
     seenHeader := seenHeader st; seenVoiceSpeaker := seenVoiceSpeaker st;
     lastDialogueHadLine := hadLine;
     pendingVocabWord := vocab;
     pendingExercisePrompt := prompt;
     pendingExerciseExample := example |}.

Definition setPendingVocabWord (v : option Z) (st : LintState) : LintState :=
  setPending (lastDialogueHadLine st) v (pendingExercisePrompt st)
    (pendingExerciseExample st) st.

Definition msgVocabPair : jsstring :=
  str "VOCAB must be followed immediately by VOCAB_T (pair).".

(** Warn about a vocabulary word still waiting for its translation, and
    clear the tracker. *)
Definition flushPendingVocab (st : LintState) : LintState :=
  match pendingVocabWord st with
  | Some l =>
      setPendingVocabWord None
        (push warning l msgVocabPair (str "vocab-missing-vocab_t") st)
  | None => st
  end.

Definition activityOfMarker (marker : jsstring) : option ActivityType :=
  if streq marker (str "DIALOGUE") then Some DIALOGUE
  else if streq marker (str "EXERCISE") then Some EXERCISE
  else if streq marker (str "GRAMMAR") then Some GRAMMAR
  else if streq marker (str "CHAT") then Some CHAT
  else None.

(** The column-0 check at the head of the loop body. *)
Definition lintIndent (lineNo : Z) (raw : jsstring) (st : LintState)
  : LintState :=
  match raw with
  | c :: _ =>
      if (c =? 32) || (c =? 9) then
        let t := trimStart raw in
        if startsWith t [DOLLAR] then
          push error lineNo
            (str "Section marker must start at column 0 (no leading whitespace).")
            (str "section-indent") st
        else if fieldPrefixTest t then
          push error lineNo
            (str "Field must start at column 0 (no leading whitespace).")
            (str "field-indent") st
        else st
      else st
  | [] => st
  end.

(** The branch for a line that starts with the sigil.  Line numbers start
    at 1, so the lesson tracker is falsy only while it is [null]. *)
Definition lintMarker (lineNo : Z) (trimmedEnd : jsstring) (st : LintState)
  : LintState :=
  let st := setSection (sawModuleMarker st) true (inHeader st)
              (lint_currentActivity st) (currentLessonLine st) st in
  let st :=
    pushIf (markerColonTest trimmedEnd) error lineNo
      (str "Section markers must not use a colon (use `$LESSON Title`, not `$LESSON: Title`).")
      (str "section-colon") st in
  match markerMatch trimmedEnd with
  | None =>
      push warning lineNo (str "Unrecognized section marker format.")
        (str "section-format") st
  | Some (marker, _) =>
      let st :=
        pushIf (negb (has sectionNames marker)) warning lineNo
          (str "Unknown section marker: $" ++ marker)
          (str "section-unknown") st in
      let st := flushPendingVocab st in
      if streq marker (str "MODULE") then
        setSection true (sawAnySectionMarker st) true None
          (currentLessonLine st) st
      else if streq marker (str "LESSON") then
        setSection (sawModuleMarker st) (sawAnySectionMarker st) false None
          (Some lineNo) st
      else
        match activityOfMarker marker with
        | Some kind =>
            let st :=
              setSection (sawModuleMarker st) (sawAnySectionMarker st) false
                (Some kind) (currentLessonLine st) st in
            let st :=
              pushIf (bool_decide (currentLessonLine st = None)) warning lineNo
                (str "Found $" ++ marker
                 ++ str " before any $LESSON; parser will create a "
                 ++ dquote ++ str "Default Lesson" ++ dquote ++ str ".")
                (str "implicit-lesson") st in
            setPending false None None None st
        | None => st
        end
  end.

(** The branch for the bare example token. *)
Definition lintExample (lineNo : Z) (st : LintState) : LintState :=
  if bool_decide (lint_currentActivity st = Some EXERCISE) then
    setPending (lastDialogueHadLine st) (pendingVocabWord st)
      (pendingExercisePrompt st) (Some lineNo) st
  else
    push warning lineNo
      (str "EXAMPLE marker is only meaningful inside $EXERCISE.")
      (str "example-outside-exercise") st.

Definition msgUnknownVoice (voiceName : jsstring) : jsstring :=
  str "Unknown Gemini voice: " ++ dquote ++ voiceName ++ dquote
  ++ str ". Valid voices: " ++ join (str ", ") (take 5 VALID_GEMINI_VOICES)
  ++ str "...".

(** The checks on a voice name shared by the three kinds of voice field;
    [alnum] is the wording of the shape warning. *)
Definition lintVoiceName (lineNo : Z) (alnum voiceName : jsstring)
    (st : LintState) : LintState :=
  let st :=
    pushIf (negb (idNoSpacesRe voiceName)) warning lineNo
      (str "Voice name must be " ++ alnum ++ str " only (no spaces): "
       ++ dquote ++ voiceName ++ dquote)
      (str "voice_name") st in
  pushIf (negb (has VALID_GEMINI_VOICES voiceName)) error lineNo
    (msgUnknownVoice voiceName) (str "voice-invalid") st.

Section LinterWithCase.
Context `{UnicodeCase}.

(** Validation of a [VOICE_SPEAKER] value. *)
Definition lintVoiceSpeaker (lineNo : Z) (value : jsstring) (st : LintState)
  : LintState :=
  let st :=
    push warning lineNo
      (str "VOICE_SPEAKER is deprecated; use VOICE: SpeakerId | Display Name | VoiceName | Optional prompt.")
      (str "voice_speaker-deprecated") st in
  match speakerMatch value with
  | None =>
      push error lineNo
        (str "VOICE_SPEAKER must be `VOICE_SPEAKER: SpeakerName = VoiceName | Optional prompt`.")
        (str "voice_speaker-format") st
  | Some (m1, m2, _) =>
      let speakerName := trim m1 in
      let voiceName := trim m2 in
      let st :=
        pushIf (negb (idNoSpacesRe speakerName)) warning lineNo
          (str "VOICE_SPEAKER label must be alnum only (no spaces): "
           ++ dquote ++ speakerName ++ dquote)
          (str "voice_speaker-label") st in
      let st := lintVoiceName lineNo (str "alnum") voiceName st in
      let key := toLowerCase speakerName in
      let prev := seenVoiceSpeaker st !! key in
      let st :=
        match prev with
        | Some (prevLine, original) =>
            push warning lineNo
              (str "Duplicate VOICE_SPEAKER mapping for " ++ dquote ++ original
               ++ dquote ++ str " (previous at L" ++ numToString prevLine
               ++ str ").")
              (str "voice_speaker-dup") st
        | None =>
            setSeen (seenHeader st)
              (<[key := (lineNo, speakerName)]> (seenVoiceSpeaker st)) st
        end in
      match prev with
      | Some (_, original) =>
          pushIf (negb (streq original speakerName)) warning lineNo
            (str "VOICE_SPEAKER label casing differs (" ++ dquote ++ original
             ++ dquote ++ str " vs " ++ dquote ++ speakerName ++ dquote
             ++ str "). Use consistent casing.")
            (str "voice_speaker-case") st
      | None => st
      end
  end.

(** Validation of a [VOICE] value. *)
Definition lintVoice (lineNo : Z) (value : jsstring) (st : LintState)
  : LintState :=
  match map trim (splitOn PIPE value) with
  | speakerId :: displayName :: voiceName :: _ =>
      let st :=
        pushIf (negb (idNoSpacesRe speakerId)) warning lineNo
          (str "VOICE speakerId must be alnum/_ only (no spaces): "
           ++ dquote ++ speakerId ++ dquote)
          (str "voice-speaker-id") st in
      let st :=
        pushIf (negb (truthy (Some displayName))) warning lineNo
          (str "VOICE display name is empty; provide a display name for readable speaker labels.")
          (str "voice-display-empty") st in
      lintVoiceName lineNo (str "alnum/_") voiceName st
  | _ =>
      push error lineNo
        (str "VOICE must be `VOICE: SpeakerId | Display Name | VoiceName | Optional prompt`.")
        (str "voice-format") st
  end.

(** Validation of the single-voice fields. *)
Definition lintSingleVoice (lineNo : Z) (value : jsstring) (st : LintState)
  : LintState :=
  match voiceMatch value with
  | Some (m1, _) => lintVoiceName lineNo (str "alnum") (trim m1) st
  | None => st
  end.

(** A field line in header context. *)
Definition lintHeaderField (lineNo : Z) (field value : jsstring)
    (st : LintState) : LintState :=
  let st :=
    if negb (has headerFields field) then
      push warning lineNo (str "Unknown header field: " ++ field)
        (str "unknown-header-field") st
    else if negb (streq field (str "VOICE_SPEAKER"))
            && negb (streq field (str "VOICE")) then
      let st :=
        pushIf (bool_decide (is_Some (seenHeader st !! field))) warning lineNo
          (str "Duplicate header field: " ++ field)
          (str "dup-header-field") st in
      setSeen (<[field := lineNo]> (seenHeader st)) (seenVoiceSpeaker st) st
    else st in
  let st :=
    if streq field (str "VOICE_SPEAKER") then lintVoiceSpeaker lineNo value st
    else st in
  let st :=
    if streq field (str "VOICE") then lintVoice lineNo value st else st in
  if has voiceFields field && negb (streq field (str "VOICE_SPEAKER"))
     && negb (streq field (str "VOICE"))
  then lintSingleVoice lineNo value st
  else st.

Definition allowedFields (kind : ActivityType) : list jsstring :=
  match kind with
  | DIALOGUE => dialogueFields
  | EXERCISE => exerciseFields
  | CHAT => chatFields
  | GRAMMAR => grammarFields
  end.

(** A field line inside an activity. *)
Definition lintActivityField (lineNo : Z) (kind : ActivityType)
    (field : jsstring) (st : LintState) : LintState :=
  let st :=
    if negb (has (allowedFields kind) field) then
      if bool_decide (kind = GRAMMAR) && streq field (str "IMAGE") then
        push warning lineNo
          (str "IMAGE inside $GRAMMAR is not in the formal grammar and is ignored by lc_parser. Use markdown image syntax `![alt](file.png)`.")
          (str "grammar-image-ignored") st
      else
        push warning lineNo
          (str "Field " ++ field ++ str " is not expected inside $"
           ++ typeName kind ++ str ".")
          (str "field-unexpected") st
    else st in
  pushIf (bool_decide (kind = GRAMMAR) && negb (streq field (str "INTRO")))
    warning lineNo
    (str "Line looks like a field (" ++ field
     ++ str ":) inside $GRAMMAR. lc_parser will likely NOT include it in markdown content.")
    (str "grammar-field-swallowed") st.

(** A field line that is neither in header context nor in an activity. *)
Definition lintOutsideField (lineNo : Z) (field : jsstring) (st : LintState)
  : LintState :=
  if negb (sawModuleMarker st) && has headerFields field then
    push warning lineNo
      (str "Header field " ++ field
       ++ str " appears before $MODULE. Add a $MODULE header.")
      (str "header-before-module") st
  else
    push warning lineNo
      (str "Field " ++ field
       ++ str " appears outside an activity; it will likely be ignored.")
      (str "field-outside-activity") st.

(** The structural checks of a field line inside a dialogue. *)
Definition lintDialogueStructure (lineNo : Z) (field : jsstring)
    (st : LintState) : LintState :=
  let st :=
    if streq field (str "LINE") then
      setPending true (pendingVocabWord st) (pendingExercisePrompt st)
        (pendingExerciseExample st) st
    else st in
  let st :=
    pushIf (streq field (str "LINE_T") && negb (lastDialogueHadLine st))
      warning lineNo
      (str "LINE_T appears without a preceding LINE in the current dialogue context.")
      (str "line_t-without-line") st in
  let st :=
    if streq field (str "VOCAB") then
      let st :=
        match pendingVocabWord st with
        | Some l =>
            push warning l msgVocabPair (str "vocab-missing-vocab_t") st
        | None => st
        end in
      setPendingVocabWord (Some lineNo) st
    else st in
  let st :=
    pushIf (streq field (str "VOCAB_T")
            && bool_decide (pendingVocabWord st = None))
      warning lineNo (str "VOCAB_T appears without a preceding VOCAB.")
      (str "vocab_t-without-vocab") st in
  let st :=
    if streq field (str "VOCAB_T") then setPendingVocabWord None st else st in
  if streq field (str "SPEAKER") || streq field (str "LINE")
  then flushPendingVocab st
  else st.

(** The structural checks of a field line inside an exercise. *)
Definition lintExerciseStructure (lineNo : Z) (field value : jsstring)
    (st : LintState) : LintState :=
  let st :=
    if streq field (str "PROMPT") then
      setPending (lastDialogueHadLine st) (pendingVocabWord st) (Some lineNo)
        (pendingExerciseExample st) st
    else st in
  let st :=
    pushIf (streq field (str "RESPONSE")
            && bool_decide (pendingExercisePrompt st = None))
      warning lineNo (str "RESPONSE appears before PROMPT.")
      (str "response-before-prompt") st in
  let st :=
    pushIf (streq field (str "PROMPT") && streq value [])
      warning lineNo (str "PROMPT is empty.") (str "empty-prompt") st in
  let st :=
    pushIf (streq field (str "RESPONSE") && streq value [])
      warning lineNo (str "RESPONSE is empty.") (str "empty-response") st in
  let st :=
    if streq field (str "RESPONSE") then
      setPending (lastDialogueHadLine st) (pendingVocabWord st) None
        (pendingExerciseExample st) st
    else st in
  if streq field (str "PROMPT") then
    setPending (lastDialogueHadLine st) (pendingVocabWord st)
      (pendingExercisePrompt st) None st
  else st.

(** The branch for a field line. *)
Definition lintField (lineNo : Z) (field value : jsstring) (st : LintState)
  : LintState :=
  let st :=
    if inHeader st && bool_decide (currentLessonLine st = None)
       && bool_decide (lint_currentActivity st = None)
    then lintHeaderField lineNo field value st
    else
      match lint_currentActivity st with
      | Some kind => lintActivityField lineNo kind field st
      | None => lintOutsideField lineNo field st
      end in
  match lint_currentActivity st with
  | Some DIALOGUE => lintDialogueStructure lineNo field st
  | Some EXERCISE => lintExerciseStructure lineNo field value st
  | _ => st
  end.

(** The branch for a line that is neither marker, example token nor field. *)
Definition lintRawContent (lineNo : Z) (st : LintState) : LintState :=
  match lint_currentActivity st with
  | Some GRAMMAR => st
  | Some kind =>
      push warning lineNo
        (str "Unstructured content line inside $" ++ typeName kind
         ++ str ". Did you forget a FIELD: prefix?")
        (str "raw-content") st
  | None =>
      push warning lineNo
        (str "Content line appears outside any activity; it will be ignored.")
        (str "content-outside") st
  end.

(** The body of the loop over the lines; line numbers start at 1, so a
    recorded line number is always truthy. *)
Definition lintLine (lineNo : Z) (raw : jsstring) (st : LintState)
  : LintState :=
  let trimmedEnd := trimEnd raw in
  let trimmed := trim trimmedEnd in
  if streq trimmed [] then st
  else if startsWith trimmed [HASH] then st
  else
    let st := lintIndent lineNo raw st in
    if startsWith trimmedEnd [DOLLAR] then lintMarker lineNo trimmedEnd st
    else if bool_decide (ebnfSpec.exampleMarker = Some trimmed)
    then lintExample lineNo st
    else
      match fieldMatch trimmedEnd with
      | Some (field, value) => lintField lineNo field (trim (default [] value)) st
      | None => lintRawContent lineNo st
      end.

(** The loop, numbering lines from [lineNo]. *)
Fixpoint lintLines (lineNo : Z) (lines : list jsstring) (st : LintState)
  : LintState :=
  match lines with
  | [] => st
  | raw :: rest => lintLines (lineNo + 1) rest (lintLine lineNo raw st)
  end.

(** The checks after the loop. *)
Definition lintEnd (st : LintState) : LintState :=
  let st :=
    match pendingVocabWord st with
    | Some l => push warning l msgVocabPair (str "vocab-missing-vocab_t") st
    | None => st
    end in
  let st :=
    match pendingExerciseExample st with
    | Some l =>
        push warning l
          (str "EXAMPLE marker must be immediately followed by an exercise item (PROMPT...).")
          (str "example-not-applied") st
    | None => st
    end in
  let st :=
    pushIf (negb (sawAnySectionMarker st)) error 1
      (str "No section markers found. A .module should contain at least `$MODULE` and `$LESSON`/activities.")
      (str "no-sections") st in
  let st :=
    pushIf (negb (sawModuleMarker st)) error 1
      (str "Missing `$MODULE` header.") (str "missing-module") st in
  if sawModuleMarker st then
    let missing f := bool_decide (seenHeader st !! str f = None) in
    let st :=
      pushIf (missing "DIOCO_DOC_ID"%string) error 1
        (str "Missing required header field: DIOCO_DOC_ID")
        (str "missing-dioco-doc-id") st in
    let st :=
      pushIf (missing "TITLE"%string) error 1
        (str "Missing required header field: TITLE") (str "missing-title") st in
    let st :=
      pushIf (missing "TARGET_LANG_G"%string) error 1
        (str "Missing required header field: TARGET_LANG_G")
        (str "missing-target-lang") st in
    pushIf (missing "HOME_LANG_G"%string && missing "USER_LANG_G"%string) error 1
      (str "Missing required header field: HOME_LANG_G (or legacy USER_LANG_G)")
      (str "missing-home-lang") st
  else st.

(** The comparator handed to [Array.prototype.sort]. *)
Definition compareDiag (a b : Diagnostic) : Z :=
  if bool_decide (severity a = severity b) then (line a - line b)%Z
  else if bool_decide (severity a = error) then (-1)%Z
  else 1%Z.

(** [Array.prototype.sort] is stable; with a comparator that is a total
    preorder its result is the one stable sorted arrangement, computed here
    by insertion. *)
Fixpoint insertDiag (d : Diagnostic) (l : list Diagnostic) : list Diagnostic :=
  match l with
  | [] => [d]
  | x :: r => if (compareDiag d x <=? 0)%Z then d :: x :: r
              else x :: insertDiag d r
  end.

Definition sortDiags (l : list Diagnostic) : list Diagnostic :=
  foldr insertDiag [] l.

(** The diagnostics in production order, before the final sort. *)
Definition lintCollect (text : jsstring) : list Diagnostic :=
  diags (lintEnd (lintLines 1 (splitOn NEWLINE text) lintInit)).

Definition lintModuleText (text : jsstring) : list Diagnostic :=
  sortDiags (lintCollect text).

End LinterWithCase.

(** ** Source block indexer ([source_index.ts]) *)

Record RawBlock := {
  startLine : Z;
  endLine : Z;
  text : jsstring
}.

(** The block currently open: its id and the index of its first line. *)
Record OpenBlock := { ob_id : jsstring; startIdx : nat }.

Record IndexState := {
  map_ : gmap jsstring RawBlock;
  current : option OpenBlock
}.

Section IndexerWithCase.
Context `{UnicodeCase}.

(** [generateActivityId] of [source_index.ts]. *)
Definition indexActivityId (type title : jsstring) : jsstring :=
  type ++ [DASH] ++ slug (orStr (Some title) (str "untitled")).

(** The inner function [close].  The end index handed to
    [lines.slice] is never negative: a block is only closed at a line after
    the one that opened it. *)
Definition closeBlock (lines : list jsstring) (endIdxInclusive : Z)
    (st : IndexState) : IndexState :=
  match current st with
  | None => st
  | Some c =>
      let upto := Z.to_nat (endIdxInclusive + 1) in
      {| map_ :=
           <[ob_id c :=
               {| startLine := Z.of_nat (startIdx c) + 1;
                  endLine := endIdxInclusive + 1;
                  text := join [NEWLINE]
                            (drop (startIdx c) (take upto lines)) |}]>
             (map_ st);
         current := None |}
  end.

(** One iteration of the loop, at index [i]. *)
Definition indexLine (lines : list jsstring) (i : nat) (raw : jsstring)
    (st : IndexState) : IndexState :=
  let trimmedEnd := trimEnd raw in
  if negb (startsWith trimmedEnd [DOLLAR]) then st
  else
    let st := closeBlock lines (Z.of_nat i - 1) st in
    match markerMatch trimmedEnd with
    | None => st
    | Some (marker, m2) =>
        let title := trim (default [] m2) in
        match activityOfMarker marker with
        | Some _ =>
            {| map_ := map_ st;
               current :=
                 Some {| ob_id := indexActivityId marker
                                    (orStr (Some title) marker);
                         startIdx := i |} |}
        | None => st
        end
    end.

Fixpoint indexLoop (lines : list jsstring) (i : nat) (todo : list jsstring)
    (st : IndexState) : IndexState :=
  match todo with
  | [] => st
  | raw :: rest => indexLoop lines (S i) rest (indexLine lines i raw st)
  end.

Definition buildActivityRawIndex (content : jsstring) : gmap jsstring RawBlock :=
  let lines := splitOn NEWLINE content in
  map_ (closeBlock lines (Z.of_nat (length lines) - 1)
          (indexLoop lines 0 lines {| map_ := ∅; current := None |})).

End IndexerWithCase.

(** ** Vocabulary of the statements

    The definitions below are not part of the program: they name the
    inputs, outputs and invariants the properties speak about. *)

(** *** Buffer entries *)

(** The tagged entries [handleActivityField] pushes on the buffer. *)
Definition vocabTag (w : jsstring) : jsstring := str "VOCAB:" ++ w.
Definition vocabTTag (d : jsstring) : jsstring := str "VOCAB_T:" ++ d.
Definition lineTag (t : jsstring) : jsstring := str "LINE:" ++ t.
Definition promptTag (v : jsstring) : jsstring := str "PROMPT:" ++ v.
Definition responseTag (v : jsstring) : jsstring := str "RESPONSE:" ++ v.
Definition exampleTag : jsstring := str "EXAMPLE:".

(** The entry of a speaker tag. *)
Definition speakerTag (s : jsstring) : jsstring := str "SPEAKER:" ++ s.

(** A buffer entry that [parseDialogueLines] reads as one of the two
    vocabulary tags. *)
Definition isVocabTag (item : jsstring) : bool :=
  startsWith item (str "VOCAB:") || startsWith item (str "VOCAB_T:").

(** A buffer entry that [parseDialogueLines] reads as a speaker tag or as
    a line tag: the two entries that take the pending vocabulary. *)
Definition takesVocabulary (item : jsstring) : bool :=
  startsWith item (str "SPEAKER:") || startsWith item (str "LINE:").

(** A vocab-word entry of the buffer is still waiting for its line: one
    stands after the last speaker or line entry.  [pending] tells whether
    one was waiting before the buffer. *)
Fixpoint wordPending (pending : bool) (buffer : list jsstring) : bool :=
  match buffer with
  | [] => pending
  | item :: rest =>
      wordPending
        (if startsWith item (str "VOCAB:") then true
         else if takesVocabulary item then false
         else pending)
        rest
  end.

(** Vocabulary entries are pending in the state of the loop. *)
Definition hasPending (st : DialogueState) : bool :=
  match pendingVocab st with [] => false | _ :: _ => true end.

(** The reading of the ordering rule for every buffer: wherever a
    vocab-word entry and a vocab-translation entry stand next to each
    other, their order does not matter. *)
Definition pairOrderFree : Prop :=
  ∀ (P S : list jsstring) (w d : jsstring),
    parseDialogueLines (P ++ [vocabTag w; vocabTTag d] ++ S)
    = parseDialogueLines (P ++ [vocabTTag d; vocabTag w] ++ S).

(** The vocabulary list holding the single pair [(w, d)]. *)
Definition onePair (w d : jsstring) : option (list VocabEntry) :=
  Some [{| word := w; definition := d |}].

(** A line is [carried] by a state when it is already among the finished
    lines or is the in-progress line. *)
Definition carried (t : jsstring) (v : option (list VocabEntry))
    (st : DialogueState) : Prop :=
  (∃ l, l ∈ ds_lines st ∧ dl_text l = t ∧ dl_vocab l = v)
  ∨ (pl_text (currentLine st) = Some t ∧ pl_vocab (currentLine st) = v).

(** The reading of the vocab-translation rule under which a translation is
    held back whenever the most recent pending entry already has a
    definition. *)
Definition heldWhenDefined : Prop :=
  ∀ (st : DialogueState) (d : jsstring) (vs : list VocabEntry) (e : VocabEntry),
    pendingVocab st = vs ++ [e] →
    definition e ≠ [] →
    pendingVocab (dialogueStep st (vocabTTag d)) = pendingVocab st
    ∧ pendingVocabDefinition (dialogueStep st (vocabTTag d)) = Some (trim d).

(** The state of the loop after the entries [VOCAB:a; VOCAB_T:x]. *)
Definition afterDefinedPair : DialogueState :=
  fold_left dialogueStep [vocabTag (str "a"); vocabTTag (str "x")]
    dialogueInit.

(** A complete exercise item without translations. *)
Definition plainItem (p r : jsstring) (ex : bool) : ExerciseItem :=
  {| ei_prompt := p; ei_promptTranslation := None; ei_response := r;
     ei_responseTranslation := None; ei_isExample := ex |}.

(** A field value as it stands in a line of the text: not empty, with no
    white space at either end, and free of line terminators. *)
Definition cleanValue (v : jsstring) : Prop :=
  v ≠ [] ∧ trim v = v ∧ forallb (λ c, negb (isLineTerminator c)) v = true.

(** The five body lines of the fourth example scenario, for any values. *)
Definition exampleBody (a b c d : jsstring) : list jsstring :=
  [str "EXAMPLE"; str "PROMPT: " ++ a; str "RESPONSE: " ++ b;
   str "PROMPT: " ++ c; str "RESPONSE: " ++ d].

(** *** Mandatory header fields *)

(** The four mandatory header fields, in the order the parser validates
    them. *)
Inductive MandatoryField := DocId | Title | TargetLang | HomeLang.

(** The slot of the header accumulator a mandatory field fills. *)
Definition slot (f : MandatoryField) (m : PartialModule) : option jsstring :=
  match f with
  | DocId => pm_diocoDocId m
  | Title => pm_title m
  | TargetLang => pm_targetLang_G m
  | HomeLang => pm_homeLang_G m
  end.

(** The field names that fill the slot; the home language has a legacy
    alias. *)
Definition fieldNames (f : MandatoryField) : list jsstring :=
  match f with
  | DocId => [str "DIOCO_DOC_ID"]
  | Title => [str "TITLE"]
  | TargetLang => [str "TARGET_LANG_G"]
  | HomeLang => [str "HOME_LANG_G"; str "USER_LANG_G"]
  end.

(** The error raised for a missing field. *)
Definition missingMessage (f : MandatoryField) : jsstring :=
  match f with
  | DocId => str "Missing DIOCO_DOC_ID in .module file"
  | Title => str "Missing TITLE in .module file"
  | TargetLang => str "Missing TARGET_LANG_G in .module file"
  | HomeLang => str "Missing HOME_LANG_G in .module file"
  end.

(** The position of a field in the validation order. *)
Definition checkOrder (f : MandatoryField) : nat :=
  match f with DocId => 0 | Title => 1 | TargetLang => 2 | HomeLang => 3 end.

(** [g] is validated before [f]. *)
Definition checkedBefore (g f : MandatoryField) : bool :=
  bool_decide (checkOrder g < checkOrder f)%nat.

(** The line is not a field line with one of the names of [f]. *)
Definition notFieldLineOf (f : MandatoryField) (raw : jsstring) : bool :=
  match fieldMatch (trimEnd raw) with
  | Some (name, _) => negb (has (fieldNames f) name)
  | None => true
  end.

(** No line of the text is a field line with one of the names of [f]. *)
Definition fieldAbsent (f : MandatoryField) (text : jsstring) : bool :=
  forallb (notFieldLineOf f) (splitOn NEWLINE text).

(** *** Activity ids *)

(** The ids of the activities of a lesson. *)
Definition lessonIds (l : LessonContent) : list jsstring :=
  map act_id (activities l).

(** The ids of the activities of a parsed module, in document order. *)
Definition moduleActivityIds (m : LcModule) : list jsstring :=
  flat_map lessonIds (lessons m).

(** The ids of all activities the parser holds: in finished lessons, in
    the open lesson, and the open activity. *)
Definition parserIds (st : ParserState) : list jsstring :=
  flat_map lessonIds (pm_lessons (module st))
  ++ from_option lessonIds [] (currentLesson st)
  ++ from_option (λ a, [act_id a]) [] (currentActivity st).

(** An open activity always has an open lesson to go to. *)
Definition lessonReady (st : ParserState) : Prop :=
  is_Some (currentActivity st) → is_Some (currentLesson st).

(** The title the parser gives an activity whose marker has none. *)
Definition defaultTitle (t : ActivityType) : jsstring :=
  match t with
  | DIALOGUE => str "Dialogue"
  | GRAMMAR => str "Grammar"
  | EXERCISE => str "Exercise"
  | CHAT => str "Chat"
  end.

(** The keys the indexer holds: those of closed blocks and that of the
    open block. *)
Definition indexKeys (st : IndexState) : gset jsstring :=
  dom (map_ st) ∪ from_option (λ c, {[ob_id c]}) ∅ (current st).

Section ActivityIds.
Context `{UnicodeCase}.

(** The id the parser gives to the activity a line opens, if the line is
    an activity marker. *)
Definition openedId (raw : jsstring) : option jsstring :=
  let l := trimEnd raw in
  if startsWith l [DOLLAR] then
    match markerMatch l with
    | Some (marker, ttl) =>
        match activityOfMarker marker with
        | Some kind =>
            Some (generateActivityId (typeName kind)
                    (orStr ttl (defaultTitle kind)))
        | None => None
        end
    | None => None
    end
  else None.

End ActivityIds.

(** The contents of the grammar activities of a module, in order. *)
Definition grammarContents (m : LcModule) : list jsstring :=
  flat_map
    (λ l, flat_map
            (λ a, match act_payload a with
                  | GrammarPayload c => [c]
                  | _ => []
                  end)
            (activities l))
    (lessons m).

(** *** Diagnostics *)

(** The order the comparator induces: [a] may stand before [b]. *)
Definition diagLe (a b : Diagnostic) : Prop := (compareDiag a b <= 0)%Z.

(** Two diagnostics with the same sort key. *)
Definition hasKey (s : Severity) (n : Z) (d : Diagnostic) : Prop :=
  severity d = s ∧ line d = n.

#[export] Instance hasKey_dec s n d : Decision (hasKey s n d).
Proof. unfold hasKey. apply _. Defined.

(** [st'] has every diagnostic of [st], in the same order, and possibly
    more after them. *)
Definition extends (st st' : LintState) : Prop :=
  diags st `prefix_of` diags st'.

(** The codes of the diagnostics a step adds to a state. *)
Definition addedCodes (st st' : LintState) : list (option jsstring) :=
  code <$> drop (length (diags st)) (diags st').

(** The diagnostic of the column-0 rule for fields. *)
Definition fieldIndentDiag (lineNo : Z) : Diagnostic :=
  {| severity := error; line := lineNo;
     message := str "Field must start at column 0 (no leading whitespace).";
     code := Some (str "field-indent") |}.

(** The diagnostic for a voice name outside the allow-list. *)
Definition voiceInvalidDiag (lineNo : Z) (voiceName : jsstring) : Diagnostic :=
  {| severity := error; line := lineNo;
     message := msgUnknownVoice voiceName;
     code := Some (str "voice-invalid") |}.

(** The warning for an example marker no prompt consumed. *)
Definition exampleNotAppliedDiag (lineNo : Z) : Diagnostic :=
  {| severity := warning; line := lineNo;
     message :=
       str "EXAMPLE marker must be immediately followed by an exercise item (PROMPT...).";
     code := Some (str "example-not-applied") |}.

(** *** Voice fields *)

(** The linter is in header context: the state in which it validates
    voice fields. *)
Definition headerCtx (st : LintState) : Prop :=
  inHeader st = true ∧ currentLessonLine st = None
  ∧ lint_currentActivity st = None.

(** The line is a lesson marker or an activity marker: the lines that
    end the module header. *)
Definition leavesHeader (raw : jsstring) : bool :=
  let l := trimEnd raw in
  if startsWith l [DOLLAR] then
    match markerMatch l with
    | Some (marker, _) =>
        match activityOfMarker marker with
        | Some _ => true
        | None => streq marker (str "LESSON")
        end
    | None => false
    end
  else false.

(** The voice name a voice field carries, for each of the three shapes of
    voice field, as the linter extracts it from the trimmed value. *)
Definition voiceNameOf (field value : jsstring) : option jsstring :=
  if streq field (str "VOICE_SPEAKER") then
    match speakerMatch value with
    | Some (_, m2, _) => Some (trim m2)
    | None => None
    end
  else if streq field (str "VOICE") then
    match map trim (splitOn PIPE value) with
    | _ :: _ :: voiceName :: _ => Some voiceName
    | _ => None
    end
  else if has voiceFields field then
    match voiceMatch value with
    | Some (m1, _) => Some (trim m1)
    | None => None
    end
  else None.

(** No two names of the allow-list differ only in the case of ASCII
    letters. *)
Definition allowListCaseDistinct : bool :=
  forallb
    (λ a, forallb
            (λ b, implb (streq (map asciiLower a) (map asciiLower b))
                    (streq a b))
            VALID_GEMINI_VOICES)
    VALID_GEMINI_VOICES.

(** *** Sample texts *)

(** The complete header shared by the sample texts. *)
Definition headerLines : list jsstring :=
  [str "$MODULE"; str "DIOCO_DOC_ID: x"; str "TITLE: T";
   str "TARGET_LANG_G: fr"; str "HOME_LANG_G: en"].

(** The module of the first example scenario. *)
Definition scenarioOneText : jsstring :=
  join [NEWLINE]
    (headerLines
     ++ [[]; str "$LESSON L1"; []; str "$DIALOGUE D1"; str "SPEAKER: A";
         str "LINE: Bonjour"; str "LINE_T: Hello"; []]).

(** The fourth example scenario as a whole module. *)
Definition exerciseScenarioText : jsstring :=
  join [NEWLINE]
    (headerLines
     ++ [str "$LESSON L"; str "$EXERCISE E"; str "EXAMPLE"; str "PROMPT: a";
         str "RESPONSE: b"; str "PROMPT: c"; str "RESPONSE: d"; []]).

(** A complete header without a home-language line. *)
Definition noHomeLangText : jsstring :=
  join [NEWLINE]
    [str "$MODULE"; str "DIOCO_DOC_ID: x"; str "TITLE: T";
     str "TARGET_LANG_G: fr"].

(** The same with the legacy home-language field. *)
Definition legacyHomeLangText : jsstring :=
  join [NEWLINE]
    [str "$MODULE"; str "DIOCO_DOC_ID: x"; str "TITLE: T";
     str "TARGET_LANG_G: fr"; str "USER_LANG_G: en"].

(** A module header whose title line is indented by one space. *)
Definition indentedTitleText : jsstring :=
  join [NEWLINE]
    [str "$MODULE"; str "DIOCO_DOC_ID: x"; str " TITLE: T";
     str "TARGET_LANG_G: fr"; str "HOME_LANG_G: en"].

(** The same header with the title line at column 0. *)
Definition flushTitleText : jsstring :=
  join [NEWLINE]
    [str "$MODULE"; str "DIOCO_DOC_ID: x"; str "TITLE: T";
     str "TARGET_LANG_G: fr"; str "HOME_LANG_G: en"].

(** A grammar activity whose body is one line shaped like a field with a
    buffered tag name. *)
Definition grammarNotesText : jsstring :=
  join [NEWLINE]
    (headerLines ++ [str "$LESSON L"; str "$GRAMMAR G"; str "NOTES: keep this"]).

(** The same with a field name the parser has no case for. *)
Definition grammarUnknownFieldText : jsstring :=
  join [NEWLINE]
    (headerLines ++ [str "$LESSON L"; str "$GRAMMAR G"; str "REMARK: keep this"]).

(** An exercise whose example marker is followed by the next activity
    marker instead of a prompt. *)
Definition exampleThenMarkerText : jsstring :=
  join [NEWLINE]
    (headerLines
     ++ [str "$LESSON L"; str "$EXERCISE E"; str "EXAMPLE"; str "$DIALOGUE D";
         str "LINE: Bonjour"]).

(** The same text cut after the example marker. *)
Definition exampleThenEndText : jsstring :=
  join [NEWLINE]
    (headerLines ++ [str "$LESSON L"; str "$EXERCISE E"; str "EXAMPLE"]).

(** A small module text that draws one error and two warnings from the
    linter: no module marker, and two raw lines outside any activity. *)
Definition strayLinesText : jsstring :=
  join [NEWLINE] [str "$LESSON One"; str "stray"; str "stray again"].

(** A header that sets the default voice in lower case. *)
Definition lowerCaseVoiceText : jsstring :=
  join [NEWLINE] [str "$MODULE"; str "VOICE_DEFAULT: aoede"].

(** ** Vocabulary of the further properties *)

(** *** Content parsers *)

(** The text a buffer entry contributes as a dialogue line: the trimmed
    remainder of an entry tagged [LINE:]. *)
Definition lineText (item : jsstring) : option jsstring :=
  if startsWith item (str "LINE:") then Some (trim (slice 5 item)) else None.

(** The prompt a buffer entry opens: the trimmed remainder of an entry
    tagged [PROMPT:]. *)
Definition promptText (item : jsstring) : option jsstring :=
  if startsWith item (str "PROMPT:") then Some (trim (slice 7 item)) else None.

(** The texts [parseDialogueLines] holds after part of the buffer: those of
    the finished lines, then that of the line in progress. *)
Definition textsOf (st : DialogueState) : list jsstring :=
  (dl_text <$> ds_lines st)
  ++ (if truthy (pl_text (currentLine st))
      then [orStr (pl_text (currentLine st)) []] else []).

(** The non-empty strings of a list, in order. *)
Definition nonEmpty (l : list jsstring) : list jsstring :=
  filter (λ t : jsstring, t ≠ []) l.

(** An exercise item with a prompt and a response, neither empty. *)
Definition completeItem (i : ExerciseItem) : Prop :=
  ei_prompt i ≠ [] ∧ ei_response i ≠ [].

(** The prompts [parseExerciseItems] holds after part of the buffer: those
    of the finished items, then that of the item in progress. *)
Definition promptsOf (st : ExerciseState) : list jsstring :=
  (ei_prompt <$> es_items st) ++ option_list (pi_prompt (currentItem st)).

(** *** Lines of a module text *)

(** A comment line, by the parser's test: the first character that is not
    white space is the hash sign. *)
Definition isCommentLine (raw : jsstring) : bool :=
  startsWith (trimStart (trimEnd raw)) [HASH].

(** A line made of white space only. *)
Definition isBlankLine (raw : jsstring) : bool := forallb isSpace raw.

(** A string that can stand as one line of a text: it has no newline. *)
Definition oneLine (raw : jsstring) : Prop := Forall (λ c, c ≠ NEWLINE) raw.

(** The sections a marker line can open. *)
Inductive SectionKind :=
| LessonSection (title : option jsstring)
| ActivitySection (kind : ActivityType) (title : option jsstring).

(** The section a line opens, if it is a lesson marker or an activity
    marker at column 0. *)
Definition sectionOf (raw : jsstring) : option SectionKind :=
  let l := trimEnd raw in
  if startsWith l [DOLLAR] then
    match markerMatch l with
    | Some (marker, ttl) =>
        if streq marker (str "LESSON") then Some (LessonSection ttl)
        else match activityOfMarker marker with
             | Some kind => Some (ActivitySection kind ttl)
             | None => None
             end
    | None => None
    end
  else None.

(** The first section of the text is an activity: an activity marker
    comes before any lesson marker. *)
Definition startsWithActivity (lines : list jsstring) : bool :=
  match omap sectionOf lines with
  | ActivitySection _ _ :: _ => true
  | _ => false
  end.

(** The id and the title of a lesson. *)
Definition lessonHead (l : LessonContent) : jsstring * jsstring :=
  (lesson_id l, lesson_title l).

(** The lesson the parser makes up for activities that come before any
    lesson marker. *)
Definition defaultLessonHead : jsstring * jsstring :=
  (str "default-lesson", str "Default Lesson").

(** The default lesson, when no lesson is open. *)
Definition defaultIfNone (open : option LessonContent)
  : list (jsstring * jsstring) :=
  match open with
  | Some _ => []
  | None => [defaultLessonHead]
  end.

(** The lessons the parser holds: the finished ones, then the open one. *)
Definition lessonsOf (st : ParserState) : list LessonContent :=
  pm_lessons (module st) ++ option_list (currentLesson st).

(** Finished lessons exist only once a lesson has been opened. *)
Definition lessonsStarted (st : ParserState) : Prop :=
  currentLesson st = None → pm_lessons (module st) = [].

(** The module metadata: everything in the parser state that the header
    lines set. *)
Definition headerOf (st : ParserState)
  : (option jsstring * option jsstring * option jsstring * option jsstring)
    * (option jsstring * option jsstring * option jsstring)
    * ModuleVoiceConfig :=
  let m := module st in
  ((pm_diocoDocId m, pm_title m, pm_description m, pm_image m),
   (pm_targetLang_G m, pm_homeLang_G m, pm_ttsPrompt m),
   ps_voiceConfig st).

(** The outcome of a parse without the lessons: the error, or the
    metadata of the module. *)
Definition metadataOf (r : jsstring + LcModule)
  : jsstring
    + ((jsstring * jsstring * option jsstring * option jsstring)
       * (jsstring * jsstring * option jsstring) * ModuleVoiceConfig) :=
  match r with
  | inl e => inl e
  | inr m => inr ((diocoDocId m, title m, description m, image m),
                  (targetLang_G m, homeLang_G m, ttsPrompt m),
                  voiceConfig m)
  end.

Section LessonHeads.
Context `{UnicodeCase}.

(** The id and title of the lesson a line opens, if it is a lesson
    marker. *)
Definition lessonHeadOf (raw : jsstring) : option (jsstring * jsstring) :=
  match sectionOf raw with
  | Some (LessonSection ttl) =>
      Some (generateLessonId (orStr ttl (str "Untitled")),
            orStr ttl (str "Untitled Lesson"))
  | _ => None
  end.

End LessonHeads.

(** *** Further sample texts *)

(** A module whose first section is an activity, followed by a lesson. *)
Definition activityFirstText : jsstring :=
  join [NEWLINE]
    (headerLines
     ++ [str "$DIALOGUE D"; str "LINE: Bonjour"; str "$LESSON Two";
         str "$CHAT"]).


(** *** Slugs *)

(** The shape of a slug: lower-case letters, digits and dashes, with no
    dash at either end and no two dashes in a row. *)
Definition slugShaped (t : jsstring) : Prop :=
  Forall (λ c, isSlugChar c = true ∨ c = DASH) t
  ∧ head t ≠ Some DASH
  ∧ last t ≠ Some DASH
  ∧ ∀ a b, t ≠ a ++ DASH :: DASH :: b.

(** A recogniser for the strings over the slug alphabet in which no dash
    follows a dash; with [prev] set the string must not start with one. *)
Fixpoint dashed (prev : bool) (s : jsstring) : bool :=
  match s with
  | [] => true
  | c :: s' =>
      if isSlugChar c then dashed false s'
      else (c =? DASH) && negb prev && dashed true s'
  end.

(** *** Source blocks *)

Section Blocks.
Context `{UnicodeCase}.

(** A block filed under [id] is sound for the lines of a text: it spans
    the lines of index [i] to [j], its first line is an activity marker
    whose id is [id], no later line of it starts with the sigil, the line
    after it (if any) does, and its text is those lines joined. *)
Definition soundBlock (lines : list jsstring) (id : jsstring) (blk : RawBlock)
  : Prop :=
  ∃ i j : nat,
    startLine blk = (Z.of_nat i + 1)%Z
    ∧ endLine blk = (Z.of_nat j + 1)%Z
    ∧ (i ≤ j < length lines)%nat
    ∧ text blk = join [NEWLINE] (drop i (take (S j) lines))
    ∧ (∃ raw, lines !! i = Some raw ∧ openedId raw = Some id)
    ∧ (∀ k raw, (i < k ≤ j)%nat → lines !! k = Some raw →
                startsWith (trimEnd raw) [DOLLAR] = false)
    ∧ (∀ raw, lines !! S j = Some raw →
              startsWith (trimEnd raw) [DOLLAR] = true).

(** The block in progress when the loop reaches line [i]. *)
Definition openBlockOk (lines : list jsstring) (i : nat) (c : OpenBlock)
  : Prop :=
  (startIdx c < i)%nat
  ∧ (∃ raw, lines !! startIdx c = Some raw ∧ openedId raw = Some (ob_id c))
  ∧ ∀ k raw, (startIdx c < k < i)%nat → lines !! k = Some raw →
             startsWith (trimEnd raw) [DOLLAR] = false.

(** The invariant of the loop of [buildActivityRawIndex] at line [i]:
    the blocks filed are sound, so is the block in progress, and every
    activity marker met so far is covered by a block under its id that
    starts at that marker or later. *)
Definition indexInv (lines : list jsstring) (i : nat) (st : IndexState)
  : Prop :=
  (∀ id blk, map_ st !! id = Some blk → soundBlock lines id blk)
  ∧ (∀ c, current st = Some c → openBlockOk lines i c)
  ∧ (∀ k raw id, (k < i)%nat → lines !! k = Some raw →
       openedId raw = Some id →
       (∃ c, current st = Some c ∧ ob_id c = id ∧ (k ≤ startIdx c)%nat)
       ∨ (∃ blk, map_ st !! id = Some blk
                 ∧ (Z.of_nat k + 1 ≤ startLine blk)%Z)).

End Blocks.

(** A text with two activities that get the same id. *)
Definition twoGreetingsText : jsstring :=
  join [NEWLINE]
    [str "$DIALOGUE Greetings"; str "LINE: a"; str "$LESSON L";
     str "$DIALOGUE greetings!"; str "LINE: b"; str "LINE: c"].

(** *** Invariants of the linter *)

(** The codes of the diagnostics the linter adds only after the loop over
    the lines. *)
Definition endOnlyCodes : list jsstring :=
  [str "example-not-applied"; str "no-sections"; str "missing-module";
   str "missing-dioco-doc-id"; str "missing-title";
   str "missing-target-lang"; str "missing-home-lang"].

(** A recorded line number lies within the first [n] lines. *)
Definition inRange (n : Z) (o : option Z) : Prop :=
  ∀ l, o = Some l → (1 ≤ l ≤ n)%Z.

(** A diagnostic on one of the first [n] lines, with a code that is not
    among the [reserved] ones. *)
Definition loopDiag (reserved : list jsstring) (n : Z) (d : Diagnostic) : Prop :=
  (1 ≤ line d ≤ n)%Z ∧ ∀ c, code d = Some c → has reserved c = false.

(** The invariant of [lintModuleText] after [n] lines: the diagnostics
    are filed under lines met so far, none has a reserved code, and the
    trackers hold lines met so far. *)
Definition lintInv (reserved : list jsstring) (n : Z) (st : LintState) : Prop :=
  Forall (loopDiag reserved n) (diags st)
  ∧ inRange n (pendingVocabWord st)
  ∧ inRange n (pendingExerciseExample st).

(** The values the loop assigns to a tracker of a pending line at line
    [n]: nothing, the line itself, or the value [old] it already has. *)
Definition trackerValue (n : Z) (old new : option Z) : Prop :=
  new = None ∨ new = Some n ∨ new = old.

(** The lines a diagnostic is filed under at line [n]: the line itself,
    the first line, or a line one of the two trackers holds. *)
Definition filedUnder (n : Z) (st : LintState) (ln : Z) : Prop :=
  ln = n ∨ ln = 1%Z
  ∨ pendingVocabWord st = Some ln ∨ pendingExerciseExample st = Some ln.

(** [t] has the flags of [s], and every header field recorded in [s] is
    still recorded in [t]. *)
Definition keepsHeader (s t : LintState) : Prop :=
  sawModuleMarker t = sawModuleMarker s
  ∧ sawAnySectionMarker t = sawAnySectionMarker s
  ∧ ∀ k, is_Some (seenHeader s !! k) → is_Some (seenHeader t !! k).

(** The header tables the loop assigns: the table [old] it has, or that
    table with one more entry. *)
Definition tableValue (old new : gmap jsstring Z) : Prop :=
  new = old ∨ ∃ k n, new = <[k := n]> old.

(** A line that starts with the sigil at column 0. *)
Definition isMarkerLine (raw : jsstring) : bool :=
  startsWith (trimEnd raw) [DOLLAR].

(** A module marker line. *)
Definition isModuleMarker (raw : jsstring) : bool :=
  isMarkerLine raw
  && match markerMatch (trimEnd raw) with
     | Some (marker, _) => streq marker (str "MODULE")
     | None => false
     end.

(** The error for a text without any marker line. *)
Definition noSectionsDiag : Diagnostic :=
  {| severity := error; line := 1;
     message :=
       str "No section markers found. A .module should contain at least `$MODULE` and `$LESSON`/activities.";
     code := Some (str "no-sections") |}.

(** The error for a text without a module marker. *)
Definition missingModuleDiag : Diagnostic :=
  {| severity := error; line := 1;
     message := str "Missing `$MODULE` header.";
     code := Some (str "missing-module") |}.

(** The codes of the errors for a missing mandatory header field. *)
Definition missingFieldCodes : list jsstring :=
  [str "missing-dioco-doc-id"; str "missing-title";
   str "missing-target-lang"; str "missing-home-lang"].

(** A diagnostic whose code is none of the given ones. *)
Definition codeOutside (codes : list jsstring) (d : Diagnostic) : Prop :=
  ∀ c, code d = Some c → has codes c = false.

(** Line [i] of the lines supplies the mandatory field [f] to the header:
    it is a field line with one of the names of [f], and no lesson marker
    or activity marker stands before it. *)
Definition suppliesField (f : MandatoryField) (lines : list jsstring) (i : nat)
  : Prop :=
  ∃ raw name v,
    lines !! i = Some raw
    ∧ fieldMatch (trimEnd raw) = Some (name, v)
    ∧ name ∈ fieldNames f
    ∧ forallb (λ l, negb (leavesHeader l)) (take i lines) = true.

(** ** Course parser ([parseCourseFile], lc_parser.ts lines 44 to 104) *)

(** [Partial<Course>]: the accumulator of the loop. *)
Record PartialCourse := {
  pc_diocoPlaylistId : option jsstring;
  pc_title : option jsstring;
  pc_description : option jsstring;
  pc_image : option jsstring;
  pc_targetLang_G : option jsstring;
  pc_homeLang_G : option jsstring
}.

(** The parsed [Course]. *)
Record Course := {
  c_diocoPlaylistId : jsstring;
  c_title : jsstring;
  c_description : jsstring;
  c_image : option jsstring;
  c_targetLang_G : jsstring;
  c_homeLang_G : jsstring
}.

Definition emptyCourse : PartialCourse :=
  {| pc_diocoPlaylistId := None; pc_title := None; pc_description := None;
     pc_image := None; pc_targetLang_G := None; pc_homeLang_G := None |}.

(** [s.indexOf(c)] for a one-character needle: the index of its first
    occurrence, or -1. *)
Fixpoint indexOf (c : N) (s : jsstring) : Z :=
  match s with
  | [] => (-1)%Z
  | x :: s' =>
      if x =? c then 0%Z
      else let i := indexOf c s' in
           if (i <? 0)%Z then (-1)%Z else (i + 1)%Z
  end.

(** The [switch] over the field name. *)
Definition assignCourseField (field value : jsstring) (r : PartialCourse)
  : PartialCourse :=
  if streq field (str "DIOCO_PLAYLIST_ID") then
    {| pc_diocoPlaylistId := Some value; pc_title := pc_title r;
       pc_description := pc_description r; pc_image := pc_image r;
       pc_targetLang_G := pc_targetLang_G r; pc_homeLang_G := pc_homeLang_G r |}
  else if streq field (str "TITLE") then
    {| pc_diocoPlaylistId := pc_diocoPlaylistId r; pc_title := Some value;
       pc_description := pc_description r; pc_image := pc_image r;
       pc_targetLang_G := pc_targetLang_G r; pc_homeLang_G := pc_homeLang_G r |}
  else if streq field (str "DESCRIPTION") then
    {| pc_diocoPlaylistId := pc_diocoPlaylistId r; pc_title := pc_title r;
       pc_description := Some value; pc_image := pc_image r;
       pc_targetLang_G := pc_targetLang_G r; pc_homeLang_G := pc_homeLang_G r |}
  else if streq field (str "IMAGE") then
    {| pc_diocoPlaylistId := pc_diocoPlaylistId r; pc_title := pc_title r;
       pc_description := pc_description r; pc_image := Some value;
       pc_targetLang_G := pc_targetLang_G r; pc_homeLang_G := pc_homeLang_G r |}
  else if streq field (str "TARGET_LANG_G") then
    {| pc_diocoPlaylistId := pc_diocoPlaylistId r; pc_title := pc_title r;
       pc_description := pc_description r; pc_image := pc_image r;
       pc_targetLang_G := Some value; pc_homeLang_G := pc_homeLang_G r |}
  else if streq field (str "HOME_LANG_G") || streq field (str "USER_LANG_G") then
    {| pc_diocoPlaylistId := pc_diocoPlaylistId r; pc_title := pc_title r;
       pc_description := pc_description r; pc_image := pc_image r;
       pc_targetLang_G := pc_targetLang_G r; pc_homeLang_G := Some value |}
  else r.

(** One iteration of the loop over the lines. *)
Definition courseStep (r : PartialCourse) (line : jsstring) : PartialCourse :=
  let trimmed := trim line in
  if negb (truthy (Some trimmed)) || startsWith trimmed [HASH] then r
  else if streq trimmed (str "$COURSE") then r
  else
    let colonIndex := indexOf COLON trimmed in
    if (0 <? colonIndex)%Z then
      let field := trim (take (Z.to_nat colonIndex) trimmed) in
      let value := trim (drop (Z.to_nat (colonIndex + 1)) trimmed) in
      assignCourseField field value r
    else r.

(** The validation after the loop, and the record returned. *)
Definition validateCourse (r : PartialCourse) : jsstring + Course :=
  if negb (truthy (pc_diocoPlaylistId r)) then
    inl (str "Missing DIOCO_PLAYLIST_ID in .course file")
  else if negb (truthy (pc_title r)) then
    inl (str "Missing TITLE in .course file")
  else if negb (truthy (pc_targetLang_G r)) then
    inl (str "Missing TARGET_LANG_G in .course file")
  else if negb (truthy (pc_homeLang_G r)) then
    inl (str "Missing HOME_LANG_G in .course file")
  else
    inr {| c_diocoPlaylistId := orStr (pc_diocoPlaylistId r) [];
           c_title := orStr (pc_title r) [];
           c_description := orStr (pc_description r) [];
           c_image := orNull (pc_image r);
           c_targetLang_G := orStr (pc_targetLang_G r) [];
           c_homeLang_G := orStr (pc_homeLang_G r) [] |}.

Definition parseCourseFile (content : jsstring) : jsstring + Course :=
  validateCourse (fold_left courseStep (splitOn NEWLINE content) emptyCourse).

(** *** Vocabulary of the course properties *)

(** The field name and the value a line of a course file carries: the
    trimmed text before and after its first colon, for a line that is
    neither blank, nor a comment, nor the course marker, and whose first
    colon is not its first character. *)
Definition courseFieldOf (line : jsstring) : option (jsstring * jsstring) :=
  let t := trim line in
  match t with
  | [] => None
  | c :: _ =>
      if (c =? HASH) || (c =? COLON) || streq t (str "$COURSE") then None
      else
        match dropWhile (λ x, negb (x =? COLON)) t with
        | [] => None
        | _ :: rest => Some (trim (takeWhile (λ x, negb (x =? COLON)) t),
                             trim rest)
        end
  end.

(** The value the last line with one of the given field names carries. *)
Definition lastValue (names : list jsstring) (lines : list jsstring)
  : option jsstring :=
  last (omap (λ l, match courseFieldOf l with
                   | Some (k, v) => if has names k then Some v else None
                   | None => None
                   end) lines).

(** The accumulator in which every slot holds the value of the last line
    that names it. *)
Definition lastValues (lines : list jsstring) : PartialCourse :=
  {| pc_diocoPlaylistId := lastValue [str "DIOCO_PLAYLIST_ID"] lines;
     pc_title := lastValue [str "TITLE"] lines;
     pc_description := lastValue [str "DESCRIPTION"] lines;
     pc_image := lastValue [str "IMAGE"] lines;
     pc_targetLang_G := lastValue [str "TARGET_LANG_G"] lines;
     pc_homeLang_G := lastValue [str "HOME_LANG_G"; str "USER_LANG_G"] lines |}.

(** A course file in the layout the parser documents. *)
Definition courseText (id ttl desc img target home : jsstring) : jsstring :=
  join [NEWLINE]
    [str "$COURSE";
     str "DIOCO_PLAYLIST_ID: " ++ id;
     str "TITLE: " ++ ttl;
     str "DESCRIPTION: " ++ desc;
     str "IMAGE: " ++ img;
     str "TARGET_LANG_G: " ++ target;
     str "HOME_LANG_G: " ++ home].

(** A value as it stands after a field name: trimmed, and on one line. *)
Definition plainValue (v : jsstring) : Prop := trim v = v ∧ oneLine v.

(** A field name as it is written in a course file: not empty, free of
    white space and colons, and not starting with the hash sign. *)
Definition keyLike (k : jsstring) : bool :=
  negb (streq k [])
  && forallb (λ c, negb (isSpace c) && negb (c =? COLON)) k
  && negb (startsWith k [HASH]).

(** *** Activity bodies as a module file writes them *)

(** The line of a field with its value. *)
Definition fieldLine (name value : jsstring) : jsstring :=
  name ++ str ": " ++ value.

(** The entry under which the parser keeps a buffered field until its
    activity closes. *)
Definition fieldTag (name value : jsstring) : jsstring :=
  name ++ [COLON] ++ value.

(** An optional value that, when present, is clean. *)
Definition cleanOption (v : option jsstring) : Prop :=
  match v with
  | Some t => cleanValue t
  | None => True
  end.

(** A text that is empty or clean. *)
Definition cleanText (v : jsstring) : Prop := v = [] ∨ cleanValue v.

Section Written.
(** How a field and its value are written: as a line of the text, or as
    an entry of the buffer. *)
Variable field : jsstring → jsstring → jsstring.

(** A field that may be left out. *)
Definition optionalField (name : jsstring) (v : option jsstring)
  : list jsstring :=
  match v with
  | Some t => [field name t]
  | None => []
  end.

(** A field that is left out when its text is empty. *)
Definition optionalText (name value : jsstring) : list jsstring :=
  match value with
  | [] => []
  | _ :: _ => [field name value]
  end.

(** An exercise item: the example marker when the item is an example, the
    prompt, its translation if any, the response, its translation if
    any. *)
Definition itemFields (example : jsstring) (it : ExerciseItem)
  : list jsstring :=
  (if ei_isExample it then [example] else [])
  ++ [field (str "PROMPT") (ei_prompt it)]
  ++ optionalField (str "PROMPT_T") (ei_promptTranslation it)
  ++ [field (str "RESPONSE") (ei_response it)]
  ++ optionalField (str "RESPONSE_T") (ei_responseTranslation it).

(** A vocabulary entry: the word, then its definition if it has one. *)
Definition entryFields (e : VocabEntry) : list jsstring :=
  field (str "VOCAB") (word e) :: optionalText (str "VOCAB_T") (definition e).

(** A dialogue line: its vocabulary first, then the speaker if it has
    one, the text, the translation if it is not empty, and the notes if
    any. *)
Definition lineFields (l : DialogueLine) : list jsstring :=
  concat (entryFields <$> default [] (dl_vocab l))
  ++ optionalField (str "SPEAKER") (dl_speaker l)
  ++ [field (str "LINE") (dl_text l)]
  ++ optionalText (str "LINE_T") (dl_translation l)
  ++ optionalField (str "NOTES") (dl_notes l).

End Written.

(** The lines of the body of an exercise, and the buffer they leave. *)
Definition exerciseLines (items : list ExerciseItem) : list jsstring :=
  concat (itemFields fieldLine (str "EXAMPLE") <$> items).

Definition exerciseTags (items : list ExerciseItem) : list jsstring :=
  concat (itemFields fieldTag (str "EXAMPLE:") <$> items).

(** The lines of the body of a dialogue, and the buffer they leave. *)
Definition dialogueLines (ls : list DialogueLine) : list jsstring :=
  concat (lineFields fieldLine <$> ls).

Definition dialogueTags (ls : list DialogueLine) : list jsstring :=
  concat (lineFields fieldTag <$> ls).

(** An item, an entry and a line whose values can be written as fields. *)
Definition cleanItem (it : ExerciseItem) : Prop :=
  cleanValue (ei_prompt it) ∧ cleanOption (ei_promptTranslation it)
  ∧ cleanValue (ei_response it) ∧ cleanOption (ei_responseTranslation it).

Definition cleanEntry (e : VocabEntry) : Prop :=
  cleanValue (word e) ∧ cleanText (definition e).

Definition cleanLine (l : DialogueLine) : Prop :=
  cleanOption (dl_speaker l) ∧ cleanValue (dl_text l)
  ∧ cleanText (dl_translation l) ∧ cleanOption (dl_notes l)
  ∧ dl_vocab l ≠ Some []
  ∧ Forall cleanEntry (default [] (dl_vocab l)).

(** The line is read into the buffer of the open activity [act] as the
    entry [tag]. *)
Definition buffersAs `{UnicodeCase} (act : Activity) (line tag : jsstring)
  : Prop :=
  ∀ st, currentActivity st = Some act →
        processLine line st = pushBuffer st tag.

(** The in-progress item of [parseExerciseItems] once the fields of an
    item have been read. *)
Definition partialItem (it : ExerciseItem) : PartialItem :=
  {| pi_prompt := Some (ei_prompt it);
     pi_promptTranslation := ei_promptTranslation it;
     pi_response := Some (ei_response it);
     pi_responseTranslation := ei_responseTranslation it;
     pi_isExample := Some (ei_isExample it) |}.

(** The in-progress line of [parseDialogueLines] once the fields of a
    line have been read. *)
Definition partialLine (l : DialogueLine) : PartialLine :=
  {| pl_speaker := dl_speaker l;
     pl_text := Some (dl_text l);
     pl_translation :=
       match dl_translation l with [] => None | t => Some t end;
     pl_notes := dl_notes l;
     pl_vocab := dl_vocab l |}.

(** The loop of [parseDialogueLines] stands between two lines: nothing
    is pending, and the in-progress line is empty or has its text. *)
Definition betweenLines (st : DialogueState) : Prop :=
  pendingVocab st = [] ∧ pendingVocabDefinition st = None
  ∧ (currentLine st = emptyLine ∨ truthy (pl_text (currentLine st)) = true).

(** Lines without a speaker come before the first line that has one. *)
Fixpoint speakersNamed (prev : option jsstring) (ls : list DialogueLine)
  : Prop :=
  match ls with
  | [] => True
  | l :: rest =>
      (dl_speaker l = None → prev = None) ∧ speakersNamed (dl_speaker l) rest
  end.

(** The line as the parser reads it when it still holds the speaker
    [prev]: a line written without a speaker takes that one. *)
Definition spokenBy (prev : option jsstring) (l : DialogueLine)
  : DialogueLine :=
  {| dl_speaker := match dl_speaker l with Some s => Some s | None => prev end;
     dl_text := dl_text l; dl_translation := dl_translation l;
     dl_notes := dl_notes l; dl_vocab := dl_vocab l |}.

(** The lines as the parser reads them: the speaker of a line stays in
    force for the lines after it until another speaker is named. *)
Fixpoint speakersKept (prev : option jsstring) (ls : list DialogueLine)
  : list DialogueLine :=
  match ls with
  | [] => []
  | l :: rest =>
      spokenBy prev l :: speakersKept (dl_speaker (spokenBy prev l)) rest
  end.

(** The state in which [finalizeActivity] leaves the parser when it files
    the open activity [a], with the payload [p], in the open lesson [l]. *)
Definition filedState (st : ParserState) (l : LessonContent) (a : Activity)
    (p : ActivityPayload) : ParserState :=
  {| module := module st; ps_voiceConfig := ps_voiceConfig st;
     currentLesson :=
       Some {| lesson_id := lesson_id l; lesson_title := lesson_title l;
               activities :=
                 activities l
                 ++ [{| act_id := act_id a; act_title := act_title a;
                        act_intro := act_intro a; act_payload := p |}] |};
     currentActivity := None;
     activityContentBuffer := [] |}.

(** A dialogue of two lines, the second with two vocabulary entries. *)
Definition sampleDialogue : list DialogueLine :=
  [ {| dl_speaker := None; dl_text := str "Hola";
       dl_translation := str "Hello"; dl_notes := None; dl_vocab := None |};
    {| dl_speaker := Some (str "Ana"); dl_text := str "Buenos dias";
       dl_translation := []; dl_notes := Some (str "formal");
       dl_vocab :=
         Some [ {| word := str "buenos"; definition := str "good" |};
                {| word := str "dias"; definition := [] |} ] |} ].

(** An exercise of two items, the first an example. *)
Definition sampleItems : list ExerciseItem :=
  [ {| ei_prompt := str "uno"; ei_promptTranslation := Some (str "one");
       ei_response := str "dos"; ei_responseTranslation := None;
       ei_isExample := true |};
    {| ei_prompt := str "tres"; ei_promptTranslation := None;
       ei_response := str "cuatro";
       ei_responseTranslation := Some (str "four");
       ei_isExample := false |} ].

(** A parser state with an open activity of the given kind, as
    [startActivity] leaves it. *)
Definition openState (kind : ActivityType) : ParserState :=
  {| module := module initialState;
     ps_voiceConfig := ps_voiceConfig initialState;
     currentLesson :=
       Some {| lesson_id := str "default-lesson";
               lesson_title := str "Default Lesson"; activities := [] |};
     currentActivity :=
       Some {| act_id := str "x"; act_title := str "X"; act_intro := None;
               act_payload := emptyPayload kind |};
     activityContentBuffer := [] |}.

(** A dialogue buffer that ends with vocabulary. *)
Definition trailingVocabBuffer : list jsstring * list jsstring :=
  ([lineTag (str "Hola")], [vocabTag (str "hola"); vocabTTag (str "hello")]).

(** *** The activities of each lesson *)

(** The kind, the id and the title of an activity. *)
Definition activityHead (a : Activity) : ActivityType * jsstring * jsstring :=
  (act_type a, act_id a, act_title a).

(** A lesson marker line. *)
Definition isLessonLine (raw : jsstring) : bool :=
  match sectionOf raw with
  | Some (LessonSection _) => true
  | _ => false
  end.

(** The lines before the first lesson marker and, for each lesson marker
    in turn, the lines after it up to the next lesson marker. *)
Fixpoint lessonBodies (lines : list jsstring)
  : list jsstring * list (list jsstring) :=
  match lines with
  | [] => ([], [])
  | raw :: rest =>
      let '(b, bs) := lessonBodies rest in
      if isLessonLine raw then ([], b :: bs) else (raw :: b, bs)
  end.

(** The activity heads of the finished lessons, lesson by lesson. *)
Definition doneHeads (st : ParserState)
  : list (list (ActivityType * jsstring * jsstring)) :=
  (λ l, activityHead <$> activities l) <$> pm_lessons (module st).

(** The activity heads of the open lesson, the open activity last. *)
Definition openHeads (st : ParserState)
  : option (list (ActivityType * jsstring * jsstring)) :=
  match currentLesson st with
  | Some l =>
      Some ((activityHead <$> activities l)
            ++ (activityHead <$> option_list (currentActivity st)))
  | None => None
  end.

Section ActivityHeads.
Context `{UnicodeCase}.

(** The kind, id and title of the activity a line opens, if it is an
    activity marker. *)
Definition activityHeadOf (raw : jsstring)
  : option (ActivityType * jsstring * jsstring) :=
  match sectionOf raw with
  | Some (ActivitySection kind ttl) =>
      let t := orStr ttl (defaultTitle kind) in
      Some (kind, generateActivityId (typeName kind) t, t)
  | _ => None
  end.

(** The activities the lines of a lesson open. *)
Definition bodyHeads (body : list jsstring)
  : list (ActivityType * jsstring * jsstring) :=
  omap activityHeadOf body.

End ActivityHeads.

(** A module of two lessons after a leading activity. *)
Definition groupedText : jsstring :=
  join [NEWLINE]
    (headerLines
     ++ [str "$DIALOGUE Hello"; str "$LESSON One"; str "$GRAMMAR Verbs";
         str "$EXERCISE"; str "$LESSON Two"; str "$CHAT Cafe"]).

(** *** The header of a module as written *)

(** The header lines of a module: the module marker, the document id, the
    title, the description and the image if any, and the two languages. *)
Definition moduleHeader (doc ttl : jsstring) (desc img : option jsstring)
    (target home : jsstring) : list jsstring :=
  [str "$MODULE"; fieldLine (str "DIOCO_DOC_ID") doc;
   fieldLine (str "TITLE") ttl]
  ++ optionalField fieldLine (str "DESCRIPTION") desc
  ++ optionalField fieldLine (str "IMAGE") img
  ++ [fieldLine (str "TARGET_LANG_G") target;
      fieldLine (str "HOME_LANG_G") home].

(** What follows the header starts with a lesson marker or an activity
    marker, or is empty. *)
Definition startsWithSection (rest : list jsstring) : Prop :=
  match rest with
  | [] => True
  | marker :: _ => is_Some (sectionOf marker)
  end.

(** The parser state in which no section has been opened. *)
Definition inHeaderState (st : ParserState) : Prop :=
  currentLesson st = None ∧ currentActivity st = None
  ∧ pm_lessons (module st) = [].

(** *** The context of the linter *)

(** [t] has the context of [s]: the header flag, the kind of the open
    activity and the line of the last lesson marker. *)
Definition sectionKept (s t : LintState) : Prop :=
  inHeader t = inHeader s
  ∧ lint_currentActivity t = lint_currentActivity s
  ∧ currentLessonLine t = currentLessonLine s.

(** A warning that the parser will make up a lesson, on the given line. *)
Definition implicitLessonAt (ln : Z) (d : Diagnostic) : Prop :=
  severity d = warning ∧ line d = ln
  ∧ code d = Some (str "implicit-lesson").

(** The activity marker on line [k + 1] comes before every lesson
    marker: the parser files its activity under a lesson it makes up. *)
Definition madeUpAt (lines : list jsstring) (k : nat) : Prop :=
  ∃ raw kind ttl,
    lines !! k = Some raw
    ∧ sectionOf raw = Some (ActivitySection kind ttl)
    ∧ Forall (λ l, isLessonLine l = false) (take k lines).

(** A diagnostic that, when it has the code [implicit-lesson], stands on
    the line of an activity marker that comes before every lesson
    marker. *)
Definition implicitJustified (lines : list jsstring) (d : Diagnostic)
  : Prop :=
  code d = Some (str "implicit-lesson") →
  severity d = warning
  ∧ ∃ k, line d = (Z.of_nat k + 1)%Z ∧ madeUpAt lines k.

(** The diagnostics of the state all satisfy [P]. *)
Definition allDiags (P : Diagnostic → Prop) (st : LintState) : Prop :=
  Forall P (diags st).

(** *** Modules as written *)

(** The body of an activity: the items of an exercise or the lines of a
    dialogue. *)
Inductive WrittenBody :=
| ExerciseBody (items : list ExerciseItem)
| DialogueBody (ls : list DialogueLine).

Record WrittenActivity := {
  wa_title : jsstring;
  wa_body : WrittenBody
}.

Record WrittenLesson := {
  wl_title : jsstring;
  wl_activities : list WrittenActivity
}.

(** A marker line with a title. *)
Definition markerLine (name title : jsstring) : jsstring :=
  DOLLAR :: name ++ str " " ++ title.

Definition bodyKind (b : WrittenBody) : ActivityType :=
  match b with
  | ExerciseBody _ => EXERCISE
  | DialogueBody _ => DIALOGUE
  end.

Definition bodyLines (b : WrittenBody) : list jsstring :=
  match b with
  | ExerciseBody items => exerciseLines items
  | DialogueBody ls => dialogueLines ls
  end.

Definition bodyTags (b : WrittenBody) : list jsstring :=
  match b with
  | ExerciseBody items => exerciseTags items
  | DialogueBody ls => dialogueTags ls
  end.

(** The lines of an activity: its marker, then its body. *)
Definition activityLines (a : WrittenActivity) : list jsstring :=
  markerLine (typeName (bodyKind (wa_body a))) (wa_title a)
  :: bodyLines (wa_body a).

(** The lines of a lesson: its marker, then its activities. *)
Definition lessonLines (l : WrittenLesson) : list jsstring :=
  markerLine (str "LESSON") (wl_title l)
  :: concat (activityLines <$> wl_activities l).

(** The lines of a module: its header, then its lessons. *)
Definition moduleLines (doc ttl : jsstring) (desc img : option jsstring)
    (target home : jsstring) (ls : list WrittenLesson) : list jsstring :=
  moduleHeader doc ttl desc img target home ++ concat (lessonLines <$> ls).

Definition cleanBody (b : WrittenBody) : Prop :=
  match b with
  | ExerciseBody items => Forall cleanItem items
  | DialogueBody ls => Forall cleanLine ls
  end.

Definition cleanActivity (a : WrittenActivity) : Prop :=
  cleanValue (wa_title a) ∧ cleanBody (wa_body a).

Definition cleanLesson (l : WrittenLesson) : Prop :=
  cleanValue (wl_title l) ∧ Forall cleanActivity (wl_activities l).

(** The payload of an activity with the given body and nothing else, as
    the parser reads the body: the items as written, and the lines as
    written except that a line without a speaker has the speaker still in
    force. *)
Definition bodyPayload (b : WrittenBody) : ActivityPayload :=
  match b with
  | ExerciseBody items => ExercisePayload None None items
  | DialogueBody ls => DialoguePayload None None (speakersKept None ls)
  end.

Section ReadBack.
Context `{UnicodeCase}.

(** The activity and the lesson the parser is to return for a written
    one. *)
Definition readActivity (a : WrittenActivity) : Activity :=
  {| act_id :=
       generateActivityId (typeName (bodyKind (wa_body a))) (wa_title a);
     act_title := wa_title a;
     act_intro := None;
     act_payload := bodyPayload (wa_body a) |}.

Definition readLesson (l : WrittenLesson) : LessonContent :=
  {| lesson_id := generateLessonId (wl_title l);
     lesson_title := wl_title l;
     activities := readActivity <$> wl_activities l |}.

End ReadBack.

(** The parser state [st] with no open activity and with the activities
    [acts] added to the lesson [l], which is open. *)
Definition withActivities (st : ParserState) (l : LessonContent)
    (acts : list Activity) : ParserState :=
  {| module := module st; ps_voiceConfig := ps_voiceConfig st;
     currentLesson :=
       Some {| lesson_id := lesson_id l; lesson_title := lesson_title l;
               activities := activities l ++ acts |};
     currentActivity := None;
     activityContentBuffer := [] |}.

(** The parser state [st] with no open lesson and with the lessons [ls]
    added to the finished ones. *)
Definition withLessons (st : ParserState) (ls : list LessonContent)
  : ParserState :=
  {| module :=
       {| pm_diocoDocId := pm_diocoDocId (module st);
          pm_title := pm_title (module st);
          pm_description := pm_description (module st);
          pm_image := pm_image (module st);
          pm_targetLang_G := pm_targetLang_G (module st);
          pm_homeLang_G := pm_homeLang_G (module st);
          pm_ttsPrompt := pm_ttsPrompt (module st);
          pm_lessons := pm_lessons (module st) ++ ls |};
     ps_voiceConfig := ps_voiceConfig st;
     currentLesson := None;
     currentActivity := None;
     activityContentBuffer := [] |}.

(** Nothing is open in the parser state. *)
Definition nothingOpen (st : ParserState) : Prop :=
  currentLesson st = None ∧ currentActivity st = None
  ∧ activityContentBuffer st = [].

(** A lesson is open in the parser state, and no activity. *)
Definition lessonOpen (st : ParserState) (l : LessonContent) : Prop :=
  currentLesson st = Some l ∧ currentActivity st = None
  ∧ activityContentBuffer st = [].

(** A module of one lesson with a dialogue and an exercise. *)
Definition sampleLessons : list WrittenLesson :=
  [ {| wl_title := str "Saludos";
       wl_activities :=
         [ {| wa_title := str "En la calle";
              wa_body := DialogueBody sampleDialogue |};
           {| wa_title := str "Numeros";
              wa_body := ExerciseBody sampleItems |} ] |} ].

(** A dialogue whose second line is written without a speaker. *)
Definition keptDialogue : list DialogueLine :=
  [ {| dl_speaker := Some (str "Ana"); dl_text := str "Hola";
       dl_translation := []; dl_notes := None; dl_vocab := None |};
    {| dl_speaker := None; dl_text := str "Adios";
       dl_translation := []; dl_notes := None; dl_vocab := None |} ].

(** A module of one lesson with that dialogue. *)
Definition keptLessons : list WrittenLesson :=
  [ {| wl_title := str "Saludos";
       wl_activities :=
         [ {| wa_title := str "En la calle";
              wa_body := DialogueBody keptDialogue |} ] |} ].

(** *** Texts the linter has nothing to say about *)

(** A title that does not start with a colon. *)
Definition tidyTitle (t : jsstring) : Prop := head t ≠ Some COLON.

(** A dialogue line whose vocabulary entries all have a definition. *)
Definition tidyLine (l : DialogueLine) : Prop :=
  Forall (λ e, definition e ≠ []) (default [] (dl_vocab l)).

Definition tidyBody (b : WrittenBody) : Prop :=
  match b with
  | ExerciseBody _ => True
  | DialogueBody ls => Forall tidyLine ls
  end.

Definition tidyActivity (a : WrittenActivity) : Prop :=
  tidyTitle (wa_title a) ∧ tidyBody (wa_body a).

Definition tidyLesson (l : WrittenLesson) : Prop :=
  tidyTitle (wl_title l) ∧ Forall tidyActivity (wl_activities l).

(** The state of the linter between two items, lines or sections of a
    text it has had nothing to say about so far: the context is as given,
    nothing is pending, and the rest is as in [base]. *)
Definition quietState (act : option ActivityType) (lesson : option Z)
    (hdr hadLine : bool) (base : LintState) : LintState :=
  {| diags := diags base;
     sawModuleMarker := sawModuleMarker base;
     sawAnySectionMarker := true;
     inHeader := hdr;
     lint_currentActivity := act;
     currentLessonLine := lesson;
     seenHeader := seenHeader base;
     seenVoiceSpeaker := seenVoiceSpeaker base;
     lastDialogueHadLine := hadLine;
     pendingVocabWord := None;
     pendingExercisePrompt := None;
     pendingExerciseExample := None |}.

(** The header fields that hold one plain value. *)
Definition plainHeaderFields : list jsstring :=
  [str "DIOCO_DOC_ID"; str "TITLE"; str "DESCRIPTION"; str "IMAGE";
   str "TARGET_LANG_G"; str "HOME_LANG_G"].

(** The linter has seen the module marker and the four mandatory header
    fields, and has no diagnostic. *)
Definition headerComplete (base : LintState) : Prop :=
  diags base = [] ∧ sawModuleMarker base = true
  ∧ is_Some (seenHeader base !! str "DIOCO_DOC_ID")
  ∧ is_Some (seenHeader base !! str "TITLE")
  ∧ is_Some (seenHeader base !! str "TARGET_LANG_G")
  ∧ is_Some (seenHeader base !! str "HOME_LANG_G").

(** A dialogue of two lines whose vocabulary entries have definitions. *)
Definition tidyDialogue : list DialogueLine :=
  [ {| dl_speaker := None; dl_text := str "Hola";
       dl_translation := str "Hello"; dl_notes := None; dl_vocab := None |};
    {| dl_speaker := Some (str "Ana"); dl_text := str "Buenos dias";
       dl_translation := []; dl_notes := Some (str "formal");
       dl_vocab :=
         Some [ {| word := str "buenos"; definition := str "good" |};
                {| word := str "dias"; definition := str "days" |} ] |} ].

(** A module of one lesson with a dialogue and an exercise. *)
Definition tidyLessons : list WrittenLesson :=
  [ {| wl_title := str "Saludos";
       wl_activities :=
         [ {| wa_title := str "En la calle";
              wa_body := DialogueBody tidyDialogue |};
           {| wa_title := str "Numeros";
              wa_body := ExerciseBody sampleItems |} ] |} ].

(** *** The header as the text gives it *)

(** The value a line gives to the mandatory field [f] when it is a field
    line with one of the names of [f]: the text after the colon, empty
    when there is none. *)
Definition fieldValueOf (f : MandatoryField) (raw : jsstring)
  : option jsstring :=
  match fieldMatch (trimEnd raw) with
  | Some (name, v) => if has (fieldNames f) name then Some (orStr v []) else None
  | None => None
  end.

(** The header of a text: its lines before the first lesson marker or
    activity marker. *)
Fixpoint headerPart (lines : list jsstring) : list jsstring :=
  match lines with
  | [] => []
  | raw :: rest => if leavesHeader raw then [] else raw :: headerPart rest
  end.

(** The value the header gives to the field: that of the last header line
    that names it. *)
Definition headerValue (f : MandatoryField) (lines : list jsstring)
  : option jsstring :=
  last (omap (fieldValueOf f) (headerPart lines)).

(** The text leaves the field without a value: no line of the header
    names it, or the last one that does gives it the empty value. *)
Definition leftOut (f : MandatoryField) (text : jsstring) : bool :=
  negb (truthy (headerValue f (splitOn NEWLINE text))).

(** A header whose title line has no value and which has no
    target-language line. *)
Definition emptyTitleText : jsstring :=
  join [NEWLINE]
    [str "$MODULE"; str "DIOCO_DOC_ID: x"; str "TITLE:";
     str "HOME_LANG_G: en"].

Section AbsentFields.
Context `{UnicodeCase}.

(** The reading of the rule on missing fields for every text: whenever no
    line of the text names a mandatory field, the error names that
    field. *)
Definition namesAbsentField : Prop :=
  ∀ (content : jsstring) (f : MandatoryField),
    fieldAbsent f content = true →
    parseModuleFile content = inl (missingMessage f).

End AbsentFields.

(** *** Slugs, word by word *)

(** The maximal runs of lower-case letters and digits of a string: the
    run the string starts with, empty when it starts otherwise, and the
    runs after it. *)
Fixpoint slugRuns (s : jsstring) : jsstring * list jsstring :=
  match s with
  | [] => ([], [])
  | c :: r =>
      let '(w, ws) := slugRuns r in
      if isSlugChar c then (c :: w, ws)
      else ([], match w with [] => ws | _ :: _ => w :: ws end)
  end.

(** The words of a string: its maximal runs of lower-case letters and
    digits, in order. *)
Definition slugWords (s : jsstring) : list jsstring :=
  let '(w, ws) := slugRuns s in
  match w with [] => ws | _ :: _ => w :: ws end.

Section DescribedIds.
Context `{UnicodeCase}.

(** The slugified form of a title: the words of the lower-cased title,
    joined by single dashes. *)
Definition slugified (title : jsstring) : jsstring :=
  join [DASH] (slugWords (toLowerCase title)).

(** The id of an activity as described: the kind, a dash and the
    slugified title, the kind name standing in for an empty title. *)
Definition kindAndSlug (kind : ActivityType) (ttl : option jsstring)
  : jsstring :=
  typeName kind ++ [DASH] ++ slugified (orStr ttl (typeName kind)).

(** The id described for the activity a line opens, if the line is an
    activity marker. *)
Definition describedId (raw : jsstring) : option jsstring :=
  match sectionOf raw with
  | Some (ActivitySection kind ttl) => Some (kindAndSlug kind ttl)
  | _ => None
  end.

End DescribedIds.

(** A module whose activity titles need slugging, and an activity
    without a title. *)
Definition slugTitlesText : jsstring :=
  join [NEWLINE]
    (headerLines
     ++ [str "$LESSON Lesson 1"; str "$DIALOGUE En la calle!";
         str "LINE: Hola"; str "$GRAMMAR"; str "Some text"]).

(** *** Exercise bodies, block by block *)

(** The entries of the buffer that [parseExerciseItems] reads as an
    example marker, and as a prompt. *)
Definition isExampleEntry (item : jsstring) : bool :=
  startsWith item (str "EXAMPLE:").

Definition isPromptEntry (item : jsstring) : bool :=
  startsWith item (str "PROMPT:").

(** The tags of the entries of an exercise body. *)
Definition itemTagNames : list jsstring :=
  [str "EXAMPLE:"; str "PROMPT:"; str "PROMPT_T:"; str "RESPONSE:";
   str "RESPONSE_T:"].

(** The value of an entry with the tag [tag]: what follows the tag,
    trimmed. *)
Definition entryValue (tag item : jsstring) : option jsstring :=
  if startsWith item tag then Some (trim (slice (length tag) item)) else None.

(** The value the last entry of a block with the tag [tag] gives, or
    else [d]. *)
Definition lastEntryValue (tag : jsstring) (block : list jsstring)
    (d : option jsstring) : option jsstring :=
  match last (omap (entryValue tag) block) with
  | Some v => Some v
  | None => d
  end.

(** The block of a prompt: the entries after it, up to the next
    prompt. *)
Fixpoint blockOf (rest : list jsstring) : list jsstring :=
  match rest with
  | [] => []
  | item :: rest' => if isPromptEntry item then [] else item :: blockOf rest'
  end.

(** The in-progress item once the entries of its block have been read:
    each of the translation of the prompt, the response and its
    translation is the value of the last entry of the block that gives
    one. *)
Definition fillItem (ci : PartialItem) (block : list jsstring) : PartialItem :=
  {| pi_prompt := pi_prompt ci;
     pi_promptTranslation :=
       lastEntryValue (str "PROMPT_T:") block (pi_promptTranslation ci);
     pi_response := lastEntryValue (str "RESPONSE:") block (pi_response ci);
     pi_responseTranslation :=
       lastEntryValue (str "RESPONSE_T:") block (pi_responseTranslation ci);
     pi_isExample := pi_isExample ci |}.

(** The item an in-progress item makes: none unless it has a prompt and
    a response. *)
Definition finished (ci : PartialItem) : list ExerciseItem :=
  if itemComplete ci then [finishItem ci] else [].

(** The item of a prompt with the value [p] and the given block; [armed]
    tells whether an example marker stands between the prompt before it
    and this one. *)
Definition blockItem (armed : bool) (p : jsstring) (block : list jsstring)
  : list ExerciseItem :=
  finished
    (fillItem
       {| pi_prompt := Some p; pi_promptTranslation := None;
          pi_response := None; pi_responseTranslation := None;
          pi_isExample := Some armed |}
       block).

(** The items of a buffer, prompt by prompt: an example marker arms the
    flag, the next prompt takes it and disarms it, and every prompt makes
    the item of its block. *)
Fixpoint itemsOf (armed : bool) (buffer : list jsstring) : list ExerciseItem :=
  match buffer with
  | [] => []
  | item :: rest =>
      if isExampleEntry item then itemsOf true rest
      else if isPromptEntry item then
        blockItem armed (trim (slice 7 item)) (blockOf rest)
        ++ itemsOf false rest
      else itemsOf armed rest
  end.

(** Entries that are neither prompts nor example markers. *)
Definition plainBlock (block : list jsstring) : bool :=
  forallb (λ item, negb (isPromptEntry item) && negb (isExampleEntry item))
    block.

(** A buffer that is empty or starts with a prompt. *)
Definition atPrompt (buffer : list jsstring) : bool :=
  match buffer with
  | [] => true
  | item :: _ => isPromptEntry item
  end.

(** * Properties *)

#[local] Arguments truthy : simpl never.
#[local] Arguments orStr : simpl never.
#[local] Arguments orNull : simpl never.
#[local] Arguments trim : simpl never.
#[local] Arguments trimEnd : simpl never.
#[local] Arguments trimStart : simpl never.
#[local] Arguments str : simpl never.

(** ** Trimming *)

Lemma dropWhile_app p a b :
  dropWhile p (a ++ b)
  = match dropWhile p a with
    | [] => dropWhile p b
    | r => r ++ b
    end.
Proof.
  induction a as [|c a IH]; cbn; [by destruct (dropWhile p b)|].
  by destruct (p c).
Qed.

Lemma dropWhile_nil_iff p s : dropWhile p s = [] ↔ forallb p s = true.
Proof.
  induction s as [|c s IH]; cbn; [done|].
  destruct (p c); cbn; [done|]. split; discriminate.
Qed.

Lemma dropWhile_head p s c r : dropWhile p s = c :: r → p c = false.
Proof.
  induction s as [|x s IH]; cbn; [done|].
  destruct (p x) eqn:E; [done|]. congruence.
Qed.

Lemma dropWhile_neg_head p s c : p c = false → dropWhile p (c :: s) = c :: s.
Proof. intros E. cbn. by rewrite E. Qed.

(** What is dropped is a prefix made of characters satisfying the test. *)
Lemma dropWhile_suffix p s :
  s = takeWhile p s ++ dropWhile p s.
Proof.
  induction s as [|c s IH]; cbn; [done|].
  destruct (p c); cbn; congruence.
Qed.

(** [trimEnd], read from the front of the string. *)
Lemma trimEnd_cons c s :
  trimEnd (c :: s)
  = match trimEnd s with
    | [] => if isSpace c then [] else [c]
    | r => c :: r
    end.
Proof.
  unfold trimEnd. cbn [rev]. rewrite dropWhile_app.
  destruct (dropWhile isSpace (rev s)) as [|x r] eqn:E; cbn.
  - by destruct (isSpace c).
  - rewrite rev_app_distr. cbn.
    destruct (rev r ++ [x]) eqn:E'; [by destruct (rev r)|done].
Qed.

Lemma trimEnd_nil_iff s : trimEnd s = [] ↔ forallb isSpace s = true.
Proof.
  induction s as [|c s IH]; [done|].
  rewrite trimEnd_cons. cbn [forallb].
  destruct (trimEnd s) eqn:E.
  - destruct (isSpace c); cbn; [tauto|]. split; discriminate.
  - split; [discriminate|].
    intros [_ Hs]%andb_prop. apply IH in Hs. discriminate.
Qed.

Lemma trimEnd_cons_nonspace c s :
  isSpace c = false → trimEnd (c :: s) = c :: trimEnd s.
Proof.
  intros Hc. rewrite trimEnd_cons, Hc. by destruct (trimEnd s).
Qed.

Lemma trimEnd_cons_nonblank c s :
  trimEnd s ≠ [] → trimEnd (c :: s) = c :: trimEnd s.
Proof.
  intros Hs. rewrite trimEnd_cons. by destruct (trimEnd s).
Qed.

Lemma trimEnd_idemp s : trimEnd (trimEnd s) = trimEnd s.
Proof.
  induction s as [|c s IH]; [done|].
  rewrite trimEnd_cons.
  destruct (trimEnd s) as [|x r] eqn:E.
  - destruct (isSpace c) eqn:Ec; [done|].
    by rewrite trimEnd_cons_nonspace.
  - rewrite trimEnd_cons_nonblank; [by rewrite IH|].
    rewrite IH. discriminate.
Qed.

(** A string is [trimmed at the end] when [trimEnd] leaves it alone; so
    is each of its non-empty suffixes. *)
Lemma trimEnd_fixed_tail c s :
  trimEnd (c :: s) = c :: s → s ≠ [] → trimEnd s = s.
Proof.
  rewrite trimEnd_cons. intros E Hs.
  destruct (trimEnd s) eqn:Es.
  - destruct (isSpace c); simplify_eq.
  - congruence.
Qed.

Lemma trimEnd_fixed_suffix a t :
  trimEnd (a ++ t) = a ++ t → t ≠ [] → trimEnd t = t.
Proof.
  induction a as [|c a IH]; cbn [app]; [done|].
  intros E Ht. apply IH; [|done].
  apply trimEnd_fixed_tail with c; [done|]. by destruct a, t.
Qed.

Lemma trimStart_trimEnd s : trimStart (trimEnd s) = trimEnd (trimStart s).
Proof.
  unfold trimStart.
  induction s as [|c s IH]; [done|].
  cbn [dropWhile]. destruct (isSpace c) eqn:Ec.
  - rewrite trimEnd_cons.
    destruct (trimEnd s) as [|x r] eqn:E.
    + rewrite Ec. cbn. by rewrite <- IH.
    + cbn [dropWhile]. by rewrite Ec.
  - rewrite trimEnd_cons_nonspace by done.
    cbn [dropWhile]. by rewrite Ec.
Qed.

(** The linter's [trimmed] is the line trimmed on both sides. *)
Lemma trim_trimEnd s : trim (trimEnd s) = trim s.
Proof.
  unfold trim. by rewrite trimStart_trimEnd, trimEnd_idemp.
Qed.

Lemma trim_head s c r :
  trimStart s = c :: r → trim s = c :: trimEnd r.
Proof.
  intros E. unfold trim. rewrite E.
  apply trimEnd_cons_nonspace. by eapply dropWhile_head.
Qed.

(** A string that starts and ends with characters other than white space
    is left alone by [trim]. *)
Lemma trim_fixed s :
  trimStart s = s → trimEnd s = s → trim s = s.
Proof. unfold trim. by intros -> ->. Qed.

(** ** Character classes *)

Lemma isFieldChar_range c :
  isFieldChar c = true → (65 <= c <= 95)%N.
Proof.
  unfold isFieldChar, isUpper.
  intros [[?%N.leb_le ?%N.leb_le]%andb_prop | ?%N.eqb_eq]%orb_prop; lia.
Qed.

Lemma isSpace_range c : isSpace c = true → (c <= 32 ∨ 160 <= c)%N.
Proof.
  unfold isSpace.
  rewrite !orb_true_iff, !andb_true_iff, !N.leb_le, !N.eqb_eq. lia.
Qed.

Lemma isFieldChar_not_space c : isFieldChar c = true → isSpace c = false.
Proof.
  intros Hf%isFieldChar_range.
  destruct (isSpace c) eqn:E; [|done].
  apply isSpace_range in E. lia.
Qed.


(** ** The matchers *)

Example fieldMatch_ex :
  fieldMatch (str "LINE_T:  Hello there") = Some (str "LINE_T", Some (str "Hello there"))
  /\ fieldMatch (str "TITLE:") = Some (str "TITLE", None)
  /\ fieldMatch (str " TITLE: x") = None
  /\ fieldMatch (str "Title: x") = None.
Proof. repeat split; reflexivity. Qed.

Example markerMatch_ex :
  markerMatch (str "$LESSON Lesson 1: Greetings")
    = Some (str "LESSON", Some (str "Lesson 1: Greetings"))
  /\ markerMatch (str "$MODULE") = Some (str "MODULE", None)
  /\ markerMatch (str "$LESSON: x") = None.
Proof. repeat split; reflexivity. Qed.

Example speakerMatch_ex :
  speakerMatch (str "Carlos = Achernar | Speak with a Texan accent")
    = Some (str "Carlos", str "Achernar ", Some (str "Speak with a Texan accent"))
  /\ speakerMatch (str "a = b = c") = Some (str "a", str "b = c", None)
  /\ speakerMatch (str "= x") = None.
Proof. repeat split; reflexivity. Qed.

Lemma fieldPrefixTest_head s :
  fieldPrefixTest s = true → ∃ f s', s = f :: s' ∧ isFieldChar f = true.
Proof.
  destruct s as [|f s']; [done|].
  unfold fieldPrefixTest. cbn [takeWhile].
  destruct (isFieldChar f) eqn:E; [eauto|done].
Qed.

Lemma fieldChar_not_hash f : isFieldChar f = true → (f =? HASH) = false.
Proof. intros ?%isFieldChar_range. apply N.eqb_neq. unfold HASH. lia. Qed.

Lemma fieldChar_not_dollar f : isFieldChar f = true → (f =? DOLLAR) = false.
Proof. intros ?%isFieldChar_range. apply N.eqb_neq. unfold DOLLAR. lia. Qed.

Lemma startsWith_app s p : startsWith s p = true ↔ ∃ r, s = p ++ r.
Proof.
  revert s. induction p as [|a p IH]; intros s; cbn.
  - split; [by exists s|done].
  - destruct s as [|c s]; [split; [done|by intros [? ?]]|].
    rewrite andb_true_iff, IH, N.eqb_eq. split.
    + intros [-> [r ->]]. by exists r.
    + intros [r [= -> ->]]. eauto.
Qed.

Lemma startsWith_single c s k : startsWith (c :: s) [k] = (c =? k).
Proof. cbn. apply andb_true_r. Qed.

Lemma streq_false a b : a ≠ b → streq a b = false.
Proof. intros. unfold streq. by apply bool_decide_eq_false_2. Qed.

Lemma streq_true a b : streq a b = true → a = b.
Proof. unfold streq. by intros ?%bool_decide_eq_true. Qed.

Lemma fieldMatch_head s r :
  fieldMatch s = Some r → ∃ f s', s = f :: s' ∧ isFieldChar f = true.
Proof.
  destruct s as [|f s']; [done|].
  unfold fieldMatch. cbn [takeWhile dropWhile].
  destruct (isFieldChar f) eqn:E; [eauto|done].
Qed.

Lemma has_true_elem set x : has set x = true → x ∈ set.
Proof. unfold has. by intros ?%bool_decide_eq_true. Qed.

Lemma dropWhile_idemp p s : dropWhile p (dropWhile p s) = dropWhile p s.
Proof.
  destruct (dropWhile p s) as [|c r] eqn:E; [done|].
  apply dropWhile_neg_head. by eapply dropWhile_head.
Qed.

Lemma omap_cons {A B} (f : A → option B) x l :
  omap f (x :: l) = option_list (f x) ++ omap f l.
Proof. cbn. by destruct (f x). Qed.

Lemma last_cons_or {A} (x : A) (l : list A) :
  last (x :: l) = match last l with Some y => Some y | None => Some x end.
Proof.
  destruct l as [|y l]; [done|].
  change (last (x :: y :: l)) with (last (y :: l)).
  destruct (last (y :: l)) eqn:E; [done|]. by apply last_None in E.
Qed.

Lemma activityOfMarker_name marker kind :
  activityOfMarker marker = Some kind → marker = typeName kind.
Proof.
  unfold activityOfMarker.
  repeat case_match; intros ?; simplify_eq;
    match goal with E : streq _ _ = true |- _ => by apply streq_true in E end.
Qed.

(** The title of a marker matched on a line trimmed at its end is itself
    trimmed on both sides. *)
Lemma markerMatch_title_trimmed raw marker t :
  markerMatch (trimEnd raw) = Some (marker, Some t) →
  t ≠ [] → trim t = t.
Proof.
  unfold markerMatch.
  destruct (trimEnd raw) as [|c s1] eqn:Hl; [done|].
  destruct (c =? DOLLAR); [|done].
  destruct (takeWhile isWord s1) as [|w0 w] eqn:Hw; [done|].
  destruct (dropWhile isWord s1) as [|d rest] eqn:Hrest; [done|].
  destruct (isSpace d); [|done].
  destruct (forallb _ (dropWhile isSpace rest)); [|done].
  intros [= _ <-] Ht.
  apply trim_fixed.
  - apply dropWhile_idemp.
  - apply trimEnd_fixed_suffix
      with (c :: takeWhile isWord s1 ++ d :: takeWhile isSpace rest);
      [|done].
    assert (trimEnd raw
            = (c :: takeWhile isWord s1 ++ d :: takeWhile isSpace rest)
              ++ dropWhile isSpace rest) as E.
    { rewrite Hl. cbn [app]. f_equal.
      rewrite <- app_assoc. cbn [app].
      rewrite <- (dropWhile_suffix isSpace rest), <- Hrest.
      apply dropWhile_suffix. }
    rewrite <- E. apply trimEnd_idemp.
Qed.

(** ** Truthiness and defaults *)

Lemma orStr_Some_nil (x : jsstring) : orStr (Some x) [] = x.
Proof. by destruct x. Qed.

Lemma truthy_Some (x : jsstring) : x ≠ [] → truthy (Some x) = true.
Proof. by destruct x. Qed.

(** ** Exercise items *)

Lemma exerciseStep_example st :
  exerciseStep st exampleTag
  = {| es_items := es_items st; currentItem := currentItem st;
       isExample := true |}.
Proof. reflexivity. Qed.

Lemma exerciseStep_prompt st v :
  exerciseStep st (promptTag v)
  = {| es_items :=
         if itemComplete (currentItem st)
         then es_items st ++ [finishItem (currentItem st)] else es_items st;
       currentItem :=
         {| pi_prompt := Some (trim v); pi_promptTranslation := None;
            pi_response := None; pi_responseTranslation := None;
            pi_isExample := Some (isExample st) |};
       isExample := false |}.
Proof. reflexivity. Qed.

Lemma exerciseStep_response st v :
  exerciseStep st (responseTag v)
  = {| es_items := es_items st;
       currentItem :=
         {| pi_prompt := pi_prompt (currentItem st);
            pi_promptTranslation := pi_promptTranslation (currentItem st);
            pi_response := Some (trim v);
            pi_responseTranslation := pi_responseTranslation (currentItem st);
            pi_isExample := pi_isExample (currentItem st) |};
       isExample := isExample st |}.
Proof. reflexivity. Qed.

(** *** Exercise bodies, block by block *)

(** An entry has at most one of the tags. *)
Lemma itemTag_exclusive a b item :
  a ∈ itemTagNames → b ∈ itemTagNames → a ≠ b →
  startsWith item a = true → startsWith item b = false.
Proof.
  unfold itemTagNames. intros Ha Hb Hne [r ->]%startsWith_app.
  repeat (apply elem_of_cons in Ha as [->|Ha]);
    try (by apply elem_of_nil in Ha);
    repeat (apply elem_of_cons in Hb as [->|Hb]);
    try (by apply elem_of_nil in Hb);
    done.
Qed.

Lemma entryValue_other a b item :
  a ∈ itemTagNames → b ∈ itemTagNames → a ≠ b →
  startsWith item a = true → entryValue b item = None.
Proof.
  intros Ha Hb Hne Hs. unfold entryValue.
  by rewrite (itemTag_exclusive a b item).
Qed.

Lemma lastEntryValue_cons tag item block d :
  lastEntryValue tag (item :: block) d
  = lastEntryValue tag block
      (match entryValue tag item with Some v => Some v | None => d end).
Proof.
  unfold lastEntryValue. rewrite omap_cons.
  destruct (entryValue tag item) as [v|]; [|done].
  change (option_list (Some v)) with [v]. cbn [app].
  rewrite last_cons_or. by destruct (last _).
Qed.

Lemma fillItem_cons ci item block :
  fillItem ci (item :: block)
  = fillItem
      {| pi_prompt := pi_prompt ci;
         pi_promptTranslation :=
           match entryValue (str "PROMPT_T:") item with
           | Some v => Some v
           | None => pi_promptTranslation ci
           end;
         pi_response :=
           match entryValue (str "RESPONSE:") item with
           | Some v => Some v
           | None => pi_response ci
           end;
         pi_responseTranslation :=
           match entryValue (str "RESPONSE_T:") item with
           | Some v => Some v
           | None => pi_responseTranslation ci
           end;
         pi_isExample := pi_isExample ci |}
      block.
Proof. unfold fillItem. cbn. by rewrite !lastEntryValue_cons. Qed.

Lemma fillItem_nil ci : fillItem ci [] = ci.
Proof. by destruct ci. Qed.

Ltac tag_in := unfold itemTagNames; set_solver.

(** The loop of [parseExerciseItems], from any state: the items so far,
    the item the in-progress one makes with the rest of its block, and the
    items of the prompts of the buffer. *)
Lemma exercise_fold_blocks buffer : ∀ st,
  exerciseFinish (fold_left exerciseStep buffer st)
  = es_items st
    ++ finished (fillItem (currentItem st) (blockOf buffer))
    ++ itemsOf (isExample st) buffer.
Proof.
  induction buffer as [|item rest IH]; intros st.
  - cbn. rewrite fillItem_nil, app_nil_r.
    unfold exerciseFinish, finished.
    destruct (itemComplete (currentItem st)); [done|by rewrite app_nil_r].
  - cbn [fold_left itemsOf blockOf]. rewrite IH.
    unfold isExampleEntry, isPromptEntry, exerciseStep.
    destruct (startsWith item (str "EXAMPLE:")) eqn:He.
    { rewrite (itemTag_exclusive (str "EXAMPLE:") (str "PROMPT:") item)
        by (tag_in || done).
      rewrite fillItem_cons.
      rewrite !(entryValue_other (str "EXAMPLE:") _ item) by (tag_in || done).
      cbn. by destruct (currentItem st). }
    destruct (startsWith item (str "PROMPT:")) eqn:Hp.
    { cbn [es_items currentItem isExample]. rewrite fillItem_nil.
      unfold blockItem, finished at 2.
      destruct (itemComplete (currentItem st)); by rewrite <- ?app_assoc. }
    rewrite fillItem_cons. unfold entryValue.
    destruct (startsWith item (str "PROMPT_T:")) eqn:Hpt.
    { rewrite !(itemTag_exclusive (str "PROMPT_T:") _ item)
        by (tag_in || done).
      reflexivity. }
    destruct (startsWith item (str "RESPONSE:")) eqn:Hr.
    { rewrite !(itemTag_exclusive (str "RESPONSE:") _ item)
        by (tag_in || done).
      reflexivity. }
    destruct (startsWith item (str "RESPONSE_T:")) eqn:Hrt; [reflexivity|].
    cbn. by destruct (currentItem st).
Qed.

(** The items of a buffer are those of its prompts, block by block. *)
Lemma parseExerciseItems_blocks buffer :
  parseExerciseItems buffer = itemsOf false buffer.
Proof.
  unfold parseExerciseItems. rewrite exercise_fold_blocks. cbn.
  unfold finished, fillItem, itemComplete; cbn.
  reflexivity.
Qed.

(** An example marker at the end of a block is not part of the item. *)
Lemma fillItem_example ci block :
  fillItem ci (block ++ [exampleTag]) = fillItem ci block.
Proof.
  revert ci. induction block as [|item block IH]; intros ci.
  - by destruct ci.
  - cbn [app]. by rewrite !fillItem_cons, IH.
Qed.

Lemma blockOf_plain block rest :
  plainBlock block = true → atPrompt rest = true →
  blockOf (block ++ rest) = block.
Proof.
  intros Hb Hr. induction block as [|item block IH].
  - destruct rest as [|x rest]; [done|]. cbn in *. by rewrite Hr.
  - cbn in Hb. apply andb_prop in Hb as [[Hp _]%andb_prop Hb].
    apply negb_true_iff in Hp. cbn. by rewrite Hp, IH.
Qed.

Lemma itemsOf_plain block rest armed :
  plainBlock block = true →
  itemsOf armed (block ++ rest) = itemsOf armed rest.
Proof.
  intros Hb. induction block as [|item block IH]; [done|].
  cbn in Hb. apply andb_prop in Hb as [[Hp He]%andb_prop Hb].
  apply negb_true_iff in Hp, He. cbn. by rewrite Hp, He, IH.
Qed.

(** The prompts before an example marker and the prompt after it make
    the items they make without what follows. *)
Lemma itemsOf_before_example pre p rest : ∀ armed,
  itemsOf armed (pre ++ exampleTag :: promptTag p :: rest)
  = itemsOf armed pre ++ itemsOf true (promptTag p :: rest).
Proof.
  induction pre as [|item pre IH]; intros armed; [done|].
  cbn [app itemsOf].
  destruct (isExampleEntry item); [by apply IH|].
  destruct (isPromptEntry item); [|by apply IH].
  rewrite IH, <- app_assoc. f_equal.
  clear IH. unfold blockItem.
  set (ci := {| pi_prompt := _ |}). clearbody ci.
  f_equal. revert ci. induction pre as [|x pre IH]; intros ci.
  - reflexivity.
  - cbn [app blockOf]. destruct (isPromptEntry x); [done|].
    rewrite !fillItem_cons. apply IH.
Qed.

Lemma itemsOf_prompt armed v rest :
  itemsOf armed (promptTag v :: rest)
  = blockItem armed (trim v) (blockOf rest) ++ itemsOf false rest.
Proof. reflexivity. Qed.

(** An example marker, a prompt with its block and a second prompt with
    its block, between any entries before and any prompts after. *)
Lemma parseExerciseItems_marked_pair pre sa sc post a c :
  plainBlock sa = true → plainBlock sc = true → atPrompt post = true →
  parseExerciseItems
    (pre ++ [exampleTag; promptTag a] ++ sa ++ [promptTag c] ++ sc ++ post)
  = parseExerciseItems pre
    ++ blockItem true (trim a) sa
    ++ blockItem false (trim c) sc
    ++ parseExerciseItems post.
Proof.
  intros Ha Hc Hpost. rewrite !parseExerciseItems_blocks.
  cbn [app]. rewrite itemsOf_before_example. f_equal.
  rewrite itemsOf_prompt, blockOf_plain, itemsOf_plain by done.
  f_equal.
  by rewrite itemsOf_prompt, blockOf_plain, itemsOf_plain.
Qed.

Lemma blockItem_response armed p r :
  p ≠ [] → trim r ≠ [] →
  blockItem armed p [responseTag r] = [plainItem p (trim r) armed].
Proof.
  intros Hp Hr. unfold blockItem. rewrite fillItem_cons, fillItem_nil.
  change (entryValue (str "PROMPT_T:") (responseTag r)) with (@None jsstring).
  change (entryValue (str "RESPONSE_T:") (responseTag r))
    with (@None jsstring).
  change (entryValue (str "RESPONSE:") (responseTag r)) with (Some (trim r)).
  unfold finished, itemComplete, finishItem, plainItem. cbn.
  rewrite !truthy_Some by done. cbn. by rewrite !orStr_Some_nil.
Qed.


(** ** Dialogue lines *)

Lemma dialogueStep_vocab st w :
  dialogueStep st (vocabTag w)
  = {| ds_lines := ds_lines st; currentLine := currentLine st;
       pendingVocab :=
         pendingVocab st
         ++ [{| word := trim w;
                definition := orStr (pendingVocabDefinition st) [] |}];
       pendingVocabDefinition := None |}.
Proof. reflexivity. Qed.

Lemma dialogueStep_vocabT st d :
  dialogueStep st (vocabTTag d)
  = match pendingVocab st with
    | _ :: _ =>
        {| ds_lines := ds_lines st; currentLine := currentLine st;
           pendingVocab := setLastDefinition (trim d) (pendingVocab st);
           pendingVocabDefinition := pendingVocabDefinition st |}
    | [] =>
        {| ds_lines := ds_lines st; currentLine := currentLine st;
           pendingVocab := []; pendingVocabDefinition := Some (trim d) |}
    end.
Proof. reflexivity. Qed.

Lemma setLastDefinition_snoc d vs e :
  setLastDefinition d (vs ++ [e])
  = vs ++ [{| word := word e; definition := d |}].
Proof.
  induction vs as [|v vs IH]; [done|].
  cbn [app setLastDefinition]. rewrite IH.
  by destruct vs.
Qed.

(** A speaker tag or a line tag is none of the tags tested before it. *)
Lemma takesVocabulary_tags item :
  takesVocabulary item = true →
  startsWith item (str "VOCAB:") = false
  ∧ startsWith item (str "VOCAB_T:") = false
  ∧ startsWith item (str "LINE_T:") = false
  ∧ startsWith item (str "NOTES:") = false.
Proof.
  unfold takesVocabulary.
  intros [[r ->]%startsWith_app | [r ->]%startsWith_app]%orb_prop; done.
Qed.

Lemma setLastDefinition_pending d vs :
  match setLastDefinition d vs with [] => false | _ :: _ => true end
  = match vs with [] => false | _ :: _ => true end.
Proof. destruct vs as [|v [|v' vs]]; done. Qed.

(** Whether entries are pending after an entry of the buffer: a word
    entry adds one, a speaker or line entry takes them all, and every
    other entry leaves them. *)
Lemma dialogueStep_pending st item :
  hasPending (dialogueStep st item)
  = if startsWith item (str "VOCAB:") then true
    else if takesVocabulary item then false
    else hasPending st.
Proof.
  unfold hasPending.
  destruct (startsWith item (str "VOCAB:")) eqn:Hv.
  { unfold dialogueStep. rewrite Hv. cbn. by destruct (pendingVocab st). }
  destruct (takesVocabulary item) eqn:Ht.
  - destruct (takesVocabulary_tags item Ht) as (_ & Hvt & Hlt & Hn).
    unfold dialogueStep. rewrite Hv, Hvt, Hlt, Hn.
    unfold takesVocabulary in Ht.
    destruct (startsWith item (str "SPEAKER:")); cbn in Ht; [|rewrite Ht];
      destruct (truthy (pl_text (currentLine st)));
      by destruct (pendingVocab st).
  - unfold takesVocabulary in Ht. apply orb_false_elim in Ht as [Hs Hl].
    unfold dialogueStep. rewrite Hv, Hs, Hl.
    destruct (startsWith item (str "VOCAB_T:")).
    { destruct (pendingVocab st) as [|e vs] eqn:Hp; [done|]. cbn.
      apply (setLastDefinition_pending _ (e :: vs)). }
    by repeat case_match.
Qed.

Lemma dialogue_fold_pending P : ∀ st,
  hasPending (fold_left dialogueStep P st) = wordPending (hasPending st) P.
Proof.
  induction P as [|item P IH]; intros st; [done|].
  cbn [fold_left wordPending]. by rewrite IH, dialogueStep_pending.
Qed.

(** From a state with no entry pending, the two arrival orders of a word
    and its translation lead to the same state, in which the pair is the
    one pending entry. *)
Lemma dialogueStep_pair_commute st w d :
  pendingVocab st = [] →
  dialogueStep (dialogueStep st (vocabTag w)) (vocabTTag d)
  = dialogueStep (dialogueStep st (vocabTTag d)) (vocabTag w)
  ∧ pendingVocab (dialogueStep (dialogueStep st (vocabTag w)) (vocabTTag d))
    = [{| word := trim w; definition := trim d |}].
Proof.
  intros Hp.
  rewrite !dialogueStep_vocab, !dialogueStep_vocabT. cbn.
  rewrite Hp. cbn. by rewrite orStr_Some_nil.
Qed.

Lemma carried_step t v st item :
  t ≠ [] → carried t v st → carried t v (dialogueStep st item).
Proof.
  intros Ht [(l & Hl & Htext & Hvocab) | [Htext Hvocab]].
  - left. exists l. split; [|done].
    unfold dialogueStep.
    repeat case_match; simplify_eq/=; set_solver.
  - unfold dialogueStep.
    repeat case_match; simplify_eq/=;
      try (right; cbn; done);
      try (rewrite Htext, truthy_Some in * by done; discriminate);
      left; exists (finishLine (currentLine st));
      (split; [set_solver|]);
      unfold finishLine; cbn; by rewrite Htext, orStr_Some_nil.
Qed.

Lemma carried_fold t v S st :
  t ≠ [] → carried t v st → carried t v (fold_left dialogueStep S st).
Proof.
  intros Ht. revert st.
  induction S as [|item S IH]; intros st Hc; [done|].
  cbn [fold_left]. by apply IH, carried_step.
Qed.

Lemma carried_finish t v st :
  t ≠ [] → carried t v st →
  ∃ l, l ∈ dialogueFinish st ∧ dl_text l = t ∧ dl_vocab l = v.
Proof.
  intros Ht [(l & Hl & Htext & Hvocab) | [Htext Hvocab]];
    unfold dialogueFinish.
  - exists l. split; [|done]. case_match; set_solver.
  - rewrite Htext, truthy_Some by done.
    exists (finishLine (currentLine st)). split; [set_solver|].
    unfold finishLine; cbn. by rewrite Htext, orStr_Some_nil.
Qed.

Lemma dialogueStep_line st t :
  dialogueStep st (lineTag t)
  = let cl := currentLine st in
    let '(ls, cl1) :=
      if truthy (pl_text cl)
      then (ds_lines st ++ [finishLine cl],
            {| pl_speaker := pl_speaker cl; pl_text := None;
               pl_translation := None; pl_notes := None; pl_vocab := None |})
      else (ds_lines st, cl) in
    let cl2 :=
      {| pl_speaker := pl_speaker cl1; pl_text := Some (trim t);
         pl_translation := pl_translation cl1; pl_notes := pl_notes cl1;
         pl_vocab := pl_vocab cl1 |} in
    let '(cl3, pv) := attachVocab cl2 (pendingVocab st) in
    {| ds_lines := ls; currentLine := cl3; pendingVocab := pv;
       pendingVocabDefinition := pendingVocabDefinition st |}.
Proof. reflexivity. Qed.

Lemma dialogueStep_speaker st s :
  dialogueStep st (speakerTag s)
  = let cl := currentLine st in
    let '(ls, cl1) :=
      if truthy (pl_text cl) then (ds_lines st ++ [finishLine cl], emptyLine)
      else (ds_lines st, cl) in
    let cl2 :=
      {| pl_speaker := Some (trim s); pl_text := pl_text cl1;
         pl_translation := pl_translation cl1; pl_notes := pl_notes cl1;
         pl_vocab := pl_vocab cl1 |} in
    let '(cl3, pv) := attachVocab cl2 (pendingVocab st) in
    {| ds_lines := ls; currentLine := cl3; pendingVocab := pv;
       pendingVocabDefinition := pendingVocabDefinition st |}.
Proof. reflexivity. Qed.

(** A line tag arriving while entries are pending starts a line that
    carries them. *)
Lemma carried_after_line st t e vs :
  pendingVocab st = e :: vs →
  carried (trim t) (Some (e :: vs)) (dialogueStep st (lineTag t)).
Proof.
  intros Hp. right. rewrite dialogueStep_line, Hp. cbn.
  by destruct (truthy (pl_text (currentLine st))).
Qed.

(** A speaker tag takes the pending entries; the line tag after it keeps
    them. *)
Lemma carried_after_speaker_line st s t e vs :
  pendingVocab st = e :: vs →
  carried (trim t) (Some (e :: vs))
    (dialogueStep (dialogueStep st (speakerTag s)) (lineTag t)).
Proof.
  intros Hp. right. rewrite dialogueStep_line, dialogueStep_speaker, Hp. cbn.
  destruct (truthy (pl_text (currentLine st))) eqn:Htext; cbn.
  - done.
  - by rewrite Htext.
Qed.

(** While entries are pending, no early definition is held. *)
Lemma dialogueStep_held st item :
  (hasPending st = true → pendingVocabDefinition st = None) →
  hasPending (dialogueStep st item) = true →
  pendingVocabDefinition (dialogueStep st item) = None.
Proof.
  intros Hinv. unfold dialogueStep.
  destruct (startsWith item (str "VOCAB:")); [done|].
  destruct (startsWith item (str "VOCAB_T:")).
  { unfold hasPending in *.
    destruct (pendingVocab st) as [|e vs]; [done|]. intros _. by apply Hinv. }
  destruct (startsWith item (str "LINE_T:")); [exact Hinv|].
  destruct (startsWith item (str "NOTES:")); [exact Hinv|].
  destruct (startsWith item (str "SPEAKER:")).
  { unfold hasPending at 1.
    destruct (truthy (pl_text (currentLine st)));
      by destruct (pendingVocab st). }
  destruct (startsWith item (str "LINE:")); [|exact Hinv].
  unfold hasPending at 1.
  destruct (truthy (pl_text (currentLine st))); by destruct (pendingVocab st).
Qed.

Lemma dialogue_fold_held P : ∀ st,
  (hasPending st = true → pendingVocabDefinition st = None) →
  hasPending (fold_left dialogueStep P st) = true →
  pendingVocabDefinition (fold_left dialogueStep P st) = None.
Proof.
  induction P as [|item P IH]; intros st Hinv; [done|].
  cbn [fold_left]. apply IH. by apply dialogueStep_held.
Qed.

(** A translation arriving while entries are pending goes to the last
    of them. *)
Lemma dialogueStep_vocabT_last st d vs e :
  pendingVocab st = vs ++ [e] →
  dialogueStep st (vocabTTag d)
  = {| ds_lines := ds_lines st; currentLine := currentLine st;
       pendingVocab := vs ++ [{| word := word e; definition := trim d |}];
       pendingVocabDefinition := pendingVocabDefinition st |}.
Proof.
  intros Hp. rewrite dialogueStep_vocabT, Hp.
  rewrite setLastDefinition_snoc. by destruct vs.
Qed.

(** A line tag with a text takes the pending entries: they are the
    vocabulary of the last line of the dialogue read so far. *)
Lemma dialogueStep_line_takes st t vs e :
  pendingVocab st = vs ++ [e] → trim t ≠ [] →
  ∃ ls l, dialogueFinish (dialogueStep st (lineTag t)) = ls ++ [l]
          ∧ dl_vocab l = Some (vs ++ [e]).
Proof.
  intros Hp Ht. rewrite dialogueStep_line, Hp.
  destruct (vs ++ [e]) as [|x r] eqn:E; [by destruct vs|].
  unfold dialogueFinish.
  destruct (truthy (pl_text (currentLine st))); cbn;
    rewrite truthy_Some by done; by eexists _, _.
Qed.

(** Where a word is waiting for its line, the two arrival orders give
    different lines: the translation goes to the word before it. *)
Lemma vocab_pair_order_matters (P : list jsstring) (w d t : jsstring) :
  wordPending false P = true → trim d ≠ [] → trim t ≠ [] →
  parseDialogueLines (P ++ [vocabTag w; vocabTTag d; lineTag t])
  ≠ parseDialogueLines (P ++ [vocabTTag d; vocabTag w; lineTag t]).
Proof.
  intros HP Hd Ht. unfold parseDialogueLines.
  rewrite !fold_left_app. cbn [fold_left].
  set (st := fold_left dialogueStep P dialogueInit).
  assert (hasPending st = true) as Hp
    by (unfold st; by rewrite dialogue_fold_pending).
  assert (pendingVocabDefinition st = None) as Hheld
    by (by apply dialogue_fold_held).
  unfold hasPending in Hp.
  destruct (pendingVocab st) as [|e0 vs0] eqn:Epending; [done|].
  destruct (exists_last (l := e0 :: vs0) ltac:(done)) as (vs & e & Evs).
  rewrite Evs in Epending. clear Hp Evs.
  rewrite (dialogueStep_vocabT_last _ d (vs ++ [e])
             {| word := trim w; definition := orStr None [] |})
    by (by rewrite dialogueStep_vocab, Epending, Hheld).
  rewrite (dialogueStep_vocabT_last st d vs e Epending).
  rewrite (dialogueStep_vocab _ w).
  cbn [ds_lines currentLine pendingVocab pendingVocabDefinition word].
  rewrite Hheld.
  edestruct (dialogueStep_line_takes) as (ls1 & l1 & -> & Hv1);
    [reflexivity|exact Ht|].
  edestruct (dialogueStep_line_takes) as (ls2 & l2 & -> & Hv2);
    [reflexivity|exact Ht|].
  intros [_ <-]%app_inj_tail. cbn [pendingVocab] in Hv1, Hv2.
  rewrite Hv1 in Hv2. injection Hv2 as Hv.
  apply app_inj_tail in Hv as [_ Hv]. injection Hv as Hv.
  by symmetry in Hv.
Qed.

(** C1 (as amended).  A vocab-word tag and the single vocab-translation
    tag next to it give the same parsed dialogue whichever of the two comes
    first, when no vocab-word entry is waiting for its line at that point
    of the buffer (none stands after the last speaker or line entry before
    the pair); and the line they attach to (the next line tag, directly or
    after a speaker tag) carries exactly the pair (word, definition).
    When a vocab-word entry is waiting there, the order matters: with a
    translation and a line text that are not blank, the two orders give
    different lines. *)
Theorem vocab_pair_order_independent (P S : list jsstring) (w d : jsstring) :
  (wordPending false P = false →
   parseDialogueLines (P ++ [vocabTag w; vocabTTag d] ++ S)
   = parseDialogueLines (P ++ [vocabTTag d; vocabTag w] ++ S)
   ∧ (∀ t s S',
        (S = lineTag t :: S' ∨ S = speakerTag s :: lineTag t :: S') →
        trim t ≠ [] →
        ∃ l, l ∈ parseDialogueLines (P ++ [vocabTag w; vocabTTag d] ++ S)
             ∧ dl_text l = trim t
             ∧ dl_vocab l = onePair (trim w) (trim d)))
  ∧ (wordPending false P = true →
     trim d ≠ [] →
     ∀ t, trim t ≠ [] →
          parseDialogueLines (P ++ [vocabTag w; vocabTTag d; lineTag t])
          ≠ parseDialogueLines (P ++ [vocabTTag d; vocabTag w; lineTag t])).
Proof.
  split.
  - intros HP.
    assert (pendingVocab (fold_left dialogueStep P dialogueInit) = []) as Hp.
    { pose proof (dialogue_fold_pending P dialogueInit) as E.
      change (hasPending dialogueInit) with false in E. rewrite HP in E.
      unfold hasPending in E.
      by destruct (pendingVocab (fold_left dialogueStep P dialogueInit)). }
    destruct (dialogueStep_pair_commute _ w d Hp) as [Hcomm Hpair].
    unfold parseDialogueLines.
    rewrite !fold_left_app. cbn [fold_left]. split.
    + by rewrite Hcomm.
    + intros t s S' HS Ht.
      apply carried_finish; [done|].
      destruct HS as [-> | ->]; cbn [fold_left]; apply carried_fold; try done.
      * by apply carried_after_line.
      * by apply carried_after_speaker_line.
  - intros HP Hd t Ht. by apply vocab_pair_order_matters.
Qed.

Lemma vocab_pair_order_independent_witness :
  wordPending false
    [vocabTag (str "hola"); vocabTTag (str "hello"); speakerTag (str "Ana");
     lineTag (str "Hola!")]
  = false
  ∧ parseDialogueLines
      ([vocabTag (str "hola"); vocabTTag (str "hello");
        speakerTag (str "Ana"); lineTag (str "Hola!")]
       ++ [vocabTag (str "tiens"); vocabTTag (str "well")]
       ++ [lineTag (str "Tiens!")])
    = parseDialogueLines
        ([vocabTag (str "hola"); vocabTTag (str "hello");
          speakerTag (str "Ana"); lineTag (str "Hola!")]
         ++ [vocabTTag (str "well"); vocabTag (str "tiens")]
         ++ [lineTag (str "Tiens!")]).
Proof.
  split; [reflexivity|].
  apply (proj1 (vocab_pair_order_independent
                  [vocabTag (str "hola"); vocabTTag (str "hello");
                   speakerTag (str "Ana"); lineTag (str "Hola!")]
                  [lineTag (str "Tiens!")] (str "tiens") (str "well"))).
  reflexivity.
Defined.

(** C1 (as stated) fails: after [VOCAB:a] a word is waiting for its line,
    and the translation [d] goes to the word [w] when it comes after it
    but to the word [a] when it comes before it, so the line carries the
    pair (w, d) in one order and the pair (w, empty) in the other. *)
Lemma vocab_pair_order_counterexample :
  wordPending false [vocabTag (str "a")] = true
  ∧ parseDialogueLines
      [vocabTag (str "a"); vocabTag (str "w"); vocabTTag (str "d");
       lineTag (str "t")]
    = [{| dl_speaker := None; dl_text := str "t"; dl_translation := [];
          dl_notes := None;
          dl_vocab := Some [{| word := str "a"; definition := [] |};
                            {| word := str "w"; definition := str "d" |}] |}]
  ∧ parseDialogueLines
      [vocabTag (str "a"); vocabTTag (str "d"); vocabTag (str "w");
       lineTag (str "t")]
    = [{| dl_speaker := None; dl_text := str "t"; dl_translation := [];
          dl_notes := None;
          dl_vocab := Some [{| word := str "a"; definition := str "d" |};
                            {| word := str "w"; definition := [] |}] |}]
  ∧ ¬ pairOrderFree.
Proof.
  repeat split; try reflexivity.
  intros Hfree.
  specialize (Hfree [vocabTag (str "a")] [lineTag (str "t")]
                (str "w") (str "d")).
  vm_compute in Hfree. discriminate.
Qed.

(** C4 (as amended).  A vocab-translation tag overwrites the definition of
    the most recently pushed pending entry whenever an entry is pending,
    whether or not that entry already has a definition; only when no entry
    is pending is the value held, and then the next vocab-word tag takes
    it as its definition. *)
Theorem vocab_translation_rule (st : DialogueState) (d : jsstring) :
  (∀ vs e,
     pendingVocab st = vs ++ [e] →
     dialogueStep st (vocabTTag d)
     = {| ds_lines := ds_lines st; currentLine := currentLine st;
          pendingVocab := vs ++ [{| word := word e; definition := trim d |}];
          pendingVocabDefinition := pendingVocabDefinition st |})
  ∧ (pendingVocab st = [] →
     dialogueStep st (vocabTTag d)
     = {| ds_lines := ds_lines st; currentLine := currentLine st;
          pendingVocab := []; pendingVocabDefinition := Some (trim d) |}
     ∧ ∀ w,
         dialogueStep (dialogueStep st (vocabTTag d)) (vocabTag w)
         = {| ds_lines := ds_lines st; currentLine := currentLine st;
              pendingVocab := [{| word := trim w; definition := trim d |}];
              pendingVocabDefinition := None |}).
Proof.
  split.
  - intros vs e Hp. rewrite dialogueStep_vocabT, Hp.
    rewrite setLastDefinition_snoc. by destruct vs.
  - intros Hp. rewrite dialogueStep_vocabT, Hp. split; [done|].
    intros w. rewrite dialogueStep_vocab. cbn. by rewrite orStr_Some_nil.
Qed.

Lemma vocab_translation_rule_witness :
  pendingVocab afterDefinedPair
  = [] ++ [{| word := str "a"; definition := str "x" |}]
  ∧ pendingVocab (dialogueStep afterDefinedPair (vocabTTag (str "y")))
    = [{| word := str "a"; definition := str "y" |}].
Proof.
  split; [reflexivity|].
  pose proof (proj1 (vocab_translation_rule afterDefinedPair (str "y"))
                [] {| word := str "a"; definition := str "x" |} eq_refl) as E.
  rewrite E. reflexivity.
Defined.

(** C4 (as stated) fails: after [VOCAB:a; VOCAB_T:x] the entry has the
    definition [x], yet a second translation [y] is not held back for the
    next word; it replaces [x], and the next word gets no definition. *)
Lemma vocab_translation_held_counterexample :
  pendingVocab afterDefinedPair
  = [{| word := str "a"; definition := str "x" |}]
  ∧ pendingVocab (dialogueStep afterDefinedPair (vocabTTag (str "y")))
    = [{| word := str "a"; definition := str "y" |}]
  ∧ pendingVocabDefinition (dialogueStep afterDefinedPair (vocabTTag (str "y")))
    = None
  ∧ parseDialogueLines
      [vocabTag (str "a"); vocabTTag (str "x"); vocabTTag (str "y");
       vocabTag (str "b"); lineTag (str "t")]
    = [{| dl_speaker := None; dl_text := str "t"; dl_translation := [];
          dl_notes := None;
          dl_vocab := Some [{| word := str "a"; definition := str "y" |};
                            {| word := str "b"; definition := [] |}] |}]
  ∧ ¬ heldWhenDefined.
Proof.
  repeat split; try reflexivity.
  intros Hheld.
  destruct (Hheld afterDefinedPair (str "y") []
              {| word := str "a"; definition := str "x" |} eq_refl)
    as [Hp _]; [discriminate|].
  vm_compute in Hp. discriminate.
Qed.

(** ** Field lines in the parser *)

Section ParserFields.
Context `{UnicodeCase}.

(** A line the field expression matches is handed to [handleField]. *)
Lemma processLine_field raw field value st :
  fieldMatch (trimEnd raw) = Some (field, value) →
  processLine raw st = handleField field (orStr value []) st.
Proof.
  intros Hm.
  destruct (fieldMatch_head _ _ Hm) as (f & s' & Hs & Hf).
  unfold processLine. rewrite Hm, Hs.
  unfold trimStart. rewrite dropWhile_neg_head by (by apply isFieldChar_not_space).
  rewrite startsWith_single, fieldChar_not_hash by done.
  rewrite startsWith_single, fieldChar_not_dollar by done.
  rewrite streq_false; [done|].
  intros E. rewrite Hs, E in Hm. discriminate Hm.
Qed.

Lemma handleActivityField_buffer field v a st :
  activityContentBuffer (handleActivityField field v a st)
  = if bool_decide (field ∈ bufferedFields)
    then activityContentBuffer st ++ [field ++ [COLON] ++ v]
    else activityContentBuffer st.
Proof.
  unfold handleActivityField.
  repeat (case_match;
          [ match goal with
            | E : streq _ _ = true |- _ => apply streq_true in E; subst; done
            end |]).
  by case_match.
Qed.

(** A field inside an activity changes neither its kind nor its id, and
    touches neither the header accumulator nor the open lesson. *)
Lemma handleActivityField_activity field v a st :
  currentActivity st = Some a →
  ∃ a', currentActivity (handleActivityField field v a st) = Some a'
        ∧ act_type a' = act_type a
        ∧ act_id a' = act_id a.
Proof.
  intros Ha. unfold handleActivityField.
  repeat case_match; cbn;
    first [ by eauto
          | eexists; split; [reflexivity|]; split; [|reflexivity];
            unfold act_type; cbn; by destruct (act_payload a) ].
Qed.

Lemma handleActivityField_rest field v a st :
  module (handleActivityField field v a st) = module st
  ∧ currentLesson (handleActivityField field v a st) = currentLesson st.
Proof. unfold handleActivityField. by repeat case_match. Qed.

(** C6 (as amended).  Inside an open Grammar activity a line shaped like
    [FIELD: value] is never kept as written.  When its name is one of the
    ten buffered tags it enters the buffer in the form [NAME:value], and so
    reaches the content; with any other name it adds nothing to the buffer.
    When the activity closes, its content is the buffer joined with
    newlines and trimmed. *)
Theorem grammar_field_lines_and_content
    (st : ParserState) (a : Activity) (raw field : jsstring)
    (value : option jsstring) :
  currentActivity st = Some a →
  act_type a = GRAMMAR →
  fieldMatch (trimEnd raw) = Some (field, value) →
  activityContentBuffer (processLine raw st)
  = (if bool_decide (field ∈ bufferedFields)
     then activityContentBuffer st ++ [field ++ [COLON] ++ orStr value []]
     else activityContentBuffer st)
  ∧ (∃ a', currentActivity (processLine raw st) = Some a'
           ∧ act_type a' = GRAMMAR)
  ∧ (∀ l, currentLesson st = Some l →
          currentLesson (finalizeActivity st)
          = Some {| lesson_id := lesson_id l; lesson_title := lesson_title l;
                    activities :=
                      activities l
                      ++ [{| act_id := act_id a; act_title := act_title a;
                             act_intro := act_intro a;
                             act_payload :=
                               GrammarPayload
                                 (trim (join [NEWLINE]
                                          (activityContentBuffer st))) |}] |}).
Proof.
  intros Ha Hg Hm.
  rewrite (processLine_field _ _ _ _ Hm).
  unfold handleField. rewrite Ha.
  split; [apply handleActivityField_buffer|]. split.
  - destruct (handleActivityField_activity field (orStr value []) a st Ha)
      as (a' & Ha' & Hty & _).
    exists a'. split; [done|congruence].
  - intros l Hl. unfold finalizeActivity. rewrite Ha, Hl.
    unfold act_type in Hg. by destruct (act_payload a).
Qed.

End ParserFields.

(** The state after the header, a lesson marker and a grammar marker. *)
Lemma grammar_field_lines_and_content_witness :
  let st := fold_left (λ st l, processLine l st)
              (headerLines ++ [str "$LESSON L"; str "$GRAMMAR G"]) initialState in
  (act_type <$> currentActivity st) = Some GRAMMAR
  ∧ fieldMatch (trimEnd (str "NOTES: keep this"))
    = Some (str "NOTES", Some (str "keep this"))
  ∧ activityContentBuffer (processLine (str "NOTES: keep this") st)
    = [str "NOTES:keep this"].
Proof.
  cbv zeta.
  destruct (currentActivity
              (fold_left (λ st l, processLine l st)
                 (headerLines ++ [str "$LESSON L"; str "$GRAMMAR G"])
                 initialState)) as [a|] eqn:Ea; [|by vm_compute in Ea].
  assert (act_type a = GRAMMAR) as Hg.
  { vm_compute in Ea. injection Ea as <-. reflexivity. }
  split; [cbn; by rewrite Hg|]. split; [reflexivity|].
  rewrite (proj1 (grammar_field_lines_and_content _ a
                    (str "NOTES: keep this") (str "NOTES")
                    (Some (str "keep this")) Ea Hg eq_refl)).
  reflexivity.
Defined.

(** C6 (as stated) fails: the one body line [NOTES: keep this] of a
    Grammar activity is shaped like a field, and yet its text reaches the
    content, in the form [NOTES:keep this]; a line with a name the parser
    has no case for is swallowed. *)
Lemma grammar_field_swallowed_counterexample :
  match parseModuleFile grammarNotesText with
  | inr m => grammarContents m = [str "NOTES:keep this"]
  | inl _ => False
  end
  ∧ match parseModuleFile grammarUnknownFieldText with
    | inr m => grammarContents m = [[]]
    | inl _ => False
    end.
Proof. by vm_compute. Qed.

(** ** An exercise body, line by line *)

Lemma trim_fixed_inv v : trim v = v → trimStart v = v ∧ trimEnd v = v.
Proof.
  intros E. split.
  - rewrite <- E at 1. unfold trim.
    rewrite trimStart_trimEnd. unfold trimStart at 1 2.
    rewrite dropWhile_idemp. exact E.
  - rewrite <- E at 1. unfold trim. by rewrite trimEnd_idemp.
Qed.

Lemma trimEnd_app_fixed p v :
  v ≠ [] → trimEnd v = v → trimEnd (p ++ v) = p ++ v.
Proof.
  intros Hv E. induction p as [|c p IH]; cbn [app]; [done|].
  rewrite trimEnd_cons_nonblank; rewrite IH; [done|by destruct p, v].
Qed.

Section ExerciseBody.
Context `{UnicodeCase}.

(** A line [NAME: value] with a clean value is matched as that field. *)
Lemma processLine_prompt v st act :
  cleanValue v →
  currentActivity st = Some act →
  processLine (str "PROMPT: " ++ v) st = pushBuffer st (promptTag v).
Proof.
  intros (Hne & Htrim & Hlt) Hact.
  destruct (trim_fixed_inv v Htrim) as [Hs He].
  rewrite (processLine_field _ (str "PROMPT") (Some v)).
  - rewrite orStr_Some_nil. unfold handleField. by rewrite Hact.
  - rewrite trimEnd_app_fixed by done.
    unfold fieldMatch.
    replace (takeWhile isFieldChar (str "PROMPT: " ++ v)) with (str "PROMPT")
      by reflexivity.
    replace (dropWhile isFieldChar (str "PROMPT: " ++ v)) with (COLON :: 32 :: v)
      by reflexivity.
    change (dropWhile isSpace (32 :: v)) with (trimStart v).
    rewrite Hs, Hlt. by destruct v.
Qed.

Lemma processLine_response v st act :
  cleanValue v →
  currentActivity st = Some act →
  processLine (str "RESPONSE: " ++ v) st = pushBuffer st (responseTag v).
Proof.
  intros (Hne & Htrim & Hlt) Hact.
  destruct (trim_fixed_inv v Htrim) as [Hs He].
  rewrite (processLine_field _ (str "RESPONSE") (Some v)).
  - rewrite orStr_Some_nil. unfold handleField. by rewrite Hact.
  - rewrite trimEnd_app_fixed by done.
    unfold fieldMatch.
    replace (takeWhile isFieldChar (str "RESPONSE: " ++ v))
      with (str "RESPONSE") by reflexivity.
    replace (dropWhile isFieldChar (str "RESPONSE: " ++ v))
      with (COLON :: 32 :: v) by reflexivity.
    change (dropWhile isSpace (32 :: v)) with (trimStart v).
    rewrite Hs, Hlt. by destruct v.
Qed.

Lemma processLine_example st act :
  currentActivity st = Some act → act_type act = EXERCISE →
  processLine (str "EXAMPLE") st = pushBuffer st exampleTag.
Proof.
  intros Hact Hty. unfold processLine, inExercise. rewrite Hact, Hty.
  reflexivity.
Qed.


(** C2.  In every exercise body an example marker marks exactly the item
    of the next prompt.  The items of a buffer are those of its prompts,
    block by block, and the item of a prompt is an example exactly when an
    example marker stands between the prompt before it (or the start of
    the buffer) and the prompt itself.  So wherever an example marker is
    followed by a prompt with its block and a second prompt with its
    block, a block being any entries that are neither prompts nor example
    markers (responses, translations and others), whatever entries come
    before and whatever prompts come after, the items are those of the
    entries before, the item of the first prompt with [isExample = true],
    the item of the second with [isExample = false], and the items of the
    prompts after.  With a response as the only entry of each block these
    are the two items of the prompts and responses; and the five lines of
    such a body, read into an open Exercise activity that is then closed,
    give these two items. *)
Theorem example_marker_scoping :
  (∀ buffer, parseExerciseItems buffer = itemsOf false buffer)
  ∧ (∀ pre sa sc post a c,
       plainBlock sa = true → plainBlock sc = true → atPrompt post = true →
       parseExerciseItems
         (pre ++ [exampleTag; promptTag a] ++ sa ++ [promptTag c] ++ sc ++ post)
       = parseExerciseItems pre
         ++ blockItem true (trim a) sa
         ++ blockItem false (trim c) sc
         ++ parseExerciseItems post)
  ∧ (∀ pre post a b c d,
       trim a ≠ [] → trim b ≠ [] → trim c ≠ [] → trim d ≠ [] →
       atPrompt post = true →
       parseExerciseItems
         (pre
          ++ [exampleTag; promptTag a; responseTag b; promptTag c;
              responseTag d]
          ++ post)
       = parseExerciseItems pre
         ++ [plainItem (trim a) (trim b) true;
             plainItem (trim c) (trim d) false]
         ++ parseExerciseItems post)
  ∧ (∀ a b c d,
       cleanValue a → cleanValue b → cleanValue c → cleanValue d →
       ∀ st act l instr tts items0,
         currentActivity st = Some act →
         act_payload act = ExercisePayload instr tts items0 →
         currentLesson st = Some l →
         activityContentBuffer st = [] →
         currentLesson
           (finalizeActivity
              (fold_left (λ st l, processLine l st) (exampleBody a b c d) st))
         = Some {| lesson_id := lesson_id l; lesson_title := lesson_title l;
                   activities :=
                     activities l
                     ++ [{| act_id := act_id act; act_title := act_title act;
                            act_intro := act_intro act;
                            act_payload :=
                              ExercisePayload instr tts
                                [plainItem a b true; plainItem c d false] |}] |}).
Proof.
  assert (∀ pre post a b c d,
            trim a ≠ [] → trim b ≠ [] → trim c ≠ [] → trim d ≠ [] →
            atPrompt post = true →
            parseExerciseItems
              (pre
               ++ [exampleTag; promptTag a; responseTag b; promptTag c;
                   responseTag d]
               ++ post)
            = parseExerciseItems pre
              ++ [plainItem (trim a) (trim b) true;
                  plainItem (trim c) (trim d) false]
              ++ parseExerciseItems post) as Hpair.
  { intros pre post a b c d Ha Hb Hc Hd Hpost.
    pose proof (parseExerciseItems_marked_pair pre [responseTag b]
                  [responseTag d] post a c eq_refl eq_refl Hpost) as E.
    cbn [app] in E. cbn [app]. rewrite E.
    by rewrite !blockItem_response. }
  split; [apply parseExerciseItems_blocks|].
  split; [apply parseExerciseItems_marked_pair|].
  split; [exact Hpair|].
  intros a b c d Ca Cb Cc Cd st act l instr tts items0 Hact Hpay Hl Hbuf.
  assert (act_type act = EXERCISE) as Hty by (unfold act_type; by rewrite Hpay).
  unfold exampleBody. cbn [fold_left].
  rewrite (processLine_example st act Hact Hty).
  set (s1 := pushBuffer st exampleTag).
  rewrite (processLine_prompt a s1 act Ca Hact).
  set (s2 := pushBuffer s1 (promptTag a)).
  rewrite (processLine_response b s2 act Cb Hact).
  set (s3 := pushBuffer s2 (responseTag b)).
  rewrite (processLine_prompt c s3 act Cc Hact).
  set (s4 := pushBuffer s3 (promptTag c)).
  rewrite (processLine_response d s4 act Cd Hact).
  subst s1 s2 s3 s4.
  unfold finalizeActivity. cbn. rewrite Hact, Hl, Hpay, Hbuf. cbn [app].
  pose proof (Hpair [] [] a b c d) as Hitems. cbn [app] in Hitems.
  destruct Ca as (Ha & Ea & _), Cb as (Hb & Eb & _), Cc as (Hc & Ec & _),
    Cd as (Hd & Ed & _).
  rewrite Hitems by (rewrite ?Ea, ?Eb, ?Ec, ?Ed; done).
  rewrite Ea, Eb, Ec, Ed.
  reflexivity.
Qed.

End ExerciseBody.

Lemma example_marker_scoping_witness :
  parseExerciseItems
    [exampleTag; promptTag (str "a"); responseTag (str "b");
     promptTag (str "c"); responseTag (str "d")]
  = [plainItem (str "a") (str "b") true; plainItem (str "c") (str "d") false]
  ∧ parseExerciseItems
      ([promptTag (str "uno"); responseTag (str "one")]
       ++ [exampleTag; promptTag (str "dos")]
       ++ [str "PROMPT_T:two"; responseTag (str "zwei");
           str "RESPONSE_T:two"]
       ++ [promptTag (str "tres")]
       ++ [responseTag (str "drei")]
       ++ [promptTag (str "cuatro"); responseTag (str "vier")])
    = [plainItem (str "uno") (str "one") false;
       {| ei_prompt := str "dos"; ei_promptTranslation := Some (str "two");
          ei_response := str "zwei";
          ei_responseTranslation := Some (str "two");
          ei_isExample := true |};
       plainItem (str "tres") (str "drei") false;
       plainItem (str "cuatro") (str "vier") false].
Proof.
  destruct example_marker_scoping as (_ & Hblocks & Hpair & _).
  split.
  - apply (Hpair [] [] (str "a") (str "b") (str "c") (str "d"));
      vm_compute; (discriminate || reflexivity).
  - rewrite (Hblocks [promptTag (str "uno"); responseTag (str "one")]
               [str "PROMPT_T:two"; responseTag (str "zwei");
                str "RESPONSE_T:two"]
               [responseTag (str "drei")]
               [promptTag (str "cuatro"); responseTag (str "vier")]
               (str "dos") (str "tres") eq_refl eq_refl eq_refl).
    reflexivity.
Defined.


(** ** Mandatory header fields *)

(** A header field whose name is not one of the names of [f] leaves the
    slot of [f] alone. *)
Lemma handleHeaderField_slot f field v st st' :
  has (fieldNames f) field = false →
  handleHeaderField field v st = Some st' →
  slot f (module st') = slot f (module st).
Proof.
  intros Hn. unfold handleHeaderField.
  repeat case_match; intros ?; simplify_eq; try done;
    repeat match goal with
           | E : streq _ _ = true |- _ => apply streq_true in E; subst
           | E : _ || _ = true |- _ => apply orb_prop in E; destruct E
           end;
    destruct f; try done.
Qed.

Lemma finalizeActivity_module st :
  module (finalizeActivity st) = module st.
Proof. unfold finalizeActivity. by repeat case_match. Qed.

Lemma finalizeLesson_slot f st :
  slot f (module (finalizeLesson st)) = slot f (module st).
Proof. unfold finalizeLesson. case_match; [|done]. by destruct f. Qed.

Section MandatoryFields.
Context `{UnicodeCase}.

Lemma startActivity_module st t ttl :
  module (startActivity st t ttl) = module st.
Proof. unfold startActivity. cbn. apply finalizeActivity_module. Qed.

Lemma handleSectionMarker_slot f l st :
  slot f (module (handleSectionMarker l st)) = slot f (module st).
Proof.
  unfold handleSectionMarker.
  repeat case_match; try done; cbn;
    rewrite ?startActivity_module, ?finalizeLesson_slot,
      ?finalizeActivity_module; done.
Qed.

Lemma handleField_slot f field v st :
  has (fieldNames f) field = false →
  slot f (module (handleField field v st)) = slot f (module st).
Proof.
  intros Hn. unfold handleField.
  destruct (currentActivity st) as [a|].
  - by rewrite (proj1 (handleActivityField_rest field v a st)).
  - destruct (currentLesson st); [done|].
    destruct (handleHeaderField field v st) eqn:E; [|done].
    by eapply handleHeaderField_slot.
Qed.

Lemma processLine_slot f raw st :
  notFieldLineOf f raw = true →
  slot f (module (processLine raw st)) = slot f (module st).
Proof.
  unfold notFieldLineOf. intros Hn.
  destruct (fieldMatch (trimEnd raw)) as [[field value]|] eqn:Hm.
  - rewrite (processLine_field _ _ _ _ Hm).
    apply handleField_slot. by apply negb_true_iff.
  - unfold processLine. rewrite Hm.
    repeat case_match; try done. apply handleSectionMarker_slot.
Qed.

Lemma processLines_slot f lines st :
  forallb (notFieldLineOf f) lines = true →
  slot f (module (fold_left (λ st l, processLine l st) lines st))
  = slot f (module st).
Proof.
  revert st. induction lines as [|raw lines IH]; intros st Hl; [done|].
  cbn in Hl. apply andb_prop in Hl as [Hraw Hl].
  cbn [fold_left]. rewrite IH by done. by apply processLine_slot.
Qed.

(** A field no line of the text supplies is unset when the input ends. *)
Lemma fieldAbsent_slot f text :
  fieldAbsent f text = true →
  slot f (module (parseLines (splitOn NEWLINE text))) = None.
Proof.
  intros Ha. unfold parseLines.
  rewrite finalizeLesson_slot, finalizeActivity_module.
  rewrite processLines_slot by done. by destruct f.
Qed.

(** Validation names the first field, in its order, whose slot is unset
    or empty. *)
Lemma validateModule_first_missing f st :
  truthy (slot f (module st)) = false →
  (∀ g, checkedBefore g f = true → truthy (slot g (module st)) = true) →
  validateModule st = inl (missingMessage f).
Proof.
  intros Hf Hbefore.
  assert (∀ g, checkedBefore g f = true →
               negb (truthy (slot g (module st))) = false) as Hb
    by (intros g Hg; by rewrite Hbefore).
  unfold validateModule.
  destruct f; cbn in Hf.
  - by rewrite Hf.
  - pose proof (Hb DocId eq_refl) as H1. cbn in H1.
    by rewrite H1, Hf.
  - pose proof (Hb DocId eq_refl) as H1. pose proof (Hb Title eq_refl) as H2.
    cbn in H1, H2. by rewrite H1, H2, Hf.
  - pose proof (Hb DocId eq_refl) as H1. pose proof (Hb Title eq_refl) as H2.
    pose proof (Hb TargetLang eq_refl) as H3.
    cbn in H1, H2, H3. by rewrite H1, H2, H3, Hf.
Qed.

End MandatoryFields.

(** ** Slugs, word by word *)

Lemma join_cons_word c w ws :
  join [DASH] ((c :: w) :: ws) = c :: join [DASH] (w :: ws).
Proof. by destruct ws. Qed.

Lemma join_single_word c x l :
  join [DASH] ([c] :: x :: l) = c :: DASH :: join [DASH] (x :: l).
Proof. reflexivity. Qed.

(** What [replaceNonSlug] makes of a string once a dash has just been
    written: its words joined by dashes, and one more dash if a word is
    followed by other characters at the end. *)
Lemma replaceNonSlug_words s :
  ∃ e, (e = [] ∨ e = [DASH])
       ∧ (slugWords s = [] → e = [])
       ∧ replaceNonSlug true s = join [DASH] (slugWords s) ++ e.
Proof.
  unfold slugWords.
  induction s as [|c r IH]; [exists []; by auto|].
  destruct IH as (e & He & Hnil & IH).
  cbn [replaceNonSlug slugRuns].
  destruct (isSlugChar c) eqn:Hc.
  - destruct r as [|c' r'].
    { exists []. cbn. by auto. }
    cbn [replaceNonSlug slugRuns] in *.
    destruct (slugRuns r') as [w' ws'].
    destruct (isSlugChar c') eqn:Hc'.
    + exists e. split; [done|]. split; [done|].
      rewrite join_cons_word. cbn [app]. by rewrite <- IH.
    + destruct (match w' with [] => ws' | _ :: _ => w' :: ws' end)
        as [|x l] eqn:Hw.
      * exists [DASH]. split; [by right|]. split; [done|].
        rewrite (Hnil eq_refl), app_nil_r in IH. by rewrite IH.
      * exists e. split; [done|]. split; [done|].
        rewrite join_single_word. cbn [app]. by rewrite <- IH.
  - exists e. by destruct (slugRuns r) as [w ws].
Qed.

(** From the start of a string, [replaceNonSlug] writes one dash more
    when the string starts outside a word. *)
Lemma replaceNonSlug_start s :
  replaceNonSlug false s
  = match s with
    | c :: _ => if isSlugChar c then [] else [DASH]
    | [] => []
    end ++ replaceNonSlug true s.
Proof. destruct s as [|c r]; [done|]. cbn. by destruct (isSlugChar c). Qed.

(** The words are not empty and hold letters and digits only. *)
Lemma slugRuns_words s :
  forallb isSlugChar (slugRuns s).1 = true
  ∧ Forall (λ w, w ≠ [] ∧ forallb isSlugChar w = true) (slugRuns s).2.
Proof.
  induction s as [|c r IH]; [by split|].
  cbn [slugRuns]. destruct (slugRuns r) as [w ws]. destruct IH as [Hw Hws].
  cbn [fst snd] in *.
  destruct (isSlugChar c) eqn:Hc; cbn [fst snd].
  - split; [|done]. cbn. by rewrite Hc.
  - split; [done|]. destruct w as [|x w]; [done|]. by constructor.
Qed.

Lemma slugWords_words s :
  Forall (λ w, w ≠ [] ∧ forallb isSlugChar w = true) (slugWords s).
Proof.
  unfold slugWords. pose proof (slugRuns_words s) as [Hw Hws].
  destruct (slugRuns s) as [w ws]. cbn [fst snd] in *.
  destruct w as [|x w]; [done|]. by constructor.
Qed.

(** Words joined by dashes do not end in a dash. *)
Lemma join_words_last ws :
  ws ≠ [] →
  Forall (λ w, w ≠ [] ∧ forallb isSlugChar w = true) ws →
  ∃ x c, join [DASH] ws = x ++ [c] ∧ isSlugChar c = true.
Proof.
  intros Hne Hall.
  induction Hall as [|w ws [Hw Hs] Hall IH]; [done|].
  destruct ws as [|w' ws].
  - cbn. destruct (exists_last Hw) as (x & c & ->).
    exists x, c. split; [done|].
    rewrite forallb_app in Hs. apply andb_prop in Hs as [_ Hs].
    cbn in Hs. by destruct (isSlugChar c).
  - destruct IH as (x & c & E & Hc); [done|].
    exists (w ++ [DASH] ++ x), c. split; [|done].
    change (join [DASH] (w :: w' :: ws))
      with (w ++ [DASH] ++ join [DASH] (w' :: ws)).
    by rewrite E, <- !app_assoc.
Qed.

Lemma stripDashes_words ws e :
  Forall (λ w, w ≠ [] ∧ forallb isSlugChar w = true) ws →
  e = [] ∨ e = [DASH] → (ws = [] → e = []) →
  match rev (join [DASH] ws ++ e) with
  | c :: r => if c =? DASH then rev r else join [DASH] ws ++ e
  | [] => []
  end = join [DASH] ws.
Proof.
  intros Hall He Hnil.
  destruct ws as [|w ws].
  { by rewrite (Hnil eq_refl). }
  destruct (join_words_last (w :: ws)) as (x & c & E & Hc); [done|done|].
  destruct He as [-> | ->].
  - rewrite app_nil_r, E, rev_app_distr. cbn [rev app].
    destruct (c =? DASH) eqn:Ec; [|done].
    apply N.eqb_eq in Ec as ->. by vm_compute in Hc.
  - rewrite rev_app_distr. cbn [rev app].
    by rewrite N.eqb_refl, rev_involutive.
Qed.

(** The slug of the code is the words of the string joined by dashes. *)
Lemma stripDashes_replaceNonSlug s :
  stripDashes (replaceNonSlug false s) = join [DASH] (slugWords s).
Proof.
  destruct (replaceNonSlug_words s) as (e & He & Hnil & E).
  pose proof (slugWords_words s) as Hall.
  rewrite replaceNonSlug_start.
  assert (match
            match s with
            | c :: _ => if isSlugChar c then [] else [DASH]
            | [] => []
            end ++ replaceNonSlug true s
          with
          | c :: s' => if c =? DASH then s' else c :: s'
          | [] => []
          end = replaceNonSlug true s) as Hlead.
  { destruct s as [|c r]; [done|].
    destruct (isSlugChar c) eqn:Hc; [|by cbn; rewrite Hc].
    cbn. rewrite Hc. destruct (c =? DASH) eqn:Ec; [|done].
    apply N.eqb_eq in Ec as ->. by vm_compute in Hc. }
  unfold stripDashes.
  transitivity
    (match rev (replaceNonSlug true s) with
     | c :: r => if c =? DASH then rev r else replaceNonSlug true s
     | [] => []
     end).
  { destruct (_ ++ replaceNonSlug true s) as [|c0 s0] eqn:E0.
    - by rewrite <- Hlead.
    - rewrite <- Hlead. by destruct (c0 =? DASH). }
  rewrite E. by apply stripDashes_words.
Qed.

(** ** Agreement of the parser and the indexer on activity ids *)

Section IdAgreement.
Context `{UnicodeCase}.

Lemma slug_default_title kind :
  slug (typeName kind) = slug (defaultTitle kind).
Proof.
  unfold slug.
  rewrite !toLowerCase_ascii;
    [by destruct kind | |];
    destruct kind; repeat constructor.
Qed.

(** Both id generators give the same id to an activity marker line. *)
Lemma activity_id_agreement raw marker ttl kind :
  markerMatch (trimEnd raw) = Some (marker, ttl) →
  activityOfMarker marker = Some kind →
  indexActivityId marker (orStr (Some (trim (default [] ttl))) marker)
  = generateActivityId (typeName kind) (orStr ttl (defaultTitle kind)).
Proof.
  intros Hm Hk. pose proof (activityOfMarker_name _ _ Hk) as ->.
  unfold indexActivityId, generateActivityId. do 2 f_equal.
  assert (orStr (Some (typeName kind)) (str "untitled") = typeName kind)
    as Hdef by (by destruct kind).
  destruct ttl as [[|c t]|]; cbn [default from_option id].
  - change (trim []) with (@nil N).
    change (orStr (Some []) ?d) with d.
    rewrite Hdef. apply slug_default_title.
  - rewrite (markerMatch_title_trimmed _ _ _ Hm) by done.
    reflexivity.
  - change (trim []) with (@nil N).
    change (orStr (Some []) ?d) with d. change (orStr None ?d) with d.
    rewrite Hdef. apply slug_default_title.
Qed.

(** *** The parser side *)

Lemma finalizeActivity_ids st :
  lessonReady st →
  parserIds (finalizeActivity st) = parserIds st
  ∧ currentActivity (finalizeActivity st) = None
  ∧ (is_Some (currentLesson (finalizeActivity st))
     ↔ is_Some (currentLesson st)).
Proof.
  unfold lessonReady, finalizeActivity, parserIds.
  destruct st as [m vc [l|] [a|] buf]; cbn; intros Hw.
  - unfold lessonIds at 2. cbn. rewrite map_app. cbn.
    split; [by rewrite <- !app_assoc|]. split; [done|]. split; eauto.
  - done.
  - destruct Hw as [? ?]; [eauto|done].
  - done.
Qed.

Lemma finalizeLesson_ids st :
  currentActivity st = None →
  parserIds (finalizeLesson st) = parserIds st
  ∧ currentLesson (finalizeLesson st) = None
  ∧ currentActivity (finalizeLesson st) = None.
Proof.
  unfold finalizeLesson, parserIds.
  destruct st as [m vc [l|] [a|] buf]; cbn; intros Ea; try done.
  by rewrite flat_map_app; cbn; rewrite !app_nil_r.
Qed.

Lemma startActivity_ids st kind ttl :
  lessonReady st →
  parserIds (startActivity st kind ttl)
  = parserIds st ++ [generateActivityId (typeName kind) ttl]
  ∧ lessonReady (startActivity st kind ttl).
Proof.
  intros Hw.
  destruct (finalizeActivity_ids st Hw) as (Hids & Hact & Hles).
  unfold startActivity. split; [|unfold lessonReady; cbn; eauto].
  rewrite <- Hids. unfold parserIds at 1 2.
  cbn [module currentLesson currentActivity from_option act_id].
  rewrite Hact. cbn [from_option].
  destruct (currentLesson (finalizeActivity st)); cbn;
    by rewrite ?app_nil_r, <- ?app_assoc.
Qed.
Lemma handleHeaderField_rest field v st st' :
  handleHeaderField field v st = Some st' →
  pm_lessons (module st') = pm_lessons (module st)
  ∧ currentLesson st' = currentLesson st
  ∧ currentActivity st' = currentActivity st.
Proof.
  unfold handleHeaderField.
  repeat case_match; intros ?; by simplify_eq.
Qed.

Lemma handleField_ids field v st :
  parserIds (handleField field v st) = parserIds st
  ∧ (lessonReady st → lessonReady (handleField field v st)).
Proof.
  unfold handleField.
  destruct (currentActivity st) as [a|] eqn:Ea.
  - destruct (handleActivityField_activity field v a st Ea)
      as (a' & Ha' & _ & Hid).
    destruct (handleActivityField_rest field v a st) as [Hm Hl].
    unfold parserIds, lessonReady. rewrite Ha', Hm, Hl, Ea. cbn.
    rewrite Hid. split; [done|]. intros Hw _. apply Hw. eauto.
  - destruct (currentLesson st) eqn:El; [done|].
    destruct (handleHeaderField field v st) as [st'|] eqn:E; [|done].
    destruct (handleHeaderField_rest _ _ _ _ E) as (Hm & Hl & Ha).
    unfold parserIds, lessonReady. by rewrite Hm, Hl, Ha.
Qed.

Lemma handleSectionMarker_ids raw st :
  startsWith (trimEnd raw) [DOLLAR] = true →
  lessonReady st →
  parserIds (handleSectionMarker (trimEnd raw) st)
  = parserIds st ++ option_list (openedId raw)
  ∧ lessonReady (handleSectionMarker (trimEnd raw) st).
Proof.
  intros Hd Hw. unfold handleSectionMarker, openedId. rewrite Hd.
  destruct (markerMatch (trimEnd raw)) as [[marker ttl]|];
    [|by rewrite app_nil_r].
  destruct (streq marker (str "MODULE")) eqn:E1.
  { apply streq_true in E1 as ->. by rewrite app_nil_r. }
  destruct (streq marker (str "LESSON")) eqn:E2.
  { apply streq_true in E2 as ->. cbn [activityOfMarker option_list].
    destruct (finalizeActivity_ids st Hw) as (Hids & Hact & _).
    destruct (finalizeLesson_ids _ Hact) as (Hids' & Hles' & Hact').
    split; [|unfold lessonReady; cbn; eauto].
    change (activityOfMarker (str "LESSON")) with (@None ActivityType).
    cbn [option_list]. rewrite app_nil_r, <- Hids, <- Hids'.
    unfold parserIds. cbn. by rewrite Hact', Hles'. }
  destruct (streq marker (str "DIALOGUE")) eqn:E3.
  { apply streq_true in E3 as ->. by apply startActivity_ids. }
  destruct (streq marker (str "GRAMMAR")) eqn:E4.
  { apply streq_true in E4 as ->. by apply startActivity_ids. }
  destruct (streq marker (str "EXERCISE")) eqn:E5.
  { apply streq_true in E5 as ->. by apply startActivity_ids. }
  destruct (streq marker (str "CHAT")) eqn:E6.
  { apply streq_true in E6 as ->. by apply startActivity_ids. }
  unfold activityOfMarker. rewrite E3, E4, E5, E6. by rewrite app_nil_r.
Qed.

Lemma openedId_no_marker raw :
  startsWith (trimEnd raw) [DOLLAR] = false → openedId raw = None.
Proof. unfold openedId. by intros ->. Qed.

Lemma processLine_ids raw st :
  lessonReady st →
  parserIds (processLine raw st) = parserIds st ++ option_list (openedId raw)
  ∧ lessonReady (processLine raw st).
Proof.
  intros Hw. unfold processLine.
  destruct (startsWith (trimEnd raw) [DOLLAR]) eqn:Hd.
  - destruct (trimEnd raw) as [|c s] eqn:Hl; [done|].
    rewrite startsWith_single in Hd. apply N.eqb_eq in Hd as ->.
    unfold trimStart. rewrite dropWhile_neg_head by done.
    rewrite startsWith_single. change (DOLLAR =? HASH) with false.
    rewrite <- Hl. apply handleSectionMarker_ids; [|done].
    by rewrite Hl.
  - rewrite (openedId_no_marker _ Hd), app_nil_r.
    repeat case_match; try done.
    match goal with
    | |- context [handleField ?f ?v st] =>
        destruct (handleField_ids f v st) as [? ?]; by auto
    end.
Qed.

Lemma processLines_ids lines st :
  lessonReady st →
  parserIds (fold_left (λ st l, processLine l st) lines st)
  = parserIds st ++ omap openedId lines
  ∧ lessonReady (fold_left (λ st l, processLine l st) lines st).
Proof.
  revert st. induction lines as [|raw lines IH]; intros st Hw.
  - by rewrite app_nil_r.
  - destruct (processLine_ids raw st Hw) as [Hids Hw'].
    destruct (IH _ Hw') as [Hids' Hw''].
    cbn [fold_left]. split; [|done].
    by rewrite Hids', Hids, <- app_assoc, omap_cons.
Qed.

(** The parser's activity ids are those of the activity marker lines, in
    the order of the lines. *)
Lemma parseLines_ids lines :
  flat_map lessonIds (pm_lessons (module (parseLines lines)))
  = omap openedId lines.
Proof.
  assert (lessonReady initialState) as Hw0 by (by intros [? ?]).
  destruct (processLines_ids lines initialState Hw0) as [Hids Hw].
  destruct (finalizeActivity_ids _ Hw) as (Hids1 & Hact & _).
  destruct (finalizeLesson_ids _ Hact) as (Hids2 & Hles & Hact').
  unfold parseLines.
  rewrite <- (app_nil_l (omap openedId lines)).
  change [] with (parserIds initialState) at 1.
  rewrite <- Hids, <- Hids1, <- Hids2.
  unfold parserIds. by rewrite Hles, Hact', !app_nil_r.
Qed.

(** *** The indexer side *)

Lemma closeBlock_keys lines e st :
  indexKeys (closeBlock lines e st) = indexKeys st
  ∧ current (closeBlock lines e st) = None.
Proof.
  unfold closeBlock, indexKeys.
  destruct (current st) as [c|] eqn:Ec; cbn; [|by rewrite Ec].
  split; [|done]. rewrite dom_insert_L. set_solver.
Qed.

Lemma indexLine_keys lines i raw st :
  indexKeys (indexLine lines i raw st)
  = indexKeys st ∪ list_to_set (option_list (openedId raw)).
Proof.
  unfold indexLine, openedId.
  destruct (startsWith (trimEnd raw) [DOLLAR]); cbn [negb];
    [|cbn; set_solver].
  destruct (closeBlock_keys lines (Z.of_nat i - 1) st) as [Hk Hc].
  destruct (markerMatch (trimEnd raw)) as [[marker ttl]|] eqn:Hm;
    [|cbn; set_solver].
  destruct (activityOfMarker marker) as [kind|] eqn:Ha; [|cbn; set_solver].
  rewrite (activity_id_agreement _ _ _ _ Hm Ha).
  rewrite <- Hk. unfold indexKeys at 1 2. rewrite Hc. cbn. set_solver.
Qed.

Lemma indexLoop_keys lines todo : ∀ i st,
  indexKeys (indexLoop lines i todo st)
  = indexKeys st ∪ list_to_set (omap openedId todo).
Proof.
  induction todo as [|raw todo IH]; intros i st; cbn [indexLoop].
  - cbn. set_solver.
  - rewrite IH, indexLine_keys, omap_cons, list_to_set_app_L. set_solver.
Qed.

Lemma buildActivityRawIndex_keys content :
  dom (buildActivityRawIndex content)
  = list_to_set (omap openedId (splitOn NEWLINE content)).
Proof.
  unfold buildActivityRawIndex. cbv zeta.
  match goal with
  | |- dom (map_ (closeBlock ?l ?e ?s)) = _ =>
      destruct (closeBlock_keys l e s) as [Hk Hc];
      pose proof (indexLoop_keys l l 0 {| map_ := ∅; current := None |}) as Hl
  end.
  unfold indexKeys in Hk at 1. rewrite Hc in Hk. cbn in Hk.
  rewrite union_empty_r_L in Hk. rewrite Hk, Hl.
  unfold indexKeys. cbn. rewrite dom_empty_L. set_solver.
Qed.

Lemma slug_slugified t : slug t = slugified t.
Proof. apply stripDashes_replaceNonSlug. Qed.

(** The id the parser gives to the activity a line opens is the id
    described for it. *)
Lemma openedId_described raw : openedId raw = describedId raw.
Proof.
  unfold openedId, describedId, sectionOf.
  destruct (startsWith (trimEnd raw) [DOLLAR]); [|done].
  destruct (markerMatch (trimEnd raw)) as [[marker ttl]|]; [|done].
  destruct (streq marker (str "LESSON")) eqn:E.
  { apply streq_true in E as ->. reflexivity. }
  destruct (activityOfMarker marker) as [kind|]; [|done].
  unfold generateActivityId, kindAndSlug. do 3 f_equal.
  rewrite <- slug_slugified.
  destruct ttl as [[|c t]|]; try done; symmetry; apply slug_default_title.
Qed.

Lemma omap_openedId (lines : list jsstring) :
  omap openedId lines = omap describedId lines.
Proof.
  induction lines as [|raw lines IH]; [done|].
  by rewrite !omap_cons, IH, openedId_described.
Qed.

(** C9.  For a module text the parser accepts, the keys of the index are
    exactly the ids of the activities of the parsed module; and these ids
    are, in document order, those of the activity marker lines of the
    text, each the kind, a dash and the slugified title: the lower-cased
    title with every maximal run of lower-case letters and digits kept and
    the runs joined by single dashes, the kind name standing in for an
    empty title. *)
Theorem indexer_parser_id_agreement (content : jsstring) (m : LcModule) :
  parseModuleFile content = inr m →
  dom (buildActivityRawIndex content) = list_to_set (moduleActivityIds m)
  ∧ moduleActivityIds m = omap openedId (splitOn NEWLINE content)
  ∧ moduleActivityIds m = omap describedId (splitOn NEWLINE content)
  ∧ dom (buildActivityRawIndex content)
    = list_to_set (omap describedId (splitOn NEWLINE content)).
Proof.
  unfold parseModuleFile, validateModule. intros Hm.
  assert (lessons m = pm_lessons (module (parseLines (splitOn NEWLINE content))))
    as Hl by (repeat case_match; by simplify_eq).
  assert (omap openedId (splitOn NEWLINE content)
          = omap describedId (splitOn NEWLINE content)) as Hd
    by apply omap_openedId.
  unfold moduleActivityIds. rewrite Hl, parseLines_ids, <- Hd.
  split; [apply buildActivityRawIndex_keys|]. split; [done|].
  split; [done|apply buildActivityRawIndex_keys].
Qed.

End IdAgreement.

Lemma indexer_parser_id_agreement_witness :
  ∃ m, parseModuleFile slugTitlesText = inr m
       ∧ dom (buildActivityRawIndex slugTitlesText)
         = list_to_set (moduleActivityIds m)
       ∧ moduleActivityIds m
         = [str "DIALOGUE-en-la-calle"; str "GRAMMAR-grammar"].
Proof.
  destruct (parseModuleFile slugTitlesText) as [e|m] eqn:E;
    [by vm_compute in E|].
  exists m. split; [done|].
  destruct (indexer_parser_id_agreement slugTitlesText m E)
    as (Hdom & _ & Hids & _).
  split; [exact Hdom|]. rewrite Hids. reflexivity.
Defined.

(** ** The final sort of the linter *)

(** Evaluate the closed boolean decisions of the goal. *)
Ltac eval_bool_decide :=
  repeat match goal with
         | |- context [bool_decide ?P] =>
             let b := eval vm_compute in (bool_decide P) in
             change (bool_decide P) with b
         end.

Lemma diagLe_spec a b :
  diagLe a b ↔
  (severity a = severity b ∧ (line a <= line b)%Z)
  ∨ (severity a = error ∧ severity b = warning).
Proof.
  unfold diagLe, compareDiag.
  destruct (severity a), (severity b); eval_bool_decide; cbn; split;
    first [ intros [[? ?] | [? ?]]; (lia || done)
          | intros ?; (left; split; [done | lia]) || (right; done) || lia ].
Qed.

Lemma diagLe_total a b : diagLe a b ∨ diagLe b a.
Proof.
  rewrite !diagLe_spec.
  destruct (severity a), (severity b);
    destruct (Z.le_ge_cases (line a) (line b)); naive_solver lia.
Qed.

Lemma diagLe_trans a b c : diagLe a b → diagLe b c → diagLe a c.
Proof.
  rewrite !diagLe_spec.
  intros [[E1 L1] | [E1 W1]] [[E2 L2] | [E2 W2]].
  - left. split; [congruence | lia].
  - right. split; congruence.
  - right. split; congruence.
  - congruence.
Qed.

Lemma insertDiag_cons d x r :
  insertDiag d (x :: r)
  = if (compareDiag d x <=? 0)%Z then d :: x :: r else x :: insertDiag d r.
Proof. reflexivity. Qed.

Lemma insertDiag_perm d l : insertDiag d l ≡ₚ d :: l.
Proof.
  induction l as [|x r IH]; [done|].
  rewrite insertDiag_cons. case_match; [done|].
  rewrite IH. apply Permutation_swap.
Qed.

Lemma sortDiags_perm l : sortDiags l ≡ₚ l.
Proof.
  induction l as [|d l IH]; [done|].
  cbn [sortDiags foldr]. fold (sortDiags l).
  by rewrite insertDiag_perm, IH.
Qed.

Lemma insertDiag_sorted d l :
  StronglySorted diagLe l → StronglySorted diagLe (insertDiag d l).
Proof.
  induction 1 as [|x r Hr IH Hx].
  - repeat constructor.
  - rewrite insertDiag_cons.
    destruct (compareDiag d x <=? 0)%Z eqn:E.
    + apply Z.leb_le in E.
      constructor; [by constructor|].
      constructor; [done|].
      eapply Forall_impl; [exact Hx|].
      intros y Hy. by apply diagLe_trans with x.
    + apply Z.leb_gt in E.
      constructor; [done|].
      rewrite insertDiag_perm. constructor; [|done].
      destruct (diagLe_total x d) as [?|Hdx]; [done|].
      unfold diagLe in Hdx. lia.
Qed.

Lemma sortDiags_sorted l : StronglySorted diagLe (sortDiags l).
Proof.
  induction l as [|d l IH]; [constructor|].
  cbn [sortDiags foldr]. by apply insertDiag_sorted.
Qed.

(** Insertion never moves a diagnostic past one with the same key. *)
Lemma insertDiag_filter s n d l :
  filter (hasKey s n) (insertDiag d l) = filter (hasKey s n) (d :: l).
Proof.
  induction l as [|x r IH]; [done|].
  rewrite insertDiag_cons.
  destruct (compareDiag d x <=? 0)%Z eqn:E; [done|].
  apply Z.leb_gt in E.
  rewrite filter_cons, IH, !filter_cons.
  destruct (decide (hasKey s n x)) as [[Hxs Hxn]|]; [|done].
  destruct (decide (hasKey s n d)) as [[Hds Hdn]|]; [|done].
  exfalso. unfold compareDiag in E.
  rewrite bool_decide_eq_true_2 in E by congruence. lia.
Qed.

Lemma sortDiags_stable s n l :
  filter (hasKey s n) (sortDiags l) = filter (hasKey s n) l.
Proof.
  induction l as [|d l IH]; [done|].
  cbn [sortDiags foldr]. fold (sortDiags l).
  by rewrite insertDiag_filter, !filter_cons, IH.
Qed.

Lemma StronglySorted_lookup_lt {A} (R : A → A → Prop) (l : list A) i j x y :
  StronglySorted R l → l !! i = Some x → l !! j = Some y → (i < j)%nat → R x y.
Proof.
  intros Hs. revert i j.
  induction Hs as [|a l Hl IH Ha]; intros i j Hi Hj Hij; [done|].
  destruct j as [|j]; [lia|]. cbn in Hj.
  destruct i as [|i]; cbn in Hi.
  - simplify_eq. rewrite Forall_forall in Ha.
    apply Ha. by eapply list_elem_of_lookup_2.
  - apply (IH i j); [done..|lia].
Qed.

Section LintOrder.
Context `{UnicodeCase}.

(** C8.  In the list the linter returns, no warning stands before an
    error, line numbers never decrease within a severity, and entries with
    the same severity and line keep the order in which they were produced:
    the list is the stable sort of the produced diagnostics. *)
Theorem lint_output_sorted_stable (text : jsstring) :
  (∀ i j di dj,
     lintModuleText text !! i = Some di →
     lintModuleText text !! j = Some dj →
     (i < j)%nat →
     (severity di = warning → severity dj = warning)
     ∧ (severity di = severity dj → (line di <= line dj)%Z))
  ∧ (∀ s n,
       filter (hasKey s n) (lintModuleText text)
       = filter (hasKey s n) (lintCollect text))
  ∧ lintModuleText text ≡ₚ lintCollect text.
Proof.
  unfold lintModuleText. split; [|split].
  - intros i j di dj Hi Hj Hij.
    pose proof (StronglySorted_lookup_lt diagLe _ i j di dj
                  (sortDiags_sorted _) Hi Hj Hij) as Hle.
    apply diagLe_spec in Hle.
    destruct Hle as [[Hs Hl] | [He Hw]]; split; intros; congruence || lia.
  - intros s n. apply sortDiags_stable.
  - apply sortDiags_perm.
Qed.

End LintOrder.

Lemma lint_output_sorted_stable_witness :
  ∃ d1 d2,
    lintModuleText strayLinesText !! 1%nat = Some d1
    ∧ lintModuleText strayLinesText !! 2%nat = Some d2
    ∧ (1 < 2)%nat
    ∧ severity d1 = severity d2
    ∧ (line d1 <= line d2)%Z.
Proof.
  eexists _, _.
  split; [vm_compute; reflexivity|].
  split; [vm_compute; reflexivity|].
  split; [lia|]. split; [reflexivity|].
  refine (proj2 (proj1 (lint_output_sorted_stable strayLinesText)
                   1%nat 2%nat _ _ _ _ _) _);
    [vm_compute; reflexivity | vm_compute; reflexivity | lia | reflexivity].
Defined.

(** ** The linter only ever adds diagnostics *)

Lemma extends_refl st : extends st st.
Proof. unfold extends. done. Qed.

Lemma extends_trans a b c : extends a b → extends b c → extends a c.
Proof. unfold extends. by etrans. Qed.

Lemma extends_elem d a b : extends a b → d ∈ diags a → d ∈ diags b.
Proof. unfold extends. intros [k ->] Hd. set_solver. Qed.

Lemma push_ext s sev ln m c t : extends s t → extends s (push sev ln m c t).
Proof.
  intros Hs. eapply extends_trans; [exact Hs|].
  unfold extends. cbn. by apply prefix_app_r.
Qed.

Lemma push_elem sev ln m c t :
  {| severity := sev; line := ln; message := m; code := Some c |}
  ∈ diags (push sev ln m c t).
Proof. cbn. set_solver. Qed.

Lemma pushIf_ext s b sev ln m c t :
  extends s t → extends s (pushIf b sev ln m c t).
Proof. destruct b; cbn; [apply push_ext | done]. Qed.

Lemma setSection_ext s a b c d e t :
  extends s t → extends s (setSection a b c d e t).
Proof. done. Qed.

Lemma setSeen_ext s h v t : extends s t → extends s (setSeen h v t).
Proof. done. Qed.

Lemma setPending_ext s a b c d t :
  extends s t → extends s (setPending a b c d t).
Proof. done. Qed.

Lemma setPendingVocabWord_ext s v t :
  extends s t → extends s (setPendingVocabWord v t).
Proof. done. Qed.

(** Peel the state transformers off the goal, splitting on every test. *)
Ltac ext :=
  repeat match goal with
         | H : extends ?s ?t |- extends ?s ?t => exact H
         | |- extends ?s ?s => apply extends_refl
         | |- extends _ (push _ _ _ _ _) => apply push_ext
         | |- extends _ (pushIf _ _ _ _ _ _) => apply pushIf_ext
         | |- extends _ (setSection _ _ _ _ _ _) => apply setSection_ext
         | |- extends _ (setSeen _ _ _) => apply setSeen_ext
         | |- extends _ (setPending _ _ _ _ _) => apply setPending_ext
         | |- extends _ (setPendingVocabWord _ _) =>
             apply setPendingVocabWord_ext
         | |- extends _ (if _ then _ else _) => case_match
         | |- extends _ (match _ with _ => _ end) => case_match
         end.

Lemma flushPendingVocab_ext s t :
  extends s t → extends s (flushPendingVocab t).
Proof. intros. unfold flushPendingVocab. ext. Qed.

Lemma lintIndent_ext s n raw t : extends s t → extends s (lintIndent n raw t).
Proof. intros. unfold lintIndent. ext. Qed.

Lemma lintMarker_ext s n l t : extends s t → extends s (lintMarker n l t).
Proof.
  intros. unfold lintMarker.
  repeat first [ progress ext | apply flushPendingVocab_ext ].
Qed.

Lemma lintExample_ext s n t : extends s t → extends s (lintExample n t).
Proof. intros. unfold lintExample. ext. Qed.

Lemma lintVoiceName_ext s n a v t :
  extends s t → extends s (lintVoiceName n a v t).
Proof. intros. unfold lintVoiceName. ext. Qed.

Lemma lintRawContent_ext s n t : extends s t → extends s (lintRawContent n t).
Proof. intros. unfold lintRawContent. ext. Qed.

Section LintMonotone.
Context `{UnicodeCase}.

Lemma lintVoiceSpeaker_ext s n v t :
  extends s t → extends s (lintVoiceSpeaker n v t).
Proof.
  intros. unfold lintVoiceSpeaker.
  repeat first [ progress ext | apply lintVoiceName_ext ].
Qed.

Lemma lintVoice_ext s n v t : extends s t → extends s (lintVoice n v t).
Proof. intros. unfold lintVoice. ext; apply lintVoiceName_ext; ext. Qed.

Lemma lintSingleVoice_ext s n v t :
  extends s t → extends s (lintSingleVoice n v t).
Proof. intros. unfold lintSingleVoice. ext; apply lintVoiceName_ext; ext. Qed.

Lemma lintHeaderField_ext s n f v t :
  extends s t → extends s (lintHeaderField n f v t).
Proof.
  intros. unfold lintHeaderField.
  repeat first
    [ progress ext
    | apply lintSingleVoice_ext
    | apply lintVoice_ext
    | apply lintVoiceSpeaker_ext ].
Qed.

Lemma lintActivityField_ext s n k f t :
  extends s t → extends s (lintActivityField n k f t).
Proof. intros. unfold lintActivityField. ext. Qed.

Lemma lintOutsideField_ext s n f t :
  extends s t → extends s (lintOutsideField n f t).
Proof. intros. unfold lintOutsideField. ext. Qed.

Lemma lintDialogueStructure_ext s n f t :
  extends s t → extends s (lintDialogueStructure n f t).
Proof.
  intros. unfold lintDialogueStructure.
  repeat first [ progress ext | apply flushPendingVocab_ext ].
Qed.

Lemma lintExerciseStructure_ext s n f v t :
  extends s t → extends s (lintExerciseStructure n f v t).
Proof. intros. unfold lintExerciseStructure. ext. Qed.

Lemma lintField_ext s n f v t : extends s t → extends s (lintField n f v t).
Proof.
  intros. unfold lintField.
  repeat first
    [ progress ext
    | apply lintDialogueStructure_ext
    | apply lintExerciseStructure_ext
    | apply lintHeaderField_ext
    | apply lintActivityField_ext
    | apply lintOutsideField_ext ].
Qed.

Lemma lintLine_after_indent_ext s n raw t :
  extends s t →
  extends s
    (let trimmedEnd := trimEnd raw in
     if startsWith trimmedEnd [DOLLAR] then lintMarker n trimmedEnd t
     else if bool_decide (ebnfSpec.exampleMarker = Some (trim trimmedEnd))
     then lintExample n t
     else match fieldMatch trimmedEnd with
          | Some (field, value) => lintField n field (trim (default [] value)) t
          | None => lintRawContent n t
          end).
Proof.
  intros. cbv zeta.
  repeat first
    [ progress ext
    | apply lintMarker_ext
    | apply lintExample_ext
    | apply lintField_ext
    | apply lintRawContent_ext ].
Qed.

Lemma lintLine_ext s n raw t : extends s t → extends s (lintLine n raw t).
Proof.
  intros. unfold lintLine.
  destruct (streq (trim (trimEnd raw)) []); [done|].
  destruct (startsWith (trim (trimEnd raw)) [HASH]); [done|].
  by apply lintLine_after_indent_ext, lintIndent_ext.
Qed.

Lemma lintLines_ext lines : ∀ n s t,
  extends s t → extends s (lintLines n lines t).
Proof.
  induction lines as [|raw lines IH]; intros n s t Hs; [done|].
  cbn [lintLines]. by apply IH, lintLine_ext.
Qed.

Lemma lintEnd_ext s t : extends s t → extends s (lintEnd t).
Proof. intros. unfold lintEnd. ext. Qed.

Lemma lintLines_app a b : ∀ n st,
  lintLines n (a ++ b) st
  = lintLines (n + Z.of_nat (length a)) b (lintLines n a st).
Proof.
  induction a as [|raw a IH]; intros n st; cbn [lintLines app length].
  - f_equal. lia.
  - rewrite IH. f_equal. lia.
Qed.

(** The state in which the loop reaches the line of index [i]. *)
Lemma lintLines_at lines i raw :
  lines !! i = Some raw →
  lintLines 1 lines lintInit
  = lintLines (Z.of_nat i + 2) (drop (S i) lines)
      (lintLine (Z.of_nat i + 1) raw (lintLines 1 (take i lines) lintInit)).
Proof.
  intros Hi.
  rewrite <- (take_drop_middle lines i raw Hi) at 1.
  rewrite lintLines_app. cbn [lintLines].
  apply lookup_lt_Some in Hi.
  rewrite length_take_le by lia.
  replace (1 + Z.of_nat i + 1)%Z with (Z.of_nat i + 2)%Z by lia.
  replace (1 + Z.of_nat i)%Z with (Z.of_nat i + 1)%Z by lia.
  reflexivity.
Qed.

(** A diagnostic produced at a line reaches the output. *)
Lemma lint_line_diag_in_output text i raw d :
  splitOn NEWLINE text !! i = Some raw →
  d ∈ diags (lintLine (Z.of_nat i + 1) raw
               (lintLines 1 (take i (splitOn NEWLINE text)) lintInit)) →
  d ∈ lintModuleText text.
Proof.
  intros Hi Hd. unfold lintModuleText, lintCollect.
  rewrite sortDiags_perm, (lintLines_at _ i raw Hi).
  eapply extends_elem; [|exact Hd].
  apply lintEnd_ext, lintLines_ext, extends_refl.
Qed.

End LintMonotone.

(** ** Indented field lines *)

Section IndentedField.
Context `{UnicodeCase}.

(** The linter flags an indented field line, whatever its state. *)
Lemma lintLine_field_indent n raw c rest st :
  raw = c :: rest → (c = 32 ∨ c = 9) →
  fieldPrefixTest (trimStart raw) = true →
  fieldIndentDiag n ∈ diags (lintLine n raw st).
Proof.
  intros -> Hc Hf.
  destruct (fieldPrefixTest_head _ Hf) as (f & t' & Ht & Hfc).
  assert (trim (trimEnd (c :: rest)) = f :: trimEnd t') as Htrim
    by (rewrite trim_trimEnd; by apply trim_head).
  unfold lintLine.
  destruct (streq (trim (trimEnd (c :: rest))) []) eqn:E1;
    [apply streq_true in E1; congruence|].
  destruct (startsWith (trim (trimEnd (c :: rest))) [HASH]) eqn:E2;
    [by rewrite Htrim, startsWith_single, fieldChar_not_hash in E2|].
  eapply extends_elem.
  { apply lintLine_after_indent_ext, extends_refl. }
  unfold lintIndent.
  replace ((c =? 32) || (c =? 9)) with true by (by destruct Hc as [-> | ->]).
  rewrite Ht, startsWith_single, fieldChar_not_dollar by done.
  rewrite Ht in Hf. rewrite Hf. apply push_elem.
Qed.

(** The parser reads an indented field line as raw content. *)
Lemma processLine_indented raw c rest st :
  raw = c :: rest → (c = 32 ∨ c = 9) →
  fieldPrefixTest (trimStart raw) = true →
  processLine raw st
  = match currentActivity st with
    | Some _ => pushBuffer st raw
    | None => st
    end.
Proof.
  intros -> Hc Hf.
  destruct (fieldPrefixTest_head _ Hf) as (f & t' & Ht & Hfc).
  assert (isSpace c = true) as Hsp by (by destruct Hc as [-> | ->]).
  assert (trimEnd rest ≠ []) as Hrest.
  { intros E%trimEnd_nil_iff%dropWhile_nil_iff.
    unfold trimStart in Ht. cbn [dropWhile] in Ht. rewrite Hsp in Ht.
    congruence. }
  unfold processLine.
  rewrite trimStart_trimEnd, Ht.
  rewrite trimEnd_cons_nonspace by (by apply isFieldChar_not_space).
  rewrite startsWith_single, fieldChar_not_hash by done.
  rewrite trimEnd_cons_nonblank by done.
  rewrite startsWith_single.
  replace (c =? DOLLAR) with false by (by destruct Hc as [-> | ->]).
  rewrite streq_false by (destruct Hc as [-> | ->]; discriminate).
  cbn [andb].
  replace (fieldMatch (c :: trimEnd rest)) with (@None (jsstring * option jsstring));
    [done|].
  unfold fieldMatch. cbn [takeWhile].
  by replace (isFieldChar c) with false by (by destruct Hc as [-> | ->]).
Qed.

(** C5 (as amended).  For a field line indented with a leading space or
    tab, the linter reports the column-0 error [field-indent] on that line,
    and the parser does not read the line as a field: it appends the line
    verbatim to the content buffer of the open activity, or drops it when
    no activity is open. *)
Theorem indented_field_flagged_not_applied
    (text : jsstring) (i : nat) (raw : jsstring) (c : N) (rest : jsstring) :
  splitOn NEWLINE text !! i = Some raw →
  raw = c :: rest →
  c = 32 ∨ c = 9 →
  fieldPrefixTest (trimStart raw) = true →
  fieldIndentDiag (Z.of_nat i + 1) ∈ lintModuleText text
  ∧ ∀ st, processLine raw st
          = match currentActivity st with
            | Some _ => pushBuffer st raw
            | None => st
            end.
Proof.
  intros Hi Hraw Hc Hf. split.
  - eapply lint_line_diag_in_output; [exact Hi|].
    by eapply lintLine_field_indent.
  - intros st. by eapply processLine_indented.
Qed.

End IndentedField.

Lemma indented_field_flagged_not_applied_witness :
  splitOn NEWLINE indentedTitleText !! 2%nat = Some (str " TITLE: T")
  ∧ fieldPrefixTest (trimStart (str " TITLE: T")) = true
  ∧ fieldIndentDiag 3 ∈ lintModuleText indentedTitleText
  ∧ processLine (str " TITLE: T") initialState = initialState.
Proof.
  split; [reflexivity|]. split; [reflexivity|].
  destruct (indented_field_flagged_not_applied indentedTitleText 2
              (str " TITLE: T") 32 (str "TITLE: T")
              eq_refl eq_refl (or_introl eq_refl) eq_refl) as [Hlint Hparse].
  split; [exact Hlint|]. exact (Hparse initialState).
Defined.

(** C5 (as stated) fails: on the header with the line [ TITLE: T] the
    linter reports the column-0 error on line 3, but the parser has not
    applied the field: the title is still unset when the input ends and
    parsing fails for the missing title, whereas the same header with the
    line at column 0 parses. *)
Lemma indented_field_applied_counterexample :
  fieldIndentDiag 3 ∈ lintModuleText indentedTitleText
  ∧ pm_title (module (parseLines (splitOn NEWLINE indentedTitleText))) = None
  ∧ parseModuleFile indentedTitleText
    = inl (str "Missing TITLE in .module file")
  ∧ match parseModuleFile flushTitleText with
    | inr m => title m = str "T"
    | inl _ => False
    end.
Proof.
  split; [|by vm_compute].
  apply list_elem_of_In. vm_compute. tauto.
Qed.

(** ** Example markers at activity markers *)

(** At an activity marker the tracker of an unconsumed example marker is
    cleared, and none of the diagnostics added is the warning for it. *)
Lemma activity_marker_drops_pending_example n l st marker ttl kind :
  markerMatch l = Some (marker, ttl) →
  activityOfMarker marker = Some kind →
  pendingExerciseExample (lintMarker n l st) = None
  ∧ Some (str "example-not-applied") ∉ addedCodes st (lintMarker n l st).
Proof.
  intros Hm Hk. pose proof (activityOfMarker_name _ _ Hk) as ->.
  unfold lintMarker. rewrite Hm, Hk.
  replace (streq (typeName kind) (str "MODULE")) with false
    by (by destruct kind).
  replace (streq (typeName kind) (str "LESSON")) with false
    by (by destruct kind).
  split; [done|].
  unfold addedCodes, flushPendingVocab, pushIf.
  repeat case_match; cbn;
    rewrite <- ?app_assoc, ?drop_app_length, ?drop_all; cbn;
    rewrite ?elem_of_cons, elem_of_nil;
    intros Hin; repeat destruct Hin as [Hin|Hin]; try done;
    by apply (inj Some) in Hin.
Qed.

(** The evaluation behind C7: an example marker followed by the next
    activity marker draws no diagnostic at all, although the same marker
    followed by the end of the input draws the warning
    [example-not-applied] on its line. *)
Lemma example_marker_unwarned_before_marker :
  lintModuleText exampleThenMarkerText = []
  ∧ lintModuleText exampleThenEndText = [exampleNotAppliedDiag 8].
Proof. by vm_compute. Qed.

(** ** Voice names are checked case-sensitively *)

Lemma VALID_GEMINI_VOICES_ascii v :
  v ∈ VALID_GEMINI_VOICES → Forall (λ c, c < 128) v.
Proof.
  intros Hv. apply list_elem_of_In in Hv. cbn in Hv.
  repeat (destruct Hv as [<- | Hv]; [repeat constructor|]). done.
Qed.

Lemma allowList_lower_injective a b :
  a ∈ VALID_GEMINI_VOICES → b ∈ VALID_GEMINI_VOICES →
  map asciiLower a = map asciiLower b → a = b.
Proof.
  intros Ha%list_elem_of_In Hb%list_elem_of_In E.
  assert (allowListCaseDistinct = true) as Hd by (by vm_compute).
  unfold allowListCaseDistinct in Hd.
  rewrite forallb_forall in Hd. specialize (Hd a Ha).
  rewrite forallb_forall in Hd. specialize (Hd b Hb).
  unfold streq in Hd. rewrite (bool_decide_eq_true_2 _ E) in Hd.
  cbn in Hd. by apply bool_decide_eq_true in Hd.
Qed.

(** The diagnostics a state transformer adds are kept by whatever runs
    after it. *)
Lemma lintVoiceName_elem n a v st :
  has VALID_GEMINI_VOICES v = false →
  voiceInvalidDiag n v ∈ diags (lintVoiceName n a v st).
Proof.
  intros Hv. unfold lintVoiceName. rewrite Hv. apply push_elem.
Qed.

(** Context-preserving steps. *)
Lemma headerCtx_push sev ln m c t : headerCtx t → headerCtx (push sev ln m c t).
Proof. done. Qed.

Lemma headerCtx_pushIf b sev ln m c t :
  headerCtx t → headerCtx (pushIf b sev ln m c t).
Proof. by destruct b. Qed.

Lemma headerCtx_setSeen h v t : headerCtx t → headerCtx (setSeen h v t).
Proof. done. Qed.

Lemma headerCtx_setPending a b c d t :
  headerCtx t → headerCtx (setPending a b c d t).
Proof. done. Qed.

Lemma headerCtx_setPendingVocabWord v t :
  headerCtx t → headerCtx (setPendingVocabWord v t).
Proof. done. Qed.

Ltac hctx :=
  repeat match goal with
         | H : headerCtx ?t |- headerCtx ?t => exact H
         | |- headerCtx (push _ _ _ _ _) => apply headerCtx_push
         | |- headerCtx (pushIf _ _ _ _ _ _) => apply headerCtx_pushIf
         | |- headerCtx (setSeen _ _ _) => apply headerCtx_setSeen
         | |- headerCtx (setPending _ _ _ _ _) => apply headerCtx_setPending
         | |- headerCtx (setPendingVocabWord _ _) =>
             apply headerCtx_setPendingVocabWord
         | |- headerCtx (if _ then _ else _) => case_match
         | |- headerCtx (match _ with _ => _ end) => case_match
         end.

Lemma headerCtx_flushPendingVocab t :
  headerCtx t → headerCtx (flushPendingVocab t).
Proof. intros. unfold flushPendingVocab. hctx. Qed.

Lemma headerCtx_lintIndent n raw t : headerCtx t → headerCtx (lintIndent n raw t).
Proof. intros. unfold lintIndent. hctx. Qed.

Lemma headerCtx_lintVoiceName n a v t :
  headerCtx t → headerCtx (lintVoiceName n a v t).
Proof. intros. unfold lintVoiceName. hctx. Qed.

Lemma headerCtx_lintExample n t : headerCtx t → headerCtx (lintExample n t).
Proof. intros. unfold lintExample. hctx. Qed.

Lemma headerCtx_lintRawContent n t :
  headerCtx t → headerCtx (lintRawContent n t).
Proof. intros. unfold lintRawContent. hctx. Qed.

Lemma headerCtx_lintMarker n raw t :
  leavesHeader raw = false →
  startsWith (trimEnd raw) [DOLLAR] = true →
  headerCtx t → headerCtx (lintMarker n (trimEnd raw) t).
Proof.
  unfold leavesHeader. intros Hl Hd Ht. rewrite Hd in Hl.
  assert (headerCtx (setSection (sawModuleMarker t) true (inHeader t)
                       (lint_currentActivity t) (currentLessonLine t) t))
    as Ht' by (destruct Ht as (? & ? & ?); by split).
  unfold lintMarker.
  destruct (markerMatch (trimEnd raw)) as [[marker ttl]|].
  - destruct (activityOfMarker marker); [done|]. rewrite Hl.
    match goal with
    | |- headerCtx (if _ then setSection _ _ _ _ _ ?s else ?s) =>
        assert (headerCtx s) as Hs
          by (by apply headerCtx_flushPendingVocab, headerCtx_pushIf,
                headerCtx_pushIf);
        generalize dependent s
    end.
    intros s (Hh & Hle & Ha). destruct (streq marker (str "MODULE")).
    + by split.
    + by split.
  - by apply headerCtx_push, headerCtx_pushIf.
Qed.

Section VoiceCase.
Context `{UnicodeCase}.

(** Peel everything that runs after the check of the voice name. *)
Ltac ext_all :=
  repeat first
    [ progress ext
    | match goal with
      | |- extends _ (lintVoiceName _ _ _ _) => apply lintVoiceName_ext
      | |- extends _ (lintSingleVoice _ _ _) => apply lintSingleVoice_ext
      | |- extends _ (lintVoice _ _ _) => apply lintVoice_ext
      | |- extends _ (lintVoiceSpeaker _ _ _) => apply lintVoiceSpeaker_ext
      end ].

(** Find the check of the voice name in the goal and show that its
    diagnostic survives what follows. *)
Ltac voice_elem :=
  match goal with
  | |- _ ∈ diags ?X =>
      match X with
      | context [lintVoiceName ?n ?a ?v ?s] =>
          apply (extends_elem _ (lintVoiceName n a v s));
          [ ext_all | by apply lintVoiceName_elem ]
      end
  end.

(** A name that differs from an allow-listed name only in letter case is
    not itself on the allow-list. *)
Lemma case_variant_not_allowed voiceName allowed :
  allowed ∈ VALID_GEMINI_VOICES →
  voiceName ≠ allowed →
  toLowerCase voiceName = toLowerCase allowed →
  has VALID_GEMINI_VOICES voiceName = false.
Proof.
  intros Ha Hne Hlow.
  destruct (has VALID_GEMINI_VOICES voiceName) eqn:Hv; [|done].
  apply has_true_elem in Hv. exfalso. apply Hne.
  apply allowList_lower_injective; [done..|].
  rewrite <- !toLowerCase_ascii by (by apply VALID_GEMINI_VOICES_ascii).
  done.
Qed.

Lemma headerCtx_lintVoiceSpeaker n v t :
  headerCtx t → headerCtx (lintVoiceSpeaker n v t).
Proof.
  intros. unfold lintVoiceSpeaker.
  repeat first [ progress hctx | apply headerCtx_lintVoiceName ].
Qed.

Lemma headerCtx_lintVoice n v t : headerCtx t → headerCtx (lintVoice n v t).
Proof.
  intros. unfold lintVoice.
  repeat first [ progress hctx | apply headerCtx_lintVoiceName ].
Qed.

Lemma headerCtx_lintSingleVoice n v t :
  headerCtx t → headerCtx (lintSingleVoice n v t).
Proof.
  intros. unfold lintSingleVoice.
  repeat first [ progress hctx | apply headerCtx_lintVoiceName ].
Qed.

Lemma headerCtx_lintHeaderField n f v t :
  headerCtx t → headerCtx (lintHeaderField n f v t).
Proof.
  intros. unfold lintHeaderField.
  repeat first
    [ progress hctx
    | apply headerCtx_lintSingleVoice
    | apply headerCtx_lintVoice
    | apply headerCtx_lintVoiceSpeaker ].
Qed.

(** In header context a field line is validated as a header field. *)
Lemma lintField_header n f v t :
  headerCtx t → lintField n f v t = lintHeaderField n f v t.
Proof.
  intros Ht. pose proof (headerCtx_lintHeaderField n f v t Ht) as (_ & _ & Ha).
  destruct Ht as (Hh & Hl & Hact).
  unfold lintField. rewrite Hh, Hl, Hact. cbn. by rewrite Ha.
Qed.

Lemma headerCtx_lintLine n raw t :
  leavesHeader raw = false → headerCtx t → headerCtx (lintLine n raw t).
Proof.
  intros Hl Ht. unfold lintLine.
  repeat case_match; try done.
  - by apply headerCtx_lintMarker, headerCtx_lintIndent.
  - by apply headerCtx_lintExample, headerCtx_lintIndent.
  - rewrite lintField_header by (by apply headerCtx_lintIndent).
    by apply headerCtx_lintHeaderField, headerCtx_lintIndent.
  - by apply headerCtx_lintRawContent, headerCtx_lintIndent.
Qed.

Lemma headerCtx_lintLines lines : ∀ n t,
  forallb (λ l, negb (leavesHeader l)) lines = true →
  headerCtx t → headerCtx (lintLines n lines t).
Proof.
  induction lines as [|raw lines IH]; intros n t Hl Ht; [done|].
  cbn in Hl. apply andb_prop in Hl as [Hraw Hl].
  cbn [lintLines]. apply IH; [done|].
  apply headerCtx_lintLine; [|done]. by apply negb_true_iff.
Qed.

(** A header field that carries a voice name outside the allow-list draws
    the unknown-voice error. *)
Lemma lintHeaderField_voice_invalid n field value voiceName st :
  voiceNameOf field value = Some voiceName →
  has VALID_GEMINI_VOICES voiceName = false →
  voiceInvalidDiag n voiceName ∈ diags (lintHeaderField n field value st).
Proof.
  intros Hname Hv. unfold voiceNameOf in Hname. unfold lintHeaderField.
  destruct (streq field (str "VOICE_SPEAKER")) eqn:E1.
  - destruct (speakerMatch value) as [[[m1 m2] m3]|] eqn:Hm; [|done].
    injection Hname as <-.
    unfold lintVoiceSpeaker. rewrite Hm. voice_elem.
  - destruct (streq field (str "VOICE")) eqn:E2.
    + unfold lintVoice.
      destruct (map trim (splitOn PIPE value)) as [|p0 [|p1 [|p2 ps]]];
        try done.
      injection Hname as <-. voice_elem.
    + destruct (has voiceFields field) eqn:E3; [|done].
      cbn [negb andb]. unfold lintSingleVoice.
      destruct (voiceMatch value) as [[m1 m2]|]; [|done].
      injection Hname as <-. voice_elem.
Qed.

(** C10.  The allow-list check on voice names is case-sensitive: a voice
    field in the module header (before any lesson or activity marker)
    whose voice name differs from an allow-listed name only in letter case
    draws the unknown-voice error on its line. *)
Theorem voice_allow_list_case_sensitive
    (content : jsstring) (i : nat) (raw field : jsstring)
    (value : option jsstring) (voiceName allowed : jsstring) :
  splitOn NEWLINE content !! i = Some raw →
  forallb (λ l, negb (leavesHeader l)) (take i (splitOn NEWLINE content))
  = true →
  fieldMatch (trimEnd raw) = Some (field, value) →
  voiceNameOf field (trim (default [] value)) = Some voiceName →
  allowed ∈ VALID_GEMINI_VOICES →
  voiceName ≠ allowed →
  toLowerCase voiceName = toLowerCase allowed →
  voiceInvalidDiag (Z.of_nat i + 1) voiceName ∈ lintModuleText content.
Proof.
  intros Hi Hpre Hm Hname Hallowed Hne Hlow.
  eapply lint_line_diag_in_output; [exact Hi|].
  assert (headerCtx (lintLines 1 (take i (splitOn NEWLINE content)) lintInit))
    as Hctx by (by apply headerCtx_lintLines).
  destruct (fieldMatch_head _ _ Hm) as (f & s' & Hs & Hf).
  assert (trim (trimEnd raw) = trimEnd raw) as Htrim.
  { unfold trim, trimStart. rewrite Hs at 1.
    rewrite dropWhile_neg_head by (by apply isFieldChar_not_space).
    rewrite <- Hs. apply trimEnd_idemp. }
  unfold lintLine. rewrite Htrim, Hm, Hs.
  rewrite streq_false by done.
  rewrite !startsWith_single, fieldChar_not_hash, fieldChar_not_dollar
    by done.
  rewrite bool_decide_eq_false_2.
  2:{ unfold ebnfSpec.exampleMarker. intros E. apply (inj Some) in E.
      rewrite Hs, <- E in Hm. by vm_compute in Hm. }
  rewrite lintField_header by (by apply headerCtx_lintIndent).
  apply lintHeaderField_voice_invalid; [done|].
  by eapply case_variant_not_allowed.
Qed.

End VoiceCase.

Lemma voice_allow_list_case_sensitive_witness :
  splitOn NEWLINE lowerCaseVoiceText !! 1%nat = Some (str "VOICE_DEFAULT: aoede")
  ∧ str "Aoede" ∈ VALID_GEMINI_VOICES
  ∧ toLowerCase (str "aoede") = toLowerCase (str "Aoede")
  ∧ voiceInvalidDiag 2 (str "aoede") ∈ lintModuleText lowerCaseVoiceText.
Proof.
  split; [reflexivity|].
  assert (str "Aoede" ∈ VALID_GEMINI_VOICES) as Hin
    by (apply list_elem_of_In; vm_compute; tauto).
  split; [exact Hin|]. split; [reflexivity|].
  apply (voice_allow_list_case_sensitive lowerCaseVoiceText 1
           (str "VOICE_DEFAULT: aoede") (str "VOICE_DEFAULT")
           (Some (str "aoede")) (str "aoede") (str "Aoede"));
    try reflexivity; try exact Hin. discriminate.
Defined.

(** ** The example scenarios *)

(** Scenario 1: one lesson with one dialogue of one line. *)
Example scenario_one_parses :
  match parseModuleFile scenarioOneText with
  | inr m =>
      map (λ l, (lesson_title l, map act_payload (activities l))) (lessons m)
      = [(str "L1",
          [DialoguePayload None None
             [{| dl_speaker := Some (str "A"); dl_text := str "Bonjour";
                 dl_translation := str "Hello"; dl_notes := None;
                 dl_vocab := None |}]])]
  | inl _ => False
  end.
Proof. by vm_compute. Qed.

(** Scenario 3: an unknown voice in a speaker mapping is an error on the
    line of the field. *)
Example scenario_three_lints :
  voiceInvalidDiag 2 (str "UnknownVoice")
  ∈ lintModuleText
      (join [NEWLINE] [str "$MODULE"; str "VOICE_SPEAKER: ana = UnknownVoice"]).
Proof. apply list_elem_of_In. vm_compute. tauto. Qed.

(** The fourth example scenario through the whole parser. *)
Example exercise_scenario_parses :
  match parseModuleFile exerciseScenarioText with
  | inr m =>
      map (λ l, map act_payload (activities l)) (lessons m)
      = [[ExercisePayload None None
            [plainItem (str "a") (str "b") true;
             plainItem (str "c") (str "d") false]]]
  | inl _ => False
  end.
Proof. by vm_compute. Qed.

(** * Further properties of the code *)

(** ** Strings *)

Lemma splitOn_nonempty sep s : splitOn sep s ≠ [].
Proof. destruct s as [|c s]; cbn; repeat case_match; done. Qed.

Lemma splitOn_app_sep sep x y :
  splitOn sep (x ++ sep :: y) = splitOn sep x ++ splitOn sep y.
Proof.
  induction x as [|c x IH]; cbn.
  - by rewrite N.eqb_refl.
  - destruct (c =? sep); [by rewrite IH|].
    rewrite IH. pose proof (splitOn_nonempty sep x).
    by destruct (splitOn sep x).
Qed.

Lemma splitOn_no_sep sep s :
  Forall (λ c, c ≠ sep) s → splitOn sep s = [s].
Proof.
  induction 1 as [|c s Hc _ IH]; [done|].
  cbn. apply N.eqb_neq in Hc. by rewrite Hc, IH.
Qed.

Lemma splitOn_elem_no_sep sep s l :
  l ∈ splitOn sep s → Forall (λ c, c ≠ sep) l.
Proof.
  revert l. induction s as [|c s IH]; intros l; cbn.
  - intros ->%list_elem_of_singleton. constructor.
  - destruct (c =? sep) eqn:E.
    + intros [->|?]%elem_of_cons; [constructor|by apply IH].
    + pose proof (splitOn_nonempty sep s).
      destruct (splitOn sep s) as [|cur rest]; [done|].
      intros [->|?]%elem_of_cons.
      * constructor; [by apply N.eqb_neq|]. apply IH. by left.
      * apply IH. by right.
Qed.

Lemma join_splitOn sep s : join [sep] (splitOn sep s) = s.
Proof.
  induction s as [|c s IH]; [done|]. cbn.
  destruct (c =? sep) eqn:E.
  - apply N.eqb_eq in E as ->.
    pose proof (splitOn_nonempty sep s).
    destruct (splitOn sep s); [done|]. cbn in *. by rewrite IH.
  - pose proof (splitOn_nonempty sep s).
    destruct (splitOn sep s) as [|cur [|x rest]]; [done|..]; cbn in *;
      by rewrite <- IH.
Qed.

Lemma splitOn_join_lines lines :
  lines ≠ [] → Forall oneLine lines →
  splitOn NEWLINE (join [NEWLINE] lines) = lines.
Proof.
  intros Hne Hall. induction Hall as [|l lines Hl Hall IH]; [done|].
  destruct lines as [|l' lines].
  - cbn. by apply splitOn_no_sep.
  - change (join [NEWLINE] (l :: l' :: lines))
      with (l ++ NEWLINE :: join [NEWLINE] (l' :: lines)).
    rewrite splitOn_app_sep, IH by done.
    by rewrite (splitOn_no_sep _ _ Hl).
Qed.

Lemma splitOn_lines_oneLine text : Forall oneLine (splitOn NEWLINE text).
Proof. apply Forall_forall. intros l Hl. by eapply splitOn_elem_no_sep. Qed.

(** ** Dialogue lines: the texts *)

Lemma nonEmpty_app a b : nonEmpty (a ++ b) = nonEmpty a ++ nonEmpty b.
Proof. apply filter_app. Qed.

Lemma nonEmpty_omap_cons {A} (f : A → option jsstring) x l :
  nonEmpty (omap f (x :: l))
  = nonEmpty (option_list (f x)) ++ nonEmpty (omap f l).
Proof. rewrite <- nonEmpty_app. cbn. by destruct (f x). Qed.

Lemma truthy_false_orStr o : truthy o = false → orStr o [] = [].
Proof. by destruct o as [[|]|]. Qed.

(** One step of the loop adds the text of a line entry, when it is not
    empty, and no other text. *)
Lemma dialogueStep_texts st item :
  textsOf (dialogueStep st item)
  = textsOf st ++ nonEmpty (option_list (lineText item)).
Proof.
  unfold lineText.
  destruct (startsWith item (str "LINE:")) eqn:HL.
  - apply startsWith_app in HL as [r ->].
    change (str "LINE:" ++ r) with (lineTag r).
    rewrite dialogueStep_line.
    change (slice 5 (lineTag r)) with r.
    unfold textsOf, nonEmpty. cbn [option_list].
    destruct (truthy (pl_text (currentLine st))) eqn:Ht;
      destruct (pendingVocab st); cbn;
      rewrite ?fmap_app; cbn; rewrite <- ?app_assoc; cbn;
      destruct (trim r) eqn:Hr; cbn; rewrite ?app_nil_r;
      unfold filter; cbn; try done;
      by rewrite (decide_False (P := [] ≠ [])) by (by intros ?).
  - cbn [option_list]. rewrite app_nil_r.
    unfold dialogueStep. rewrite HL.
    destruct (startsWith item (str "VOCAB:")); [done|].
    destruct (startsWith item (str "VOCAB_T:"));
      [by destruct (pendingVocab st)|].
    destruct (startsWith item (str "LINE_T:")); [done|].
    destruct (startsWith item (str "NOTES:")); [done|].
    destruct (startsWith item (str "SPEAKER:")); [|done].
    unfold textsOf.
    destruct (truthy (pl_text (currentLine st))) eqn:Ht;
      destruct (pendingVocab st); cbn; rewrite ?Ht, ?fmap_app, ?app_nil_r;
      done.
Qed.

Lemma dialogue_fold_texts buffer : ∀ st,
  textsOf (fold_left dialogueStep buffer st)
  = textsOf st ++ nonEmpty (omap lineText buffer).
Proof.
  induction buffer as [|item buffer IH]; intros st.
  - cbn. by rewrite app_nil_r.
  - cbn [fold_left]. rewrite IH, dialogueStep_texts, nonEmpty_omap_cons.
    by rewrite app_assoc.
Qed.

Lemma dialogueFinish_texts st : dl_text <$> dialogueFinish st = textsOf st.
Proof.
  unfold dialogueFinish, textsOf.
  destruct (truthy (pl_text (currentLine st))); [|by rewrite app_nil_r].
  by rewrite fmap_app.
Qed.

(** X1.  The dialogue lines [parseDialogueLines] returns are, in order, the
    line entries of the buffer whose trimmed text is not empty: each such
    entry gives exactly one line with that text, an entry with an empty
    text gives none, and no other entry gives a line. *)
Theorem dialogue_lines_are_line_entries (buffer : list jsstring) :
  dl_text <$> parseDialogueLines buffer = nonEmpty (omap lineText buffer).
Proof.
  unfold parseDialogueLines.
  rewrite dialogueFinish_texts, dialogue_fold_texts.
  reflexivity.
Qed.

(** ** Exercise items: completeness and provenance *)

Lemma truthy_orStr_nonempty o : truthy o = true → orStr o [] ≠ [].
Proof. by destruct o as [[|]|]. Qed.

Lemma truthy_orStr_Some o : truthy o = true → o = Some (orStr o []).
Proof. by destruct o as [[|]|]. Qed.

Lemma finishItem_complete ci :
  itemComplete ci = true → completeItem (finishItem ci).
Proof.
  unfold itemComplete. intros [Hp Hr]%andb_prop.
  split; by apply truthy_orStr_nonempty.
Qed.

(** One step keeps every finished item complete, and adds to the prompts
    held at most the prompt of the entry, at the end. *)
Lemma exerciseStep_inv st item :
  Forall completeItem (es_items st) →
  Forall completeItem (es_items (exerciseStep st item))
  ∧ promptsOf (exerciseStep st item)
    `sublist_of` promptsOf st ++ option_list (promptText item).
Proof.
  intros Hok. unfold promptText, exerciseStep.
  destruct (startsWith item (str "EXAMPLE:")).
  { split; [done|]. cbn. by apply sublist_inserts_r. }
  destruct (startsWith item (str "PROMPT:")).
  { unfold promptsOf. cbn [es_items currentItem pi_prompt option_list].
    destruct (itemComplete (currentItem st)) eqn:Hc.
    - split.
      + apply Forall_app. split; [done|].
        constructor; [|done]. by apply finishItem_complete.
      + rewrite fmap_app. cbn.
        apply andb_prop in Hc as [Hp _].
        rewrite (truthy_orStr_Some _ Hp) at 2. cbn.
        by rewrite <- !app_assoc.
    - split; [done|].
      apply sublist_app; [|done]. by apply sublist_inserts_r. }
  split.
  - by repeat case_match.
  - rewrite app_nil_r. by repeat case_match.
Qed.

Lemma exercise_fold_inv buffer : ∀ st,
  Forall completeItem (es_items st) →
  Forall completeItem (es_items (fold_left exerciseStep buffer st))
  ∧ promptsOf (fold_left exerciseStep buffer st)
    `sublist_of` promptsOf st ++ omap promptText buffer.
Proof.
  induction buffer as [|item buffer IH]; intros st Hok.
  - cbn. by rewrite app_nil_r.
  - cbn [fold_left].
    destruct (exerciseStep_inv st item Hok) as [Hok' Hsub].
    destruct (IH _ Hok') as [Hall Hsub']. split; [done|].
    etrans; [exact Hsub'|].
    replace (omap promptText (item :: buffer))
      with (option_list (promptText item) ++ omap promptText buffer)
      by (cbn; by destruct (promptText item)).
    rewrite app_assoc. by apply sublist_app.
Qed.

(** X2.  Every exercise item [parseExerciseItems] returns has a prompt and
    a response that are not empty, and the prompts of the items are, in
    order, among the trimmed prompt entries of the buffer: an entry whose
    item lacks a response, or whose prompt is empty, is dropped, and no item
    is made up. *)
Theorem exercise_items_complete_and_sourced (buffer : list jsstring) :
  Forall completeItem (parseExerciseItems buffer)
  ∧ (ei_prompt <$> parseExerciseItems buffer)
    `sublist_of` omap promptText buffer.
Proof.
  unfold parseExerciseItems, exerciseFinish.
  destruct (exercise_fold_inv buffer exerciseInit) as [Hall Hsub];
    [constructor|].
  set (st := fold_left exerciseStep buffer exerciseInit) in *.
  cbn in Hsub. unfold promptsOf in Hsub.
  destruct (itemComplete (currentItem st)) eqn:Hc.
  - split.
    + apply Forall_app. split; [done|].
      constructor; [|done]. by apply finishItem_complete.
    + rewrite fmap_app. cbn.
      apply andb_prop in Hc as [Hp _].
      by rewrite (truthy_orStr_Some _ Hp) in Hsub.
  - split; [done|].
    etrans; [|exact Hsub]. by apply sublist_inserts_r.
Qed.

(** ** Comment lines *)

Lemma startsWith_hash_trimEnd s :
  startsWith s [HASH] = true → startsWith (trimEnd s) [HASH] = true.
Proof.
  destruct s as [|c s]; [done|].
  rewrite startsWith_single. intros ->%N.eqb_eq.
  by rewrite trimEnd_cons_nonspace.
Qed.

Lemma isCommentLine_trim raw :
  isCommentLine raw = true → startsWith (trim (trimEnd raw)) [HASH] = true.
Proof.
  unfold isCommentLine. intros Hc.
  unfold trim. by apply startsWith_hash_trimEnd.
Qed.

Lemma isBlankLine_trim raw : isBlankLine raw = true → trim (trimEnd raw) = [].
Proof.
  unfold isBlankLine. intros Hb.
  rewrite trim_trimEnd. unfold trim.
  apply trimEnd_nil_iff.
  unfold trimStart.
  by rewrite (proj2 (dropWhile_nil_iff isSpace raw) Hb).
Qed.

Section CommentLines.
Context `{UnicodeCase}.

Lemma processLine_comment raw st :
  isCommentLine raw = true → processLine raw st = st.
Proof. unfold isCommentLine, processLine. by intros ->. Qed.

Lemma lintLine_comment n raw st :
  isCommentLine raw = true → lintLine n raw st = st.
Proof.
  intros Hc%isCommentLine_trim. unfold lintLine. rewrite Hc.
  by destruct (streq (trim (trimEnd raw)) []).
Qed.

Lemma lintLine_blank n raw st :
  isBlankLine raw = true → lintLine n raw st = st.
Proof.
  intros Hb%isBlankLine_trim. unfold lintLine. by rewrite Hb.
Qed.


(** X3.  A comment line is inert, wherever it stands in the text, the
    first and the last line included.  Deleting it from a module text,
    with its line break, leaves the result of the parser as it is, and to
    the linter it is worth a blank line: the diagnostics, line numbers
    included, are those of the text with a blank line in its place. *)
Theorem comment_lines_are_inert (text : jsstring) (i : nat) (c : jsstring) :
  splitOn NEWLINE text !! i = Some c →
  isCommentLine c = true →
  parseModuleFile text
  = parseModuleFile (join [NEWLINE] (delete i (splitOn NEWLINE text)))
  ∧ ∀ b, isBlankLine b = true → oneLine b →
         lintModuleText text
         = lintModuleText (join [NEWLINE] (<[i:=b]> (splitOn NEWLINE text))).
Proof.
  intros Hi Hc.
  pose proof (splitOn_lines_oneLine text) as Hall.
  pose proof (take_drop_middle _ _ _ Hi) as Hsplit.
  split.
  - unfold parseModuleFile, parseLines. f_equal. f_equal. f_equal.
    rewrite delete_take_drop.
    destruct (decide (take i (splitOn NEWLINE text)
                      ++ drop (S i) (splitOn NEWLINE text) = [])) as [E|Hne].
    + rewrite E. apply app_eq_nil in E as [E1 E2].
      rewrite <- Hsplit, E1, E2. cbn. by rewrite processLine_comment.
    + rewrite splitOn_join_lines; [|done|].
      2:{ rewrite <- Hsplit in Hall.
          apply Forall_app in Hall as [H1 [_ H2]%Forall_cons].
          by apply Forall_app. }
      rewrite <- Hsplit at 1.
      rewrite !fold_left_app. cbn [fold_left].
      by rewrite processLine_comment.
  - intros b Hb Hbone.
    unfold lintModuleText, lintCollect. f_equal. f_equal. f_equal.
    rewrite splitOn_join_lines.
    + rewrite <- Hsplit at 1.
      rewrite insert_take_drop by (by eapply lookup_lt_Some).
      rewrite !lintLines_app. cbn [lintLines].
      by rewrite lintLine_comment, lintLine_blank.
    + intros E. apply (f_equal length) in E.
      rewrite length_insert in E.
      apply lookup_lt_Some in Hi. cbn in E. lia.
    + rewrite insert_take_drop by (by eapply lookup_lt_Some).
      rewrite <- Hsplit in Hall.
      apply Forall_app in Hall as [H1 [_ H2]%Forall_cons].
      apply Forall_app. split; [done|]. by constructor.
Qed.

End CommentLines.

Lemma comment_lines_are_inert_witness :
  splitOn NEWLINE (str "# a note" ++ NEWLINE :: str "$MODULE M") !! 0%nat
  = Some (str "# a note")
  ∧ isCommentLine (str "# a note") = true
  ∧ parseModuleFile (str "# a note" ++ NEWLINE :: str "$MODULE M")
    = parseModuleFile (str "$MODULE M")
  ∧ lintModuleText (str "# a note" ++ NEWLINE :: str "$MODULE M")
    = lintModuleText (NEWLINE :: str "$MODULE M").
Proof.
  destruct (comment_lines_are_inert
              (str "# a note" ++ NEWLINE :: str "$MODULE M") 0
              (str "# a note") eq_refl eq_refl) as [Hparse Hlint].
  split; [reflexivity|]. split; [reflexivity|].
  split; [exact Hparse|]. exact (Hlint [] eq_refl (Forall_nil_2 _)).
Defined.

(** ** Lessons and module metadata *)

Lemma finalizeActivity_lessons st :
  lessonHead <$> lessonsOf (finalizeActivity st) = lessonHead <$> lessonsOf st
  ∧ pm_lessons (module (finalizeActivity st)) = pm_lessons (module st)
  ∧ (currentLesson (finalizeActivity st) = None ↔ currentLesson st = None)
  ∧ headerOf (finalizeActivity st) = headerOf st.
Proof.
  unfold finalizeActivity, lessonsOf.
  destruct st as [m vc [l|] [a|] buf]; cbn; try done.
  rewrite !fmap_app. by repeat split.
Qed.

Lemma finalizeLesson_lessons st :
  lessonsOf (finalizeLesson st) = lessonsOf st
  ∧ currentLesson (finalizeLesson st) = None
  ∧ headerOf (finalizeLesson st) = headerOf st.
Proof.
  unfold finalizeLesson, lessonsOf.
  destruct st as [m vc [l|] a buf]; cbn; [|done].
  by rewrite app_nil_r.
Qed.

Lemma lessonsStarted_heads st :
  lessonsStarted st →
  (currentLesson st = None ↔ lessonHead <$> lessonsOf st = []).
Proof.
  unfold lessonsStarted, lessonsOf. intros Hk. split.
  - intros E. by rewrite (Hk E), E.
  - destruct (currentLesson st); [|done].
    rewrite fmap_app. cbn. by intros [_ [=]]%app_eq_nil.
Qed.

Section Lessons.
Context `{UnicodeCase}.

Lemma startActivity_lessons st kind ttl :
  lessonsStarted st →
  lessonsStarted (startActivity st kind ttl)
  ∧ is_Some (currentLesson (startActivity st kind ttl))
  ∧ lessonHead <$> lessonsOf (startActivity st kind ttl)
    = (lessonHead <$> lessonsOf st)
      ++ defaultIfNone (currentLesson st)
  ∧ headerOf (startActivity st kind ttl) = headerOf st.
Proof.
  intros Hk.
  destruct (finalizeActivity_lessons st) as (Hh & Hpm & Hnone & Hhd).
  unfold startActivity. split; [done|]. split; [by eexists|].
  split; [|exact Hhd].
  rewrite <- Hh. unfold lessonsOf at 1 2. cbn [module currentLesson].
  destruct (currentLesson (finalizeActivity st)) as [l|] eqn:El.
  - destruct (currentLesson st) eqn:El'; [cbn; by rewrite app_nil_r|].
    discriminate (proj2 Hnone eq_refl).
  - rewrite (proj1 Hnone eq_refl). rewrite !fmap_app. cbn.
    by rewrite app_nil_r.
Qed.

(** What a marker line adds to the lessons held. *)
Lemma handleSectionMarker_lessons raw st :
  startsWith (trimEnd raw) [DOLLAR] = true →
  lessonsStarted st →
  lessonsStarted (handleSectionMarker (trimEnd raw) st)
  ∧ (is_Some (currentLesson st) ∨ is_Some (sectionOf raw) →
     is_Some (currentLesson (handleSectionMarker (trimEnd raw) st)))
  ∧ lessonHead <$> lessonsOf (handleSectionMarker (trimEnd raw) st)
    = (lessonHead <$> lessonsOf st)
      ++ match sectionOf raw with
         | Some (LessonSection _) => option_list (lessonHeadOf raw)
         | Some (ActivitySection _ _) =>
             defaultIfNone (currentLesson st)
         | None => []
         end
  ∧ headerOf (handleSectionMarker (trimEnd raw) st) = headerOf st.
Proof.
  intros Hd Hk. unfold handleSectionMarker, lessonHeadOf, sectionOf.
  rewrite Hd.
  destruct (markerMatch (trimEnd raw)) as [[marker ttl]|];
    [|rewrite app_nil_r; split; [done|]; split; [by intros [?|[? ?]]|]; done].
  destruct (streq marker (str "MODULE")) eqn:E1.
  { apply streq_true in E1 as ->. cbn. rewrite app_nil_r.
    split; [done|]. split; [by intros [?|[? ?]]|]. done. }
  destruct (streq marker (str "LESSON")) eqn:E2.
  { destruct (finalizeActivity_lessons st) as (Hh & _ & _ & Hhd).
    destruct (finalizeLesson_lessons (finalizeActivity st))
      as (Hl & Hcur & Hhd').
    split; [done|]. split; [by eexists|]. split.
    - rewrite <- Hh, <- Hl. unfold lessonsOf. cbn. rewrite Hcur.
      by rewrite !fmap_app, app_nil_r.
    - by rewrite <- Hhd, <- Hhd'. }
  assert (∀ kind d,
    lessonsStarted (startActivity st kind (orStr ttl d))
    ∧ (is_Some (currentLesson st) ∨ is_Some (Some (ActivitySection kind ttl)) →
       is_Some (currentLesson (startActivity st kind (orStr ttl d))))
    ∧ lessonHead <$> lessonsOf (startActivity st kind (orStr ttl d))
      = (lessonHead <$> lessonsOf st) ++ defaultIfNone (currentLesson st)
    ∧ headerOf (startActivity st kind (orStr ttl d)) = headerOf st) as Hact.
  { intros kind d.
    destruct (startActivity_lessons st kind (orStr ttl d) Hk)
      as (? & ? & ? & ?). done. }
  destruct (streq marker (str "DIALOGUE")) eqn:E3.
  { apply streq_true in E3 as ->. apply (Hact DIALOGUE). }
  destruct (streq marker (str "GRAMMAR")) eqn:E4.
  { apply streq_true in E4 as ->. apply (Hact GRAMMAR). }
  destruct (streq marker (str "EXERCISE")) eqn:E5.
  { apply streq_true in E5 as ->. apply (Hact EXERCISE). }
  destruct (streq marker (str "CHAT")) eqn:E6.
  { apply streq_true in E6 as ->. apply (Hact CHAT). }
  unfold activityOfMarker. rewrite E3, E4, E5, E6, app_nil_r.
  split; [done|]. split; [by intros [?|[? ?]]|]. done.
Qed.

Lemma processLine_marker raw st :
  startsWith (trimEnd raw) [DOLLAR] = true →
  processLine raw st = handleSectionMarker (trimEnd raw) st.
Proof.
  intros Hd. unfold processLine.
  destruct (trimEnd raw) as [|c s] eqn:Hl; [done|].
  rewrite startsWith_single in Hd. apply N.eqb_eq in Hd as ->.
  unfold trimStart. rewrite dropWhile_neg_head by done.
  by rewrite !startsWith_single.
Qed.

Lemma handleActivityField_voice field v a st :
  ps_voiceConfig (handleActivityField field v a st) = ps_voiceConfig st.
Proof. unfold handleActivityField. by repeat case_match. Qed.

(** A line that is not a marker neither opens nor closes a lesson, and
    sets metadata only while no lesson has been opened. *)
Lemma processLine_plain raw st :
  startsWith (trimEnd raw) [DOLLAR] = false →
  pm_lessons (module (processLine raw st)) = pm_lessons (module st)
  ∧ currentLesson (processLine raw st) = currentLesson st
  ∧ (is_Some (currentLesson st) → headerOf (processLine raw st) = headerOf st).
Proof.
  intros Hd. unfold processLine. rewrite Hd.
  destruct (startsWith (trimStart (trimEnd raw)) [HASH]); [done|].
  destruct (streq (trimEnd raw) (str "EXAMPLE") && inExercise st); [done|].
  destruct (fieldMatch (trimEnd raw)) as [[field value]|];
    [|by destruct (currentActivity st)].
  unfold handleField.
  destruct (currentActivity st) as [a|] eqn:Ea.
  - destruct (handleActivityField_rest field (orStr value []) a st) as [Hm Hl].
    rewrite Hm, Hl. split; [done|]. split; [done|]. intros _.
    unfold headerOf. by rewrite Hm, handleActivityField_voice.
  - destruct (currentLesson st) eqn:El; [done|].
    destruct (handleHeaderField field (orStr value []) st) as [st'|] eqn:E.
    + destruct (handleHeaderField_rest _ _ _ _ E) as (Hm & Hl & _).
      rewrite Hm, Hl, El. split; [done|]. split; [done|]. by intros [? ?].
    + rewrite El. split; [done|]. split; [done|]. by intros [? ?].
Qed.

Lemma sectionOf_no_marker raw :
  startsWith (trimEnd raw) [DOLLAR] = false → sectionOf raw = None.
Proof. unfold sectionOf. by intros ->. Qed.

(** What one line adds to the lessons held. *)
Lemma processLine_lessons raw st :
  lessonsStarted st →
  lessonsStarted (processLine raw st)
  ∧ (is_Some (currentLesson st) ∨ is_Some (sectionOf raw) →
     is_Some (currentLesson (processLine raw st)))
  ∧ lessonHead <$> lessonsOf (processLine raw st)
    = (lessonHead <$> lessonsOf st)
      ++ match sectionOf raw with
         | Some (LessonSection _) => option_list (lessonHeadOf raw)
         | Some (ActivitySection _ _) =>
             defaultIfNone (currentLesson st)
         | None => []
         end
  ∧ (is_Some (currentLesson st) →
     headerOf (processLine raw st) = headerOf st).
Proof.
  intros Hk.
  destruct (startsWith (trimEnd raw) [DOLLAR]) eqn:Hd.
  - rewrite (processLine_marker _ _ Hd).
    destruct (handleSectionMarker_lessons raw st Hd Hk) as (? & ? & ? & ?).
    done.
  - destruct (processLine_plain raw st Hd) as (Hm & Hl & Hhd).
    rewrite (sectionOf_no_marker _ Hd), app_nil_r.
    unfold lessonsStarted, lessonsOf in *. rewrite Hm, Hl.
    split; [done|]. split; [|done]. intros [?|[? ?]]; done.
Qed.

Lemma startsWithActivity_cons raw lines :
  startsWithActivity (raw :: lines)
  = match sectionOf raw with
    | Some (LessonSection _) => false
    | Some (ActivitySection _ _) => true
    | None => startsWithActivity lines
    end.
Proof.
  unfold startsWithActivity. rewrite omap_cons.
  by destruct (sectionOf raw) as [[|]|].
Qed.

Lemma lessonHeadOf_cons raw lines :
  omap lessonHeadOf (raw :: lines)
  = match sectionOf raw with
    | Some (LessonSection _) => option_list (lessonHeadOf raw)
    | _ => []
    end ++ omap lessonHeadOf lines.
Proof.
  rewrite omap_cons. unfold lessonHeadOf.
  by destruct (sectionOf raw) as [[|]|].
Qed.

Lemma processLines_lessons lines : ∀ st,
  lessonsStarted st →
  lessonHead
  <$> lessonsOf (fold_left (λ st l, processLine l st) lines st)
  = (lessonHead <$> lessonsOf st)
    ++ match currentLesson st with
       | Some _ => []
       | None => if startsWithActivity lines then [defaultLessonHead] else []
       end
    ++ omap lessonHeadOf lines.
Proof.
  induction lines as [|raw lines IH]; intros st Hk.
  - cbn. destruct (currentLesson st); by rewrite app_nil_r.
  - cbn [fold_left].
    destruct (processLine_lessons raw st Hk) as (Hk' & Hsome & Hh & _).
    rewrite (IH _ Hk'), Hh, startsWithActivity_cons, lessonHeadOf_cons.
    rewrite <- !app_assoc. f_equal.
    destruct (sectionOf raw) as [[ttl|kind ttl]|] eqn:Es.
    + destruct Hsome as [l ->]; [right; by eexists|].
      by destruct (currentLesson st).
    + destruct Hsome as [l ->]; [right; by eexists|].
      by destruct (currentLesson st).
    + destruct (currentLesson st) as [l|] eqn:El.
      * destruct Hsome as [l' ->]; [left; by eexists|]. done.
      * destruct (processLine_lessons raw st Hk) as (_ & _ & Hh' & _).
        rewrite Es, app_nil_r in Hh'.
        apply (lessonsStarted_heads _ Hk) in El.
        rewrite El in Hh'.
        apply (lessonsStarted_heads _ Hk') in Hh'. by rewrite Hh'.
Qed.

(** X4.  The lessons of a parsed module are, in order, one lesson for
    each lesson marker of the text, with the title of the marker
    ([Untitled Lesson] without one) and the slug of the title as id
    ([untitled] without one); they are preceded by one lesson
    [Default Lesson], with id [default-lesson], exactly when an activity
    marker comes before the first lesson marker. *)
Theorem lessons_follow_lesson_markers (content : jsstring) (m : LcModule) :
  parseModuleFile content = inr m →
  lessonHead <$> lessons m
  = (if startsWithActivity (splitOn NEWLINE content)
     then [defaultLessonHead] else [])
    ++ omap lessonHeadOf (splitOn NEWLINE content).
Proof.
  intros Hp.
  assert (lessons m = pm_lessons (module (parseLines (splitOn NEWLINE content))))
    as ->.
  { unfold parseModuleFile, validateModule in Hp.
    repeat case_match; by simplify_eq. }
  unfold parseLines.
  set (st := fold_left _ _ initialState).
  destruct (finalizeActivity_lessons st) as (Hh & _ & _ & _).
  destruct (finalizeLesson_lessons (finalizeActivity st)) as (Hl & Hcur & _).
  transitivity (lessonHead <$> lessonsOf (finalizeLesson (finalizeActivity st))).
  { unfold lessonsOf. by rewrite Hcur, app_nil_r. }
  rewrite Hl, Hh. unfold st.
  by rewrite processLines_lessons.
Qed.

(** Once a lesson is open, no line changes the metadata. *)
Lemma processLines_header lines : ∀ st,
  lessonsStarted st → is_Some (currentLesson st) →
  headerOf (fold_left (λ st l, processLine l st) lines st) = headerOf st.
Proof.
  induction lines as [|raw lines IH]; intros st Hk Hl; [done|].
  cbn [fold_left].
  destruct (processLine_lessons raw st Hk) as (Hk' & Hsome & _ & Hhd).
  rewrite IH by auto. auto.
Qed.

(** A lesson is open after any section marker. *)
Lemma processLines_open lines : ∀ st,
  lessonsStarted st →
  is_Some (currentLesson st) ∨ Exists (λ l, is_Some (sectionOf l)) lines →
  lessonsStarted (fold_left (λ st l, processLine l st) lines st)
  ∧ is_Some (currentLesson (fold_left (λ st l, processLine l st) lines st)).
Proof.
  induction lines as [|raw lines IH]; intros st Hk Hor.
  - destruct Hor as [?|Hex]; [done|]. by apply Exists_nil in Hex.
  - cbn [fold_left].
    destruct (processLine_lessons raw st Hk) as (Hk' & Hsome & _ & _).
    apply IH; [done|].
    destruct Hor as [?|[?|?]%Exists_cons]; auto.
Qed.

Lemma validateModule_metadata st st' :
  headerOf st = headerOf st' →
  metadataOf (validateModule st) = metadataOf (validateModule st').
Proof.
  unfold headerOf, validateModule. intros [= -> -> -> -> -> -> -> ->].
  by repeat case_match.
Qed.

Lemma finalizers_metadata st :
  headerOf (finalizeLesson (finalizeActivity st)) = headerOf st.
Proof.
  destruct (finalizeActivity_lessons st) as (_ & _ & _ & Hhd).
  destruct (finalizeLesson_lessons (finalizeActivity st)) as (_ & _ & Hhd').
  by rewrite Hhd', Hhd.
Qed.


End Lessons.

Lemma lessons_follow_lesson_markers_witness :
  ∃ m, parseModuleFile activityFirstText = inr m
       ∧ lessonHead <$> lessons m
         = [defaultLessonHead; (str "two", str "Two")].
Proof.
  destruct (parseModuleFile activityFirstText) as [e|m] eqn:E;
    [by vm_compute in E|].
  exists m. split; [done|].
  rewrite (lessons_follow_lesson_markers activityFirstText m E).
  reflexivity.
Defined.


(** ** Slugs *)

Lemma replaceNonSlug_dashed s : ∀ p, dashed p (replaceNonSlug p s) = true.
Proof.
  induction s as [|c s IH]; intros p; [done|].
  cbn [replaceNonSlug]. destruct (isSlugChar c) eqn:Ec.
  - cbn [dashed]. by rewrite Ec.
  - destruct p; [done|]. cbn [dashed].
    change (isSlugChar DASH) with false. by rewrite IH.
Qed.

Lemma dashed_weaken p s : dashed p s = true → dashed false s = true.
Proof.
  destruct s as [|c s]; [done|]. cbn.
  destruct (isSlugChar c); [done|].
  by intros [[-> _]%andb_prop ->]%andb_prop.
Qed.

Lemma dashed_alphabet s : ∀ p,
  dashed p s = true → Forall (λ c, isSlugChar c = true ∨ c = DASH) s.
Proof.
  induction s as [|c s IH]; intros p; [constructor|].
  cbn. destruct (isSlugChar c) eqn:Ec.
  - intros Hd. constructor; eauto.
  - intros [[Hc%N.eqb_eq _]%andb_prop Hd]%andb_prop. constructor; eauto.
Qed.

Lemma dashed_head s : dashed true s = true → head s ≠ Some DASH.
Proof.
  destruct s as [|c s]; [done|]. cbn.
  destruct (isSlugChar c) eqn:Ec.
  - intros _ [= ->]. done.
  - by rewrite andb_false_r.
Qed.

Lemma dashed_no_double a b : ∀ p, dashed p (a ++ DASH :: DASH :: b) = false.
Proof.
  induction a as [|c a IH]; intros p.
  - cbn. change (isSlugChar DASH) with false. cbn.
    by rewrite andb_false_r.
  - cbn. destruct (isSlugChar c); [done|].
    by rewrite IH, andb_false_r.
Qed.

(** The recogniser over a concatenation: the second part is read with
    the flag the first part leaves. *)
Lemma dashed_app x y : ∀ p,
  dashed p (x ++ y)
  = dashed p x
    && dashed (match last x with
               | Some d => negb (isSlugChar d)
               | None => p
               end) y.
Proof.
  induction x as [|d x IH]; intros p; [done|].
  cbn [app dashed]. rewrite last_cons.
  destruct (isSlugChar d) eqn:Ed.
  - rewrite IH. destruct (last x); [done|]. by rewrite Ed.
  - rewrite IH, andb_assoc. destruct (last x); [done|]. by rewrite Ed.
Qed.

Lemma dashed_shaped t :
  dashed true t = true → last t ≠ Some DASH → slugShaped t.
Proof.
  intros Hd Hl. split; [by eapply dashed_alphabet|].
  split; [by apply dashed_head|]. split; [done|].
  intros a b ->. by rewrite dashed_no_double in Hd.
Qed.

Lemma shaped_dashed t : slugShaped t → dashed true t = true.
Proof.
  intros (Ha & Hh & _ & Hdd).
  assert (∀ p, (p = true → head t ≠ Some DASH) → dashed p t = true) as Hgen;
    [|by apply Hgen].
  clear Hh. induction Ha as [|c t Hc Ht IH]; intros p Hp; [done|].
  cbn [dashed]. destruct (isSlugChar c) eqn:Ec.
  - apply IH; [|done]. intros a b ->. by apply (Hdd (c :: a) b).
  - destruct Hc as [? | ->]; [congruence|].
    rewrite N.eqb_refl. cbn.
    destruct p; [by destruct Hp|]. cbn.
    apply IH.
    + intros a b ->. by apply (Hdd (DASH :: a) b).
    + intros _. destruct t as [|d t]; [done|].
      intros [= ->]. by apply (Hdd [] t).
Qed.

Lemma stripDashes_dashed s :
  dashed false s = true → slugShaped (stripDashes s).
Proof.
  intros Hd. unfold stripDashes.
  set (s1 := match s with
             | [] => []
             | c :: s' => if c =? DASH then s' else s
             end).
  assert (dashed true s1 = true) as Hd1.
  { unfold s1. destruct s as [|c s']; [done|].
    cbn in Hd. destruct (c =? DASH) eqn:Ec.
    - apply N.eqb_eq in Ec as ->.
      change (isSlugChar DASH) with false in Hd. by cbn in Hd.
    - cbn. destruct (isSlugChar c); [done|]. by cbn in Hd. }
  destruct (rev s1) as [|c r] eqn:Er.
  { by apply dashed_shaped. }
  assert (s1 = rev r ++ [c]) as Hs1.
  { rewrite <- (rev_involutive s1), Er. done. }
  destruct (c =? DASH) eqn:Ec.
  - apply N.eqb_eq in Ec as ->.
    rewrite Hs1, dashed_app in Hd1.
    apply andb_prop in Hd1 as [Hx Hlast].
    apply dashed_shaped; [done|].
    destruct (last (rev r)) as [d|]; [|done].
    cbn in Hlast. change (isSlugChar DASH) with false in Hlast.
    cbn in Hlast. rewrite andb_true_r in Hlast.
    apply negb_true_iff, negb_false_iff in Hlast.
    intros [= ->]. done.
  - apply dashed_shaped; [done|].
    rewrite Hs1, last_snoc. intros [= ->]. by rewrite N.eqb_refl in Ec.
Qed.

Lemma replaceNonSlug_fixed t : ∀ p,
  dashed p t = true → replaceNonSlug p t = t.
Proof.
  induction t as [|c t IH]; intros p; [done|].
  cbn. destruct (isSlugChar c); [by intros ->%IH|].
  intros [[->%N.eqb_eq ->%negb_true_iff]%andb_prop ->%IH]%andb_prop.
  done.
Qed.

Lemma stripDashes_fixed t :
  head t ≠ Some DASH → last t ≠ Some DASH → stripDashes t = t.
Proof.
  intros Hh Hl. unfold stripDashes.
  destruct t as [|c t]; [done|].
  destruct (c =? DASH) eqn:Ec; [by apply N.eqb_eq in Ec as ->|].
  destruct (rev (c :: t)) as [|d r] eqn:Er.
  { apply (f_equal (@length N)) in Er. by rewrite length_rev in Er. }
  destruct (d =? DASH) eqn:Ed; [|done].
  apply N.eqb_eq in Ed as ->. exfalso. apply Hl.
  rewrite <- (rev_involutive (c :: t)), Er. cbn. apply last_snoc.
Qed.

Lemma slug_alphabet_lower t :
  Forall (λ c, isSlugChar c = true ∨ c = DASH) t →
  Forall (λ c, c < 128) t ∧ map asciiLower t = t.
Proof.
  induction 1 as [|c t Hc _ [IH1 IH2]]; [done|].
  assert (c < 128 ∧ asciiLower c = c) as [? ?].
  { destruct Hc as [Hc| ->]; [|done].
    unfold isSlugChar, isLower, isDigit in Hc.
    assert (97 <= c <= 122 ∨ 48 <= c <= 57) as Hr.
    { apply orb_prop in Hc as [[?%N.leb_le ?%N.leb_le]%andb_prop
                              |[?%N.leb_le ?%N.leb_le]%andb_prop]; lia. }
    split; [lia|]. unfold asciiLower, isUpper.
    destruct (65 <=? c) eqn:E1; destruct (c <=? 90) eqn:E2; cbn; try done.
    apply N.leb_le in E1, E2. lia. }
  split; [by constructor|]. cbn. congruence.
Qed.

Section Slugs.
Context `{UnicodeCase}.

(** X6.  A slug is made of lower-case letters, digits and dashes, with
    no dash at either end and no two dashes in a row, whatever the input;
    and [slug] leaves every string of that shape as it is.  So slugging a
    slug changes nothing, and the ids built from slugs are stable under a
    second pass. *)
Theorem slug_is_a_normal_form (s : jsstring) :
  slugShaped (slug s)
  ∧ (∀ t, slugShaped t → slug t = t)
  ∧ slug (slug s) = slug s.
Proof.
  assert (slugShaped (slug s)) as Hs
    by apply stripDashes_dashed, replaceNonSlug_dashed.
  assert (∀ t, slugShaped t → slug t = t) as Hfix.
  { intros t Ht. pose proof (shaped_dashed t Ht) as Hd.
    destruct Ht as (Ha & Hh & Hl & _).
    destruct (slug_alphabet_lower t Ha) as [Hascii Hlow].
    unfold slug. rewrite toLowerCase_ascii, Hlow by done.
    rewrite replaceNonSlug_fixed by (by eapply dashed_weaken).
    by apply stripDashes_fixed. }
  auto.
Qed.

End Slugs.

Lemma slug_is_a_normal_form_witness :
  slugShaped (str "dans-la-rue")
  ∧ slug (str "Dans la rue!") = str "dans-la-rue"
  ∧ slug (str "dans-la-rue") = str "dans-la-rue".
Proof.
  destruct (slug_is_a_normal_form (str "Dans la rue!")) as (Hs & Hfix & _).
  split; [exact Hs|]. split; [reflexivity|].
  exact (Hfix (str "dans-la-rue") Hs).
Defined.

(** ** Source blocks *)

Section Blocks.
Context `{UnicodeCase}.

Lemma openedId_sigil raw id :
  openedId raw = Some id → startsWith (trimEnd raw) [DOLLAR] = true.
Proof. unfold openedId. by destruct (startsWith (trimEnd raw) [DOLLAR]). Qed.

(** Closing the block in progress at a line that starts with the sigil,
    or at the end of the text. *)
Lemma closeBlock_inv lines i st :
  indexInv lines i st →
  (i ≤ length lines)%nat →
  (∀ raw, lines !! i = Some raw → startsWith (trimEnd raw) [DOLLAR] = true) →
  let st' := closeBlock lines (Z.of_nat i - 1) st in
  current st' = None
  ∧ (∀ id blk, map_ st' !! id = Some blk → soundBlock lines id blk)
  ∧ (∀ k raw id, (k < i)%nat → lines !! k = Some raw →
       openedId raw = Some id →
       ∃ blk, map_ st' !! id = Some blk ∧ (Z.of_nat k + 1 ≤ startLine blk)%Z).
Proof.
  intros (Hmap & Hcur & Hcov) Hi Hnext. unfold closeBlock. cbv zeta.
  destruct (current st) as [c|] eqn:Ec.
  - destruct (Hcur c eq_refl) as (Hlt & Hfirst & Hinner).
    cbn [current map_].
    assert (soundBlock lines (ob_id c)
              {| startLine := Z.of_nat (startIdx c) + 1;
                 endLine := Z.of_nat i - 1 + 1;
                 text := join [NEWLINE]
                           (drop (startIdx c)
                              (take (Z.to_nat (Z.of_nat i - 1 + 1)) lines)) |})
      as Hnew.
    { exists (startIdx c), (i - 1)%nat. cbn.
      replace (Z.to_nat (Z.of_nat i - 1 + 1)) with (S (i - 1)) by lia.
      split; [done|]. split; [lia|]. split; [lia|]. split; [done|].
      split; [done|]. split.
      - intros k raw Hk. apply Hinner. lia.
      - replace (S (i - 1)) with i by lia. done. }
    split; [done|]. split.
    + intros id blk. destruct (decide (id = ob_id c)) as [->|Hne].
      * rewrite lookup_insert_eq. by intros [= <-].
      * rewrite lookup_insert_ne by done. apply Hmap.
    + intros k raw id Hk Hraw Hid.
      destruct (decide (id = ob_id c)) as [->|Hne].
      * rewrite lookup_insert_eq. eexists. split; [done|]. cbn.
        assert (k ≤ startIdx c)%nat; [|lia].
        destruct (decide (k ≤ startIdx c)%nat) as [|Hgt]; [done|].
        pose proof (openedId_sigil _ _ Hid) as Hs.
        rewrite (Hinner k raw) in Hs by (done || lia). done.
      * rewrite lookup_insert_ne by done.
        destruct (Hcov k raw id Hk Hraw Hid) as [(c' & Hc' & ? & _)|?]; [|done].
        congruence.
  - split; [done|]. split; [done|].
    intros k raw id Hk Hraw Hid.
    destruct (Hcov k raw id Hk Hraw Hid) as [(c' & Hc' & _)|?]; [|done].
    congruence.
Qed.

Lemma openedId_cases raw :
  startsWith (trimEnd raw) [DOLLAR] = true →
  openedId raw
  = match markerMatch (trimEnd raw) with
    | Some (marker, ttl) =>
        match activityOfMarker marker with
        | Some kind =>
            Some (generateActivityId (typeName kind)
                    (orStr ttl (defaultTitle kind)))
        | None => None
        end
    | None => None
    end.
Proof. unfold openedId. by intros ->. Qed.

Lemma indexLine_inv lines i raw st :
  lines !! i = Some raw →
  indexInv lines i st → indexInv lines (S i) (indexLine lines i raw st).
Proof.
  intros Hraw Hinv. unfold indexLine.
  destruct (startsWith (trimEnd raw) [DOLLAR]) eqn:Hd; cbn [negb].
  - pose proof (lookup_lt_Some _ _ _ Hraw) as Hlt.
    destruct (closeBlock_inv lines i st Hinv) as (Hc & Hmap & Hcov);
      [lia|intros ? ?; by simplify_eq|].
    set (st' := closeBlock lines (Z.of_nat i - 1) st) in *.
    pose proof (openedId_cases raw Hd) as Hid.
    assert (openedId raw = None → indexInv lines (S i) st') as Hnone.
    { intros Hn. split; [done|]. split; [by rewrite Hc|].
      intros k raw' id Hk Hraw' Hid'. right.
      destruct (decide (k = i)) as [->|Hne]; [congruence|].
      apply (Hcov k raw' id); [lia|done..]. }
    destruct (markerMatch (trimEnd raw)) as [[marker ttl]|] eqn:Hm; [|auto].
    destruct (activityOfMarker marker) as [kind|] eqn:Ha; [|auto].
    rewrite (activity_id_agreement _ _ _ _ Hm Ha).
    split; [done|]. split.
    + intros c [= <-]. unfold openBlockOk. cbn. split; [lia|]. split.
      * by exists raw.
      * intros k raw' Hk. lia.
    + intros k raw' id Hk Hraw' Hid'.
      destruct (decide (k = i)) as [->|Hne].
      * left. eexists. split; [done|]. cbn. split; [|done]. congruence.
      * right. apply (Hcov k raw' id); [lia|done..].
  - destruct Hinv as (Hmap & Hcur & Hcov).
    split; [done|]. split.
    + intros c Hc. destruct (Hcur c Hc) as (Hlt & Hfirst & Hinner).
      split; [lia|]. split; [done|].
      intros k raw' Hk Hraw'.
      destruct (decide (k = i)) as [->|Hne]; [congruence|].
      apply (Hinner k raw'); [lia|done].
    + intros k raw' id Hk Hraw' Hid'.
      destruct (decide (k = i)) as [->|Hne].
      * rewrite Hraw in Hraw'. injection Hraw' as <-.
        by rewrite (openedId_sigil _ _ Hid') in Hd.
      * apply (Hcov k raw' id); [lia|done..].
Qed.

Lemma indexLoop_inv lines todo : ∀ i st,
  drop i lines = todo → (i ≤ length lines)%nat →
  indexInv lines i st →
  indexInv lines (length lines) (indexLoop lines i todo st).
Proof.
  induction todo as [|raw todo IH]; intros i st Hdrop Hi Hinv.
  - cbn. apply drop_nil_inv in Hdrop.
    by replace (length lines) with i by lia.
  - cbn [indexLoop].
    assert (lines !! i = Some raw) as Hraw.
    { rewrite <- (Nat.add_0_r i), <- lookup_drop, Hdrop. done. }
    pose proof (lookup_lt_Some _ _ _ Hraw).
    apply IH; [|lia|by apply indexLine_inv].
    rewrite (drop_S _ _ _ Hraw) in Hdrop. by injection Hdrop.
Qed.

(** X7.  Every block of the index is sound: filed under an id, it starts
    at an activity marker line with that id and runs to the line before
    the next line that starts with the sigil, or to the last line of the
    text; its line numbers count from 1 and lie within the text, with the
    start not after the end; and its text is exactly those lines. *)
Theorem index_blocks_are_sound (content id : jsstring) (blk : RawBlock) :
  buildActivityRawIndex content !! id = Some blk →
  soundBlock (splitOn NEWLINE content) id blk.
Proof.
  unfold buildActivityRawIndex. cbv zeta.
  set (lines := splitOn NEWLINE content).
  assert (indexInv lines 0 {| map_ := ∅; current := None |}) as H0.
  { split; [done|]. split; [done|]. intros k ? ? Hk. lia. }
  pose proof (indexLoop_inv lines lines 0 _ eq_refl (Nat.le_0_l _) H0) as Hinv.
  destruct (closeBlock_inv lines (length lines) _ Hinv) as (_ & Hmap & _);
    [done| |by apply Hmap].
  intros raw Hraw. apply lookup_lt_Some in Hraw. lia.
Qed.

(** X8.  When several activity marker lines of a text get the same id,
    the index keeps the block of the last of them: every activity marker
    line has a block under its id, and that block starts at the line
    itself or at a later one. *)
Theorem index_keeps_last_block (content raw id : jsstring) (k : nat) :
  splitOn NEWLINE content !! k = Some raw →
  openedId raw = Some id →
  ∃ blk, buildActivityRawIndex content !! id = Some blk
         ∧ (Z.of_nat k + 1 ≤ startLine blk)%Z.
Proof.
  intros Hraw Hid.
  unfold buildActivityRawIndex. cbv zeta.
  set (lines := splitOn NEWLINE content) in *.
  assert (indexInv lines 0 {| map_ := ∅; current := None |}) as H0.
  { split; [done|]. split; [done|]. intros ? ? ? Hk. lia. }
  pose proof (indexLoop_inv lines lines 0 _ eq_refl (Nat.le_0_l _) H0) as Hinv.
  destruct (closeBlock_inv lines (length lines) _ Hinv) as (_ & _ & Hcov);
    [done| |].
  - intros raw' Hraw'. apply lookup_lt_Some in Hraw'. lia.
  - apply (Hcov k raw id); [|done..]. by apply lookup_lt_Some in Hraw.
Qed.

End Blocks.

Lemma index_blocks_are_sound_witness :
  ∃ blk, buildActivityRawIndex twoGreetingsText !! str "DIALOGUE-greetings"
         = Some blk
         ∧ soundBlock (splitOn NEWLINE twoGreetingsText)
             (str "DIALOGUE-greetings") blk
         ∧ (startLine blk, endLine blk) = (4%Z, 6%Z).
Proof.
  destruct (buildActivityRawIndex twoGreetingsText
              !! str "DIALOGUE-greetings") as [blk|] eqn:E;
    [|by vm_compute in E].
  exists blk. split; [done|].
  split; [exact (index_blocks_are_sound _ _ _ E)|].
  vm_compute in E. by injection E as <-.
Defined.

Lemma index_keeps_last_block_witness :
  splitOn NEWLINE twoGreetingsText !! 0%nat = Some (str "$DIALOGUE Greetings")
  ∧ openedId (str "$DIALOGUE Greetings") = Some (str "DIALOGUE-greetings")
  ∧ ∃ blk, buildActivityRawIndex twoGreetingsText
             !! str "DIALOGUE-greetings" = Some blk
           ∧ (Z.of_nat 0 + 1 ≤ startLine blk)%Z.
Proof.
  split; [reflexivity|]. split; [reflexivity|].
  exact (index_keeps_last_block twoGreetingsText (str "$DIALOGUE Greetings")
           (str "DIALOGUE-greetings") 0 eq_refl eq_refl).
Defined.

(** ** The linter: line numbers and codes of the diagnostics *)

Lemma inRange_mono n m o : (n ≤ m)%Z → inRange n o → inRange m o.
Proof. intros Hnm Ho l Hl. specialize (Ho l Hl). lia. Qed.

Lemma lintInv_mono rs n m st : (n ≤ m)%Z → lintInv rs n st → lintInv rs m st.
Proof.
  intros Hnm (Hd & Hv & He). split; [|split; by eapply inRange_mono].
  eapply Forall_impl; [exact Hd|]. intros d [? ?]. split; [lia|done].
Qed.

Lemma push_inv rs n sev ln m c t :
  (1 ≤ n)%Z → lintInv rs n t → filedUnder n t ln → has rs c = false →
  lintInv rs n (push sev ln m c t).
Proof.
  intros Hn (Hd & Hv & He) Hln Hc. split; [|done].
  cbn. apply Forall_app. split; [done|]. constructor; [|done].
  split; cbn; [|by intros ? [= <-]].
  destruct Hln as [-> | [-> | [Hl | Hl]]]; [lia|lia|by apply Hv|by apply He].
Qed.

Lemma pushIf_inv rs n b sev ln m c t :
  (1 ≤ n)%Z → lintInv rs n t → filedUnder n t ln → has rs c = false →
  lintInv rs n (pushIf b sev ln m c t).
Proof. destruct b; cbn; [apply push_inv|done]. Qed.

Lemma setSection_inv rs n a b c d e t :
  lintInv rs n t → lintInv rs n (setSection a b c d e t).
Proof. done. Qed.

Lemma setSeen_inv rs n h v t : lintInv rs n t → lintInv rs n (setSeen h v t).
Proof. done. Qed.

Lemma setPending_inv rs n a v p e t :
  (1 ≤ n)%Z → lintInv rs n t →
  trackerValue n (pendingVocabWord t) v →
  trackerValue n (pendingExerciseExample t) e →
  lintInv rs n (setPending a v p e t).
Proof.
  intros Hn (Hd & Hv & He) Hv' He'. split; [done|]. cbn.
  split; [destruct Hv' as [-> | [-> | ->]]|destruct He' as [-> | [-> | ->]]];
    try done; intros l [= <-]; lia.
Qed.

Lemma setPendingVocabWord_inv rs n v t :
  (1 ≤ n)%Z → lintInv rs n t →
  trackerValue n (pendingVocabWord t) v →
  lintInv rs n (setPendingVocabWord v t).
Proof.
  intros. unfold setPendingVocabWord.
  apply setPending_inv; try done. by right; right.
Qed.

(** Solve the side conditions of the lemmas above by their shape. *)
Ltac tracker :=
  match goal with
  | |- trackerValue _ _ None => by left
  | |- trackerValue ?n _ (Some ?n) => by (right; left)
  | |- trackerValue _ ?o ?o => by (right; right)
  end.

Ltac filed :=
  match goal with
  | |- filedUnder ?n _ ?n => by left
  | |- filedUnder _ _ 1%Z => by (right; left)
  | H : pendingVocabWord ?t = Some ?l |- filedUnder _ ?t ?l =>
      right; right; left; exact H
  | H : pendingExerciseExample ?t = Some ?l |- filedUnder _ ?t ?l =>
      right; right; right; exact H
  | |- filedUnder _ _ _ =>
      first [ right; right; left; reflexivity
            | right; right; right; reflexivity ]
  end.

(** Peel the state transformers off the goal, splitting on every test. *)
Ltac linv :=
  repeat match goal with
         | H : lintInv ?rs ?n ?t |- lintInv ?rs ?n ?t => exact H
         | |- (1 ≤ _)%Z => assumption
         | |- lintInv _ _ (push _ _ _ _ _) =>
             apply push_inv; [| |filed|reflexivity]
         | |- lintInv _ _ (pushIf _ _ _ _ _ _) =>
             apply pushIf_inv; [| |filed|reflexivity]
         | |- lintInv _ _ (setSection _ _ _ _ _ _) => apply setSection_inv
         | |- lintInv _ _ (setSeen _ _ _) => apply setSeen_inv
         | |- lintInv _ _ (setPending _ _ _ _ _) =>
             apply setPending_inv; [| |tracker|tracker]
         | |- lintInv _ _ (setPendingVocabWord _ _) =>
             apply setPendingVocabWord_inv; [| |tracker]
         | |- lintInv _ _ (if _ then _ else _) => case_match
         | |- lintInv _ _ (match _ with _ => _ end) => case_match
         end.

Lemma flushPendingVocab_inv n t :
  (1 ≤ n)%Z → lintInv endOnlyCodes n t → lintInv endOnlyCodes n (flushPendingVocab t).
Proof. intros. unfold flushPendingVocab. linv. Qed.

Lemma lintIndent_inv n raw t :
  (1 ≤ n)%Z → lintInv endOnlyCodes n t → lintInv endOnlyCodes n (lintIndent n raw t).
Proof. intros. unfold lintIndent. linv. Qed.

Lemma lintMarker_inv n l t :
  (1 ≤ n)%Z → lintInv endOnlyCodes n t → lintInv endOnlyCodes n (lintMarker n l t).
Proof.
  intros. unfold lintMarker.
  repeat first [ progress linv | apply flushPendingVocab_inv ].
Qed.

Lemma lintExample_inv n t :
  (1 ≤ n)%Z → lintInv endOnlyCodes n t → lintInv endOnlyCodes n (lintExample n t).
Proof. intros. unfold lintExample. linv. Qed.

Lemma lintVoiceName_inv n a v t :
  (1 ≤ n)%Z → lintInv endOnlyCodes n t → lintInv endOnlyCodes n (lintVoiceName n a v t).
Proof. intros. unfold lintVoiceName. linv. Qed.

Lemma lintRawContent_inv n t :
  (1 ≤ n)%Z → lintInv endOnlyCodes n t → lintInv endOnlyCodes n (lintRawContent n t).
Proof. intros. unfold lintRawContent. linv. Qed.

Section LintInvariant.
Context `{UnicodeCase}.

Lemma lintVoiceSpeaker_inv n v t :
  (1 ≤ n)%Z → lintInv endOnlyCodes n t → lintInv endOnlyCodes n (lintVoiceSpeaker n v t).
Proof.
  intros. unfold lintVoiceSpeaker.
  repeat first [ progress linv | apply lintVoiceName_inv ].
Qed.

Lemma lintVoice_inv n v t :
  (1 ≤ n)%Z → lintInv endOnlyCodes n t → lintInv endOnlyCodes n (lintVoice n v t).
Proof.
  intros. unfold lintVoice.
  repeat first [ progress linv | apply lintVoiceName_inv ].
Qed.

Lemma lintSingleVoice_inv n v t :
  (1 ≤ n)%Z → lintInv endOnlyCodes n t → lintInv endOnlyCodes n (lintSingleVoice n v t).
Proof.
  intros. unfold lintSingleVoice.
  repeat first [ progress linv | apply lintVoiceName_inv ].
Qed.

Lemma lintHeaderField_inv n f v t :
  (1 ≤ n)%Z → lintInv endOnlyCodes n t → lintInv endOnlyCodes n (lintHeaderField n f v t).
Proof.
  intros. unfold lintHeaderField.
  repeat first
    [ progress linv
    | apply lintSingleVoice_inv
    | apply lintVoice_inv
    | apply lintVoiceSpeaker_inv ].
Qed.

Lemma lintActivityField_inv n k f t :
  (1 ≤ n)%Z → lintInv endOnlyCodes n t → lintInv endOnlyCodes n (lintActivityField n k f t).
Proof. intros. unfold lintActivityField. linv. Qed.

Lemma lintOutsideField_inv n f t :
  (1 ≤ n)%Z → lintInv endOnlyCodes n t → lintInv endOnlyCodes n (lintOutsideField n f t).
Proof. intros. unfold lintOutsideField. linv. Qed.

Lemma lintDialogueStructure_inv n f t :
  (1 ≤ n)%Z → lintInv endOnlyCodes n t → lintInv endOnlyCodes n (lintDialogueStructure n f t).
Proof.
  intros. unfold lintDialogueStructure.
  repeat first [ progress linv | apply flushPendingVocab_inv ].
Qed.

Lemma lintExerciseStructure_inv n f v t :
  (1 ≤ n)%Z → lintInv endOnlyCodes n t → lintInv endOnlyCodes n (lintExerciseStructure n f v t).
Proof. intros. unfold lintExerciseStructure. linv. Qed.

Lemma lintField_inv n f v t :
  (1 ≤ n)%Z → lintInv endOnlyCodes n t → lintInv endOnlyCodes n (lintField n f v t).
Proof.
  intros. unfold lintField.
  repeat first
    [ progress linv
    | apply lintDialogueStructure_inv
    | apply lintExerciseStructure_inv
    | apply lintHeaderField_inv
    | apply lintActivityField_inv
    | apply lintOutsideField_inv ].
Qed.

Lemma lintLine_inv n raw t :
  (1 ≤ n)%Z → lintInv endOnlyCodes n t → lintInv endOnlyCodes n (lintLine n raw t).
Proof.
  intros. unfold lintLine.
  repeat first
    [ progress linv
    | apply lintMarker_inv
    | apply lintExample_inv
    | apply lintField_inv
    | apply lintRawContent_inv
    | apply lintIndent_inv ].
Qed.

Lemma lintLines_inv lines : ∀ n t,
  (1 ≤ n)%Z → lintInv endOnlyCodes (n - 1) t →
  lintInv endOnlyCodes (n - 1 + Z.of_nat (length lines)) (lintLines n lines t).
Proof.
  induction lines as [|raw lines IH]; intros n t Hn Ht.
  - cbn. by rewrite Z.add_0_r.
  - cbn [lintLines length].
    replace (n - 1 + Z.of_nat (S (length lines)))%Z
      with (n + 1 - 1 + Z.of_nat (length lines))%Z by lia.
    apply IH; [lia|].
    replace (n + 1 - 1)%Z with n by lia.
    apply lintLine_inv; [done|]. eapply lintInv_mono; [|exact Ht]. lia.
Qed.

Lemma lintInv_unreserved rs n st : lintInv rs n st → lintInv [] n st.
Proof.
  intros (Hd & Hv & He). split; [|done].
  eapply Forall_impl; [exact Hd|]. by intros d [? _].
Qed.

Lemma lintEnd_inv n t :
  (1 ≤ n)%Z → lintInv [] n t → lintInv [] n (lintEnd t).
Proof. intros. unfold lintEnd. cbv zeta. linv. Qed.

Lemma lintInit_inv rs : lintInv rs 0 lintInit.
Proof. split; [constructor|]. by split; intros l [=]. Qed.

Lemma splitOn_length sep s : (1 ≤ length (splitOn sep s))%nat.
Proof.
  pose proof (splitOn_nonempty sep s).
  destruct (splitOn sep s); [done|cbn; lia].
Qed.

(** The state of the loop at the end of a text keeps the invariant for
    the number of lines of the text. *)
Lemma lintLines_text_inv text :
  lintInv endOnlyCodes (Z.of_nat (length (splitOn NEWLINE text)))
    (lintLines 1 (splitOn NEWLINE text) lintInit).
Proof.
  pose proof (lintLines_inv (splitOn NEWLINE text) 1 lintInit) as Hl.
  replace (1 - 1 + Z.of_nat (length (splitOn NEWLINE text)))%Z
    with (Z.of_nat (length (splitOn NEWLINE text))) in Hl by lia.
  apply Hl; [done|]. apply lintInit_inv.
Qed.

(** X9.  Every diagnostic of the linter is filed under a line of the
    text: its line number is at least 1 and at most the number of lines,
    also for the diagnostics about the text as a whole, which are filed
    under line 1, and for those about a pair left open, which are filed
    under the line that opened it. *)
Theorem lint_lines_within_text (text : jsstring) :
  Forall (λ d, (1 ≤ line d ≤ Z.of_nat (length (splitOn NEWLINE text)))%Z)
    (lintModuleText text).
Proof.
  unfold lintModuleText, lintCollect. rewrite sortDiags_perm.
  pose proof (splitOn_length NEWLINE text).
  destruct (lintEnd_inv (Z.of_nat (length (splitOn NEWLINE text)))
              (lintLines 1 (splitOn NEWLINE text) lintInit)) as (Hd & _);
    [lia|by eapply lintInv_unreserved, lintLines_text_inv|].
  eapply Forall_impl; [exact Hd|]. by intros d [? _].
Qed.

End LintInvariant.

(** ** The linter: flags and header table *)

Lemma keepsHeader_refl s : keepsHeader s s.
Proof. by split. Qed.

Lemma keepsHeader_trans a b c :
  keepsHeader a b → keepsHeader b c → keepsHeader a c.
Proof.
  intros (? & ? & Hab) (? & ? & Hbc).
  split; [congruence|]. split; [congruence|]. auto.
Qed.

Lemma push_keeps s sev ln m c t :
  keepsHeader s t → keepsHeader s (push sev ln m c t).
Proof. done. Qed.

Lemma pushIf_keeps s b sev ln m c t :
  keepsHeader s t → keepsHeader s (pushIf b sev ln m c t).
Proof. by destruct b. Qed.

Lemma setSeen_keeps s h v t :
  keepsHeader s t → tableValue (seenHeader t) h →
  keepsHeader s (setSeen h v t).
Proof.
  intros (? & ? & Hk) Hh. split; [done|]. split; [done|]. cbn.
  intros k Hs. specialize (Hk k Hs).
  destruct Hh as [->|(k' & n & ->)]; [done|].
  destruct (decide (k = k')) as [->|Hne].
  - rewrite lookup_insert_eq. by eexists.
  - by rewrite lookup_insert_ne.
Qed.

Lemma setPending_keeps s a b c d t :
  keepsHeader s t → keepsHeader s (setPending a b c d t).
Proof. done. Qed.

Lemma setPendingVocabWord_keeps s v t :
  keepsHeader s t → keepsHeader s (setPendingVocabWord v t).
Proof. done. Qed.

Ltac table :=
  match goal with
  | |- tableValue ?o ?o => by left
  | |- tableValue ?o (<[_ := _]> ?o) => right; by do 2 eexists
  end.

(** Peel the state transformers off the goal, splitting on every test. *)
Ltac keeps :=
  repeat match goal with
         | H : keepsHeader ?s ?t |- keepsHeader ?s ?t => exact H
         | |- keepsHeader ?s ?s => apply keepsHeader_refl
         | |- keepsHeader _ (push _ _ _ _ _) => apply push_keeps
         | |- keepsHeader _ (pushIf _ _ _ _ _ _) => apply pushIf_keeps
         | |- keepsHeader _ (setSeen _ _ _) => apply setSeen_keeps; [|table]
         | |- keepsHeader _ (setPending _ _ _ _ _) => apply setPending_keeps
         | |- keepsHeader _ (setPendingVocabWord _ _) =>
             apply setPendingVocabWord_keeps
         | |- keepsHeader _ (if _ then _ else _) => case_match
         | |- keepsHeader _ (match _ with _ => _ end) => case_match
         end.

Lemma flushPendingVocab_keeps s t :
  keepsHeader s t → keepsHeader s (flushPendingVocab t).
Proof. intros. unfold flushPendingVocab. keeps. Qed.

Lemma lintIndent_keeps s n raw t :
  keepsHeader s t → keepsHeader s (lintIndent n raw t).
Proof. intros. unfold lintIndent. keeps. Qed.

Lemma lintExample_keeps s n t :
  keepsHeader s t → keepsHeader s (lintExample n t).
Proof. intros. unfold lintExample. keeps. Qed.

Lemma lintVoiceName_keeps s n a v t :
  keepsHeader s t → keepsHeader s (lintVoiceName n a v t).
Proof. intros. unfold lintVoiceName. keeps. Qed.

Lemma lintRawContent_keeps s n t :
  keepsHeader s t → keepsHeader s (lintRawContent n t).
Proof. intros. unfold lintRawContent. keeps. Qed.

Section LintHeader.
Context `{UnicodeCase}.

Lemma lintVoiceSpeaker_keeps s n v t :
  keepsHeader s t → keepsHeader s (lintVoiceSpeaker n v t).
Proof.
  intros. unfold lintVoiceSpeaker.
  repeat first [ progress keeps | apply lintVoiceName_keeps ].
Qed.

Lemma lintVoice_keeps s n v t :
  keepsHeader s t → keepsHeader s (lintVoice n v t).
Proof.
  intros. unfold lintVoice.
  repeat first [ progress keeps | apply lintVoiceName_keeps ].
Qed.

Lemma lintSingleVoice_keeps s n v t :
  keepsHeader s t → keepsHeader s (lintSingleVoice n v t).
Proof.
  intros. unfold lintSingleVoice.
  repeat first [ progress keeps | apply lintVoiceName_keeps ].
Qed.

Lemma lintHeaderField_keeps s n f v t :
  keepsHeader s t → keepsHeader s (lintHeaderField n f v t).
Proof.
  intros. unfold lintHeaderField.
  repeat first
    [ progress keeps
    | apply lintSingleVoice_keeps
    | apply lintVoice_keeps
    | apply lintVoiceSpeaker_keeps ].
Qed.

Lemma lintActivityField_keeps s n k f t :
  keepsHeader s t → keepsHeader s (lintActivityField n k f t).
Proof. intros. unfold lintActivityField. keeps. Qed.

Lemma lintOutsideField_keeps s n f t :
  keepsHeader s t → keepsHeader s (lintOutsideField n f t).
Proof. intros. unfold lintOutsideField. keeps. Qed.

Lemma lintDialogueStructure_keeps s n f t :
  keepsHeader s t → keepsHeader s (lintDialogueStructure n f t).
Proof.
  intros. unfold lintDialogueStructure.
  repeat first [ progress keeps | apply flushPendingVocab_keeps ].
Qed.

Lemma lintExerciseStructure_keeps s n f v t :
  keepsHeader s t → keepsHeader s (lintExerciseStructure n f v t).
Proof. intros. unfold lintExerciseStructure. keeps. Qed.

Lemma lintField_keeps s n f v t :
  keepsHeader s t → keepsHeader s (lintField n f v t).
Proof.
  intros. unfold lintField.
  repeat first
    [ progress keeps
    | apply lintDialogueStructure_keeps
    | apply lintExerciseStructure_keeps
    | apply lintHeaderField_keeps
    | apply lintActivityField_keeps
    | apply lintOutsideField_keeps ].
Qed.

(** A marker line sets the first flag, sets the second when it is a
    module marker, and leaves the header table alone. *)
Lemma lintMarker_header n l t :
  sawAnySectionMarker (lintMarker n l t) = true
  ∧ sawModuleMarker (lintMarker n l t)
    = sawModuleMarker t
      || match markerMatch l with
         | Some (marker, _) => streq marker (str "MODULE")
         | None => false
         end
  ∧ seenHeader (lintMarker n l t) = seenHeader t.
Proof.
  unfold lintMarker, flushPendingVocab, setPendingVocabWord, pushIf.
  repeat case_match; cbn; rewrite ?orb_true_r, ?orb_false_r; done.
Qed.

End LintHeader.

(** ** The linter: the checks on the text as a whole *)

Lemma markerLine_trim raw :
  isMarkerLine raw = true →
  ∃ r, trimEnd raw = DOLLAR :: r ∧ trim (trimEnd raw) = DOLLAR :: trimEnd r.
Proof.
  unfold isMarkerLine. intros Hd.
  destruct (trimEnd raw) as [|c r] eqn:E; [done|].
  rewrite startsWith_single in Hd. apply N.eqb_eq in Hd as ->.
  exists r. split; [done|]. by apply trim_head.
Qed.

Section LintWhole.
Context `{UnicodeCase}.

Lemma lintLine_marker n raw t :
  isMarkerLine raw = true →
  lintLine n raw t = lintMarker n (trimEnd raw) (lintIndent n raw t).
Proof.
  intros Hd. destruct (markerLine_trim raw Hd) as (r & Hr & Ht).
  unfold lintLine. rewrite Ht. unfold isMarkerLine in Hd. by rewrite Hd.
Qed.

Lemma lintLine_plain n raw t :
  isMarkerLine raw = false → keepsHeader t (lintLine n raw t).
Proof.
  unfold isMarkerLine. intros Hd. unfold lintLine. rewrite Hd.
  repeat first
    [ progress keeps
    | apply lintExample_keeps
    | apply lintField_keeps
    | apply lintRawContent_keeps
    | apply lintIndent_keeps ].
Qed.

(** What one line does to the flags and to the header table. *)
Lemma lintLine_header n raw t :
  sawAnySectionMarker (lintLine n raw t)
  = sawAnySectionMarker t || isMarkerLine raw
  ∧ sawModuleMarker (lintLine n raw t)
    = sawModuleMarker t || isModuleMarker raw
  ∧ ∀ k, is_Some (seenHeader t !! k) →
         is_Some (seenHeader (lintLine n raw t) !! k).
Proof.
  unfold isModuleMarker.
  destruct (isMarkerLine raw) eqn:Hd.
  - rewrite (lintLine_marker _ _ _ Hd).
    destruct (lintMarker_header n (trimEnd raw) (lintIndent n raw t))
      as (Hany & Hmod & Hseen).
    destruct (lintIndent_keeps t n raw t (keepsHeader_refl t))
      as (Hm' & _ & Hs').
    rewrite Hany, Hmod, Hseen, Hm', orb_true_r. done.
  - destruct (lintLine_plain n raw t Hd) as (Hm & Ha & Hs).
    rewrite Hm, Ha, !orb_false_r. done.
Qed.

Lemma lintLines_header lines : ∀ n t,
  sawAnySectionMarker (lintLines n lines t)
  = sawAnySectionMarker t || existsb isMarkerLine lines
  ∧ sawModuleMarker (lintLines n lines t)
    = sawModuleMarker t || existsb isModuleMarker lines
  ∧ ∀ k, is_Some (seenHeader t !! k) →
         is_Some (seenHeader (lintLines n lines t) !! k).
Proof.
  induction lines as [|raw lines IH]; intros n t.
  - cbn. by rewrite !orb_false_r.
  - cbn [lintLines existsb].
    destruct (IH (n + 1)%Z (lintLine n raw t)) as (Ha & Hm & Hs).
    destruct (lintLine_header n raw t) as (Ha' & Hm' & Hs').
    rewrite Ha, Hm, Ha', Hm', !orb_assoc. auto.
Qed.

Lemma push_later d sev ln m c t :
  d ∈ diags t → d ∈ diags (push sev ln m c t).
Proof. cbn. set_solver. Qed.

Lemma pushIf_later d b sev ln m c t :
  d ∈ diags t → d ∈ diags (pushIf b sev ln m c t).
Proof. destruct b; [apply push_later|done]. Qed.

(** The two checks for markers at the end of the input. *)
Lemma lintEnd_no_sections t :
  sawAnySectionMarker t = false → noSectionsDiag ∈ diags (lintEnd t).
Proof.
  intros Hs. unfold lintEnd. cbv zeta.
  destruct t as [ds sm sa ih ca cl sh sv lh [pv|] pp [pe|]];
    cbn in Hs; subst sa; cbn;
    repeat first [ apply push_elem | apply pushIf_later | apply push_later
                 | case_match ].
Qed.

Lemma lintEnd_missing_module t :
  sawModuleMarker t = false → missingModuleDiag ∈ diags (lintEnd t).
Proof.
  intros Hs. unfold lintEnd. cbv zeta.
  destruct t as [ds sm sa ih ca cl sh sv lh [pv|] pp [pe|]];
    cbn in Hs; subst sm; destruct sa; cbn; unfold missingModuleDiag;
    set_solver.
Qed.

Lemma lintEnd_sections_inv n t :
  (1 ≤ n)%Z → sawAnySectionMarker t = true →
  lintInv [str "no-sections"] n t →
  lintInv [str "no-sections"] n (lintEnd t).
Proof.
  intros Hn Hs Ht. unfold lintEnd. cbv zeta.
  destruct t as [ds sm sa ih ca cl sh sv lh [pv|] pp [pe|]];
    cbn in Hs; subst sa; cbn -[has]; linv.
Qed.

Lemma lintEnd_module_inv n t :
  (1 ≤ n)%Z → sawModuleMarker t = true →
  lintInv [str "missing-module"] n t →
  lintInv [str "missing-module"] n (lintEnd t).
Proof.
  intros Hn Hs Ht. unfold lintEnd. cbv zeta.
  destruct t as [ds sm sa ih ca cl sh sv lh [pv|] pp [pe|]];
    cbn in Hs; subst sm; destruct sa; cbn -[has]; linv.
Qed.

Lemma lintInv_fewer rs rs' n st :
  rs' ⊆ rs → lintInv rs n st → lintInv rs' n st.
Proof.
  intros Hsub (Hd & Hv & He). split; [|done].
  eapply Forall_impl; [exact Hd|]. intros d [Hr Hc]. split; [done|].
  intros c Hcode. specialize (Hc c Hcode).
  unfold has in *. apply bool_decide_eq_false in Hc.
  apply bool_decide_eq_false. intros Hin. apply Hc. by apply Hsub.
Qed.

Lemma lintInv_no_code c n st d :
  lintInv [c] n st → d ∈ diags st → code d ≠ Some c.
Proof.
  intros (Hd & _) Hin Hcode.
  rewrite Forall_forall in Hd. destruct (Hd d Hin) as [_ Hc].
  specialize (Hc c Hcode). unfold has in Hc.
  apply bool_decide_eq_false in Hc. apply Hc. set_solver.
Qed.

(** X10.  The two errors about markers are exact.  The linter reports
    that the text has no section markers exactly when no line of it starts
    with the sigil at column 0, and that the module header is missing
    exactly when no line of it is a module marker. *)
Theorem lint_marker_errors_are_exact (text : jsstring) :
  (noSectionsDiag ∈ lintModuleText text
   ↔ existsb isMarkerLine (splitOn NEWLINE text) = false)
  ∧ (missingModuleDiag ∈ lintModuleText text
     ↔ existsb isModuleMarker (splitOn NEWLINE text) = false).
Proof.
  unfold lintModuleText, lintCollect. rewrite !sortDiags_perm.
  set (lines := splitOn NEWLINE text).
  destruct (lintLines_header lines 1 lintInit) as (Hany & Hmod & _).
  cbn [lintInit sawAnySectionMarker sawModuleMarker orb] in Hany, Hmod.
  pose proof (lintLines_text_inv text) as Hinv. fold lines in Hinv.
  pose proof (splitOn_length NEWLINE text) as Hlen. fold lines in Hlen.
  split; split.
  - intros Hin. destruct (existsb isMarkerLine lines) eqn:E; [|done].
    exfalso.
    eapply (lintInv_no_code (str "no-sections")); [|exact Hin|done].
    apply (lintEnd_sections_inv (Z.of_nat (length lines))); [lia|done|].
    eapply lintInv_fewer; [|exact Hinv]. set_solver.
  - intros E. apply lintEnd_no_sections. by rewrite Hany.
  - intros Hin. destruct (existsb isModuleMarker lines) eqn:E; [|done].
    exfalso.
    eapply (lintInv_no_code (str "missing-module")); [|exact Hin|done].
    apply (lintEnd_module_inv (Z.of_nat (length lines))); [lia|done|].
    eapply lintInv_fewer; [|exact Hinv]. set_solver.
  - intros E. apply lintEnd_missing_module. by rewrite Hmod.
Qed.

End LintWhole.

(** ** The parser and the linter on the mandatory fields *)

Lemma leavesHeader_sectionOf raw :
  leavesHeader raw = true ↔ is_Some (sectionOf raw).
Proof.
  unfold leavesHeader, sectionOf.
  destruct (startsWith (trimEnd raw) [DOLLAR]); [|by split; [|intros [? ?]]].
  destruct (markerMatch (trimEnd raw)) as [[marker ttl]|];
    [|by split; [|intros [? ?]]].
  destruct (streq marker (str "LESSON")) eqn:E.
  - apply streq_true in E as ->. split; [by eexists|by vm_compute].
  - destruct (activityOfMarker marker).
    + split; [by eexists|done].
    + split; [done|by intros [? ?]].
Qed.

Section FieldsAgree.
Context `{UnicodeCase}.

(** A line changes a mandatory slot only as a field line with a name of
    the field, met while the parser is still in the header. *)
Lemma processLine_slot_change f raw st :
  slot f (module (processLine raw st)) ≠ slot f (module st) →
  (∃ name v, fieldMatch (trimEnd raw) = Some (name, v) ∧ name ∈ fieldNames f)
  ∧ currentLesson st = None.
Proof.
  intros Hne.
  destruct (notFieldLineOf f raw) eqn:Hn.
  { by rewrite processLine_slot in Hne. }
  unfold notFieldLineOf in Hn.
  destruct (fieldMatch (trimEnd raw)) as [[name v]|] eqn:Hm; [|done].
  apply negb_false_iff in Hn. split.
  - exists name, v. split; [done|]. by apply has_true_elem.
  - rewrite (processLine_field _ _ _ _ Hm) in Hne. unfold handleField in Hne.
    destruct (currentActivity st) as [a|].
    + by rewrite (proj1 (handleActivityField_rest _ _ a st)) in Hne.
    + by destruct (currentLesson st).
Qed.

Lemma parser_slot_supplied f lines :
  slot f (module (fold_left (λ st l, processLine l st) lines initialState))
  ≠ None →
  ∃ i, suppliesField f lines i.
Proof.
  induction lines as [|raw lines IH] using rev_ind; [by destruct f|].
  rewrite fold_left_app. cbn [fold_left].
  set (st := fold_left _ lines initialState) in *.
  intros Hs.
  destruct (decide (slot f (module st) = None)) as [Hnone|Hsome].
  - destruct (processLine_slot_change f raw st) as [(name & v & Hm & Hin) Hl];
      [congruence|].
    exists (length lines), raw, name, v.
    split; [by rewrite lookup_app_r, Nat.sub_diag by lia|].
    split; [done|]. split; [done|].
    rewrite take_app_length.
    apply forallb_forall. intros l Hl'. apply negb_true_iff.
    destruct (leavesHeader l) eqn:El; [|done]. exfalso.
    apply leavesHeader_sectionOf in El.
    assert (lessonsStarted initialState) as Hk0 by done.
    destruct (processLines_open lines initialState Hk0) as [_ [x Hx]].
    { right. apply Exists_exists. exists l. split; [|done].
      by apply list_elem_of_In. }
    fold st in Hx. congruence.
  - destruct (IH Hsome) as (i & raw' & name & v & Hi & Hm & Hin & Hpre).
    pose proof (lookup_lt_Some _ _ _ Hi) as Hlt.
    exists i, raw', name, v.
    split; [by rewrite lookup_app_l|]. split; [done|]. split; [done|].
    by rewrite take_app_le by lia.
Qed.

(** A field line goes to the field branch of the linter. *)
Lemma lintLine_field n raw name v t :
  fieldMatch (trimEnd raw) = Some (name, v) →
  lintLine n raw t = lintField n name (trim (default [] v)) (lintIndent n raw t).
Proof.
  intros Hm.
  destruct (fieldMatch_head _ _ Hm) as (f & s' & Hs & Hf).
  assert (trim (trimEnd raw) = trimEnd raw) as Htrim.
  { unfold trim, trimStart. rewrite Hs at 1.
    rewrite dropWhile_neg_head by (by apply isFieldChar_not_space).
    rewrite <- Hs. apply trimEnd_idemp. }
  unfold lintLine. rewrite Htrim, Hm, Hs.
  rewrite streq_false by done.
  rewrite !startsWith_single, fieldChar_not_hash, fieldChar_not_dollar
    by done.
  rewrite bool_decide_eq_false_2; [done|].
  unfold ebnfSpec.exampleMarker. intros E. apply (inj Some) in E.
  rewrite Hs, <- E in Hm. by vm_compute in Hm.
Qed.

(** In header context the linter records every header field other than
    the two repeatable ones. *)
Lemma lintHeaderField_records n f v t :
  has headerFields f = true →
  streq f (str "VOICE_SPEAKER") = false → streq f (str "VOICE") = false →
  is_Some (seenHeader (lintHeaderField n f v t) !! f).
Proof.
  intros Hh Hs Hv. unfold lintHeaderField. rewrite Hh, Hs, Hv. cbn [negb andb].
  match goal with
  | |- is_Some (seenHeader (if ?c then lintSingleVoice _ _ ?s else ?s) !! _) =>
      assert (keepsHeader s (if c then lintSingleVoice n v s else s))
        as (_ & _ & Hk)
        by (destruct c; [apply lintSingleVoice_keeps|]; apply keepsHeader_refl);
      apply Hk
  end.
  cbn. rewrite lookup_insert_eq. by eexists.
Qed.

Lemma mandatory_name_header f name :
  name ∈ fieldNames f →
  has headerFields name = true
  ∧ streq name (str "VOICE_SPEAKER") = false
  ∧ streq name (str "VOICE") = false.
Proof.
  destruct f; cbn; set_unfold; intros Hn;
    repeat destruct Hn as [->|Hn]; try done; by vm_compute.
Qed.

(** A field a header line supplies is in the header table of the linter
    when the input ends. *)
Lemma linter_records_supplied f lines i :
  suppliesField f lines i →
  ∃ name, name ∈ fieldNames f
          ∧ is_Some (seenHeader (lintLines 1 lines lintInit) !! name).
Proof.
  intros (raw & name & v & Hi & Hm & Hin & Hpre).
  exists name. split; [done|].
  rewrite (lintLines_at _ _ _ Hi).
  apply lintLines_header.
  assert (headerCtx (lintLines 1 (take i lines) lintInit)) as Hctx
    by (by apply headerCtx_lintLines).
  rewrite (lintLine_field _ _ _ _ _ Hm).
  rewrite lintField_header by (by apply headerCtx_lintIndent).
  destruct (mandatory_name_header f name Hin) as (? & ? & ?).
  by apply lintHeaderField_records.
Qed.

(** With the four mandatory fields in the header table, the checks at the
    end of the input add none of the errors for a missing field. *)
Lemma lintEnd_fields_inv n t :
  (1 ≤ n)%Z →
  is_Some (seenHeader t !! str "DIOCO_DOC_ID") →
  is_Some (seenHeader t !! str "TITLE") →
  is_Some (seenHeader t !! str "TARGET_LANG_G") →
  is_Some (seenHeader t !! str "HOME_LANG_G")
  ∨ is_Some (seenHeader t !! str "USER_LANG_G") →
  lintInv missingFieldCodes n t →
  lintInv missingFieldCodes n (lintEnd t).
Proof.
  intros Hn H1 H2 H3 H4 Ht. unfold lintEnd. cbv zeta.
  assert (∀ (sh : gmap jsstring Z) k,
            is_Some (sh !! k) → bool_decide (sh !! k = None) = false) as Hno.
  { intros sh k [x Hx]. apply bool_decide_eq_false. congruence. }
  destruct t as [ds sm sa ih ca cl sh sv lh [pv|] pp [pe|]];
    cbn in H1, H2, H3, H4; destruct sa, sm; cbn -[has];
    rewrite ?(Hno _ _ H1), ?(Hno _ _ H2), ?(Hno _ _ H3);
    (destruct H4 as [H4|H4]; rewrite ?(Hno _ _ H4), ?andb_false_r);
    cbn -[has]; linv.
Qed.

(** X11.  The linter never reports a mandatory header field as missing
    in a text the parser accepts: for such a text none of the diagnostics
    carries one of the four codes for a missing field. *)
Theorem accepted_text_has_no_missing_field_error
    (text : jsstring) (m : LcModule) :
  parseModuleFile text = inr m →
  Forall (codeOutside missingFieldCodes) (lintModuleText text).
Proof.
  intros Hp. set (lines := splitOn NEWLINE text).
  assert (∀ f, ∃ name, name ∈ fieldNames f
               ∧ is_Some (seenHeader (lintLines 1 lines lintInit) !! name))
    as Hseen.
  { intros f. destruct (parser_slot_supplied f lines) as [i Hi];
      [|by eapply linter_records_supplied].
    assert (truthy (slot f (module (parseLines lines))) = true) as Ht.
    { unfold parseModuleFile, validateModule in Hp. fold lines in Hp.
      destruct f; cbn; repeat case_match; simplify_eq;
        by repeat match goal with
                  | E : negb _ = false |- _ => apply negb_false_iff in E
                  end. }
    unfold parseLines in Ht.
    rewrite finalizeLesson_slot, finalizeActivity_module in Ht.
    intros E. by rewrite E in Ht. }
  unfold lintModuleText, lintCollect. rewrite sortDiags_perm. fold lines.
  pose proof (splitOn_length NEWLINE text) as Hlen. fold lines in Hlen.
  destruct (lintEnd_fields_inv (Z.of_nat (length lines))
              (lintLines 1 lines lintInit)) as (Hd & _).
  - lia.
  - destruct (Hseen DocId) as (name & Hn & Hs). cbn in Hn. set_unfold.
    by destruct Hn as [->|[]].
  - destruct (Hseen Title) as (name & Hn & Hs). cbn in Hn. set_unfold.
    by destruct Hn as [->|[]].
  - destruct (Hseen TargetLang) as (name & Hn & Hs). cbn in Hn. set_unfold.
    by destruct Hn as [->|[]].
  - destruct (Hseen HomeLang) as (name & Hn & Hs). cbn in Hn. set_unfold.
    destruct Hn as [->|[->|[]]]; auto.
  - eapply lintInv_fewer; [|apply lintLines_text_inv]. set_solver.
  - eapply Forall_impl; [exact Hd|]. by intros d [_ ?].
Qed.

End FieldsAgree.

Lemma accepted_text_has_no_missing_field_error_witness :
  ∃ m, parseModuleFile scenarioOneText = inr m
       ∧ Forall (codeOutside missingFieldCodes) (lintModuleText scenarioOneText).
Proof.
  destruct (parseModuleFile scenarioOneText) as [e|m] eqn:E;
    [by vm_compute in E|].
  exists m. split; [done|].
  exact (accepted_text_has_no_missing_field_error scenarioOneText m E).
Defined.

(** ** The course parser *)

Lemma indexOf_spec c s :
  indexOf c s
  = match dropWhile (λ x, negb (x =? c)) s with
    | [] => (-1)%Z
    | _ => Z.of_nat (length (takeWhile (λ x, negb (x =? c)) s))
    end.
Proof.
  induction s as [|x s IH]; [done|]. cbn.
  destruct (x =? c); cbn; [done|]. rewrite IH.
  destruct (dropWhile _ s); [done|].
  destruct (_ <? 0)%Z eqn:E; [apply Z.ltb_lt in E; lia|lia].
Qed.

Lemma has_cons x set k : has (x :: set) k = streq k x || has set k.
Proof.
  unfold has, streq.
  destruct (decide (k = x)) as [->|Hne].
  - rewrite (bool_decide_eq_true_2 (x = x)) by done.
    apply bool_decide_eq_true_2. set_solver.
  - rewrite (bool_decide_eq_false_2 (k = x)) by done. cbn.
    apply bool_decide_ext. set_solver.
Qed.

Lemma has_nil k : has [] k = false.
Proof. unfold has. apply bool_decide_eq_false_2. set_solver. Qed.

(** The loop reads of a line its field name and its value. *)
Lemma courseStep_field r line :
  courseStep r line
  = match courseFieldOf line with
    | Some (k, v) => assignCourseField k v r
    | None => r
    end.
Proof.
  unfold courseStep, courseFieldOf. cbv zeta.
  destruct (trim line) as [|c t] eqn:Et; [done|].
  change (truthy (Some (c :: t))) with true. cbn [negb orb].
  rewrite startsWith_single.
  destruct (c =? HASH) eqn:Eh; [done|]. cbn [orb].
  destruct (streq (c :: t) (str "$COURSE")) eqn:Ec;
    [by rewrite orb_true_r|]. rewrite orb_false_r.
  rewrite indexOf_spec. cbn [dropWhile takeWhile].
  destruct (c =? COLON) eqn:Ecol; cbn [negb]; [done|].
  destruct (dropWhile (λ x, negb (x =? COLON)) t) as [|d rest] eqn:Ed; [done|].
  pose proof (dropWhile_suffix (λ x, negb (x =? COLON)) t) as Hs.
  rewrite Ed in Hs.
  set (k := takeWhile (λ x, negb (x =? COLON)) t) in *.
  cbn [length].
  replace (0 <? Z.of_nat (S (length k)))%Z
    with true by (symmetry; apply Z.ltb_lt; lia).
  rewrite Nat2Z.id.
  replace (Z.to_nat (Z.of_nat (S (length k)) + 1))
    with (S (S (length k))) by lia.
  rewrite Hs at 1 2. cbn [take drop].
  rewrite take_app_length.
  rewrite drop_app_ge by lia.
  by replace (S (length k) - length k)%nat with 1%nat by lia.
Qed.

Lemma lastValue_snoc names lines l :
  lastValue names (lines ++ [l])
  = match courseFieldOf l with
    | Some (k, v) => if has names k then Some v else lastValue names lines
    | None => lastValue names lines
    end.
Proof.
  unfold lastValue. rewrite omap_app. cbn [omap list_omap].
  destruct (courseFieldOf l) as [[k v]|]; [|by rewrite app_nil_r].
  destruct (has names k); [apply last_snoc|by rewrite app_nil_r].
Qed.

(** The loop computes the last values. *)
Lemma course_fold_lastValues lines :
  fold_left courseStep lines emptyCourse = lastValues lines.
Proof.
  induction lines as [|l lines IH] using rev_ind; [done|].
  rewrite fold_left_app. cbn [fold_left]. rewrite IH, courseStep_field.
  unfold lastValues. rewrite !lastValue_snoc.
  destruct (courseFieldOf l) as [[k v]|]; [|done].
  unfold assignCourseField. rewrite !has_cons, !has_nil, !orb_false_r.
  destruct (streq k (str "DIOCO_PLAYLIST_ID")) eqn:E1;
    [apply streq_true in E1 as ->; done|].
  destruct (streq k (str "TITLE")) eqn:E2;
    [apply streq_true in E2 as ->; done|].
  destruct (streq k (str "DESCRIPTION")) eqn:E3;
    [apply streq_true in E3 as ->; done|].
  destruct (streq k (str "IMAGE")) eqn:E4;
    [apply streq_true in E4 as ->; done|].
  destruct (streq k (str "TARGET_LANG_G")) eqn:E5;
    [apply streq_true in E5 as ->; done|].
  by destruct (streq k (str "HOME_LANG_G") || streq k (str "USER_LANG_G")).
Qed.

(** X12.  In a course file the last line that names a field wins: every
    slot of the course holds the value of the last line whose field name
    is the slot's, the home language having two names, the current one
    and the legacy one, that fill one slot; lines with other names, blank
    lines, comments and the course marker count for nothing.  The record
    returned, or the error for the first mandatory field left without a
    value, is computed from those last values. *)
Theorem course_last_line_wins (content : jsstring) :
  parseCourseFile content
  = validateCourse (lastValues (splitOn NEWLINE content)).
Proof. unfold parseCourseFile. by rewrite course_fold_lastValues. Qed.

Lemma trimEnd_no_space k :
  forallb (λ c, negb (isSpace c)) k = true → trimEnd k = k.
Proof.
  induction k as [|c k IH]; [done|]. cbn.
  intros [Hc%negb_true_iff Hk]%andb_prop.
  by rewrite trimEnd_cons_nonspace, IH.
Qed.

Lemma takeWhile_app_stop (p : N → bool) k c rest :
  forallb p k = true → p c = false →
  takeWhile p (k ++ c :: rest) = k ∧ dropWhile p (k ++ c :: rest) = c :: rest.
Proof.
  intros Hk Hc. induction k as [|x k IH]; cbn.
  - by rewrite Hc.
  - cbn in Hk. apply andb_prop in Hk as [-> Hk].
    destruct (IH Hk) as [-> ->]. done.
Qed.

Lemma keyLike_inv k :
  keyLike k = true →
  (∃ c k', k = c :: k' ∧ isSpace c = false ∧ (c =? HASH) = false
           ∧ (c =? COLON) = false)
  ∧ forallb (λ c, negb (isSpace c)) k = true
  ∧ forallb (λ x, negb (x =? COLON)) k = true.
Proof.
  unfold keyLike. intros [[Hne Hall]%andb_prop Hh]%andb_prop.
  assert (forallb (λ c, negb (isSpace c)) k = true
          ∧ forallb (λ x, negb (x =? COLON)) k = true) as [Hs Hc].
  { clear Hne Hh. induction k as [|c k IH]; [done|].
    cbn in *. apply andb_prop in Hall as [[-> ->]%andb_prop Hk].
    by destruct (IH Hk) as [-> ->]. }
  split; [|done].
  destruct k as [|c k']; [done|]. exists c, k'.
  cbn in Hs, Hc. rewrite startsWith_single in Hh.
  apply andb_prop in Hs as [Hs _]. apply andb_prop in Hc as [Hc _].
  by rewrite <- (negb_involutive (isSpace c)), Hs,
       <- (negb_involutive (c =? HASH)), Hh,
       <- (negb_involutive (c =? COLON)), Hc.
Qed.

(** The line [name: value] carries the name and the value. *)
Lemma courseFieldOf_line k v :
  keyLike k = true → plainValue v →
  courseFieldOf (k ++ str ": " ++ v) = Some (k, v).
Proof.
  intros Hk [Hv _].
  destruct (keyLike_inv k Hk) as ((c & k' & -> & Hsp & Hh & Hcol) & Hns & Hnc).
  destruct (trim_fixed_inv v Hv) as [Hvs Hve].
  set (tail := match v with [] => [] | _ => 32 :: v end).
  assert (trim ((c :: k') ++ str ": " ++ v) = (c :: k') ++ COLON :: tail)
    as Htrim.
  { unfold trim, trimStart. cbn [app dropWhile]. rewrite Hsp.
    change (c :: k' ++ str ": " ++ v) with ((c :: k') ++ str ": " ++ v).
    destruct v as [|x v'].
    - unfold tail. rewrite app_nil_r.
      change (str ": ") with ([COLON] ++ [32]).
      rewrite app_assoc. unfold trimEnd.
      rewrite rev_app_distr. cbn [rev app dropWhile].
      change (isSpace 32) with true. cbn iota.
      rewrite rev_app_distr. cbn [rev app dropWhile].
      change (isSpace COLON) with false. cbn iota.
      cbn [rev]. by rewrite rev_app_distr, rev_involutive.
    - unfold tail. rewrite app_assoc.
      rewrite trimEnd_app_fixed by done.
      by rewrite <- app_assoc. }
  unfold courseFieldOf. rewrite Htrim. cbn [app].
  rewrite Hh, Hcol. cbn [orb].
  rewrite streq_false.
  2:{ intros E. assert (COLON ∈ str "$COURSE") as Hin
        by (rewrite <- E; set_solver).
      apply list_elem_of_In in Hin. vm_compute in Hin. intuition discriminate. }
  change (c :: k' ++ COLON :: tail) with ((c :: k') ++ COLON :: tail).
  destruct (takeWhile_app_stop (λ x, negb (x =? COLON)) (c :: k') COLON tail)
    as [-> ->]; [done|done|].
  do 2 f_equal.
  - apply trim_fixed; [|by apply trimEnd_no_space].
    unfold trimStart. cbn. by rewrite Hsp.
  - unfold tail. destruct v as [|x v']; [done|].
    rewrite <- Hv at 2. unfold trim, trimStart. cbn [dropWhile].
    by change (isSpace 32) with true.
Qed.

(** X13.  A course file in the documented layout parses to the record of
    its values: with a trimmed one-line value after each of the six field
    names, and the four mandatory values not empty, the parser returns
    exactly those values, the image being [null] when its value is
    empty.  The values may hold colons or any other character that is not
    a line break. *)
Theorem course_layout_parses_to_its_values
    (id ttl desc img target home : jsstring) :
  plainValue id → plainValue ttl → plainValue desc → plainValue img →
  plainValue target → plainValue home →
  id ≠ [] → ttl ≠ [] → target ≠ [] → home ≠ [] →
  parseCourseFile (courseText id ttl desc img target home)
  = inr {| c_diocoPlaylistId := id; c_title := ttl; c_description := desc;
           c_image := orNull (Some img); c_targetLang_G := target;
           c_homeLang_G := home |}.
Proof.
  intros Hid Httl Hdesc Himg Htarget Hhome Nid Nttl Ntarget Nhome.
  assert (∀ k v, oneLine (str k) → plainValue v → oneLine (str k ++ v)) as Hone.
  { intros k v Hk [_ Hv]. by apply Forall_app. }
  assert (∀ k : string, bool_decide (oneLine (str k)) = true → oneLine (str k))
    as Hdec by (intros k; apply bool_decide_eq_true_1).
  unfold parseCourseFile, courseText.
  rewrite splitOn_join_lines; [|done|].
  2:{ apply Forall_cons_2; [apply Hdec; reflexivity|].
      do 6 (apply Forall_cons_2; [apply Hone; [apply Hdec; reflexivity|done]|]).
      apply Forall_nil_2. }
  cbn [fold_left]. rewrite !courseStep_field.
  change (courseFieldOf (str "$COURSE")) with (@None (jsstring * jsstring)).
  change (str "DIOCO_PLAYLIST_ID: " ++ id)
    with (str "DIOCO_PLAYLIST_ID" ++ str ": " ++ id).
  change (str "TITLE: " ++ ttl) with (str "TITLE" ++ str ": " ++ ttl).
  change (str "DESCRIPTION: " ++ desc)
    with (str "DESCRIPTION" ++ str ": " ++ desc).
  change (str "IMAGE: " ++ img) with (str "IMAGE" ++ str ": " ++ img).
  change (str "TARGET_LANG_G: " ++ target)
    with (str "TARGET_LANG_G" ++ str ": " ++ target).
  change (str "HOME_LANG_G: " ++ home)
    with (str "HOME_LANG_G" ++ str ": " ++ home).
  rewrite !courseFieldOf_line by done.
  match goal with
  | |- validateCourse ?r = _ =>
      replace r
        with {| pc_diocoPlaylistId := Some id; pc_title := Some ttl;
                pc_description := Some desc; pc_image := Some img;
                pc_targetLang_G := Some target; pc_homeLang_G := Some home |}
        by reflexivity
  end.
  unfold validateCourse. cbn.
  rewrite !truthy_Some by done. cbn.
  by rewrite !orStr_Some_nil.
Qed.

Lemma course_layout_parses_to_its_values_witness :
  parseCourseFile
    (courseText (str "lc_fsi") (str "FSI: Spanish") [] (str "cover.jpg")
       (str "es") (str "en"))
  = inr {| c_diocoPlaylistId := str "lc_fsi"; c_title := str "FSI: Spanish";
           c_description := []; c_image := Some (str "cover.jpg");
           c_targetLang_G := str "es"; c_homeLang_G := str "en" |}.
Proof.
  assert (∀ v : jsstring,
            bool_decide (trim v = v) = true → bool_decide (oneLine v) = true →
            plainValue v) as Hp.
  { intros v H1 H2.
    split; [exact (bool_decide_eq_true_1 _ H1)|exact (bool_decide_eq_true_1 _ H2)]. }
  apply (course_layout_parses_to_its_values (str "lc_fsi") (str "FSI: Spanish")
           [] (str "cover.jpg") (str "es") (str "en"));
    try (apply Hp; reflexivity); discriminate.
Defined.

(** ** Activity bodies as written *)

Section BodyLines.
Context `{UnicodeCase}.

(** A line [NAME: value] whose name is one of the ten buffered fields
    enters the buffer of the open activity as [NAME:value]. *)
Lemma processLine_buffered name v st act :
  name ∈ bufferedFields → cleanValue v →
  currentActivity st = Some act →
  processLine (fieldLine name v) st = pushBuffer st (name ++ [COLON] ++ v).
Proof.
  intros Hin (Hne & Htrim & Hlt) Hact.
  destruct (trim_fixed_inv v Htrim) as [Hs He].
  unfold fieldLine.
  rewrite (processLine_field _ name (Some v)).
  - rewrite orStr_Some_nil. unfold handleField. rewrite Hact.
    unfold bufferedFields in Hin.
    repeat (apply elem_of_cons in Hin as [-> | Hin]); try reflexivity.
    by apply elem_of_nil in Hin.
  - rewrite (app_assoc name), trimEnd_app_fixed, <- app_assoc by done.
    unfold fieldMatch, bufferedFields in *.
    repeat (apply elem_of_cons in Hin as [-> | Hin]);
      [..|by apply elem_of_nil in Hin];
      match goal with
      | |- context [takeWhile isFieldChar (?n ++ str ": " ++ v)] =>
          replace (takeWhile isFieldChar (n ++ str ": " ++ v)) with n
            by reflexivity;
          replace (dropWhile isFieldChar (n ++ str ": " ++ v))
            with (COLON :: 32 :: v) by reflexivity
      end;
      change (dropWhile isSpace (32 :: v)) with (trimStart v);
      rewrite Hs, Hlt; by destruct v.
Qed.

Lemma pushBuffer_fold tags : ∀ st,
  fold_left pushBuffer tags st
  = {| module := module st; ps_voiceConfig := ps_voiceConfig st;
       currentLesson := currentLesson st;
       currentActivity := currentActivity st;
       activityContentBuffer := activityContentBuffer st ++ tags |}.
Proof.
  induction tags as [|t tags IH]; intros st.
  - cbn. rewrite app_nil_r. by destruct st.
  - cbn [fold_left]. rewrite IH. cbn. by rewrite <- app_assoc.
Qed.

Lemma processLines_app a b st :
  fold_left (λ st l, processLine l st) (a ++ b) st
  = fold_left (λ st l, processLine l st) b
      (fold_left (λ st l, processLine l st) a st).
Proof. apply fold_left_app. Qed.

Lemma buffersAs_field name v act :
  name ∈ bufferedFields → cleanValue v →
  buffersAs act (fieldLine name v) (fieldTag name v).
Proof. intros Hin Hv st Hact. by apply (processLine_buffered _ _ _ act). Qed.

Lemma buffersAs_example act :
  act_type act = EXERCISE → buffersAs act (str "EXAMPLE") (str "EXAMPLE:").
Proof. intros Hty st Hact. by apply (processLine_example st act). Qed.

Lemma buffersAs_fold act lines tags :
  Forall2 (buffersAs act) lines tags →
  ∀ st, currentActivity st = Some act →
  fold_left (λ st l, processLine l st) lines st = fold_left pushBuffer tags st.
Proof.
  induction 1 as [|line tag lines tags Hb _ IH]; intros st Hact; [done|].
  cbn [fold_left]. rewrite (Hb st Hact). by apply IH.
Qed.

Lemma buffersAs_optionalField name v act :
  name ∈ bufferedFields → cleanOption v →
  Forall2 (buffersAs act) (optionalField fieldLine name v)
    (optionalField fieldTag name v).
Proof.
  intros Hin Hv. destruct v as [t|]; [|constructor].
  constructor; [by apply buffersAs_field | constructor].
Qed.

Lemma buffersAs_optionalText name v act :
  name ∈ bufferedFields → cleanText v →
  Forall2 (buffersAs act) (optionalText fieldLine name v)
    (optionalText fieldTag name v).
Proof.
  intros Hin [-> | Hv]; [constructor|].
  destruct v as [|c v]; [constructor|].
  constructor; [by apply buffersAs_field | constructor].
Qed.

Lemma buffersAs_concat {A} (f g : A → list jsstring) act (l : list A) :
  Forall (λ x, Forall2 (buffersAs act) (f x) (g x)) l →
  Forall2 (buffersAs act) (concat (f <$> l)) (concat (g <$> l)).
Proof.
  induction 1 as [|x l Hx _ IH]; [constructor|].
  cbn. by apply Forall2_app.
Qed.

Lemma bufferedFields_elem name :
  bool_decide (name ∈ bufferedFields) = true → name ∈ bufferedFields.
Proof. apply bool_decide_eq_true_1. Qed.

Lemma buffersAs_item act it :
  act_type act = EXERCISE → cleanItem it →
  Forall2 (buffersAs act) (itemFields fieldLine (str "EXAMPLE") it)
    (itemFields fieldTag (str "EXAMPLE:") it).
Proof.
  intros Hty (Hp & Hpt & Hr & Hrt). unfold itemFields.
  repeat apply Forall2_app.
  - destruct (ei_isExample it); [|constructor].
    constructor; [by apply buffersAs_example | constructor].
  - constructor; [|constructor].
    apply buffersAs_field; [by apply bufferedFields_elem | done].
  - apply buffersAs_optionalField; [by apply bufferedFields_elem | done].
  - constructor; [|constructor].
    apply buffersAs_field; [by apply bufferedFields_elem | done].
  - apply buffersAs_optionalField; [by apply bufferedFields_elem | done].
Qed.

Lemma buffersAs_entry act e :
  cleanEntry e →
  Forall2 (buffersAs act) (entryFields fieldLine e) (entryFields fieldTag e).
Proof.
  intros [Hw Hd]. unfold entryFields. constructor.
  - apply buffersAs_field; [by apply bufferedFields_elem | done].
  - apply buffersAs_optionalText; [by apply bufferedFields_elem | done].
Qed.

Lemma buffersAs_line act l :
  cleanLine l →
  Forall2 (buffersAs act) (lineFields fieldLine l) (lineFields fieldTag l).
Proof.
  intros (Hs & Ht & Htr & Hn & _ & Hv). unfold lineFields.
  repeat apply Forall2_app.
  - apply buffersAs_concat. eapply Forall_impl; [exact Hv|].
    intros e He. by apply buffersAs_entry.
  - apply buffersAs_optionalField; [by apply bufferedFields_elem | done].
  - constructor; [|constructor].
    apply buffersAs_field; [by apply bufferedFields_elem | done].
  - apply buffersAs_optionalText; [by apply bufferedFields_elem | done].
  - apply buffersAs_optionalField; [by apply bufferedFields_elem | done].
Qed.

(** The lines of a body leave the buffer of its entries. *)
Lemma body_lines_buffer act lines tags st :
  Forall2 (buffersAs act) lines tags →
  currentActivity st = Some act →
  activityContentBuffer st = [] →
  fold_left (λ st l, processLine l st) lines st
  = {| module := module st; ps_voiceConfig := ps_voiceConfig st;
       currentLesson := currentLesson st;
       currentActivity := Some act;
       activityContentBuffer := tags |}.
Proof.
  intros Hb Hact Hbuf.
  rewrite (buffersAs_fold act lines tags Hb st Hact), pushBuffer_fold.
  by rewrite Hact, Hbuf.
Qed.

End BodyLines.

(** *** The exercise loop on the entries of an item *)

Lemma cleanValue_trim v : cleanValue v → trim v = v ∧ truthy (Some v) = true.
Proof. intros (Hne & Htrim & _). split; [done|by apply truthy_Some]. Qed.

Lemma orNull_clean v : cleanOption v → orNull v = v.
Proof.
  destruct v as [t|]; [|done]. intros (Hne & _). by destruct t.
Qed.

Lemma exerciseStep_promptT st v :
  exerciseStep st (fieldTag (str "PROMPT_T") v)
  = {| es_items := es_items st;
       currentItem :=
         {| pi_prompt := pi_prompt (currentItem st);
            pi_promptTranslation := Some (trim v);
            pi_response := pi_response (currentItem st);
            pi_responseTranslation := pi_responseTranslation (currentItem st);
            pi_isExample := pi_isExample (currentItem st) |};
       isExample := isExample st |}.
Proof. reflexivity. Qed.

Lemma exerciseStep_responseT st v :
  exerciseStep st (fieldTag (str "RESPONSE_T") v)
  = {| es_items := es_items st;
       currentItem :=
         {| pi_prompt := pi_prompt (currentItem st);
            pi_promptTranslation := pi_promptTranslation (currentItem st);
            pi_response := pi_response (currentItem st);
            pi_responseTranslation := Some (trim v);
            pi_isExample := pi_isExample (currentItem st) |};
       isExample := isExample st |}.
Proof. reflexivity. Qed.

Lemma exerciseStep_item it st :
  isExample st = false → cleanItem it →
  fold_left exerciseStep (itemFields fieldTag (str "EXAMPLE:") it) st
  = {| es_items := exerciseFinish st; currentItem := partialItem it;
       isExample := false |}.
Proof.
  intros Hex (Hp & Hpt & Hr & Hrt).
  destruct (cleanValue_trim _ Hp) as [Ep _].
  destruct (cleanValue_trim _ Hr) as [Er _].
  destruct it as [p pt r rt ex]; cbn in *.
  destruct st as [its ci ex0]; cbn in Hex; subst ex0.
  unfold itemFields, partialItem, exerciseFinish; cbn.
  rewrite fold_left_app.
  change (str "EXAMPLE:") with exampleTag.
  change (fieldTag (str "PROMPT") p) with (promptTag p).
  change (fieldTag (str "RESPONSE") r) with (responseTag r).
  destruct pt as [t|]; [destruct (cleanValue_trim _ Hpt) as [Et _]|];
    (destruct rt as [u|]; [destruct (cleanValue_trim _ Hrt) as [Eu _]|]);
    destruct ex; cbn [optionalField app fold_left];
    rewrite ?exerciseStep_example, ?exerciseStep_prompt,
      ?exerciseStep_promptT, ?exerciseStep_response, ?exerciseStep_responseT;
    cbn; rewrite ?Ep, ?Er, ?Et, ?Eu; reflexivity.
Qed.

Lemma exerciseFinish_item it its :
  cleanItem it →
  exerciseFinish
    {| es_items := its; currentItem := partialItem it; isExample := false |}
  = its ++ [it].
Proof.
  intros (Hp & Hpt & Hr & Hrt).
  destruct (cleanValue_trim _ Hp) as [_ Tp].
  destruct (cleanValue_trim _ Hr) as [_ Tr].
  unfold exerciseFinish, itemComplete, partialItem, finishItem; cbn.
  rewrite Tp, Tr. cbn.
  rewrite !orStr_Some_nil, !orNull_clean by done.
  by destruct it.
Qed.

Lemma exerciseTags_fold items : ∀ st,
  isExample st = false → Forall cleanItem items →
  exerciseFinish (fold_left exerciseStep (exerciseTags items) st)
  = exerciseFinish st ++ items.
Proof.
  unfold exerciseTags.
  induction items as [|it items IH]; intros st Hex Hall.
  - cbn. by rewrite app_nil_r.
  - apply Forall_cons in Hall as [Hit Hall].
    cbn [fmap list_fmap concat]. rewrite fold_left_app.
    rewrite (exerciseStep_item it st Hex Hit).
    rewrite IH by done.
    rewrite (exerciseFinish_item it _ Hit). by rewrite <- app_assoc.
Qed.

Lemma parseExerciseItems_tags items :
  Forall cleanItem items → parseExerciseItems (exerciseTags items) = items.
Proof.
  intros Hall. unfold parseExerciseItems.
  by rewrite exerciseTags_fold.
Qed.

Section ExerciseRoundTrip.
Context `{UnicodeCase}.

(** X14.  An exercise body written item by item is read back as those
    items.  When each item is written as its lines ([EXAMPLE] if it is an
    example, [PROMPT: ...], [PROMPT_T: ...] if it has one,
    [RESPONSE: ...], [RESPONSE_T: ...] if it has one), with values that are
    not empty, have no white space at either end and no line terminator,
    then reading the lines into an open Exercise activity and closing it
    files the activity with exactly these items, in order, and leaves the
    rest of the parser state as it was. *)
Theorem exercise_body_round_trip (items : list ExerciseItem)
    (st : ParserState) (act : Activity) (l : LessonContent)
    (instr tts : option jsstring) (items0 : list ExerciseItem) :
  Forall cleanItem items →
  currentActivity st = Some act →
  act_payload act = ExercisePayload instr tts items0 →
  currentLesson st = Some l →
  activityContentBuffer st = [] →
  finalizeActivity
    (fold_left (λ st l, processLine l st) (exerciseLines items) st)
  = filedState st l act (ExercisePayload instr tts items).
Proof.
  intros Hall Hact Hpay Hl Hbuf.
  assert (act_type act = EXERCISE) as Hty by (unfold act_type; by rewrite Hpay).
  rewrite (body_lines_buffer act _ (exerciseTags items)); [|..|done|done].
  - unfold finalizeActivity, filedState. cbn. rewrite Hl, Hpay.
    by rewrite parseExerciseItems_tags.
  - apply buffersAs_concat. eapply Forall_impl; [exact Hall|].
    intros it Hit. by apply buffersAs_item.
Qed.

End ExerciseRoundTrip.

(** *** The dialogue loop on the entries of a line *)

Lemma dialogueStep_lineT st t :
  dialogueStep st (fieldTag (str "LINE_T") t)
  = {| ds_lines := ds_lines st;
       currentLine :=
         {| pl_speaker := pl_speaker (currentLine st);
            pl_text := pl_text (currentLine st);
            pl_translation := Some (trim t);
            pl_notes := pl_notes (currentLine st);
            pl_vocab := pl_vocab (currentLine st) |};
       pendingVocab := pendingVocab st;
       pendingVocabDefinition := pendingVocabDefinition st |}.
Proof. reflexivity. Qed.

Lemma dialogueStep_notes st n :
  dialogueStep st (fieldTag (str "NOTES") n)
  = {| ds_lines := ds_lines st;
       currentLine :=
         {| pl_speaker := pl_speaker (currentLine st);
            pl_text := pl_text (currentLine st);
            pl_translation := pl_translation (currentLine st);
            pl_notes := Some (trim n);
            pl_vocab := pl_vocab (currentLine st) |};
       pendingVocab := pendingVocab st;
       pendingVocabDefinition := pendingVocabDefinition st |}.
Proof. reflexivity. Qed.

(** The entries of a vocabulary list join the pending list as they are. *)
Lemma dialogueStep_entries es : ∀ st,
  Forall cleanEntry es → pendingVocabDefinition st = None →
  fold_left dialogueStep (concat (entryFields fieldTag <$> es)) st
  = {| ds_lines := ds_lines st; currentLine := currentLine st;
       pendingVocab := pendingVocab st ++ es;
       pendingVocabDefinition := None |}.
Proof.
  induction es as [|e es IH]; intros st Hall Hd.
  - cbn. rewrite app_nil_r. destruct st; cbn in *. by subst.
  - apply Forall_cons in Hall as [[Hw Hdef] Hall].
    destruct (cleanValue_trim _ Hw) as [Ew _].
    cbn [fmap list_fmap concat]. rewrite fold_left_app.
    assert (fold_left dialogueStep (entryFields fieldTag e) st
            = {| ds_lines := ds_lines st; currentLine := currentLine st;
                 pendingVocab := pendingVocab st ++ [e];
                 pendingVocabDefinition := None |}) as ->.
    { destruct e as [w d]; cbn in *. unfold entryFields; cbn [word definition].
      change (fieldTag (str "VOCAB") w) with (vocabTag w).
      destruct Hdef as [-> | Hdef].
      - cbn [optionalText fold_left]. rewrite dialogueStep_vocab, Hd, Ew.
        reflexivity.
      - destruct (cleanValue_trim _ Hdef) as [Ed _].
        destruct d as [|c d]; [by destruct Hdef|].
        cbn [optionalText fold_left].
        change (fieldTag (str "VOCAB_T") (c :: d)) with (vocabTTag (c :: d)).
        rewrite dialogueStep_vocab, dialogueStep_vocabT, Hd, Ew, Ed.
        cbn [pendingVocab ds_lines currentLine pendingVocabDefinition].
        rewrite setLastDefinition_snoc. cbn [word].
        by destruct (pendingVocab st). }
    rewrite IH by done. cbn. by rewrite <- app_assoc.
Qed.

Lemma finishLine_partial l :
  cleanLine l → finishLine (partialLine l) = l.
Proof.
  intros (Hs & Ht & Htr & Hn & _ & _).
  unfold finishLine, partialLine; cbn.
  rewrite !orNull_clean, orStr_Some_nil by done.
  destruct l as [s t tr n v]; cbn. f_equal. by destruct tr.
Qed.

Lemma dialogueStep_tail ls sp t vocab tr n :
  cleanText tr → cleanOption n →
  fold_left dialogueStep (optionalField fieldTag (str "NOTES") n)
    (fold_left dialogueStep (optionalText fieldTag (str "LINE_T") tr)
       {| ds_lines := ls;
          currentLine :=
            {| pl_speaker := sp; pl_text := Some t; pl_translation := None;
               pl_notes := None; pl_vocab := vocab |};
          pendingVocab := []; pendingVocabDefinition := None |})
  = {| ds_lines := ls;
       currentLine :=
         {| pl_speaker := sp; pl_text := Some t;
            pl_translation :=
              match tr with [] => None | c :: r => Some (c :: r) end;
            pl_notes := n; pl_vocab := vocab |};
       pendingVocab := []; pendingVocabDefinition := None |}.
Proof.
  intros Htr Hn.
  destruct tr as [|c tr]; cbn [optionalText fold_left];
    [|destruct Htr as [?|Htr]; [done|];
      destruct (cleanValue_trim _ Htr) as [Etr _];
      rewrite dialogueStep_lineT; cbn; rewrite Etr];
    (destruct n as [x|]; cbn [optionalField fold_left];
     [destruct (cleanValue_trim _ Hn) as [En _];
      rewrite dialogueStep_notes; cbn; by rewrite En | done]).
Qed.

Lemma dialogueStep_lineFields l st :
  betweenLines st → cleanLine l →
  fold_left dialogueStep (lineFields fieldTag l) st
  = {| ds_lines := dialogueFinish st;
       currentLine := partialLine (spokenBy (pl_speaker (currentLine st)) l);
       pendingVocab := []; pendingVocabDefinition := None |}.
Proof.
  intros (Hpv & Hpd & Hcl) (Hs & Ht & Htr & Hn & Hne & Hv).
  destruct (cleanValue_trim _ Ht) as [Et _].
  unfold lineFields. rewrite fold_left_app.
  rewrite dialogueStep_entries, Hpv by done. cbn [app].
  destruct l as [sp t tr n v], st as [ls cl pv pd]; cbn in *. subst pv pd.
  unfold dialogueFinish, partialLine, spokenBy; cbn.
  change (fieldTag (str "LINE") t) with (lineTag t).
  destruct sp as [s|].
  - destruct (cleanValue_trim _ Hs) as [Es _].
    cbn [optionalField app fold_left].
    change (fieldTag (str "SPEAKER") s) with (speakerTag s).
    rewrite dialogueStep_speaker. cbn.
    destruct Hcl as [-> | Htext].
    + change (truthy (pl_text emptyLine)) with false. cbn.
      rewrite ?fold_left_app. cbn [fold_left].
      destruct v as [[|e es]|]; [done|..]; cbn;
        rewrite dialogueStep_line; cbn;
        change (truthy None) with false; cbn;
        rewrite ?fold_left_app, Es, Et; by apply dialogueStep_tail.
    + rewrite Htext. cbn.
      rewrite ?fold_left_app. cbn [fold_left].
      destruct v as [[|e es]|]; [done|..]; cbn;
        rewrite dialogueStep_line; cbn;
        change (truthy None) with false; cbn;
        rewrite ?fold_left_app, Es, Et; by apply dialogueStep_tail.
  - cbn [optionalField app fold_left].
    rewrite ?fold_left_app. cbn [fold_left].
    rewrite dialogueStep_line. cbn.
    destruct Hcl as [-> | Htext].
    + change (truthy (pl_text emptyLine)) with false. cbn.
      destruct v as [[|e es]|]; [done|..]; cbn;
        rewrite ?fold_left_app, Et; by apply dialogueStep_tail.
    + rewrite Htext. cbn.
      destruct v as [[|e es]|]; [done|..]; cbn;
        rewrite ?fold_left_app, Et; by apply dialogueStep_tail.
Qed.

Lemma spokenBy_clean prev l :
  cleanOption prev → cleanLine l → cleanLine (spokenBy prev l).
Proof.
  intros Hprev (Hs & Ht & Htr & Hn & Hne & Hv).
  split; [|done].
  unfold spokenBy; cbn. by destruct (dl_speaker l).
Qed.

(** The lines of a dialogue are read back with the speakers kept in
    force. *)
Lemma dialogueTags_fold ls : ∀ st,
  betweenLines st → Forall cleanLine ls →
  cleanOption (pl_speaker (currentLine st)) →
  dialogueFinish (fold_left dialogueStep (dialogueTags ls) st)
  = dialogueFinish st ++ speakersKept (pl_speaker (currentLine st)) ls.
Proof.
  unfold dialogueTags.
  induction ls as [|l ls IH]; intros st Hst Hall Hsp.
  - cbn. by rewrite app_nil_r.
  - apply Forall_cons in Hall as [Hl Hall].
    cbn [fmap list_fmap concat]. rewrite fold_left_app.
    rewrite (dialogueStep_lineFields l st Hst Hl).
    pose proof (spokenBy_clean _ l Hsp Hl) as Hl'.
    destruct (cleanValue_trim _ (proj1 (proj2 Hl))) as [_ Ht].
    rewrite IH; [|by repeat split; try right|done|exact (proj1 Hl')].
    unfold dialogueFinish at 1. cbn. rewrite Ht.
    by rewrite (finishLine_partial _ Hl'), <- app_assoc.
Qed.

Lemma parseDialogueLines_kept ls :
  Forall cleanLine ls →
  parseDialogueLines (dialogueTags ls) = speakersKept None ls.
Proof.
  intros Hall. unfold parseDialogueLines.
  rewrite dialogueTags_fold; [done| |done|done].
  split; [done|]. split; [done|]. by left.
Qed.

(** Where no line without a speaker follows one with a speaker, the
    lines are read as written. *)
Lemma speakersKept_named ls : ∀ prev,
  speakersNamed prev ls → speakersKept prev ls = ls.
Proof.
  induction ls as [|l ls IH]; intros prev Hsp; [done|].
  destruct Hsp as [Hprev Hsp]. cbn [speakersKept].
  assert (spokenBy prev l = l) as ->.
  { unfold spokenBy. destruct l as [[s|] t tr n v]; cbn in *; [done|].
    by rewrite Hprev. }
  by rewrite IH.
Qed.

Lemma parseDialogueLines_tags ls :
  Forall cleanLine ls → speakersNamed None ls →
  parseDialogueLines (dialogueTags ls) = ls.
Proof.
  intros Hall Hsp. rewrite parseDialogueLines_kept by done.
  by apply speakersKept_named.
Qed.

Section DialogueRoundTrip.
Context `{UnicodeCase}.

(** X15.  A dialogue body written line by line is read back as those
    lines.  Each line is written as its vocabulary ([VOCAB: ...], followed
    by [VOCAB_T: ...] when the entry has a definition), then [SPEAKER: ...]
    if it has a speaker, [LINE: ...], [LINE_T: ...] if the translation is
    not empty, and [NOTES: ...] if it has notes; the values are not empty,
    have no white space at either end and no line terminator, and no line
    without a speaker follows one with a speaker.  Reading the lines into
    an open Dialogue activity and closing it files the activity with
    exactly these lines, in order, and leaves the rest of the parser state
    as it was. *)
Theorem dialogue_body_round_trip (ls : list DialogueLine)
    (st : ParserState) (act : Activity) (l : LessonContent)
    (instr tts : option jsstring) (ls0 : list DialogueLine) :
  Forall cleanLine ls → speakersNamed None ls →
  currentActivity st = Some act →
  act_payload act = DialoguePayload instr tts ls0 →
  currentLesson st = Some l →
  activityContentBuffer st = [] →
  finalizeActivity
    (fold_left (λ st l, processLine l st) (dialogueLines ls) st)
  = filedState st l act (DialoguePayload instr tts ls).
Proof.
  intros Hall Hsp Hact Hpay Hl Hbuf.
  rewrite (body_lines_buffer act _ (dialogueTags ls)); [|..|done|done].
  - unfold finalizeActivity, filedState. cbn. rewrite Hl, Hpay.
    by rewrite parseDialogueLines_tags.
  - apply buffersAs_concat. eapply Forall_impl; [exact Hall|].
    intros x Hx. by apply buffersAs_line.
Qed.

End DialogueRoundTrip.

(** Closed instances of the conditions on written values. *)
Ltac written :=
  repeat first
    [ apply Forall_cons_2 | apply Forall_nil_2 | exact I
    | progress
        (unfold cleanItem, cleanLine, cleanEntry, cleanValue, cleanOption;
         cbn)
    | match goal with
      | |- cleanText [] => by left
      | |- cleanText _ => right
      | |- _ ∧ _ => split
      | |- _ ≠ _ => discriminate
      | |- _ = _ => by vm_compute
      | |- _ → _ => intros ?
      end ].

Lemma exercise_body_round_trip_witness :
  finalizeActivity
    (fold_left (λ st l, processLine l st) (exerciseLines sampleItems)
       (openState EXERCISE))
  = filedState (openState EXERCISE)
      {| lesson_id := str "default-lesson";
         lesson_title := str "Default Lesson"; activities := [] |}
      {| act_id := str "x"; act_title := str "X"; act_intro := None;
         act_payload := emptyPayload EXERCISE |}
      (ExercisePayload None None sampleItems).
Proof.
  apply (exercise_body_round_trip sampleItems (openState EXERCISE) _ _
           None None []); try reflexivity.
  unfold sampleItems. written.
Defined.

Lemma dialogue_body_round_trip_witness :
  finalizeActivity
    (fold_left (λ st l, processLine l st) (dialogueLines sampleDialogue)
       (openState DIALOGUE))
  = filedState (openState DIALOGUE)
      {| lesson_id := str "default-lesson";
         lesson_title := str "Default Lesson"; activities := [] |}
      {| act_id := str "x"; act_title := str "X"; act_intro := None;
         act_payload := emptyPayload DIALOGUE |}
      (DialoguePayload None None sampleDialogue).
Proof.
  apply (dialogue_body_round_trip sampleDialogue (openState DIALOGUE) _ _
           None None []); try reflexivity.
  - unfold sampleDialogue. written.
  - unfold sampleDialogue; cbn. written.
Defined.

(** *** Vocabulary after the last line *)

Lemma dialogueStep_vocabulary st item :
  isVocabTag item = true →
  ds_lines (dialogueStep st item) = ds_lines st
  ∧ currentLine (dialogueStep st item) = currentLine st.
Proof.
  unfold isVocabTag, dialogueStep. intros Hv.
  destruct (startsWith item (str "VOCAB:")); [done|].
  cbn in Hv. rewrite Hv. by destruct (pendingVocab st).
Qed.

(** X16.  Vocabulary attaches to the line that follows it: the
    vocabulary entries that no speaker or line entry follows are dropped.
    Appending [VOCAB:] and [VOCAB_T:] entries to a dialogue buffer leaves
    the parsed lines as they are. *)
Theorem trailing_vocabulary_dropped (buffer tail : list jsstring) :
  Forall (λ item, isVocabTag item = true) tail →
  parseDialogueLines (buffer ++ tail) = parseDialogueLines buffer.
Proof.
  intros Htail. unfold parseDialogueLines. rewrite fold_left_app.
  generalize (fold_left dialogueStep buffer dialogueInit). intros st.
  induction Htail as [|item tail Hitem _ IH] in st |- *; [done|].
  cbn [fold_left]. rewrite IH.
  destruct (dialogueStep_vocabulary st item Hitem) as [Hl Hc].
  unfold dialogueFinish. by rewrite Hl, Hc.
Qed.

Lemma trailing_vocabulary_dropped_witness :
  parseDialogueLines (trailingVocabBuffer.1 ++ trailingVocabBuffer.2)
  = parseDialogueLines trailingVocabBuffer.1.
Proof.
  apply (trailing_vocabulary_dropped trailingVocabBuffer.1
           trailingVocabBuffer.2).
  repeat first [apply Forall_cons_2 | apply Forall_nil_2 | by vm_compute].
Defined.

(** *** The activities of each lesson *)

Section ActivityGroups.
Context `{UnicodeCase}.

(** Whatever is open when a lesson ends is filed with the finished
    lessons. *)
Lemma finalize_heads st :
  lessonReady st →
  doneHeads (finalizeLesson (finalizeActivity st))
  = doneHeads st ++ option_list (openHeads st)
  ∧ currentLesson (finalizeLesson (finalizeActivity st)) = None
  ∧ currentActivity (finalizeLesson (finalizeActivity st)) = None.
Proof.
  unfold lessonReady, finalizeLesson, finalizeActivity, doneHeads, openHeads.
  destruct st as [m vc [l|] [a|] buf]; cbn; intros Hw.
  - split; [|done]. rewrite !fmap_app. cbn. do 2 f_equal.
    rewrite fmap_app. cbn. do 2 f_equal.
    unfold activityHead, act_type; cbn. by destruct (act_payload a).
  - rewrite !fmap_app. cbn. by rewrite app_nil_r.
  - destruct Hw as [? ?]; [eauto|done].
  - by rewrite app_nil_r.
Qed.

Lemma finalizeActivity_heads st :
  lessonReady st →
  doneHeads (finalizeActivity st) = doneHeads st
  ∧ openHeads (finalizeActivity st) = openHeads st
  ∧ currentActivity (finalizeActivity st) = None.
Proof.
  unfold lessonReady, finalizeActivity, doneHeads, openHeads.
  destruct st as [m vc [l|] [a|] buf]; cbn; intros Hw; try done.
  - rewrite app_nil_r. split; [done|]. split; [|done]. f_equal.
    rewrite fmap_app. cbn. do 2 f_equal.
    unfold activityHead, act_type; cbn. by destruct (act_payload a).
  - destruct Hw as [? ?]; [eauto|done].
Qed.

Lemma startActivity_heads st kind ttl :
  lessonReady st →
  doneHeads (startActivity st kind ttl) = doneHeads st
  ∧ openHeads (startActivity st kind ttl)
    = Some (default [] (openHeads st)
            ++ [(kind, generateActivityId (typeName kind) ttl, ttl)]).
Proof.
  intros Hw.
  destruct (finalizeActivity_heads st Hw) as (Hd & Ho & Ha).
  unfold startActivity. split; [exact Hd|].
  rewrite <- Ho. unfold openHeads at 1 2. cbn.
  rewrite Ha.
  destruct (currentLesson (finalizeActivity st)); cbn;
    rewrite ?app_nil_r; by destruct kind.
Qed.

Lemma handleActivityField_heads field v a st :
  currentActivity st = Some a →
  doneHeads (handleActivityField field v a st) = doneHeads st
  ∧ openHeads (handleActivityField field v a st) = openHeads st.
Proof.
  intros Ha. unfold handleActivityField, doneHeads, openHeads.
  repeat case_match; simplify_eq/=; rewrite ?Ha; (split; [done|]);
    try done;
    unfold activityHead, act_type, setTtsPrompt, setInstruction, setIntro,
      setScenario, setInitialPrompt; cbn;
    by destruct (act_payload a).
Qed.

Lemma handleField_heads field v st :
  doneHeads (handleField field v st) = doneHeads st
  ∧ openHeads (handleField field v st) = openHeads st.
Proof.
  unfold handleField.
  destruct (currentActivity st) as [a|] eqn:Ea.
  - by apply handleActivityField_heads.
  - destruct (currentLesson st) eqn:El; [done|].
    destruct (handleHeaderField field v st) as [st'|] eqn:E; [|done].
    destruct (handleHeaderField_rest _ _ _ _ E) as (Hm & Hl & Hact).
    unfold doneHeads, openHeads. by rewrite Hm, Hl, Hact.
Qed.

Lemma sectionOf_marker raw marker ttl :
  startsWith (trimEnd raw) [DOLLAR] = true →
  markerMatch (trimEnd raw) = Some (marker, ttl) →
  sectionOf raw
  = if streq marker (str "LESSON") then Some (LessonSection ttl)
    else match activityOfMarker marker with
         | Some kind => Some (ActivitySection kind ttl)
         | None => None
         end.
Proof. unfold sectionOf. by intros -> ->. Qed.

(** What one line adds to the activities held. *)
Lemma processLine_heads raw st :
  lessonReady st →
  match sectionOf raw with
  | Some (LessonSection _) =>
      doneHeads (processLine raw st)
      = doneHeads st ++ option_list (openHeads st)
      ∧ openHeads (processLine raw st) = Some []
  | Some (ActivitySection _ _) =>
      doneHeads (processLine raw st) = doneHeads st
      ∧ openHeads (processLine raw st)
        = Some (default [] (openHeads st) ++ option_list (activityHeadOf raw))
  | None =>
      doneHeads (processLine raw st) = doneHeads st
      ∧ openHeads (processLine raw st) = openHeads st
  end.
Proof.
  intros Hw.
  destruct (startsWith (trimEnd raw) [DOLLAR]) eqn:Hd.
  - rewrite (processLine_marker _ _ Hd).
    unfold activityHeadOf, handleSectionMarker.
    destruct (markerMatch (trimEnd raw)) as [[marker ttl]|] eqn:Hm;
      [|unfold sectionOf; by rewrite Hd, Hm].
    rewrite (sectionOf_marker raw marker ttl Hd Hm).
    destruct (streq marker (str "MODULE")) eqn:E1.
    { apply streq_true in E1 as ->. done. }
    destruct (streq marker (str "LESSON")) eqn:E2.
    { destruct (finalize_heads st Hw) as (Hdone & Hcur & Hact).
      unfold doneHeads at 1, openHeads at 1. cbn. rewrite Hact.
      split; [exact Hdone|done]. }
    assert (∀ kind d, d = defaultTitle kind →
      doneHeads (startActivity st kind (orStr ttl d)) = doneHeads st
      ∧ openHeads (startActivity st kind (orStr ttl d))
        = Some (default [] (openHeads st)
                ++ option_list
                     (Some (kind,
                            generateActivityId (typeName kind)
                              (orStr ttl (defaultTitle kind)),
                            orStr ttl (defaultTitle kind))))) as Hstart.
    { intros kind d ->. by apply startActivity_heads. }
    destruct (streq marker (str "DIALOGUE")) eqn:E3.
    { apply streq_true in E3 as ->. by apply (Hstart DIALOGUE). }
    destruct (streq marker (str "GRAMMAR")) eqn:E4.
    { apply streq_true in E4 as ->. by apply (Hstart GRAMMAR). }
    destruct (streq marker (str "EXERCISE")) eqn:E5.
    { apply streq_true in E5 as ->. by apply (Hstart EXERCISE). }
    destruct (streq marker (str "CHAT")) eqn:E6.
    { apply streq_true in E6 as ->. by apply (Hstart CHAT). }
    unfold activityOfMarker. by rewrite E3, E4, E5, E6.
  - rewrite (sectionOf_no_marker _ Hd).
    unfold processLine. rewrite Hd.
    destruct (startsWith (trimStart (trimEnd raw)) [HASH]); [done|].
    destruct (streq (trimEnd raw) (str "EXAMPLE") && inExercise st); [done|].
    destruct (fieldMatch (trimEnd raw)) as [[field value]|];
      [apply handleField_heads|].
    by destruct (currentActivity st).
Qed.

Lemma lessonBodies_cons raw rest :
  lessonBodies (raw :: rest)
  = if isLessonLine raw
    then ([], (lessonBodies rest).1 :: (lessonBodies rest).2)
    else (raw :: (lessonBodies rest).1, (lessonBodies rest).2).
Proof. cbn. by destruct (lessonBodies rest). Qed.

Lemma processLines_heads (lines : list jsstring) : ∀ st,
  lessonReady st →
  doneHeads (fold_left (λ st l, processLine l st) lines st)
  ++ option_list (openHeads (fold_left (λ st l, processLine l st) lines st))
  = doneHeads st
    ++ match openHeads st with
       | Some o => [o ++ bodyHeads (lessonBodies lines).1]
       | None =>
           if startsWithActivity lines
           then [bodyHeads (lessonBodies lines).1] else []
       end
    ++ (bodyHeads <$> (lessonBodies lines).2).
Proof.
  induction lines as [|raw rest IH]; intros st Hw.
  - cbn. destruct (openHeads st); cbn; by rewrite ?app_nil_r.
  - cbn [fold_left].
    destruct (processLine_ids raw st Hw) as [_ Hw'].
    rewrite (IH _ Hw'), lessonBodies_cons, startsWithActivity_cons.
    pose proof (processLine_heads raw st Hw) as Hline.
    assert (bodyHeads (raw :: (lessonBodies rest).1)
            = option_list (activityHeadOf raw)
              ++ bodyHeads (lessonBodies rest).1) as Hcons.
    { unfold bodyHeads. rewrite omap_cons.
      by destruct (activityHeadOf raw). }
    unfold isLessonLine, activityHeadOf in *.
    destruct (sectionOf raw) as [[ttl|kind ttl]|] eqn:Es;
      destruct Hline as [-> ->]; cbn [fst snd fmap list_fmap option_list].
    + rewrite <- app_assoc. cbn.
      destruct (openHeads st); cbn; by rewrite ?app_nil_r.
    + rewrite Hcons. cbn.
      destruct (openHeads st); cbn; by rewrite <- ?app_assoc.
    + by rewrite Hcons.
Qed.

(** X17.  The activities of a parsed module are those of its activity
    markers, filed under the lesson whose marker comes last before them.
    Lesson by lesson, the kinds, ids and titles of the activities are
    those of the activity markers between the lesson's marker and the next
    lesson marker, in order; the activity markers that come before the
    first lesson marker make up the activities of the default lesson.  An
    activity without a title takes the name of its kind ([Dialogue],
    [Grammar], [Exercise], [Chat]) as title. *)
Theorem activities_grouped_by_lesson (content : jsstring) (m : LcModule) :
  parseModuleFile content = inr m →
  (λ l, activityHead <$> activities l) <$> lessons m
  = (if startsWithActivity (splitOn NEWLINE content)
     then [bodyHeads (lessonBodies (splitOn NEWLINE content)).1]
     else [])
    ++ (bodyHeads <$> (lessonBodies (splitOn NEWLINE content)).2).
Proof.
  intros Hp.
  assert (lessons m = pm_lessons (module (parseLines (splitOn NEWLINE content))))
    as ->.
  { unfold parseModuleFile, validateModule in Hp.
    repeat case_match; by simplify_eq. }
  unfold parseLines.
  assert (lessonReady initialState) as Hw0 by (by intros [? ?]).
  destruct (processLines_ids (splitOn NEWLINE content) initialState Hw0)
    as [_ Hw].
  destruct (finalize_heads _ Hw) as (Hdone & _ & _).
  fold (doneHeads
          (finalizeLesson
             (finalizeActivity
                (fold_left (λ st l, processLine l st)
                   (splitOn NEWLINE content) initialState)))).
  rewrite Hdone. by rewrite (processLines_heads _ _ Hw0).
Qed.

End ActivityGroups.

Lemma activities_grouped_by_lesson_witness :
  ∃ m, parseModuleFile groupedText = inr m
       ∧ (λ l, activityHead <$> activities l) <$> lessons m
         = [ [(DIALOGUE, str "DIALOGUE-hello", str "Hello")];
             [(GRAMMAR, str "GRAMMAR-verbs", str "Verbs");
              (EXERCISE, str "EXERCISE-exercise", str "Exercise")];
             [(CHAT, str "CHAT-cafe", str "Cafe")] ].
Proof.
  destruct (parseModuleFile groupedText) as [e|m] eqn:E;
    [by vm_compute in E|].
  exists m. split; [done|].
  rewrite (activities_grouped_by_lesson groupedText m E).
  by vm_compute.
Defined.

(** *** The header of a module as written *)

Lemma cleanValue_oneLine v : cleanValue v → oneLine v.
Proof.
  intros (_ & _ & Hlt). unfold oneLine.
  apply Forall_forall. intros c Hc ->.
  rewrite forallb_forall in Hlt.
  apply list_elem_of_In in Hc. by apply Hlt in Hc.
Qed.

Lemma fieldLine_oneLine name v :
  oneLine name → cleanValue v → oneLine (fieldLine name v).
Proof.
  intros Hn Hv. unfold fieldLine, oneLine.
  apply Forall_app. split; [done|].
  apply Forall_app. split; [|by apply cleanValue_oneLine].
  by repeat constructor.
Qed.

Lemma optionalField_oneLine name v :
  oneLine name → cleanOption v →
  Forall oneLine (optionalField fieldLine name v).
Proof.
  intros Hn Hv. destruct v as [t|]; [|constructor].
  constructor; [by apply fieldLine_oneLine | constructor].
Qed.

Lemma oneLine_str_decide (s : jsstring) :
  forallb (λ c, negb (c =? NEWLINE)) s = true → oneLine s.
Proof.
  intros Hs. unfold oneLine. apply Forall_forall. intros c Hc ->.
  rewrite forallb_forall in Hs.
  apply list_elem_of_In in Hc. by apply Hs in Hc.
Qed.

Section ModuleHeader.
Context `{UnicodeCase}.

(** A line [NAME: value], with a name made of field characters and a
    clean value, is handed to [handleField] with that name and value. *)
Lemma processLine_fieldLine name v st :
  name ≠ [] → forallb isFieldChar name = true → cleanValue v →
  processLine (fieldLine name v) st = handleField name v st.
Proof.
  intros Hname Hchars (Hne & Htrim & Hlt).
  destruct (trim_fixed_inv v Htrim) as [Hs He].
  unfold fieldLine.
  rewrite (processLine_field _ name (Some v)); [by rewrite orStr_Some_nil|].
  rewrite (app_assoc name), trimEnd_app_fixed, <- app_assoc by done.
  unfold fieldMatch.
  change (str ": " ++ v) with (COLON :: 32 :: v).
  destruct (takeWhile_app_stop isFieldChar name COLON (32 :: v) Hchars eq_refl)
    as [-> ->].
  change (dropWhile isSpace (32 :: v)) with (trimStart v).
  change (COLON =? COLON) with true. cbn match.
  rewrite Hs, Hlt. by destruct name, v.
Qed.

Lemma processLine_header_field name v st :
  name ≠ [] → forallb isFieldChar name = true → cleanValue v →
  inHeaderState st →
  processLine (fieldLine name v) st
  = default st (handleHeaderField name v st).
Proof.
  intros Hname Hchars Hv (Hl & Ha & _).
  rewrite processLine_fieldLine by done.
  unfold handleField. rewrite Ha, Hl.
  by destruct (handleHeaderField name v st).
Qed.

Lemma optionalField_header name v st :
  name ≠ [] → forallb isFieldChar name = true → cleanOption v →
  inHeaderState st →
  fold_left (λ st l, processLine l st) (optionalField fieldLine name v) st
  = match v with
    | Some t => default st (handleHeaderField name t st)
    | None => st
    end.
Proof.
  intros Hname Hchars Hv Hst. destruct v as [t|]; [|done].
  cbn. by apply processLine_header_field.
Qed.

(** The state the header lines leave. *)
Lemma moduleHeader_state doc ttl desc img target home :
  cleanValue doc → cleanValue ttl → cleanOption desc → cleanOption img →
  cleanValue target → cleanValue home →
  fold_left (λ st l, processLine l st)
    (moduleHeader doc ttl desc img target home) initialState
  = setModule initialState
      {| pm_diocoDocId := Some doc; pm_title := Some ttl;
         pm_description := desc; pm_image := img;
         pm_targetLang_G := Some target; pm_homeLang_G := Some home;
         pm_ttsPrompt := None; pm_lessons := [] |}.
Proof.
  intros Hdoc Httl Hdesc Himg Htarget Hhome.
  unfold moduleHeader. rewrite !fold_left_app. cbn [fold_left].
  change (processLine (str "$MODULE") initialState) with initialState.
  rewrite (processLine_header_field (str "DIOCO_DOC_ID")); [|done..].
  change (handleHeaderField (str "DIOCO_DOC_ID") doc initialState)
    with (Some (setModule initialState
      {| pm_diocoDocId := Some doc; pm_title := None; pm_description := None;
         pm_image := None; pm_targetLang_G := None; pm_homeLang_G := None;
         pm_ttsPrompt := None; pm_lessons := [] |})).
  cbn [default from_option].
  rewrite (processLine_header_field (str "TITLE")); [|done..].
  rewrite (optionalField_header (str "DESCRIPTION")); [|done..].
  destruct desc as [d|], img as [i|];
    rewrite (optionalField_header (str "IMAGE")); try done;
    rewrite (processLine_header_field (str "TARGET_LANG_G")); try done;
    rewrite (processLine_header_field (str "HOME_LANG_G")); try done.
Qed.

Lemma moduleHeader_oneLine doc ttl desc img target home :
  cleanValue doc → cleanValue ttl → cleanOption desc → cleanOption img →
  cleanValue target → cleanValue home →
  Forall oneLine (moduleHeader doc ttl desc img target home).
Proof.
  intros Hdoc Httl Hdesc Himg Htarget Hhome. unfold moduleHeader.
  repeat first
    [ apply optionalField_oneLine | apply fieldLine_oneLine
    | by apply oneLine_str_decide | done
    | apply Forall_cons_2 | apply Forall_nil_2 | apply Forall_app; split ].
Qed.

(** The lines after the header leave the metadata alone when they start
    with a section. *)
Lemma section_lines_header rest st :
  inHeaderState st → startsWithSection rest →
  headerOf (fold_left (λ st l, processLine l st) rest st) = headerOf st.
Proof.
  intros (Hl & Ha & Hpm) Hrest.
  destruct rest as [|marker more]; [done|]. cbn in Hrest. cbn [fold_left].
  assert (lessonsStarted st) as Hk by (by intros _).
  assert (startsWith (trimEnd marker) [DOLLAR] = true) as Hd.
  { unfold sectionOf in Hrest.
    destruct (startsWith (trimEnd marker) [DOLLAR]); [done|].
    by destruct Hrest. }
  destruct (processLine_lessons marker st Hk) as (Hk' & Hsome & _ & _).
  rewrite processLines_header; [|done|by apply Hsome; right].
  rewrite (processLine_marker _ _ Hd).
  by destruct (handleSectionMarker_lessons marker st Hd Hk) as (_ & _ & _ & ->).
Qed.

(** X18.  The header of a module is read as written.  A text that starts
    with the module marker, the document id, the title, the description
    and the image if any, the target language and the home language, each
    on a line [NAME: value] with a value that is not empty and has no
    white space at either end, and that ends there or goes on with a lesson
    or activity marker, is accepted, and the module has exactly these
    values, no module-level prompt and no voices. *)
Theorem module_header_round_trip (doc ttl : jsstring)
    (desc img : option jsstring) (target home : jsstring)
    (rest : list jsstring) :
  cleanValue doc → cleanValue ttl → cleanOption desc → cleanOption img →
  cleanValue target → cleanValue home →
  startsWithSection rest → Forall oneLine rest →
  metadataOf
    (parseModuleFile
       (join [NEWLINE] (moduleHeader doc ttl desc img target home ++ rest)))
  = inr ((doc, ttl, desc, img), (target, home, None),
         ps_voiceConfig initialState).
Proof.
  intros Hdoc Httl Hdesc Himg Htarget Hhome Hrest Hone.
  unfold parseModuleFile.
  rewrite splitOn_join_lines;
    [|done|apply Forall_app; split; [by apply moduleHeader_oneLine|done]].
  unfold parseLines. rewrite fold_left_app, moduleHeader_state by done.
  set (st := setModule initialState _).
  rewrite (validateModule_metadata _ st).
  - unfold validateModule, st; cbn.
    destruct (cleanValue_trim _ Hdoc) as [_ ->].
    destruct (cleanValue_trim _ Httl) as [_ ->].
    destruct (cleanValue_trim _ Htarget) as [_ ->].
    destruct (cleanValue_trim _ Hhome) as [_ ->].
    cbn. by rewrite !orStr_Some_nil, !orNull_clean.
  - rewrite finalizers_metadata. by apply section_lines_header.
Qed.

End ModuleHeader.

Lemma module_header_round_trip_witness :
  metadataOf
    (parseModuleFile
       (join [NEWLINE]
          (moduleHeader (str "doc-1") (str "Saludos") (Some (str "First steps"))
             None (str "es") (str "en")
           ++ [str "$LESSON Uno"; str "TITLE: ignored"])))
  = inr ((str "doc-1", str "Saludos", Some (str "First steps"), None),
         (str "es", str "en", None), ps_voiceConfig initialState).
Proof.
  apply (module_header_round_trip (str "doc-1") (str "Saludos")
           (Some (str "First steps")) None (str "es") (str "en")
           [str "$LESSON Uno"; str "TITLE: ignored"]).
  all: try (unfold cleanValue, cleanOption; written).
  vm_compute. by eexists.
Defined.

(** ** The linter: the context changes at markers only *)

Lemma sectionKept_refl s : sectionKept s s.
Proof. by split. Qed.

Lemma push_kept s sev ln m c t :
  sectionKept s t → sectionKept s (push sev ln m c t).
Proof. done. Qed.

Lemma pushIf_kept s b sev ln m c t :
  sectionKept s t → sectionKept s (pushIf b sev ln m c t).
Proof. by destruct b. Qed.

Lemma setSeen_kept s h v t :
  sectionKept s t → sectionKept s (setSeen h v t).
Proof. done. Qed.

Lemma setPending_kept s a b c d t :
  sectionKept s t → sectionKept s (setPending a b c d t).
Proof. done. Qed.

Lemma setPendingVocabWord_kept s v t :
  sectionKept s t → sectionKept s (setPendingVocabWord v t).
Proof. done. Qed.

(** Peel the state transformers off the goal, splitting on every test. *)
Ltac kept :=
  repeat match goal with
         | H : sectionKept ?s ?t |- sectionKept ?s ?t => exact H
         | |- sectionKept ?s ?s => apply sectionKept_refl
         | |- sectionKept _ (push _ _ _ _ _) => apply push_kept
         | |- sectionKept _ (pushIf _ _ _ _ _ _) => apply pushIf_kept
         | |- sectionKept _ (setSeen _ _ _) => apply setSeen_kept
         | |- sectionKept _ (setPending _ _ _ _ _) => apply setPending_kept
         | |- sectionKept _ (setPendingVocabWord _ _) =>
             apply setPendingVocabWord_kept
         | |- sectionKept _ (if _ then _ else _) => case_match
         | |- sectionKept _ (match _ with _ => _ end) => case_match
         end.

Lemma flushPendingVocab_kept s t :
  sectionKept s t → sectionKept s (flushPendingVocab t).
Proof. intros. unfold flushPendingVocab. kept. Qed.

Lemma lintIndent_kept s n raw t :
  sectionKept s t → sectionKept s (lintIndent n raw t).
Proof. intros. unfold lintIndent. kept. Qed.

Lemma lintExample_kept s n t :
  sectionKept s t → sectionKept s (lintExample n t).
Proof. intros. unfold lintExample. kept. Qed.

Lemma lintVoiceName_kept s n a v t :
  sectionKept s t → sectionKept s (lintVoiceName n a v t).
Proof. intros. unfold lintVoiceName. kept. Qed.

Lemma lintRawContent_kept s n t :
  sectionKept s t → sectionKept s (lintRawContent n t).
Proof. intros. unfold lintRawContent. kept. Qed.

Section LintContext.
Context `{UnicodeCase}.

Lemma lintVoiceSpeaker_kept s n v t :
  sectionKept s t → sectionKept s (lintVoiceSpeaker n v t).
Proof.
  intros. unfold lintVoiceSpeaker.
  repeat first [ progress kept | apply lintVoiceName_kept ].
Qed.

Lemma lintVoice_kept s n v t :
  sectionKept s t → sectionKept s (lintVoice n v t).
Proof.
  intros. unfold lintVoice.
  repeat first [ progress kept | apply lintVoiceName_kept ].
Qed.

Lemma lintSingleVoice_kept s n v t :
  sectionKept s t → sectionKept s (lintSingleVoice n v t).
Proof.
  intros. unfold lintSingleVoice.
  repeat first [ progress kept | apply lintVoiceName_kept ].
Qed.

Lemma lintHeaderField_kept s n f v t :
  sectionKept s t → sectionKept s (lintHeaderField n f v t).
Proof.
  intros. unfold lintHeaderField.
  repeat first
    [ progress kept
    | apply lintSingleVoice_kept
    | apply lintVoice_kept
    | apply lintVoiceSpeaker_kept ].
Qed.

Lemma lintActivityField_kept s n k f t :
  sectionKept s t → sectionKept s (lintActivityField n k f t).
Proof. intros. unfold lintActivityField. kept. Qed.

Lemma lintOutsideField_kept s n f t :
  sectionKept s t → sectionKept s (lintOutsideField n f t).
Proof. intros. unfold lintOutsideField. kept. Qed.

Lemma lintDialogueStructure_kept s n f t :
  sectionKept s t → sectionKept s (lintDialogueStructure n f t).
Proof.
  intros. unfold lintDialogueStructure.
  repeat first [ progress kept | apply flushPendingVocab_kept ].
Qed.

Lemma lintExerciseStructure_kept s n f v t :
  sectionKept s t → sectionKept s (lintExerciseStructure n f v t).
Proof. intros. unfold lintExerciseStructure. kept. Qed.

Lemma lintField_kept s n f v t :
  sectionKept s t → sectionKept s (lintField n f v t).
Proof.
  intros. unfold lintField.
  repeat first
    [ progress kept
    | apply lintDialogueStructure_kept
    | apply lintExerciseStructure_kept
    | apply lintHeaderField_kept
    | apply lintActivityField_kept
    | apply lintOutsideField_kept ].
Qed.

(** A line that is not a marker leaves the context alone. *)
Lemma lintLine_kept n raw t :
  isMarkerLine raw = false → sectionKept t (lintLine n raw t).
Proof.
  unfold isMarkerLine. intros Hd. unfold lintLine. rewrite Hd.
  repeat first
    [ progress kept
    | apply lintExample_kept
    | apply lintField_kept
    | apply lintRawContent_kept
    | apply lintIndent_kept ].
Qed.

End LintContext.

Section ImplicitLesson.
Context `{UnicodeCase}.

(** What a section line is, as the markers are matched. *)
Lemma sectionOf_inv raw sec :
  sectionOf raw = Some sec →
  isMarkerLine raw = true
  ∧ ∃ marker ttl,
      markerMatch (trimEnd raw) = Some (marker, ttl)
      ∧ match sec with
        | LessonSection t => streq marker (str "LESSON") = true ∧ t = ttl
        | ActivitySection kind t =>
            streq marker (str "LESSON") = false
            ∧ activityOfMarker marker = Some kind ∧ t = ttl
        end.
Proof.
  unfold sectionOf, isMarkerLine.
  destruct (startsWith (trimEnd raw) [DOLLAR]); [|done].
  destruct (markerMatch (trimEnd raw)) as [[marker ttl]|]; [|done].
  intros Hs. split; [done|]. exists marker, ttl. split; [done|].
  destruct (streq marker (str "LESSON")); [by simplify_eq|].
  destruct (activityOfMarker marker); by simplify_eq.
Qed.

(** The lesson tracker after a marker line. *)
Lemma lintMarker_lesson n l t :
  currentLessonLine (lintMarker n l t)
  = match markerMatch l with
    | Some (marker, _) =>
        if streq marker (str "LESSON") then Some n else currentLessonLine t
    | None => currentLessonLine t
    end.
Proof.
  unfold lintMarker.
  destruct (markerMatch l) as [[marker ttl]|];
    [|by destruct (markerColonTest l)].
  match goal with
  | |- context [flushPendingVocab ?s] =>
      destruct (flushPendingVocab_kept s s (sectionKept_refl s))
        as (_ & _ & Hfl);
      assert (currentLessonLine s = currentLessonLine t) as Hs
        by (by destruct (negb (has sectionNames marker)),
                        (markerColonTest l));
      rewrite Hs in Hfl; clear Hs;
      generalize dependent (flushPendingVocab s)
  end.
  intros s Hfl.
  destruct (streq marker (str "MODULE")) eqn:E1.
  { destruct (streq marker (str "LESSON")) eqn:E2; [|done].
    apply streq_true in E1, E2. by subst. }
  destruct (streq marker (str "LESSON")); [done|].
  destruct (activityOfMarker marker); [|done].
  cbn. by destruct (bool_decide (currentLessonLine s = None)).
Qed.

(** An activity marker met while no lesson marker has been seen is
    warned about. *)
Lemma lintMarker_implicit n l t marker ttl kind :
  markerMatch l = Some (marker, ttl) →
  activityOfMarker marker = Some kind →
  currentLessonLine t = None →
  ∃ d, d ∈ diags (lintMarker n l t) ∧ implicitLessonAt n d.
Proof.
  intros Hm Hk Hl. unfold lintMarker. rewrite Hm.
  match goal with
  | |- context [flushPendingVocab ?s] =>
      destruct (flushPendingVocab_kept s s (sectionKept_refl s))
        as (_ & _ & Hfl);
      assert (currentLessonLine s = None) as Hs
        by (rewrite <- Hl;
            by destruct (negb (has sectionNames marker)),
                        (markerColonTest l));
      rewrite Hs in Hfl; clear Hs;
      generalize dependent (flushPendingVocab s)
  end.
  intros s Hfl.
  pose proof (activityOfMarker_name _ _ Hk) as Hname.
  replace (streq marker (str "MODULE")) with false
    by (rewrite Hname; by destruct kind).
  replace (streq marker (str "LESSON")) with false
    by (rewrite Hname; by destruct kind).
  rewrite Hk. cbn [currentLessonLine setSection]. rewrite Hfl.
  rewrite bool_decide_eq_true_2 by done. unfold pushIf.
  eexists. split; [apply push_elem|]. done.
Qed.

(** Lines that are not lesson markers leave the lesson tracker alone. *)
Lemma lintLine_no_lesson n raw t :
  isLessonLine raw = false →
  currentLessonLine (lintLine n raw t) = currentLessonLine t.
Proof.
  intros Hnl.
  destruct (isMarkerLine raw) eqn:Hd.
  - rewrite (lintLine_marker _ _ _ Hd), lintMarker_lesson.
    destruct (lintIndent_kept t n raw t (sectionKept_refl t)) as (_ & _ & ->).
    destruct (markerMatch (trimEnd raw)) as [[marker ttl]|] eqn:Hm; [|done].
    destruct (streq marker (str "LESSON")) eqn:E; [|done].
    unfold isLessonLine, sectionOf, isMarkerLine in *.
    by rewrite Hd, Hm, E in Hnl.
  - by destruct (lintLine_kept n raw t Hd) as (_ & _ & ->).
Qed.

Lemma lintLines_no_lesson lines : ∀ n t,
  Forall (λ l, isLessonLine l = false) lines →
  currentLessonLine (lintLines n lines t) = currentLessonLine t.
Proof.
  induction lines as [|raw lines IH]; intros n t Hall; [done|].
  apply Forall_cons in Hall as [Hraw Hall].
  cbn [lintLines]. rewrite IH by done. by apply lintLine_no_lesson.
Qed.

Lemma made_up_lesson_is_warned (text : jsstring) (k : nat) :
  madeUpAt (splitOn NEWLINE text) k →
  ∃ d, d ∈ lintModuleText text ∧ implicitLessonAt (Z.of_nat k + 1) d.
Proof.
  intros (raw & kind & ttl & Hk & Hsec & Hpre).
  destruct (sectionOf_inv _ _ Hsec) as (Hd & marker & t & Hm & _ & Hkind & _).
  set (st := lintLines 1 (take k (splitOn NEWLINE text)) lintInit).
  assert (currentLessonLine st = None) as Hl
    by (unfold st; by rewrite lintLines_no_lesson).
  destruct (lintIndent_kept st (Z.of_nat k + 1) raw st (sectionKept_refl st))
    as (_ & _ & Hl').
  rewrite Hl in Hl'.
  destruct (lintMarker_implicit (Z.of_nat k + 1) (trimEnd raw) _ marker t kind
              Hm Hkind Hl') as (d & Hin & Hd').
  exists d. split; [|done].
  eapply lint_line_diag_in_output; [exact Hk|].
  by rewrite (lintLine_marker _ _ _ Hd).
Qed.

End ImplicitLesson.

(** *** Where the warnings for a made-up lesson come from *)

Section DiagnosticsOrigin.
(** A property of diagnostics that holds of all those with another code
    than [implicit-lesson]. *)
Variable P : Diagnostic → Prop.
Hypothesis P_other : ∀ d, codeOutside [str "implicit-lesson"] d → P d.

Lemma push_all sev ln m c t :
  allDiags P t → has [str "implicit-lesson"] c = false →
  allDiags P (push sev ln m c t).
Proof.
  intros Ht Hc. unfold allDiags. cbn. apply Forall_app. split; [done|].
  constructor; [|done]. apply P_other. by intros ? [= <-].
Qed.

Lemma pushIf_all b sev ln m c t :
  allDiags P t → has [str "implicit-lesson"] c = false →
  allDiags P (pushIf b sev ln m c t).
Proof. destruct b; cbn; [apply push_all|done]. Qed.

Lemma setSection_all a b c d e t :
  allDiags P t → allDiags P (setSection a b c d e t).
Proof. done. Qed.

Lemma setSeen_all h v t : allDiags P t → allDiags P (setSeen h v t).
Proof. done. Qed.

Lemma setPending_all a b c d t :
  allDiags P t → allDiags P (setPending a b c d t).
Proof. done. Qed.

Lemma setPendingVocabWord_all v t :
  allDiags P t → allDiags P (setPendingVocabWord v t).
Proof. done. Qed.

End DiagnosticsOrigin.

(** Peel the state transformers off the goal, splitting on every test. *)
Ltac origin :=
  repeat match goal with
         | H : allDiags ?P ?t |- allDiags ?P ?t => exact H
         | |- allDiags _ (push _ _ _ _ _) =>
             apply push_all; [assumption| |reflexivity]
         | |- allDiags _ (pushIf _ _ _ _ _ _) =>
             apply pushIf_all; [assumption| |reflexivity]
         | |- allDiags _ (setSection _ _ _ _ _ _) => apply setSection_all
         | |- allDiags _ (setSeen _ _ _) => apply setSeen_all
         | |- allDiags _ (setPending _ _ _ _ _) => apply setPending_all
         | |- allDiags _ (setPendingVocabWord _ _) =>
             apply setPendingVocabWord_all
         | |- allDiags _ (if _ then _ else _) => case_match
         | |- allDiags _ (match _ with _ => _ end) => case_match
         end.

Section DiagnosticsOriginLoop.
Context `{UnicodeCase}.
Variable P : Diagnostic → Prop.
Hypothesis P_other : ∀ d, codeOutside [str "implicit-lesson"] d → P d.

Lemma flushPendingVocab_all t :
  allDiags P t → allDiags P (flushPendingVocab t).
Proof. intros. unfold flushPendingVocab. origin. Qed.

Lemma lintIndent_all n raw t :
  allDiags P t → allDiags P (lintIndent n raw t).
Proof. intros. unfold lintIndent. origin. Qed.

Lemma lintExample_all n t : allDiags P t → allDiags P (lintExample n t).
Proof. intros. unfold lintExample. origin. Qed.

Lemma lintVoiceName_all n a v t :
  allDiags P t → allDiags P (lintVoiceName n a v t).
Proof. intros. unfold lintVoiceName. origin. Qed.

Lemma lintRawContent_all n t :
  allDiags P t → allDiags P (lintRawContent n t).
Proof. intros. unfold lintRawContent. origin. Qed.

Lemma lintVoiceSpeaker_all n v t :
  allDiags P t → allDiags P (lintVoiceSpeaker n v t).
Proof.
  intros. unfold lintVoiceSpeaker.
  repeat first [ progress origin | apply lintVoiceName_all ].
Qed.

Lemma lintVoice_all n v t : allDiags P t → allDiags P (lintVoice n v t).
Proof.
  intros. unfold lintVoice.
  repeat first [ progress origin | apply lintVoiceName_all ].
Qed.

Lemma lintSingleVoice_all n v t :
  allDiags P t → allDiags P (lintSingleVoice n v t).
Proof.
  intros. unfold lintSingleVoice.
  repeat first [ progress origin | apply lintVoiceName_all ].
Qed.

Lemma lintHeaderField_all n f v t :
  allDiags P t → allDiags P (lintHeaderField n f v t).
Proof.
  intros. unfold lintHeaderField.
  repeat first
    [ progress origin
    | apply lintSingleVoice_all
    | apply lintVoice_all
    | apply lintVoiceSpeaker_all ].
Qed.

Lemma lintActivityField_all n k f t :
  allDiags P t → allDiags P (lintActivityField n k f t).
Proof. intros. unfold lintActivityField. origin. Qed.

Lemma lintOutsideField_all n f t :
  allDiags P t → allDiags P (lintOutsideField n f t).
Proof. intros. unfold lintOutsideField. origin. Qed.

Lemma lintDialogueStructure_all n f t :
  allDiags P t → allDiags P (lintDialogueStructure n f t).
Proof.
  intros. unfold lintDialogueStructure.
  repeat first [ progress origin | apply flushPendingVocab_all ].
Qed.

Lemma lintExerciseStructure_all n f v t :
  allDiags P t → allDiags P (lintExerciseStructure n f v t).
Proof. intros. unfold lintExerciseStructure. origin. Qed.

Lemma lintField_all n f v t :
  allDiags P t → allDiags P (lintField n f v t).
Proof.
  intros. unfold lintField.
  repeat first
    [ progress origin
    | apply lintDialogueStructure_all
    | apply lintExerciseStructure_all
    | apply lintHeaderField_all
    | apply lintActivityField_all
    | apply lintOutsideField_all ].
Qed.

Lemma lintEnd_all t : allDiags P t → allDiags P (lintEnd t).
Proof. intros. unfold lintEnd. cbv zeta. origin. Qed.

(** A marker line adds the warning for a made-up lesson only when it is
    an activity marker met while no lesson marker has been seen. *)
Lemma lintMarker_all n l t :
  allDiags P t →
  (∀ marker ttl kind sev m,
     markerMatch l = Some (marker, ttl) →
     activityOfMarker marker = Some kind →
     currentLessonLine t = None →
     sev = warning →
     P {| severity := sev; line := n; message := m;
          code := Some (str "implicit-lesson") |}) →
  allDiags P (lintMarker n l t).
Proof.
  intros Ht Hnew. unfold lintMarker.
  destruct (markerMatch l) as [[marker ttl]|] eqn:Hm; [|origin].
  match goal with
  | |- context [flushPendingVocab ?s] =>
      destruct (flushPendingVocab_kept s s (sectionKept_refl s))
        as (_ & _ & Hfl);
      assert (currentLessonLine s = currentLessonLine t) as Hs
        by (by destruct (negb (has sectionNames marker)),
                        (markerColonTest l));
      rewrite Hs in Hfl; clear Hs;
      assert (allDiags P (flushPendingVocab s)) as Hall
        by (apply flushPendingVocab_all; origin);
      generalize dependent (flushPendingVocab s)
  end.
  intros s Hfl Hall.
  destruct (streq marker (str "MODULE")); [origin|].
  destruct (streq marker (str "LESSON")); [origin|].
  destruct (activityOfMarker marker) as [kind|] eqn:Hk; [|origin].
  apply setPending_all. cbn [currentLessonLine setSection].
  destruct (bool_decide (currentLessonLine s = None)) eqn:Hnone;
    [|by origin].
  apply bool_decide_eq_true_1 in Hnone. rewrite Hfl in Hnone.
  unfold pushIf, allDiags. cbn. apply Forall_app. split; [exact Hall|].
  constructor; [|done]. by eapply Hnew.
Qed.

Lemma lintLine_all n raw t :
  allDiags P t →
  (∀ kind ttl sev m,
     sectionOf raw = Some (ActivitySection kind ttl) →
     currentLessonLine t = None →
     sev = warning →
     P {| severity := sev; line := n; message := m;
          code := Some (str "implicit-lesson") |}) →
  allDiags P (lintLine n raw t).
Proof.
  intros Ht Hnew.
  destruct (isMarkerLine raw) eqn:Hd.
  - rewrite (lintLine_marker _ _ _ Hd).
    apply lintMarker_all; [by apply lintIndent_all|].
    intros marker ttl kind sev m Hm Hk Hl ->.
    destruct (lintIndent_kept t n raw t (sectionKept_refl t)) as (_ & _ & Hl').
    rewrite Hl' in Hl.
    apply (Hnew kind ttl); [|done..].
    unfold sectionOf. unfold isMarkerLine in Hd. rewrite Hd, Hm, Hk.
    pose proof (activityOfMarker_name _ _ Hk) as ->. by destruct kind.
  - unfold isMarkerLine in Hd. unfold lintLine. rewrite Hd.
    repeat first
      [ progress origin
      | apply lintExample_all
      | apply lintField_all
      | apply lintRawContent_all
      | apply lintIndent_all ].
Qed.

End DiagnosticsOriginLoop.

Section ImplicitLessonExact.
Context `{UnicodeCase}.

(** Once a lesson marker has been seen the tracker stays set. *)
Lemma lintLine_lesson_set n raw t :
  is_Some (currentLessonLine t) ∨ isLessonLine raw = true →
  is_Some (currentLessonLine (lintLine n raw t)).
Proof.
  intros Hor.
  destruct (isMarkerLine raw) eqn:Hd.
  - rewrite (lintLine_marker _ _ _ Hd), lintMarker_lesson.
    destruct (lintIndent_kept t n raw t (sectionKept_refl t)) as (_ & _ & ->).
    unfold isLessonLine, sectionOf, isMarkerLine in *. rewrite Hd in Hor.
    destruct (markerMatch (trimEnd raw)) as [[marker ttl]|];
      [|by destruct Hor].
    destruct (streq marker (str "LESSON")); [by eexists|].
    destruct Hor as [?|Hor]; [done|].
    by destruct (activityOfMarker marker).
  - destruct (lintLine_kept n raw t Hd) as (_ & _ & ->).
    destruct Hor as [?|Hor]; [done|].
    unfold isLessonLine, sectionOf, isMarkerLine in *. by rewrite Hd in Hor.
Qed.

Lemma lintLines_lesson_unset lines : ∀ n t,
  currentLessonLine (lintLines n lines t) = None →
  Forall (λ l, isLessonLine l = false) lines.
Proof.
  induction lines as [|raw lines IH]; intros n t Hnone; [constructor|].
  cbn [lintLines] in Hnone.
  assert (∀ m s, is_Some (currentLessonLine s) →
                 is_Some (currentLessonLine (lintLines m lines s))) as Hstay.
  { clear. induction lines as [|r lines IH]; intros m s Hs; [done|].
    cbn [lintLines]. apply IH, lintLine_lesson_set. by left. }
  constructor; [|by eapply IH].
  destruct (isLessonLine raw) eqn:E; [|done].
  destruct (Hstay (n + 1)%Z (lintLine n raw t)) as [x Hx];
    [apply lintLine_lesson_set; by right|].
  by rewrite Hx in Hnone.
Qed.

(** Every warning for a made-up lesson in the loop stands on the line
    of an activity marker that no lesson marker precedes. *)
Lemma lintLines_justified lines i :
  (i ≤ length lines)%nat →
  allDiags (implicitJustified lines) (lintLines 1 (take i lines) lintInit).
Proof.
  assert (∀ d, codeOutside [str "implicit-lesson"] d →
               implicitJustified lines d) as Hother.
  { intros d Hd Hc. by specialize (Hd _ Hc). }
  induction i as [|i IH]; intros Hi; [constructor|].
  destruct (lookup_lt_is_Some_2 lines i) as [raw Hraw]; [lia|].
  rewrite (take_S_r _ _ _ Hraw), lintLines_app. cbn [lintLines].
  apply lintLine_all; [done|apply IH; lia|].
  intros kind ttl sev m Hsec Hnone -> _. split; [done|].
  exists i. cbn. split; [rewrite length_take_le by lia; lia|].
  exists raw, kind, ttl. split; [done|]. split; [done|].
  by apply lintLines_lesson_unset in Hnone.
Qed.

(** X19.  The linter warns of a made-up lesson exactly where the parser
    makes one up.  The output holds a warning with the code
    [implicit-lesson] on a line exactly when that line is an activity
    marker that no lesson marker precedes, which the parser files under
    the lesson [Default Lesson]; and every diagnostic with that code is
    such a warning. *)
Theorem implicit_lesson_warnings_exact (text : jsstring) :
  (∀ k, (∃ d, d ∈ lintModuleText text ∧ implicitLessonAt (Z.of_nat k + 1) d)
        ↔ madeUpAt (splitOn NEWLINE text) k)
  ∧ Forall (implicitJustified (splitOn NEWLINE text)) (lintModuleText text).
Proof.
  assert (Forall (implicitJustified (splitOn NEWLINE text))
            (lintModuleText text)) as Hall.
  { unfold lintModuleText, lintCollect. rewrite sortDiags_perm.
    apply lintEnd_all.
    - intros d Hd Hc. by specialize (Hd _ Hc).
    - rewrite <- (firstn_all (splitOn NEWLINE text)) at 2.
      by apply lintLines_justified. }
  split; [|exact Hall].
  intros k. split; [|apply made_up_lesson_is_warned].
  intros (d & Hin & _ & Hline & Hcode).
  rewrite Forall_forall in Hall.
  destruct (Hall d Hin Hcode) as (_ & k' & Hline' & Hmade).
  by replace k with k' by lia.
Qed.

End ImplicitLessonExact.

(** ** Modules as written *)

Lemma isWord_typeName kind : forallb isWord (typeName kind) = true.
Proof. by destruct kind. Qed.

Lemma markerMatch_markerLine name title :
  name ≠ [] → forallb isWord name = true → cleanValue title →
  trimEnd (markerLine name title) = markerLine name title
  ∧ markerMatch (markerLine name title) = Some (name, Some title).
Proof.
  intros Hname Hword (Hne & Htrim & Hlt).
  destruct (trim_fixed_inv title Htrim) as [Hs He].
  unfold markerLine. split.
  - rewrite app_comm_cons, (app_assoc (DOLLAR :: name)).
    by apply trimEnd_app_fixed.
  - unfold markerMatch. change (DOLLAR =? DOLLAR) with true. cbn match.
    change (str " " ++ title) with (32 :: title).
    destruct (takeWhile_app_stop isWord name 32 title Hword eq_refl)
      as [-> ->].
    change (isSpace 32) with true. cbn match.
    change (dropWhile isSpace title) with (trimStart title).
    rewrite Hs, Hlt. by destruct name.
Qed.

Lemma markerLine_oneLine name title :
  oneLine name → cleanValue title → oneLine (markerLine name title).
Proof.
  intros Hn Ht. unfold markerLine, oneLine.
  constructor; [done|]. apply Forall_app. split; [done|].
  constructor; [done|]. by apply cleanValue_oneLine.
Qed.

Lemma optionalText_oneLine name v :
  oneLine name → cleanText v →
  Forall oneLine (optionalText fieldLine name v).
Proof.
  intros Hn [-> | Hv]; [constructor|].
  destruct v as [|c v]; [constructor|].
  constructor; [by apply fieldLine_oneLine | constructor].
Qed.

(** Solve that the lines built from clean values hold no line break. *)
Ltac one_line :=
  repeat first
    [ apply optionalField_oneLine | apply optionalText_oneLine
    | apply fieldLine_oneLine | apply markerLine_oneLine
    | by apply oneLine_str_decide | done
    | apply Forall_cons_2 | apply Forall_nil_2
    | apply Forall_app; split ].

Lemma concat_oneLine {A} (f : A → list jsstring) (P : A → Prop) l :
  (∀ x, P x → Forall oneLine (f x)) → Forall P l →
  Forall oneLine (concat (f <$> l)).
Proof.
  intros Hf Hall. induction Hall as [|x l Hx _ IH]; [constructor|].
  cbn. apply Forall_app. split; [by apply Hf|done].
Qed.

Lemma bodyLines_oneLine b : cleanBody b → Forall oneLine (bodyLines b).
Proof.
  destruct b as [items|ls]; cbn.
  - apply concat_oneLine. intros it (Hp & Hpt & Hr & Hrt).
    unfold itemFields. destruct (ei_isExample it); one_line.
  - apply concat_oneLine.
    intros l (Hs & Ht & Htr & Hn & _ & Hv). unfold lineFields.
    apply Forall_app. split; [|one_line].
    revert Hv. apply concat_oneLine. intros e [Hw Hd].
    unfold entryFields. one_line.
Qed.

Lemma lessonLines_oneLine l : cleanLesson l → Forall oneLine (lessonLines l).
Proof.
  intros [Ht Hacts]. unfold lessonLines.
  constructor; [by apply markerLine_oneLine; [apply oneLine_str_decide|]|].
  revert Hacts. apply concat_oneLine. intros a [Hta Hb].
  unfold activityLines. constructor; [|by apply bodyLines_oneLine].
  apply markerLine_oneLine; [|done].
  apply oneLine_str_decide. by destruct (bodyKind (wa_body a)).
Qed.

Section WrittenModules.
Context `{UnicodeCase}.

Lemma processLine_markerLine name title st :
  name ≠ [] → forallb isWord name = true → cleanValue title →
  processLine (markerLine name title) st
  = handleSectionMarker (markerLine name title) st
  ∧ markerMatch (markerLine name title) = Some (name, Some title).
Proof.
  intros Hname Hword Htitle.
  destruct (markerMatch_markerLine name title Hname Hword Htitle) as [Ht Hm].
  split; [|done].
  rewrite processLine_marker; by rewrite Ht.
Qed.

Lemma processLine_activity_marker kind title st :
  cleanValue title →
  processLine (markerLine (typeName kind) title) st
  = startActivity st kind title.
Proof.
  intros Htitle.
  destruct (processLine_markerLine (typeName kind) title st) as [-> Hm];
    [by destruct kind|apply isWord_typeName|done|].
  unfold handleSectionMarker. rewrite Hm.
  destruct Htitle as (Hne & _).
  replace (orStr (Some title)) with (λ _ : jsstring, title)
    by (by destruct title).
  by destruct kind.
Qed.

Lemma processLine_lesson_marker title st :
  cleanValue title →
  processLine (markerLine (str "LESSON") title) st
  = let st1 := finalizeLesson (finalizeActivity st) in
    {| module := module st1; ps_voiceConfig := ps_voiceConfig st1;
       currentLesson :=
         Some {| lesson_id := generateLessonId title; lesson_title := title;
                 activities := [] |};
       currentActivity := currentActivity st1;
       activityContentBuffer := activityContentBuffer st1 |}.
Proof.
  intros Htitle.
  destruct (processLine_markerLine (str "LESSON") title st) as [-> Hm];
    [done|done|done|].
  unfold handleSectionMarker. rewrite Hm.
  destruct Htitle as (Hne & _).
  replace (orStr (Some title)) with (λ _ : jsstring, title)
    by (by destruct title).
  reflexivity.
Qed.

Lemma bodyLines_buffered act b :
  act_type act = bodyKind b → cleanBody b →
  Forall2 (buffersAs act) (bodyLines b) (bodyTags b).
Proof.
  intros Hty Hb. destruct b as [items|ls]; cbn in *.
  - apply buffersAs_concat. eapply Forall_impl; [exact Hb|].
    intros it Hit. by apply buffersAs_item.
  - apply buffersAs_concat. eapply Forall_impl; [exact Hb|].
    intros x Hx. by apply buffersAs_line.
Qed.

(** An activity as written is filed as read back. *)
Lemma activity_filed a st l :
  cleanActivity a → lessonOpen (finalizeActivity st) l →
  finalizeActivity
    (fold_left (λ st l, processLine l st) (activityLines a) st)
  = withActivities (finalizeActivity st) l [readActivity a].
Proof.
  intros [Htitle Hbody] (Hl & Ha & Hbuf).
  unfold activityLines. cbn [fold_left].
  rewrite processLine_activity_marker by done.
  unfold startActivity. rewrite Hl.
  set (act := {| act_id := _; act_title := _; act_intro := None;
                 act_payload := _ |}).
  rewrite (body_lines_buffer act _ (bodyTags (wa_body a)));
    [|apply bodyLines_buffered; [by destruct (wa_body a)|done]|done|done].
  unfold finalizeActivity at 1, withActivities, readActivity. cbn.
  destruct (wa_body a) as [items|ls]; cbn in *.
  - by rewrite parseExerciseItems_tags.
  - by rewrite parseDialogueLines_kept.
Qed.

Lemma finalizeActivity_closed st :
  currentActivity st = None → finalizeActivity st = st.
Proof. unfold finalizeActivity. by intros ->. Qed.

Lemma activities_filed acts : ∀ st l,
  Forall cleanActivity acts → lessonOpen (finalizeActivity st) l →
  finalizeActivity
    (fold_left (λ st l, processLine l st) (concat (activityLines <$> acts)) st)
  = withActivities (finalizeActivity st) l (readActivity <$> acts).
Proof.
  induction acts as [|a acts IH]; intros st l Hall Hopen.
  - destruct Hopen as (Hl & Ha & Hbuf). cbn [fmap list_fmap concat fold_left].
    unfold withActivities. rewrite app_nil_r.
    destruct (finalizeActivity st) as [m vc cl ca buf]; cbn in *.
    subst. by destruct l.
  - apply Forall_cons in Hall as [Ha Hall].
    cbn [fmap list_fmap concat]. rewrite fold_left_app.
    pose proof (activity_filed a st l Ha Hopen) as Hfiled.
    erewrite IH; [|done|rewrite Hfiled; by repeat split].
    rewrite Hfiled. unfold withActivities. cbn.
    by rewrite <- app_assoc.
Qed.

(** A lesson as written is filed as read back. *)
Lemma lesson_filed l st :
  cleanLesson l → nothingOpen (finalizeLesson (finalizeActivity st)) →
  finalizeLesson
    (finalizeActivity
       (fold_left (λ st l, processLine l st) (lessonLines l) st))
  = withLessons (finalizeLesson (finalizeActivity st)) [readLesson l].
Proof.
  intros [Htitle Hacts] (Hl & Ha & Hbuf).
  unfold lessonLines. cbn [fold_left].
  rewrite processLine_lesson_marker by done. cbv zeta.
  set (st1 := finalizeLesson (finalizeActivity st)) in *.
  rewrite Ha, Hbuf.
  set (st2 := {| module := module st1; ps_voiceConfig := _;
                 currentLesson := Some _; currentActivity := None;
                 activityContentBuffer := [] |}).
  erewrite activities_filed;
    [|done|rewrite (finalizeActivity_closed st2) by done; by repeat split].
  rewrite (finalizeActivity_closed st2) by done.
  unfold finalizeLesson, withActivities, withLessons, readLesson. cbn.
  reflexivity.
Qed.

Lemma finalizers_closed st :
  nothingOpen st → finalizeLesson (finalizeActivity st) = st.
Proof.
  intros (Hl & Ha & _). rewrite finalizeActivity_closed by done.
  unfold finalizeLesson. by rewrite Hl.
Qed.

Lemma lessons_filed ls : ∀ st,
  Forall cleanLesson ls → nothingOpen (finalizeLesson (finalizeActivity st)) →
  finalizeLesson
    (finalizeActivity
       (fold_left (λ st l, processLine l st) (concat (lessonLines <$> ls)) st))
  = withLessons (finalizeLesson (finalizeActivity st)) (readLesson <$> ls).
Proof.
  induction ls as [|l ls IH]; intros st Hall Hopen.
  - cbn [fmap list_fmap concat fold_left]. unfold withLessons.
    rewrite app_nil_r. destruct Hopen as (Hl & Ha & Hbuf).
    destruct (finalizeLesson (finalizeActivity st)) as [m vc cl ca buf];
      cbn in *.
    subst. by destruct m.
  - apply Forall_cons in Hall as [Hl Hall].
    cbn [fmap list_fmap concat]. rewrite fold_left_app.
    pose proof (lesson_filed l st Hl Hopen) as Hfiled.
    rewrite IH; [|done|rewrite Hfiled; by repeat split].
    rewrite Hfiled. unfold withLessons. cbn.
    by rewrite <- app_assoc.
Qed.

(** X20.  The parser reads a module back as it was written, speakers
    apart.  A module text made of the header (module marker, document id,
    title, description and image if any, target and home language), then
    lesson by lesson the lesson marker with its title and, activity by
    activity, the marker of an exercise or a dialogue with its title and
    the lines of its items or of its dialogue lines, all values being
    clean, is accepted; the module returned has the values of the header,
    no prompt and no voices, and exactly these lessons, activities, items
    and lines, in order, each lesson with the slug of its title as id and
    each activity with its kind and the slug of its title as id.  The one
    difference is the speaker of a dialogue line written without one: the
    parser keeps the last speaker named in the dialogue in force, so such
    a line is returned with the speaker of the line before it, and only
    the lines before the first named speaker are returned without
    speaker. *)
Theorem written_module_round_trip (doc ttl : jsstring)
    (desc img : option jsstring) (target home : jsstring)
    (ls : list WrittenLesson) :
  cleanValue doc → cleanValue ttl → cleanOption desc → cleanOption img →
  cleanValue target → cleanValue home → Forall cleanLesson ls →
  parseModuleFile (join [NEWLINE] (moduleLines doc ttl desc img target home ls))
  = inr {| diocoDocId := doc; title := ttl; description := desc;
           image := img; targetLang_G := target; homeLang_G := home;
           voiceConfig := ps_voiceConfig initialState; ttsPrompt := None;
           lessons := readLesson <$> ls |}.
Proof.
  intros Hdoc Httl Hdesc Himg Htarget Hhome Hls.
  unfold parseModuleFile, moduleLines.
  rewrite splitOn_join_lines; [|done|].
  2:{ apply Forall_app. split; [by apply moduleHeader_oneLine|].
      revert Hls. apply concat_oneLine. apply lessonLines_oneLine. }
  unfold parseLines. rewrite fold_left_app, moduleHeader_state by done.
  set (st := setModule initialState _).
  assert (nothingOpen st) as Hopen by done.
  rewrite lessons_filed; [|done|by rewrite finalizers_closed].
  rewrite finalizers_closed by done.
  unfold validateModule, withLessons, st; cbn.
  destruct (cleanValue_trim _ Hdoc) as [_ ->].
  destruct (cleanValue_trim _ Httl) as [_ ->].
  destruct (cleanValue_trim _ Htarget) as [_ ->].
  destruct (cleanValue_trim _ Hhome) as [_ ->].
  cbn. by rewrite !orStr_Some_nil, !orNull_clean.
Qed.

End WrittenModules.

Lemma written_module_round_trip_witness :
  parseModuleFile
    (join [NEWLINE]
       (moduleLines (str "doc-1") (str "Saludos") (Some (str "First steps"))
          None (str "es") (str "en") (sampleLessons ++ keptLessons)))
  = inr {| diocoDocId := str "doc-1"; title := str "Saludos";
           description := Some (str "First steps"); image := None;
           targetLang_G := str "es"; homeLang_G := str "en";
           voiceConfig := ps_voiceConfig initialState; ttsPrompt := None;
           lessons := readLesson <$> (sampleLessons ++ keptLessons) |}
  ∧ speakersKept None keptDialogue
    = [ {| dl_speaker := Some (str "Ana"); dl_text := str "Hola";
           dl_translation := []; dl_notes := None; dl_vocab := None |};
        {| dl_speaker := Some (str "Ana"); dl_text := str "Adios";
           dl_translation := []; dl_notes := None; dl_vocab := None |} ].
Proof.
  split; [|reflexivity].
  apply (written_module_round_trip (str "doc-1") (str "Saludos")
           (Some (str "First steps")) None (str "es") (str "en")
           (sampleLessons ++ keptLessons)).
  all: try (unfold cleanValue, cleanOption; written).
  unfold sampleLessons, keptLessons. cbn [app].
  unfold cleanLesson, cleanActivity, cleanBody, sampleDialogue, sampleItems;
    cbn.
  written.
  unfold cleanLesson, cleanActivity, cleanBody, keptDialogue; cbn.
  written.
Defined.

(** ** The linter on modules as written *)

(** Evaluate the tests on closed terms. *)
Ltac closed_tests :=
  repeat match goal with
         | |- context [has ?l ?x] =>
             let r := eval vm_compute in (has l x) in
             match r with
             | true => idtac
             | false => idtac
             end;
             replace (has l x) with r by (vm_compute; reflexivity)
         | |- context [streq ?a ?b] =>
             let r := eval vm_compute in (streq a b) in
             match r with
             | true => idtac
             | false => idtac
             end;
             replace (streq a b) with r by (vm_compute; reflexivity)
         | |- context [@bool_decide ?P ?d] =>
             let r := eval vm_compute in (@bool_decide P d) in
             match r with
             | true => idtac
             | false => idtac
             end;
             replace (@bool_decide P d) with r by (vm_compute; reflexivity)
         end.

(** Run the linter on a state whose fields are known. *)
Ltac lint_eval :=
  repeat (closed_tests;
          cbn [negb andb orb pushIf setPending setSeen setSection
               setPendingVocabWord flushPendingVocab quietState
               diags sawModuleMarker sawAnySectionMarker inHeader
               lint_currentActivity currentLessonLine seenHeader
               seenVoiceSpeaker lastDialogueHadLine pendingVocabWord
               pendingExercisePrompt pendingExerciseExample allowedFields]).

Lemma fieldMatch_fieldLine name v :
  name ≠ [] → forallb isFieldChar name = true → cleanValue v →
  trimEnd (fieldLine name v) = fieldLine name v
  ∧ fieldMatch (fieldLine name v) = Some (name, Some v).
Proof.
  intros Hname Hchars (Hne & Htrim & Hlt).
  destruct (trim_fixed_inv v Htrim) as [Hs He].
  unfold fieldLine. split.
  - by rewrite (app_assoc name), trimEnd_app_fixed.
  - unfold fieldMatch.
    change (str ": " ++ v) with (COLON :: 32 :: v).
    destruct (takeWhile_app_stop isFieldChar name COLON (32 :: v) Hchars eq_refl)
      as [-> ->].
    change (dropWhile isSpace (32 :: v)) with (trimStart v).
    change (COLON =? COLON) with true. cbn match.
    rewrite Hs, Hlt. by destruct name, v.
Qed.

Lemma lintIndent_column0 n c r t :
  (c =? 32) || (c =? 9) = false → lintIndent n (c :: r) t = t.
Proof. unfold lintIndent. by intros ->. Qed.

Lemma fieldChar_column0 c :
  isFieldChar c = true → (c =? 32) || (c =? 9) = false.
Proof.
  intros Hc. apply isFieldChar_range in Hc.
  apply orb_false_intro; apply N.eqb_neq; lia.
Qed.

Lemma markerColonTest_markerLine name title :
  name ∈ [str "LESSON"; str "DIALOGUE"; str "EXERCISE"; str "GRAMMAR";
          str "CHAT"] →
  cleanValue title → tidyTitle title →
  markerColonTest (markerLine name title) = false.
Proof.
  intros Hname (Hne & Htrim & _) Htidy.
  destruct (trim_fixed_inv title Htrim) as [Hs _].
  assert (match trimStart title with c :: _ => c =? COLON | [] => false end
          = false) as Hc.
  { rewrite Hs. destruct title as [|c t]; [done|].
    apply N.eqb_neq. intros ->. by apply Htidy. }
  unfold markerColonTest, markerLine.
  repeat (apply elem_of_cons in Hname as [-> | Hname]);
    [..|by apply elem_of_nil in Hname];
    cbn [existsb];
    repeat match goal with
           | |- context [startsWith (DOLLAR :: str ?a ++ ?r) (DOLLAR :: str ?b)] =>
               let v := eval vm_compute in (startsWith (str a) (str b)) in
               change (startsWith (DOLLAR :: str a ++ r) (DOLLAR :: str b))
                 with v
           end;
    cbn [andb orb];
    match goal with
    | |- context [dropWhile isSpace (drop ?k ?s)] =>
        change (dropWhile isSpace (drop k s)) with (trimStart title)
    end;
    by rewrite Hc.
Qed.

Section QuietLinter.
Context `{UnicodeCase}.

Lemma lintLine_markerLine n name title t :
  name ≠ [] → forallb isWord name = true → cleanValue title →
  lintLine n (markerLine name title) t
  = lintMarker n (markerLine name title) t.
Proof.
  intros Hname Hword Htitle.
  destruct (markerMatch_markerLine name title Hname Hword Htitle) as [Ht _].
  rewrite lintLine_marker by (unfold isMarkerLine; by rewrite Ht).
  rewrite Ht. unfold markerLine.
  by rewrite lintIndent_column0.
Qed.

(** A lesson marker opens a lesson and draws no diagnostic. *)
Lemma lint_lesson_marker n title a l h hl base :
  cleanValue title → tidyTitle title →
  lintLine n (markerLine (str "LESSON") title) (quietState a l h hl base)
  = quietState None (Some n) false hl base.
Proof.
  intros Htitle Htidy.
  rewrite lintLine_markerLine by done.
  unfold lintMarker.
  rewrite markerColonTest_markerLine by (done || set_solver).
  destruct (markerMatch_markerLine (str "LESSON") title) as [_ ->];
    [done..|].
  by lint_eval.
Qed.

(** An activity marker inside a lesson opens the activity and draws no
    diagnostic. *)
Lemma lint_activity_marker n kind title a l0 h hl base :
  cleanValue title → tidyTitle title →
  lintLine n (markerLine (typeName kind) title)
    (quietState a (Some l0) h hl base)
  = quietState (Some kind) (Some l0) false false base.
Proof.
  intros Htitle Htidy.
  rewrite lintLine_markerLine; [|by destruct kind|apply isWord_typeName|done].
  unfold lintMarker.
  rewrite markerColonTest_markerLine;
    [|destruct kind; set_solver|done|done].
  destruct (markerMatch_markerLine (typeName kind) title) as [_ ->];
    [by destruct kind|apply isWord_typeName|done|].
  destruct kind; unfold activityOfMarker; by lint_eval.
Qed.

(** A field line with a clean value goes to the field branch with that
    value. *)
Lemma lintLine_fieldLine n name v t :
  name ≠ [] → forallb isFieldChar name = true → cleanValue v →
  lintLine n (fieldLine name v) t = lintField n name v t.
Proof.
  intros Hname Hchars Hv.
  destruct (fieldMatch_fieldLine name v Hname Hchars Hv) as [Ht Hm].
  rewrite (lintLine_field n _ name (Some v)) by (by rewrite Ht).
  change (default [] (Some v)) with v. destruct Hv as (_ & -> & _).
  destruct name as [|c name]; [done|].
  cbn in Hchars. apply andb_prop in Hchars as [Hc _].
  unfold fieldLine. cbn [app].
  by rewrite lintIndent_column0 by (by apply fieldChar_column0).
Qed.

Lemma lintLine_example n t :
  lintLine n (str "EXAMPLE") t = lintExample n t.
Proof. reflexivity. Qed.

(** The field branch inside an activity, for a field the activity
    allows. *)
Ltac field_eval Hact :=
  unfold lintField; rewrite ?Hact; lint_eval; rewrite ?andb_false_r;
  lint_eval;
  unfold lintActivityField; lint_eval; rewrite ?Hact; lint_eval;
  unfold lintExerciseStructure, lintDialogueStructure; lint_eval.

Lemma lintExample_exercise n t :
  lint_currentActivity t = Some EXERCISE →
  lintExample n t
  = setPending (lastDialogueHadLine t) (pendingVocabWord t)
      (pendingExercisePrompt t) (Some n) t.
Proof. intros Hact. unfold lintExample. rewrite Hact. by lint_eval. Qed.

Lemma lintField_prompt n v t :
  lint_currentActivity t = Some EXERCISE → v ≠ [] →
  lintField n (str "PROMPT") v t
  = setPending (lastDialogueHadLine t) (pendingVocabWord t) (Some n) None t.
Proof.
  intros Hact Hv. destruct v as [|c v]; [done|]. by field_eval Hact.
Qed.

Lemma lintField_promptT n v t :
  lint_currentActivity t = Some EXERCISE →
  lintField n (str "PROMPT_T") v t = t.
Proof. intros Hact. by field_eval Hact. Qed.

Lemma lintField_response n v t k :
  lint_currentActivity t = Some EXERCISE → v ≠ [] →
  pendingExercisePrompt t = Some k →
  lintField n (str "RESPONSE") v t
  = setPending (lastDialogueHadLine t) (pendingVocabWord t) None
      (pendingExerciseExample t) t.
Proof.
  intros Hact Hv Hp. destruct v as [|c v]; [done|].
  field_eval Hact. rewrite Hp. by lint_eval.
Qed.

Lemma lintField_responseT n v t :
  lint_currentActivity t = Some EXERCISE →
  lintField n (str "RESPONSE_T") v t = t.
Proof. intros Hact. by field_eval Hact. Qed.

Lemma cleanValue_nonempty v : cleanValue v → v ≠ [].
Proof. by intros (? & _). Qed.

(** The lines of an item leave the linter as they found it. *)
Lemma lint_item n it l h hl base :
  cleanItem it →
  lintLines n (itemFields fieldLine (str "EXAMPLE") it)
    (quietState (Some EXERCISE) l h hl base)
  = quietState (Some EXERCISE) l h hl base.
Proof.
  intros (Hp & Hpt & Hr & Hrt).
  pose proof (cleanValue_nonempty _ Hp) as Np.
  pose proof (cleanValue_nonempty _ Hr) as Nr.
  destruct it as [p pt r rt ex]; cbn in Hp, Hpt, Hr, Hrt, Np, Nr.
  unfold itemFields; cbn [ei_isExample ei_prompt ei_promptTranslation
                            ei_response ei_responseTranslation].
  destruct ex, pt as [t|], rt as [u|];
    cbn [optionalField app lintLines];
    rewrite ?lintLine_example, ?lintLine_fieldLine by done;
    rewrite ?lintExample_exercise by reflexivity;
    rewrite lintField_prompt by first [reflexivity | assumption];
    rewrite ?lintField_promptT by reflexivity;
    (erewrite lintField_response; [|reflexivity|assumption|reflexivity]);
    rewrite ?lintField_responseT by reflexivity;
    reflexivity.
Qed.

Lemma lint_items items : ∀ n l h hl base,
  Forall cleanItem items →
  lintLines n (exerciseLines items) (quietState (Some EXERCISE) l h hl base)
  = quietState (Some EXERCISE) l h hl base.
Proof.
  unfold exerciseLines.
  induction items as [|it items IH]; intros n l h hl base Hall; [done|].
  apply Forall_cons in Hall as [Hit Hall].
  cbn [fmap list_fmap concat]. rewrite lintLines_app.
  rewrite lint_item by done. by apply IH.
Qed.

Lemma lintField_vocab n v t :
  lint_currentActivity t = Some DIALOGUE → pendingVocabWord t = None →
  lintField n (str "VOCAB") v t = setPendingVocabWord (Some n) t.
Proof. intros Hact Hp. field_eval Hact. rewrite Hp. by lint_eval. Qed.

Lemma lintField_vocabT n v t k :
  lint_currentActivity t = Some DIALOGUE → pendingVocabWord t = Some k →
  lintField n (str "VOCAB_T") v t = setPendingVocabWord None t.
Proof. intros Hact Hp. field_eval Hact. rewrite Hp. by lint_eval. Qed.

Lemma lintField_speaker n v t :
  lint_currentActivity t = Some DIALOGUE → pendingVocabWord t = None →
  lintField n (str "SPEAKER") v t = t.
Proof.
  intros Hact Hp. field_eval Hact. unfold flushPendingVocab. by rewrite Hp.
Qed.

Lemma lintField_line n v t :
  lint_currentActivity t = Some DIALOGUE → pendingVocabWord t = None →
  lintField n (str "LINE") v t
  = setPending true None (pendingExercisePrompt t)
      (pendingExerciseExample t) t.
Proof.
  intros Hact Hp. field_eval Hact. unfold flushPendingVocab.
  lint_eval. by rewrite Hp.
Qed.

Lemma lintField_lineT n v t :
  lint_currentActivity t = Some DIALOGUE → lastDialogueHadLine t = true →
  lintField n (str "LINE_T") v t = t.
Proof. intros Hact Hl. field_eval Hact. rewrite Hl. by lint_eval. Qed.

Lemma lintField_notes n v t :
  lint_currentActivity t = Some DIALOGUE →
  lintField n (str "NOTES") v t = t.
Proof. intros Hact. by field_eval Hact. Qed.

(** The lines of a vocabulary entry with a definition leave the linter
    as they found it. *)
Lemma lint_entries es : ∀ n l h hl base,
  Forall cleanEntry es → Forall (λ e, definition e ≠ []) es →
  lintLines n (concat (entryFields fieldLine <$> es))
    (quietState (Some DIALOGUE) l h hl base)
  = quietState (Some DIALOGUE) l h hl base.
Proof.
  induction es as [|e es IH]; intros n l h hl base Hall Hdef; [done|].
  apply Forall_cons in Hall as [[Hw Hd] Hall].
  apply Forall_cons in Hdef as [He Hdef].
  destruct Hd as [Hd | Hd]; [done|].
  cbn [fmap list_fmap concat]. rewrite lintLines_app.
  rewrite <- (IH (n + 2)%Z l h hl base Hall Hdef) at 2.
  replace (n + Z.of_nat (length (entryFields fieldLine e)))%Z
    with (n + 2)%Z.
  2:{ unfold entryFields. by destruct (definition e). }
  f_equal. unfold entryFields.
  destruct (definition e) as [|c d] eqn:Ed; [done|].
  cbn [optionalText lintLines].
  rewrite !lintLine_fieldLine by done.
  rewrite lintField_vocab by reflexivity.
  erewrite lintField_vocabT; reflexivity.
Qed.

(** The lines of a dialogue line leave the linter between two lines. *)
Lemma lint_dialogue_line n dl l h hl base :
  cleanLine dl → tidyLine dl →
  lintLines n (lineFields fieldLine dl)
    (quietState (Some DIALOGUE) l h hl base)
  = quietState (Some DIALOGUE) l h true base.
Proof.
  intros (Hs & Ht & Htr & Hn & _ & Hv) Htidy.
  unfold lineFields. rewrite lintLines_app, lint_entries by done.
  destruct dl as [sp t tr nt v]; cbn in Hs, Ht, Htr, Hn |- *.
  destruct sp as [s|], tr as [|c tr], nt as [x|];
    cbn [optionalField optionalText app lintLines];
    try (destruct Htr as [Htr | Htr]; [done|]);
    rewrite !lintLine_fieldLine by done;
    rewrite ?lintField_speaker by reflexivity;
    rewrite lintField_line by reflexivity;
    rewrite ?lintField_lineT by reflexivity;
    rewrite ?lintField_notes by reflexivity;
    reflexivity.
Qed.

Lemma lint_dialogue ls : ∀ n l h hl base,
  Forall cleanLine ls → Forall tidyLine ls →
  ∃ hl', lintLines n (dialogueLines ls)
           (quietState (Some DIALOGUE) l h hl base)
         = quietState (Some DIALOGUE) l h hl' base.
Proof.
  unfold dialogueLines.
  induction ls as [|dl ls IH]; intros n l h hl base Hall Htidy;
    [by exists hl|].
  apply Forall_cons in Hall as [Hdl Hall].
  apply Forall_cons in Htidy as [Htl Htidy].
  cbn [fmap list_fmap concat]. rewrite lintLines_app.
  rewrite lint_dialogue_line by done. by apply IH.
Qed.

Lemma lint_module_marker :
  lintLine 1 (str "$MODULE") lintInit
  = quietState None None true false (setSection true true true None None lintInit).
Proof. by vm_compute. Qed.

(** A plain header field that has not been seen is recorded and draws no
    diagnostic. *)
Lemma lint_header_field n name v hl base :
  name ∈ plainHeaderFields → cleanValue v →
  seenHeader base !! name = None →
  lintLine n (fieldLine name v) (quietState None None true hl base)
  = quietState None None true hl
      (setSeen (<[name := n]> (seenHeader base)) (seenVoiceSpeaker base) base).
Proof.
  intros Hname Hv Hseen. unfold plainHeaderFields in Hname.
  repeat (apply elem_of_cons in Hname as [-> | Hname]);
    [..|by apply elem_of_nil in Hname];
    rewrite lintLine_fieldLine by done;
    unfold lintField; lint_eval;
    unfold lintHeaderField; lint_eval; rewrite Hseen; by lint_eval.
Qed.

(** The header lines leave the linter in the header, with nothing to
    say. *)
Lemma lint_moduleHeader doc ttl desc img target home :
  cleanValue doc → cleanValue ttl → cleanOption desc → cleanOption img →
  cleanValue target → cleanValue home →
  ∃ base,
    lintLines 1 (moduleHeader doc ttl desc img target home) lintInit
    = quietState None None true false base
    ∧ headerComplete base.
Proof.
  intros Hdoc Httl Hdesc Himg Htarget Hhome. unfold moduleHeader.
  destruct desc as [d|], img as [i|];
    cbn [optionalField app lintLines];
    rewrite lint_module_marker;
    repeat (rewrite lint_header_field;
            [|unfold plainHeaderFields; set_solver|done|by vm_compute]);
    (eexists; split; [reflexivity|]);
    repeat split; try (by vm_compute); vm_compute; by eexists.
Qed.

(** The lines of an activity inside a lesson. *)
Lemma lint_activity n a act l0 h hl base :
  cleanActivity a → tidyActivity a →
  ∃ hl', lintLines n (activityLines a) (quietState act (Some l0) h hl base)
         = quietState (Some (bodyKind (wa_body a))) (Some l0) false hl' base.
Proof.
  intros [Htitle Hbody] [Htt Htb]. unfold activityLines. cbn [lintLines].
  rewrite lint_activity_marker by done.
  destruct (wa_body a) as [items|ls]; cbn in *.
  - exists false. by apply lint_items.
  - by apply lint_dialogue.
Qed.

Lemma lint_activities acts : ∀ n act l0 h hl base,
  Forall cleanActivity acts → Forall tidyActivity acts →
  ∃ act' h' hl',
    lintLines n (concat (activityLines <$> acts))
      (quietState act (Some l0) h hl base)
    = quietState act' (Some l0) h' hl' base.
Proof.
  induction acts as [|a acts IH]; intros n act l0 h hl base Hall Htidy;
    [by exists act, h, hl|].
  apply Forall_cons in Hall as [Ha Hall].
  apply Forall_cons in Htidy as [Hta Htidy].
  cbn [fmap list_fmap concat]. rewrite lintLines_app.
  destruct (lint_activity n a act l0 h hl base Ha Hta) as [hl' ->].
  by apply IH.
Qed.

Lemma lint_lesson n l act lo h hl base :
  cleanLesson l → tidyLesson l →
  ∃ act' h' hl',
    lintLines n (lessonLines l) (quietState act lo h hl base)
    = quietState act' (Some n) h' hl' base.
Proof.
  intros [Htitle Hacts] [Htt Hta]. unfold lessonLines. cbn [lintLines].
  rewrite lint_lesson_marker by done. by apply lint_activities.
Qed.

Lemma lint_lessons ls : ∀ n act lo h hl base,
  Forall cleanLesson ls → Forall tidyLesson ls →
  ∃ act' lo' h' hl',
    lintLines n (concat (lessonLines <$> ls)) (quietState act lo h hl base)
    = quietState act' lo' h' hl' base.
Proof.
  induction ls as [|l ls IH]; intros n act lo h hl base Hall Htidy;
    [by exists act, lo, h, hl|].
  apply Forall_cons in Hall as [Hl Hall].
  apply Forall_cons in Htidy as [Htl Htidy].
  cbn [fmap list_fmap concat]. rewrite lintLines_app.
  destruct (lint_lesson n l act lo h hl base Hl Htl) as (a' & h' & hl' & ->).
  by apply IH.
Qed.

(** The checks at the end of the text find nothing. *)
Lemma lintEnd_quiet act lo h hl base :
  headerComplete base → diags (lintEnd (quietState act lo h hl base)) = [].
Proof.
  intros (Hd & Hm & [? H1] & [? H2] & [? H3] & [? H4]).
  unfold lintEnd. lint_eval. rewrite Hm. lint_eval.
  rewrite H1, H2, H3, H4. lint_eval. rewrite ?Hm. lint_eval. exact Hd.
Qed.

(** X21.  The linter has nothing to say about a module written as
    documented.  For the module texts of the round trip, in which moreover
    no title starts with a colon and every vocabulary entry has its
    definition, the linter returns no diagnostic at all. *)
Theorem written_module_lints_clean (doc ttl : jsstring)
    (desc img : option jsstring) (target home : jsstring)
    (ls : list WrittenLesson) :
  cleanValue doc → cleanValue ttl → cleanOption desc → cleanOption img →
  cleanValue target → cleanValue home →
  Forall cleanLesson ls → Forall tidyLesson ls →
  lintModuleText (join [NEWLINE] (moduleLines doc ttl desc img target home ls))
  = [].
Proof.
  intros Hdoc Httl Hdesc Himg Htarget Hhome Hls Htidy.
  unfold lintModuleText, lintCollect, moduleLines.
  rewrite splitOn_join_lines; [|done|].
  2:{ apply Forall_app. split; [by apply moduleHeader_oneLine|].
      revert Hls. apply concat_oneLine. apply lessonLines_oneLine. }
  rewrite lintLines_app.
  destruct (lint_moduleHeader doc ttl desc img target home)
    as (base & -> & Hbase); [done..|].
  match goal with
  | |- context [lintLines ?n _ (quietState None None true false base)] =>
      destruct (lint_lessons ls n None None true false base Hls Htidy)
        as (a' & lo' & h' & hl' & ->)
  end.
  by rewrite lintEnd_quiet.
Qed.

End QuietLinter.

Lemma written_module_lints_clean_witness :
  lintModuleText
    (join [NEWLINE]
       (moduleLines (str "doc-1") (str "Saludos") (Some (str "First steps"))
          None (str "es") (str "en") tidyLessons))
  = [].
Proof.
  apply (written_module_lints_clean (str "doc-1") (str "Saludos")
           (Some (str "First steps")) None (str "es") (str "en")
           tidyLessons).
  all: try (unfold cleanValue, cleanOption; written).
  - unfold tidyLessons, cleanLesson, cleanActivity, cleanBody, tidyDialogue,
      sampleItems; cbn.
    written.
  - unfold tidyLessons, tidyLesson, tidyActivity, tidyBody, tidyLine,
      tidyTitle, tidyDialogue; cbn.
    repeat first [apply Forall_cons_2 | apply Forall_nil_2 | split
                 | exact I | discriminate].
Defined.

(** ** The mandatory fields, from the text *)

(** A header field with one of the names of [f] fills the slot of [f]. *)
Lemma handleHeaderField_sets f field v st :
  has (fieldNames f) field = true →
  ∃ st', handleHeaderField field v st = Some st'
         ∧ slot f (module st') = Some v.
Proof.
  intros Hin%has_true_elem.
  destruct f; cbn in Hin;
    repeat match goal with
           | E : _ ∈ _ :: _ |- _ => apply elem_of_cons in E as [->|E]
           | E : _ ∈ [] |- _ => by apply elem_of_nil in E
           end;
    by eexists.
Qed.

Lemma slot_headerOf f a b :
  headerOf a = headerOf b → slot f (module a) = slot f (module b).
Proof. unfold headerOf. intros [= ? ? ? ? ? ? ? ?]. by destruct f. Qed.

Section HeaderFields.
Context `{UnicodeCase}.

(** A marker line that does not end the header changes nothing. *)
Lemma handleSectionMarker_stays raw st :
  leavesHeader raw = false →
  startsWith (trimEnd raw) [DOLLAR] = true →
  handleSectionMarker (trimEnd raw) st = st.
Proof.
  unfold leavesHeader, handleSectionMarker. intros Hl Hd. rewrite Hd in Hl.
  destruct (markerMatch (trimEnd raw)) as [[marker ttl]|]; [|done].
  unfold activityOfMarker in Hl.
  destruct (streq marker (str "MODULE")); [done|].
  destruct (streq marker (str "DIALOGUE")); [done|].
  destruct (streq marker (str "EXERCISE")); [done|].
  destruct (streq marker (str "GRAMMAR")); [done|].
  destruct (streq marker (str "CHAT")); [done|].
  by rewrite Hl.
Qed.

(** While the parser is in the header, a line that does not end it
    leaves the parser there, and gives the slot of [f] the value it has
    for [f], if any. *)
Lemma processLine_header_slot f raw st :
  currentLesson st = None → currentActivity st = None →
  leavesHeader raw = false →
  currentLesson (processLine raw st) = None
  ∧ currentActivity (processLine raw st) = None
  ∧ pm_lessons (module (processLine raw st)) = pm_lessons (module st)
  ∧ slot f (module (processLine raw st))
    = match fieldValueOf f raw with
      | Some v => Some v
      | None => slot f (module st)
      end.
Proof.
  intros Hl Ha Hh. unfold fieldValueOf.
  destruct (fieldMatch (trimEnd raw)) as [[name v]|] eqn:Hm.
  - rewrite (processLine_field _ _ _ _ Hm). unfold handleField.
    rewrite Ha, Hl.
    destruct (has (fieldNames f) name) eqn:Hn.
    + destruct (handleHeaderField_sets f name (orStr v []) st Hn)
        as (st' & E & Hs).
      rewrite E.
      destruct (handleHeaderField_rest _ _ _ _ E) as (Hm' & Hl' & Ha').
      by rewrite Hl', Ha', Hm', Hl, Ha.
    + destruct (handleHeaderField name (orStr v []) st) as [st'|] eqn:E;
        [|done].
      destruct (handleHeaderField_rest _ _ _ _ E) as (Hm' & Hl' & Ha').
      rewrite Hl', Ha', Hm', Hl, Ha.
      by rewrite (handleHeaderField_slot f _ _ _ _ Hn E).
  - destruct (startsWith (trimEnd raw) [DOLLAR]) eqn:Hd.
    + rewrite processLine_marker, handleSectionMarker_stays by done.
      by rewrite Hl, Ha.
    + unfold processLine, inExercise. rewrite Hd, Hm, Ha, andb_false_r.
      destruct (startsWith (trimStart (trimEnd raw)) [HASH]); by rewrite Hl, Ha.
Qed.

(** The slot of a mandatory field after the lines of a text, read by a
    parser that is in the header: the value the header part of the lines
    gives to the field, or else the value the slot had. *)
Lemma processLines_header_slot f lines : ∀ st,
  lessonsStarted st → currentLesson st = None → currentActivity st = None →
  slot f (module (fold_left (λ st l, processLine l st) lines st))
  = match headerValue f lines with
    | Some v => Some v
    | None => slot f (module st)
    end.
Proof.
  unfold headerValue.
  induction lines as [|raw lines IH]; intros st Hk Hl Ha; [done|].
  cbn [fold_left headerPart].
  destruct (leavesHeader raw) eqn:Hh.
  - cbn. destruct (processLine_lessons raw st Hk) as (Hk' & Hopen & _).
    apply leavesHeader_sectionOf in Hh as Hs.
    rewrite (slot_headerOf f _ (processLine raw st))
      by (apply processLines_header; auto).
    unfold leavesHeader in Hh.
    destruct (startsWith (trimEnd raw) [DOLLAR]) eqn:Hd; [|done].
    rewrite processLine_marker by done. apply handleSectionMarker_slot.
  - destruct (processLine_header_slot f raw st Hl Ha Hh)
      as (Hl' & Ha' & Hm' & Hs).
    rewrite IH; [|intros _; rewrite Hm'; by apply Hk|done|done].
    rewrite omap_cons, Hs.
    destruct (fieldValueOf f raw) as [v|]; [|done].
    change (option_list (Some v)) with [v]. cbn [app].
    rewrite last_cons_or. by destruct (last _).
Qed.

(** The slot of a mandatory field at the end of the input is the value
    the header of the text gives to the field. *)
Lemma parseLines_slot f lines :
  slot f (module (parseLines lines)) = headerValue f lines.
Proof.
  unfold parseLines.
  rewrite finalizeLesson_slot, finalizeActivity_module.
  rewrite processLines_header_slot by done.
  destruct (headerValue f lines); [done|by destruct f].
Qed.

(** C3 (as amended).  The parser fails on a text that leaves a mandatory
    header field without a value: a field no line of the text names, and
    more generally a field that no line of the header (the lines before
    the first lesson or activity marker) names or that the last such line
    gives the empty value.  The error then names the first field left
    without a value, in the order document id, title, target language,
    home language: it names a field left without a value that is the
    given one or is validated before it, and it names exactly the given
    one when the fields validated before it have a value.  A text that
    leaves none of the four without a value is accepted.  The legacy name
    of the home-language field is handled exactly as the modern one, so
    either satisfies the requirement. *)
Theorem missing_header_field_named (content : jsstring) (f : MandatoryField) :
  (fieldAbsent f content = true → leftOut f content = true)
  ∧ (leftOut f content = true →
     (∃ g, parseModuleFile content = inl (missingMessage g)
           ∧ leftOut g content = true
           ∧ (g = f ∨ checkedBefore g f = true))
     ∧ ((∀ g, checkedBefore g f = true → leftOut g content = false) →
        parseModuleFile content = inl (missingMessage f)))
  ∧ ((∀ g, leftOut g content = false) →
     ∃ m, parseModuleFile content = inr m)
  ∧ (∀ v st,
       handleField (str "USER_LANG_G") v st
       = handleField (str "HOME_LANG_G") v st).
Proof.
  assert (∀ g, truthy (slot g (module (parseLines (splitOn NEWLINE content))))
               = negb (leftOut g content)) as Hslot.
  { intros g. unfold leftOut. by rewrite parseLines_slot, negb_involutive. }
  split; [|split; [|split; [|reflexivity]]]; cycle 2.
  { intros Hall. unfold parseModuleFile, validateModule.
    pose proof (Hslot DocId) as H1. pose proof (Hslot Title) as H2.
    pose proof (Hslot TargetLang) as H3. pose proof (Hslot HomeLang) as H4.
    rewrite Hall in H1, H2, H3, H4. cbn [slot negb] in H1, H2, H3, H4.
    rewrite H1, H2, H3, H4. by eexists. }
  - intros Ha. unfold leftOut.
    by rewrite <- parseLines_slot, (fieldAbsent_slot f content Ha).
  - intros Hf. split.
    + assert (∃ g, leftOut g content = true
                   ∧ (g = f ∨ checkedBefore g f = true)
                   ∧ ∀ g', checkedBefore g' g = true →
                           leftOut g' content = false) as (g & Hg & Hor & Hb).
      { destruct (leftOut DocId content) eqn:E0.
        { exists DocId. split; [done|]. split; [destruct f; try congruence; (by left) || (by right)|].
          by intros []. }
        destruct (leftOut Title content) eqn:E1.
        { exists Title. split; [done|]. split; [destruct f; try congruence; (by left) || (by right)|].
          by intros []. }
        destruct (leftOut TargetLang content) eqn:E2.
        { exists TargetLang. split; [done|].
          split; [destruct f; try congruence; (by left) || (by right)|]. by intros []. }
        exists HomeLang. destruct f; try congruence.
        split; [done|]. split; [by left|]. by intros []. }
      exists g. split; [|done].
      unfold parseModuleFile. apply validateModule_first_missing.
      * by rewrite Hslot, Hg.
      * intros g' Hg'. by rewrite Hslot, Hb.
    + intros Hbefore. unfold parseModuleFile.
      apply validateModule_first_missing.
      * by rewrite Hslot, Hf.
      * intros g Hg. by rewrite Hslot, Hbefore.
Qed.

End HeaderFields.

Lemma missing_header_field_named_witness :
  fieldAbsent HomeLang noHomeLangText = true
  ∧ parseModuleFile noHomeLangText
    = inl (str "Missing HOME_LANG_G in .module file")
  ∧ match parseModuleFile legacyHomeLangText with
    | inr m => homeLang_G m = str "en"
    | inl _ => False
    end.
Proof.
  split; [reflexivity|]. split; [|by vm_compute].
  destruct (missing_header_field_named noHomeLangText HomeLang)
    as (Habsent & Hmissing & _ & _).
  apply (Hmissing (Habsent eq_refl)).
  intros g Hg. by destruct g; vm_compute.
Defined.

(** C3 (as stated) fails: in a header with the line [TITLE:] and without
    a target-language line, the target language is the one field no line
    names, yet the error names the title, whose line gives it no value. *)
Lemma missing_header_field_named_counterexample :
  fieldAbsent TargetLang emptyTitleText = true
  ∧ fieldAbsent Title emptyTitleText = false
  ∧ parseModuleFile emptyTitleText = inl (str "Missing TITLE in .module file")
  ∧ missingMessage TargetLang = str "Missing TARGET_LANG_G in .module file"
  ∧ ¬ namesAbsentField.
Proof.
  repeat split; try reflexivity.
  intros Hnames. specialize (Hnames emptyTitleText TargetLang eq_refl).
  vm_compute in Hnames. discriminate.
Qed.
